(** * mt: SWIFT MT message parsing and field-format validation

    A shallow embedding of the Go packages [internal/pattern],
    [internal/message] and of the header and statement-line decoders of
    package [mt], with the properties of the specification stated against
    them.

    Conventions of the embedding.
    - A Go [string] is a sequence of bytes: [list ascii].
    - A Go [int] and a [rune] are [Z]; the target is a 64-bit platform and
      the places where an [int] can leave the 64-bit range are wrapped
      with [wrap64].
    - A function that can panic returns an [outcome]; a loop that the
      source does not bound takes fuel and answers [OutOfFuel] when it is
      used up.
    - A Go [error] is a value of an inductive type that keeps the
      structure of the message ([fmt.Errorf] with [%w]) and drops its
      wording. *)

From Stdlib Require Import ZArith Ascii String List Bool Lia.
From stdpp Require Import base option list gmap strings.
Import ListNotations.

Set Warnings "-register-all".

Local Open Scope Z_scope.
Local Open Scope list_scope.

(** ** Go values *)

Module Go.

Definition str := list ascii.

(** A string literal of the source. *)
Abbreviation lit := list_ascii_of_string.

Definition rune := Z.

Definition byteZ (c : ascii) : Z := Z.of_N (N_of_ascii c).

Definition len (s : str) : Z := Z.of_nat (length s).

(** [len] of a slice. *)
Definition len0 {A} (l : list A) : Z := Z.of_nat (length l).

(** [int] arithmetic on a 64-bit platform wraps around. *)
Definition wrap64 (z : Z) : Z := (z + 2 ^ 63) mod 2 ^ 64 - 2 ^ 63.

Definition MaxInt64 : Z := 2 ^ 63 - 1.
Definition MinInt64 : Z := - 2 ^ 63.

(** What a call gives back: a value, a run-time panic (nil function,
    index or slice out of range), or no answer within the fuel. *)
Inductive outcome (A : Type) : Type :=
| Returns (a : A)
| Panics
| OutOfFuel.

Arguments Returns {A} a.
Arguments Panics {A}.
Arguments OutOfFuel {A}.

#[global] Instance outcome_ret : MRet outcome := @Returns.
#[global] Instance outcome_bind : MBind outcome := fun A B k m =>
  match m with
  | Returns a => k a
  | Panics => Panics
  | OutOfFuel => OutOfFuel
  end.

(** [s[lo:]], [s[lo:hi]] and [s[i]]: out of range is a panic. *)
Definition sliceFrom (s : str) (lo : Z) : outcome str :=
  if (0 <=? lo) && (lo <=? len s) then Returns (drop (Z.to_nat lo) s)
  else Panics.

Definition slice (s : str) (lo hi : Z) : outcome str :=
  if (0 <=? lo) && (lo <=? hi) && (hi <=? len s)
  then Returns (take (Z.to_nat (hi - lo)) (drop (Z.to_nat lo) s))
  else Panics.

Definition index (s : str) (i : Z) : outcome ascii :=
  if (0 <=? i) && (i <? len s)
  then match s !! Z.to_nat i with Some c => Returns c | None => Panics end
  else Panics.

Definition streq (a b : str) : bool := bool_decide (a = b).

(** The string ["\n"]. *)
Definition newline : str := ["010"%char].

(** [strings.HasPrefix] and [strings.HasSuffix]. *)
Fixpoint HasPrefix (s pre : str) {struct pre} : bool :=
  match pre with
  | [] => true
  | p :: pre' =>
      match s with
      | c :: s' => Ascii.eqb c p && HasPrefix s' pre'
      | [] => false
      end
  end.

Definition HasSuffix (s suf : str) : bool := HasPrefix (rev s) (rev suf).

(** [strings.Split] for a separator that is not empty: the pieces between
    the occurrences of [sep], found left to right without overlap.
    [skip] counts the bytes of a separator still to be passed. *)
Fixpoint splitFrom (sep : str) (skip : nat) (s : str) : list str :=
  match s with
  | [] => [[]]
  | c :: t =>
      match skip with
      | S k => splitFrom sep k t
      | O =>
          if HasPrefix s sep then [] :: splitFrom sep (length sep - 1) t
          else match splitFrom sep 0 t with
               | piece :: pieces => (c :: piece) :: pieces
               | [] => [[c]]
               end
      end
  end.

Definition Split (s sep : str) : list str := splitFrom sep 0 s.

(** *** UTF-8 decoding: [utf8.DecodeRuneInString] *)

Definition RuneError : rune := 65533.

Definition DecodeRuneInString (s : str) : rune * Z :=
  match s with
  | [] => (RuneError, 0)
  | c0 :: t0 =>
      let s0 := byteZ c0 in
      if s0 <? 128 then (s0, 1)
      else if (s0 <? 194) || (244 <? s0) then (RuneError, 1)
      else
        let sz := if s0 <? 224 then 2 else if s0 <? 240 then 3 else 4 in
        let lo := if s0 =? 224 then 160 else if s0 =? 240 then 144 else 128 in
        let hi := if s0 =? 237 then 159 else if s0 =? 244 then 143 else 191 in
        if len s <? sz then (RuneError, 1)
        else
          match t0 with
          | [] => (RuneError, 1)
          | c1 :: t1 =>
              let s1 := byteZ c1 in
              if (s1 <? lo) || (hi <? s1) then (RuneError, 1)
              else if sz <=? 2
              then (Z.lor (Z.shiftl (Z.land s0 31) 6) (Z.land s1 63), 2)
              else
                match t1 with
                | [] => (RuneError, 1)
                | c2 :: t2 =>
                    let s2 := byteZ c2 in
                    if (s2 <? 128) || (191 <? s2) then (RuneError, 1)
                    else if sz <=? 3
                    then (Z.lor (Z.lor (Z.shiftl (Z.land s0 15) 12)
                                       (Z.shiftl (Z.land s1 63) 6))
                                (Z.land s2 63), 3)
                    else
                      match t2 with
                      | [] => (RuneError, 1)
                      | c3 :: _ =>
                          let s3 := byteZ c3 in
                          if (s3 <? 128) || (191 <? s3) then (RuneError, 1)
                          else (Z.lor (Z.lor (Z.lor
                                  (Z.shiftl (Z.land s0 7) 18)
                                  (Z.shiftl (Z.land s1 63) 12))
                                  (Z.shiftl (Z.land s2 63) 6))
                                  (Z.land s3 63), 4)
                      end
                end
          end
  end.

(** The runes a [for _, r := range s] loop visits, in order. Every step
    passes at least one byte, so the length of [s] is fuel enough. *)
Fixpoint runesFrom (fuel : nat) (s : str) : list rune :=
  match fuel with
  | O => []
  | S fuel' =>
      match s with
      | [] => []
      | _ :: _ =>
          let '(r, w) := DecodeRuneInString s in
          r :: runesFrom fuel' (drop (Z.to_nat w) s)
      end
  end.

Definition runes (s : str) : list rune := runesFrom (length s) s.

(** *** [strconv.Atoi] *)

Inductive NumError := ErrSyntax | ErrRange.

Definition isDigitByte (c : ascii) : bool :=
  (48 <=? byteZ c) && (byteZ c <=? 57).

Definition decimalValue (s : str) : Z :=
  fold_left (fun n c => n * 10 + (byteZ c - 48)) s 0.

(** The number, and the error if there is one. On a syntax error the
    number is 0; out of the [int] range it is the nearest bound. *)
Definition Atoi (s : str) : Z * option NumError :=
  let '(neg, digits) :=
    match s with
    | c :: t =>
        if Ascii.eqb c "-" then (true, t)
        else if Ascii.eqb c "+" then (false, t)
        else (false, s)
    | [] => (false, [])
    end in
  match digits with
  | [] => (0, Some ErrSyntax)
  | _ :: _ =>
      if forallb isDigitByte digits then
        let n := decimalValue digits in
        if neg then
          if 2 ^ 63 <? n then (MinInt64, Some ErrRange) else (- n, None)
        else
          if MaxInt64 <? n then (MaxInt64, Some ErrRange) else (n, None)
      else (0, Some ErrSyntax)
  end.

End Go.

Import Go.

(** ** Package [internal/pattern/ast] *)

Module ast.

(** The types that implement [Node]. An [ast.Pattern] is its [Nodes]. *)
Inductive Node :=
| Pattern (Nodes : list Node)
| Literal (Value : str)
| Optional (node : Node)
| CharGroup (CharCount : Z) (CharCountStrict : bool) (CharSetKey : str)
| LineCountExpression (LineCount : Z) (node : Node)
| OrExpression (Left Right : Node).

End ast.

(** ** Package [internal/pattern]: the matchers *)

Module pattern.

(** *** Character sets *)

Definition CharSet := rune -> bool.

Definition numbers : CharSet := fun r => (48 <=? r) && (r <=? 57).
Definition alphaLower : CharSet := fun r => (97 <=? r) && (r <=? 122).
Definition alphaUpper : CharSet := fun r => (65 <=? r) && (r <=? 90).
Definition alphaNumericUpper : CharSet := fun r => numbers r || alphaUpper r.
Definition floats : CharSet := fun r => numbers r || (r =? 44).
Definition special : CharSet := fun r =>
  (r =? 47) || (r =? 45) || (r =? 63) || (r =? 58) || (r =? 40) || (r =? 41)
  || (r =? 46) || (r =? 44) || (r =? 39) || (r =? 43) || (r =? 123)
  || (r =? 125) || (r =? 10) || (r =? 32).
Definition any : CharSet := fun r =>
  alphaNumericUpper r || alphaLower r || floats r || special r.

(** The map [charSets]; a key that is missing gives the nil function. *)
Definition charSets (key : str) : option CharSet :=
  if streq key (lit "n") then Some numbers
  else if streq key (lit "a") then Some alphaUpper
  else if streq key (lit "c") then Some alphaNumericUpper
  else if streq key (lit "x") then Some any
  else if streq key (lit "d") then Some floats
  else None.

(** [charSetsKeys.contains]: the keys of [charSets] as runes. *)
Definition isCharSetSpecifier (r : rune) : bool :=
  (r =? 110) || (r =? 97) || (r =? 99) || (r =? 120) || (r =? 100).

(** *** Errors of a match *)

Inductive error :=
| ErrLiteral (chars : str)
    (* expected input to have literal %q *)
| ErrCount (count : Z) (charSetKey : str) (got : Z)
    (* expected %d characters within '%s' group, got %d *)
| ErrLine (line : Z) (cause : error)
    (* line %d: %w *)
| ErrLineIncomplete (line : Z)
    (* line %d: incomplete match *)
| ErrOr (left right : option error)
    (* input invalid for or: left: %s, right: %s *)
| ErrInputInvalid (cause : error)
    (* input invalid: %w *)
| ErrIncomplete.
    (* incomplete match *)

(** *** The matcher tree *)

Record CharGroup := {
  charSetKey : str;
  CharSetOf : option CharSet;
  Count : Z;
  CountStrict : bool
}.

(** The types that implement [ValidatesPartially]. The closure [InRange]
    of a [LinePattern] is [line >= firstLine && line < endLine]. *)
Inductive ValidatesPartially :=
| Literal (Chars : str)
| Optional (p : ValidatesPartially)
| Group (cg : CharGroup)
| Seq (ps : list ValidatesPartially)
| LinePattern (firstLine endLine : Z) (p : ValidatesPartially)
| OrPattern (Left Right : ValidatesPartially).

Definition Pattern := list ValidatesPartially.

Definition InRange (firstLine endLine line : Z) : bool :=
  (firstLine <=? line) && (line <? endLine).

(** What [ValidatePartial] returns: the rest of the input and the error. *)
Definition partial := (str * option error)%type.

Definition LiteralValidatePartial (Chars input : str) : outcome partial :=
  if HasPrefix input Chars then
    if len Chars <? len input
    then rest ← sliceFrom input (len Chars); Returns (rest, None)
    else Returns ([], None)
  else Returns (input, Some (ErrLiteral Chars)).

(** The first loop of [countAndStripFloats], over the runes of the input.
    [None] is the [return 0, input] inside the loop. *)
Fixpoint beforeDecimalLoop (count : Z) (rs : list rune)
    (charCount countBeforeDecimal : Z) : option (Z * Z) :=
  match rs with
  | [] => Some (charCount, countBeforeDecimal)
  | r :: rs' =>
      if countBeforeDecimal =? count then Some (charCount, countBeforeDecimal)
      else if r =? 44 then Some (charCount + 1, countBeforeDecimal)
      else if numbers r
      then beforeDecimalLoop count rs' (charCount + 1) (countBeforeDecimal + 1)
      else None
  end.

Fixpoint afterDecimalLoop (count : Z) (rs : list rune)
    (charCount countBeforeDecimal countAfterDecimal : Z) : Z * Z :=
  match rs with
  | [] => (charCount, countAfterDecimal)
  | r :: rs' =>
      if countBeforeDecimal + countAfterDecimal =? count
      then (charCount, countAfterDecimal)
      else if numbers r
      then afterDecimalLoop count rs' (charCount + 1) countBeforeDecimal
             (countAfterDecimal + 1)
      else (charCount + 1, countAfterDecimal)
  end.

Definition countAndStripFloats (cg : CharGroup) (input : str)
    : outcome (Z * str) :=
  match beforeDecimalLoop (Count cg) (runes input) 0 0 with
  | None => Returns (0, input)
  | Some (charCount, countBeforeDecimal) =>
      tail ← sliceFrom input charCount;
      let '(charCount', countAfterDecimal) :=
        afterDecimalLoop (Count cg) (runes tail) charCount
          countBeforeDecimal 0 in
      let finalCount := countBeforeDecimal + countAfterDecimal in
      if countAfterDecimal =? 0 then Returns (0, input)
      else rest ← sliceFrom input charCount'; Returns (finalCount, rest)
  end.

(** The loop of the default case of [countAndStripChars]; calling the nil
    [CharSet] panics. *)
Fixpoint countLoop (cg : CharGroup) (rs : list rune) (count : Z)
    : outcome Z :=
  match rs with
  | [] => Returns count
  | r :: rs' =>
      if count =? Count cg then Returns count
      else match CharSetOf cg with
           | None => Panics
           | Some charSet =>
               if negb (charSet r) then Returns count
               else countLoop cg rs' (count + 1)
           end
  end.

Definition countAndStripChars (cg : CharGroup) (input : str)
    : outcome (Z * str) :=
  if streq (charSetKey cg) (lit "d") then countAndStripFloats cg input
  else
    count ← countLoop cg (runes input) 0;
    rest ← sliceFrom input count;
    Returns (count, rest).

Definition CharGroupValidatePartial (cg : CharGroup) (input : str)
    : outcome partial :=
  '(count, newInput) ← countAndStripChars cg input;
  if (count <? Count cg) && CountStrict cg
  then Returns (newInput, Some (ErrCount (Count cg) (charSetKey cg) count))
  else Returns (newInput, None).

(** The decision of [OrPattern.ValidatePartial] once both sides have run. *)
Definition orSwitch (input : str) (left right : partial) : partial :=
  let '(restLeft, errLeft) := left in
  let '(restRight, errRight) := right in
  match errLeft, errRight with
  | None, Some _ => (restLeft, None)
  | Some _, None => (restRight, None)
  | None, None =>
      if len restLeft <? len restRight then (restLeft, None)
      else if len restRight <? len restLeft then (restRight, None)
      else (input, Some (ErrOr errLeft errRight))
  | Some _, Some _ => (input, Some (ErrOr errLeft errRight))
  end.

Section ValidatePartial.

Variable ValidatePartial : ValidatesPartially -> str -> Z -> outcome partial.

(** [Pattern.ValidatePartial]: the children in order, each on what the
    one before left. *)
Fixpoint seqLoop (ps : list ValidatesPartially) (input : str) (currLine : Z)
    : outcome partial :=
  match ps with
  | [] => Returns (input, None)
  | v :: ps' =>
      '(input', err) ← ValidatePartial v input currLine;
      match err with
      | Some e => Returns (input', Some e)
      | None => seqLoop ps' input' currLine
      end
  end.

(** The loop of [LinePattern.ValidatePartial] over the remaining [lines];
    [input] is the variable the loop shortens line by line. *)
Fixpoint lineLoop (firstLine endLine : Z) (p : ValidatesPartially)
    (lines : list str) (input : str) (currLine : Z)
    : outcome partial :=
  match lines with
  | [] => Returns (input, None)
  | line :: lines' =>
      if InRange firstLine endLine currLine then
        '(rest, err) ← ValidatePartial p line currLine;
        match err with
        | Some e => Returns (input, Some (ErrLine currLine e))
        | None =>
            if negb (streq rest [])
            then Returns (input, Some (ErrLineIncomplete currLine))
            else
              let newLineIdx := len line + 1 in
              input' ← (if newLineIdx <? len input
                         then sliceFrom input newLineIdx
                         else Returns []);
              lineLoop firstLine endLine p lines' input' (currLine + 1)
        end
      else Returns (input, None)
  end.

End ValidatePartial.

Fixpoint ValidatePartial (v : ValidatesPartially) (input : str) (currLine : Z)
    {struct v} : outcome partial :=
  match v with
  | Literal Chars => LiteralValidatePartial Chars input
  | Optional p =>
      '(rest, err) ← ValidatePartial p input currLine;
      match err with
      | Some _ => Returns (input, None)
      | None => Returns (rest, None)
      end
  | Group cg => CharGroupValidatePartial cg input
  | Seq ps => seqLoop ValidatePartial ps input currLine
  | LinePattern firstLine endLine p =>
      lineLoop ValidatePartial firstLine endLine p (Split input newline)
        input currLine
  | OrPattern Left Right =>
      '(restLeft, errLeft) ← ValidatePartial Left input currLine;
      if bool_decide (errLeft = None) && streq restLeft []
      then Returns (restLeft, None)
      else
        right ← ValidatePartial Right input currLine;
        Returns (orSwitch input (restLeft, errLeft) right)
  end.

(** [Pattern.Validate] *)
Fixpoint validateLoop (p : Pattern) (input : str) : outcome (str + error) :=
  match p with
  | [] => Returns (inl input)
  | pv :: p' =>
      '(input', err) ← ValidatePartial pv input 1;
      match err with
      | Some e => Returns (inr (ErrInputInvalid e))
      | None => validateLoop p' input'
      end
  end.

Definition Validate (p : Pattern) (input : str) : outcome (option error) :=
  r ← validateLoop p input;
  match r with
  | inr e => Returns (Some e)
  | inl rest => if negb (streq rest []) then Returns (Some ErrIncomplete)
                else Returns None
  end.

(** *** The lexer of the pattern language *)

Inductive tokenType :=
| tokenEOF
| tokenLiteral
| tokenOptionalLeftMeta
| tokenOptionalRightMeta
| tokenLineCountMeta
| tokenLineCount
| tokenCharCount
| tokenCharCountStrictMeta
| tokenCharSet
| tokenOrPatternMeta.

#[global] Instance tokenType_eq_dec : EqDecision tokenType.
Proof. solve_decision. Defined.

Record token := { typ : tokenType; val : str }.

Definition optionalLeftMetaRune : rune := 40.
Definition optionalRightMetaRune : rune := 41.
Definition lineCountMetaRune : rune := 42.
Definition charCountStrictMetaRune : rune := 33.
Definition orPatternMetaRune : rune := 124.

Definition eof : rune := -1.

(** The channel [tokens] is the list of the tokens sent so far: [parse]
    drains the channel before it looks at any token. *)
Record lexer := {
  input : str;
  pos : Z;
  start : Z;
  width : Z;
  tokens : list token
}.

Inductive stateFn :=
| lexToPattern
| lexNumber
| lexLiteral
| lexOptionalLeftMeta
| lexOptionalRightMeta
| lexOrPatternMeta
| lexItemLineCountMeta
| lexItemCharCountStrictMeta
| lexCharSet.

Section Lexer.

(** [unicode.IsDigit] above Latin-1 is a table of the Unicode version Go
    was built with; it is left open. *)
Variable isDigitAboveLatin1 : rune -> bool.

Definition IsDigit (r : rune) : bool :=
  if r <=? 255 then (48 <=? r) && (r <=? 57) else isDigitAboveLatin1 r.

Definition next (l : lexer) : outcome (lexer * rune) :=
  if len (input l) <=? pos l then Returns (l, eof)
  else
    tail ← sliceFrom (input l) (pos l);
    let '(r, w) := DecodeRuneInString tail in
    Returns ({| input := input l; pos := pos l + w; start := start l;
                width := w; tokens := tokens l |}, r).

Definition setPos (l : lexer) (p : Z) : lexer :=
  {| input := input l; pos := p; start := start l; width := width l;
     tokens := tokens l |}.

Definition backup (l : lexer) : lexer := setPos l (pos l - width l).

Definition emit (l : lexer) (t : tokenType) : outcome lexer :=
  v ← slice (input l) (start l) (pos l);
  Returns {| input := input l; pos := pos l; start := pos l;
             width := width l;
             tokens := tokens l ++ [{| typ := t; val := v |}] |}.

Definition lexMeta (l : lexer) (t : tokenType) (nextState : stateFn)
    : outcome (lexer * option stateFn) :=
  '(l, _) ← next l;
  l ← emit l t;
  Returns (l, Some nextState).

Fixpoint lexNumberLoop (fuel : nat) (l : lexer)
    : outcome (lexer * option stateFn) :=
  match fuel with
  | O => OutOfFuel
  | S fuel' =>
      '(l, r) ← next l;
      if IsDigit r then lexNumberLoop fuel' l
      else if r =? lineCountMetaRune then
        l ← emit (backup l) tokenLineCount;
        Returns (l, Some lexItemLineCountMeta)
      else if r =? charCountStrictMetaRune then
        l ← emit (backup l) tokenCharCount;
        Returns (l, Some lexItemCharCountStrictMeta)
      else if isCharSetSpecifier r then
        l ← emit (backup l) tokenCharCount;
        Returns (l, Some lexCharSet)
      else Returns (backup l, Some lexLiteral)
  end.

Fixpoint lexLiteralLoop (fuel : nat) (l : lexer) (digitsFound : Z)
    : outcome (lexer * option stateFn) :=
  match fuel with
  | O => OutOfFuel
  | S fuel' =>
      '(l, r) ← next l;
      if r =? eof then
        l ← emit l tokenLiteral; Returns (l, Some lexToPattern)
      else if r =? optionalLeftMetaRune then
        l ← emit (backup l) tokenLiteral;
        Returns (l, Some lexOptionalLeftMeta)
      else if r =? optionalRightMetaRune then
        l ← emit (backup l) tokenLiteral;
        Returns (l, Some lexOptionalRightMeta)
      else if r =? orPatternMetaRune then
        l ← emit (backup l) tokenLiteral;
        Returns (l, Some lexOrPatternMeta)
      else if (0 <? digitsFound)
              && ((r =? charCountStrictMetaRune) || isCharSetSpecifier r
                  || (r =? lineCountMetaRune)) then
        l ← emit (setPos l (pos l - (digitsFound + 1))) tokenLiteral;
        Returns (l, Some lexNumber)
      else if IsDigit r then lexLiteralLoop fuel' l (digitsFound + 1)
      else lexLiteralLoop fuel' l 0
  end.

(** One state function; [None] is the nil state that stops [run]. *)
Definition runState (fuel : nat) (state : stateFn) (l : lexer)
    : outcome (lexer * option stateFn) :=
  match state with
  | lexToPattern =>
      '(l, r) ← next l;
      if r =? eof then l ← emit l tokenEOF; Returns (l, None)
      else if IsDigit r then Returns (backup l, Some lexNumber)
      else if r =? optionalLeftMetaRune
      then Returns (backup l, Some lexOptionalLeftMeta)
      else if r =? optionalRightMetaRune
      then Returns (backup l, Some lexOptionalRightMeta)
      else if r =? orPatternMetaRune
      then Returns (backup l, Some lexOrPatternMeta)
      else Returns (backup l, Some lexLiteral)
  | lexNumber => lexNumberLoop fuel l
  | lexLiteral => lexLiteralLoop fuel l 0
  | lexOptionalLeftMeta =>
      '(l, _) ← next l;
      l ← emit l tokenOptionalLeftMeta;
      Returns (l, Some lexToPattern)
  | lexOptionalRightMeta => lexMeta l tokenOptionalRightMeta lexToPattern
  | lexOrPatternMeta => lexMeta l tokenOrPatternMeta lexToPattern
  | lexItemLineCountMeta => lexMeta l tokenLineCountMeta lexToPattern
  | lexItemCharCountStrictMeta =>
      lexMeta l tokenCharCountStrictMeta lexCharSet
  | lexCharSet =>
      '(l, _) ← next l;
      l ← emit l tokenCharSet;
      Returns (l, Some lexToPattern)
  end.

Fixpoint run (fuel : nat) (state : stateFn) (l : lexer) : outcome lexer :=
  match fuel with
  | O => OutOfFuel
  | S fuel' =>
      '(l, nextState) ← runState fuel' state l;
      match nextState with
      | None => Returns l
      | Some state' => run fuel' state' l
      end
  end.

Definition lex (fuel : nat) (inp : str) : outcome (list token) :=
  l ← run fuel lexToPattern
         {| input := inp; pos := 0; start := 0; width := 0; tokens := [] |};
  Returns (tokens l).

End Lexer.

(** *** The parser of the pattern language *)

Inductive parseError :=
| ErrUnclosedOptional
    (* unclosed optional expression *)
| ErrUnexpectedToken (v : str)
    (* unexpected token %s *)
| ErrIn (context : string) (cause : parseError).
    (* <context>: %w *)

Record parser := {
  ptokens : list token;
  currTokenIndex : Z;
  currToken : token
}.

Definition zeroToken : token := {| typ := tokenEOF; val := [] |}.

Definition tokenAt (ts : list token) (i : Z) : token :=
  nth (Z.to_nat i) ts zeroToken.

Definition pnext (p : parser) : parser :=
  if currTokenIndex p <? len0 (ptokens p) - 1 then
    {| ptokens := ptokens p;
       currTokenIndex := currTokenIndex p + 1;
       currToken := tokenAt (ptokens p) (currTokenIndex p + 1) |}
  else p.

Definition peek (p : parser) : outcome token :=
  let i := currTokenIndex p + 1 in
  if (0 <=? i) && (i <? len0 (ptokens p))
  then Returns (tokenAt (ptokens p) i) else Panics.

Definition pbackup (p : parser) : parser :=
  if 0 <? currTokenIndex p then
    {| ptokens := ptokens p;
       currTokenIndex := currTokenIndex p - 1;
       currToken := tokenAt (ptokens p) (currTokenIndex p - 1) |}
  else p.

(** What a parse function returns: the parser it leaves behind and the
    node, or the error. The node returned next to an error is dropped by
    every caller. *)
Definition parsed := (parser * (ast.Node + parseError))%type.

(** The loop of [parseCharGroup]; the fields of the node under
    construction are its arguments. A token the [switch] has no case for
    leaves everything as it is and the loop goes round again. *)
Fixpoint parseCharGroup (fuel : nat) (p : parser)
    (CharCount : Z) (CharCountStrict : bool) : outcome (parser * ast.Node) :=
  match fuel with
  | O => OutOfFuel
  | S fuel' =>
      match typ (currToken p) with
      | tokenCharCount =>
          parseCharGroup fuel' (pnext p) (fst (Atoi (val (currToken p))))
            CharCountStrict
      | tokenCharCountStrictMeta => parseCharGroup fuel' (pnext p) CharCount true
      | tokenCharSet =>
          Returns (p, ast.CharGroup CharCount CharCountStrict
                        (val (currToken p)))
      | _ => parseCharGroup fuel' p CharCount CharCountStrict
      end
  end.

Definition failIn {A} (context : string) (p : parser) (e : parseError)
    : outcome (parser * (A + parseError)) :=
  Returns (p, inr (ErrIn context e)).

(** [parseOptional], [parseOr] and [parseLineCount] call one another; each
    is the loop of the Go function with the loop's variables as
    arguments, and a call of the Go function starts the loop with the
    initial values of these variables. *)
Fixpoint parseOptional (fuel : nat) (p : parser) (wrappedNodes : list ast.Node)
    (leftMetaFound lineCountFound : bool) {struct fuel} : outcome parsed :=
  match fuel with
  | O => OutOfFuel
  | S fuel' =>
      match typ (currToken p) with
      | tokenEOF => failIn "parse optional" p ErrUnclosedOptional
      | tokenOptionalLeftMeta =>
          if leftMetaFound then
            '(p, r) ← parseOptional fuel' p [] false false;
            match r with
            | inr e => failIn "parse optional" p e
            | inl optional =>
                parseOptional fuel' (pnext p) (wrappedNodes ++ [optional])
                  leftMetaFound lineCountFound
            end
          else parseOptional fuel' (pnext p) wrappedNodes true lineCountFound
      | tokenOptionalRightMeta =>
          Returns (p, inl (ast.Optional (ast.Pattern wrappedNodes)))
      | tokenLiteral =>
          parseOptional fuel' (pnext p)
            (wrappedNodes ++ [ast.Literal (val (currToken p))])
            leftMetaFound lineCountFound
      | tokenCharCount =>
          '(p, charGroup) ← parseCharGroup fuel' p 0 false;
          parseOptional fuel' (pnext p) (wrappedNodes ++ [charGroup])
            leftMetaFound lineCountFound
      | tokenLineCount =>
          let wrappedNodes :=
            if negb lineCountFound && (0 <? len0 wrappedNodes)
            then [ast.LineCountExpression 1 (ast.Pattern wrappedNodes)]
            else wrappedNodes in
          '(p, r) ← parseLineCount fuel' p 0 [] false;
          match r with
          | inr e => failIn "parse optional" p e
          | inl lineCount =>
              parseOptional fuel' (pnext p) (wrappedNodes ++ [lineCount])
                leftMetaFound true
          end
      | tokenOrPatternMeta =>
          '(p, r) ← parseOr fuel' p (ast.Pattern wrappedNodes) [] false;
          match r with
          | inr e => failIn "parse optional" p e
          | inl or => parseOptional fuel' (pnext p) [or]
                        leftMetaFound lineCountFound
          end
      | _ => parseOptional fuel' p wrappedNodes leftMetaFound lineCountFound
      end
  end

with parseOr (fuel : nat) (p : parser) (Left : ast.Node)
    (rightNodes : list ast.Node) (ownTokenFound : bool) {struct fuel}
    : outcome parsed :=
  match fuel with
  | O => OutOfFuel
  | S fuel' =>
      match typ (currToken p) with
      | tokenOptionalRightMeta =>
          Returns (pbackup p,
                   inl (ast.OrExpression Left (ast.Pattern rightNodes)))
      | tokenEOF =>
          Returns (p, inl (ast.OrExpression Left (ast.Pattern rightNodes)))
      | tokenOrPatternMeta =>
          if ownTokenFound then
            '(p, r) ← parseOr fuel' p (ast.Pattern rightNodes) [] false;
            match r with
            | inr e => failIn "parse or" p e
            | inl or => Returns (p, inl (ast.OrExpression Left or))
            end
          else parseOr fuel' (pnext p) Left rightNodes true
      | tokenLineCount =>
          if len0 rightNodes =? 0 then
            '(p, r) ← parseLineCount fuel' p 0 [] false;
            match r with
            | inr e => failIn "parse or expression" p e
            | inl lineCount =>
                Returns (p, inl (ast.OrExpression Left lineCount))
            end
          else
            Returns (pbackup p,
                     inl (ast.OrExpression Left (ast.Pattern rightNodes)))
      | tokenLiteral =>
          parseOr fuel' (pnext p) Left
            (rightNodes ++ [ast.Literal (val (currToken p))]) ownTokenFound
      | tokenOptionalLeftMeta =>
          '(p, r) ← parseOptional fuel' p [] false false;
          match r with
          | inr e => failIn "parse or expression" p e
          | inl optional =>
              parseOr fuel' (pnext p) Left (rightNodes ++ [optional])
                ownTokenFound
          end
      | tokenCharCount =>
          '(p, charGroup) ← parseCharGroup fuel' p 0 false;
          parseOr fuel' (pnext p) Left (rightNodes ++ [charGroup])
            ownTokenFound
      | _ => parseOr fuel' p Left rightNodes ownTokenFound
      end
  end

with parseLineCount (fuel : nat) (p : parser) (LineCount : Z)
    (wrappedNodes : list ast.Node) (countSet : bool) {struct fuel}
    : outcome parsed :=
  match fuel with
  | O => OutOfFuel
  | S fuel' =>
      let node :=
        ast.LineCountExpression LineCount (ast.Pattern wrappedNodes) in
      match typ (currToken p) with
      | tokenEOF => Returns (p, inl node)
      | tokenLineCount =>
          if countSet then Returns (pbackup p, inl node)
          else parseLineCount fuel' (pnext p)
                 (fst (Atoi (val (currToken p)))) wrappedNodes true
      | tokenLineCountMeta =>
          parseLineCount fuel' (pnext p) LineCount wrappedNodes countSet
      | tokenOptionalLeftMeta =>
          '(p, r) ← parseOptional fuel' p [] false false;
          match r with
          | inr e => failIn "parse line count" p e
          | inl optional =>
              parseLineCount fuel' (pnext p) LineCount
                (wrappedNodes ++ [optional]) countSet
          end
      | tokenCharCount =>
          '(p, charGroup) ← parseCharGroup fuel' p 0 false;
          parseLineCount fuel' (pnext p) LineCount
            (wrappedNodes ++ [charGroup]) countSet
      | tokenOrPatternMeta =>
          nextToken ← peek p;
          if bool_decide (typ nextToken = tokenLineCount) then
            '(p, r) ← parseOr fuel' p node [] false;
            match r with
            | inr e => failIn "parse line count" p e
            | inl or => Returns (p, inl or)
            end
          else
            '(p, r) ← parseOr fuel' p (ast.Pattern wrappedNodes) [] false;
            match r with
            | inr e => failIn "parse line count" p e
            | inl or =>
                parseLineCount fuel' (pnext p) LineCount [or] countSet
            end
      | tokenOptionalRightMeta => Returns (pbackup p, inl node)
      | _ => failIn "parse line count" p
               (ErrUnexpectedToken (val (currToken p)))
      end
  end.

(** The loop of [parsePattern]; [Nodes] is [node.Nodes], and the
    [ast.Pattern] returned is given by its [Nodes]. *)
Fixpoint parsePattern (fuel : nat) (p : parser) (Nodes : list ast.Node)
    (lineCountFound : bool)
    : outcome (parser * (list ast.Node + parseError)) :=
  match fuel with
  | O => OutOfFuel
  | S fuel' =>
      match typ (currToken p) with
      | tokenEOF => Returns (p, inl Nodes)
      | tokenLiteral =>
          parsePattern fuel' (pnext p)
            (Nodes ++ [ast.Literal (val (currToken p))]) lineCountFound
      | tokenOptionalLeftMeta =>
          '(p, r) ← parseOptional fuel' p [] false false;
          match r with
          | inr e => failIn "parse pattern" p e
          | inl optional =>
              parsePattern fuel' (pnext p) (Nodes ++ [optional])
                lineCountFound
          end
      | tokenCharCount =>
          '(p, charGroup) ← parseCharGroup fuel' p 0 false;
          parsePattern fuel' (pnext p) (Nodes ++ [charGroup]) lineCountFound
      | tokenLineCount =>
          let Nodes :=
            if negb lineCountFound && (0 <? len0 Nodes)
            then [ast.LineCountExpression 1 (ast.Pattern Nodes)]
            else Nodes in
          '(p, r) ← parseLineCount fuel' p 0 [] false;
          match r with
          | inr e => failIn "parse pattern" p e
          | inl lineCount =>
              parsePattern fuel' (pnext p) (Nodes ++ [lineCount]) true
          end
      | tokenOrPatternMeta =>
          '(p, r) ← parseOr fuel' p (ast.Pattern Nodes) [] false;
          match r with
          | inr e => failIn "parse pattern" p e
          | inl or => parsePattern fuel' (pnext p) [or] lineCountFound
          end
      | _ => parsePattern fuel' p Nodes lineCountFound
      end
  end.

Definition parse (fuel : nat) (ts : list token)
    : outcome (list ast.Node + parseError) :=
  let p := pnext {| ptokens := ts; currTokenIndex := -1;
                    currToken := zeroToken |} in
  '(_, r) ← parsePattern fuel p [] false;
  match r with
  | inr e => Returns (inr (ErrIn "could not create pattern ast" e))
  | inl astPattern => Returns (inl astPattern)
  end.

(** *** From the tree to the matchers *)

Definition astCharGroupToCharGroup (CharCount : Z) (CharCountStrict : bool)
    (CharSetKey : str) : CharGroup :=
  {| charSetKey := CharSetKey;
     CharSetOf := charSets CharSetKey;
     Count := CharCount;
     CountStrict := CharCountStrict |}.

Fixpoint astNodeToPartialValidator (node : ast.Node) (currLine : Z)
    : ValidatesPartially :=
  match node with
  | ast.Literal Value => Literal Value
  | ast.Optional n => Optional (astNodeToPartialValidator n currLine)
  | ast.CharGroup CharCount CharCountStrict CharSetKey =>
      Group (astCharGroupToCharGroup CharCount CharCountStrict CharSetKey)
  | ast.LineCountExpression LineCount n =>
      let endLine := wrap64 (currLine + LineCount) in
      LinePattern currLine endLine (astNodeToPartialValidator n endLine)
  | ast.OrExpression Left Right =>
      OrPattern (astNodeToPartialValidator Left currLine)
                (astNodeToPartialValidator Right currLine)
  | ast.Pattern Nodes =>
      Seq (map (fun n => astNodeToPartialValidator n currLine) Nodes)
  end.

Definition astPatternToPattern (Nodes : list ast.Node) (currLine : Z)
    : Pattern :=
  map (fun n => astNodeToPartialValidator n currLine) Nodes.

Definition process (astPattern : list ast.Node) : Pattern :=
  astPatternToPattern astPattern 1.

(** [Parse]: the pattern, or the error of the parser. *)
Definition Parse (isDigitAboveLatin1 : rune -> bool) (fuel : nat)
    (inp : str) : outcome (Pattern + parseError) :=
  ts ← lex isDigitAboveLatin1 fuel inp;
  r ← parse fuel ts;
  match r with
  | inr e => Returns (inr (ErrIn "could not parse pattern" e))
  | inl astPattern => Returns (inl (process astPattern))
  end.

End pattern.

(** ** Package [internal/message] *)

Module message.

(** *** The lexer of the block structure *)

Inductive itemType :=
| itemError
| itemEOF
| itemIgnore
| itemBlockLeftMeta
| itemBlockLabelMeta
| itemBlockLabel
| itemBlockContent
| itemBlockRightMeta
| itemSubBlockLeftMeta
| itemSubBlockLabelMeta
| itemSubBlockLabel
| itemSubBlockContent
| itemSubBlockRightMeta
| itemTagLeftMeta
| itemTagContent
| itemTagRightMeta
| itemFieldContent.

#[global] Instance itemType_eq_dec : EqDecision itemType.
Proof. solve_decision. Defined.

Record item := { ityp : itemType; ival : str; iline : Z }.

Definition blockLeftMeta : str := lit "{".
Definition blockLabelMeta : str := lit ":".
Definition blockRightMeta : str := lit "}".
Definition subBlockLeftMeta : str := lit "{".
Definition subBlockLabelMeta : str := lit ":".
Definition subBlockRightMeta : str := lit "}".
Definition tagLeftMeta : str := lit ":".
Definition tagRightMeta : str := lit ":".
Definition fieldsRightMeta : str := lit "-}".

(** The reader is the bytes not yet read; reading them does not fail.
    The channel [items] is the list of the items sent so far. *)
Record lexer := {
  input : str;
  buff : str;
  items : list item;
  line : Z
}.

Inductive stateFn :=
| lexToBlock
| lexBlockLeftMeta
| lexBlockLabel
| lexBlockLabelMeta
| lexBlockContent
| lexBlockRightMeta
| lexSubBlockLeftMeta
| lexSubBlockLabel
| lexSubBlockLabelMeta
| lexSubBlockContent
| lexSubBlockRightMeta
| lexTagLeftMeta
| lexTagContent
| lexTagRightMeta
| lexFieldContent.

Definition emit (l : lexer) (t : itemType) : lexer :=
  {| input := input l; buff := [];
     items := items l ++ [{| ityp := t; ival := buff l; iline := line l |}];
     line := line l |}.

Definition eof : rune := -1.

(** [string(r)] for a rune that [ReadRune] gave for the [w] bytes at the
    head of [s]: these bytes, or the encoding of U+FFFD for a byte that is
    not the start of a well-formed sequence. *)
Definition runeBytes (s : str) (r : rune) (w : Z) : str :=
  if (r =? RuneError) && (w =? 1)
  then ["239"%char; "191"%char; "189"%char]
  else take (Z.to_nat w) s.

Definition next (l : lexer) : lexer * rune :=
  match input l with
  | [] => (l, eof)
  | _ :: _ =>
      let '(r, w) := DecodeRuneInString (input l) in
      ({| input := drop (Z.to_nat w) (input l);
          buff := buff l ++ runeBytes (input l) r w;
          items := items l;
          line := if r =? 10 then line l + 1 else line l |}, r)
  end.

(** The first entry of the map [next] whose key is a suffix of the
    buffer. In each of the maps of this lexer the keys end in different
    bytes, so at most one of them is a suffix and the order in which Go
    ranges over the map does not show. *)
Fixpoint findSuffix (b : str) (nextOf : list (str * stateFn))
    : option (str * stateFn) :=
  match nextOf with
  | [] => None
  | (suffix, nextStateFn) :: rest =>
      if HasSuffix b suffix then Some (suffix, nextStateFn)
      else findSuffix b rest
  end.

Fixpoint lexText (fuel : nat) (l : lexer) (t : itemType)
    (nextOf : list (str * stateFn)) : outcome (lexer * option stateFn) :=
  match fuel with
  | O => OutOfFuel
  | S fuel' =>
      match findSuffix (buff l) nextOf with
      | Some (suffix, nextStateFn) =>
          b ← slice (buff l) 0 (len (buff l) - len suffix);
          let l := emit {| input := input l; buff := b; items := items l;
                           line := line l |} t in
          Returns ({| input := input l; buff := suffix; items := items l;
                      line := line l |}, Some nextStateFn)
      | None =>
          let '(l', r) := next l in
          if r =? eof then Returns (emit (emit l' t) itemEOF, None)
          else lexText fuel' l' t nextOf
      end
  end.

Definition lexMeta (l : lexer) (t : itemType) (nextState : stateFn)
    : outcome (lexer * option stateFn) :=
  Returns (emit l t, Some nextState).

Definition runState (fuel : nat) (state : stateFn) (l : lexer)
    : outcome (lexer * option stateFn) :=
  match state with
  | lexFieldContent =>
      lexText fuel l itemFieldContent
        [(tagLeftMeta, lexTagLeftMeta); (fieldsRightMeta, lexBlockContent)]
  | lexTagRightMeta => lexMeta l itemTagRightMeta lexFieldContent
  | lexTagContent =>
      lexText fuel l itemTagContent [(tagRightMeta, lexTagRightMeta)]
  | lexTagLeftMeta => lexMeta l itemTagLeftMeta lexTagContent
  | lexSubBlockRightMeta => lexMeta l itemSubBlockRightMeta lexBlockContent
  | lexBlockRightMeta => lexMeta l itemBlockRightMeta lexToBlock
  | lexSubBlockContent =>
      lexText fuel l itemSubBlockContent
        [(subBlockRightMeta, lexSubBlockRightMeta)]
  | lexSubBlockLabelMeta =>
      lexMeta l itemSubBlockLabelMeta lexSubBlockContent
  | lexSubBlockLabel =>
      lexText fuel l itemSubBlockLabel
        [(subBlockLabelMeta, lexSubBlockLabelMeta)]
  | lexSubBlockLeftMeta => lexMeta l itemSubBlockLeftMeta lexSubBlockLabel
  | lexBlockContent =>
      lexText fuel l itemBlockContent
        [(blockRightMeta, lexBlockRightMeta);
         (subBlockLeftMeta, lexSubBlockLeftMeta);
         (tagLeftMeta, lexTagLeftMeta)]
  | lexBlockLabelMeta => lexMeta l itemBlockLabelMeta lexBlockContent
  | lexBlockLabel =>
      lexText fuel l itemBlockLabel [(blockLabelMeta, lexBlockLabelMeta)]
  | lexBlockLeftMeta => lexMeta l itemBlockLeftMeta lexBlockLabel
  | lexToBlock =>
      lexText fuel l itemIgnore [(blockLeftMeta, lexBlockLeftMeta)]
  end.

(** [lexer.run] with a context that is never cancelled. *)
Fixpoint lexRun (fuel : nat) (state : stateFn) (l : lexer) : outcome lexer :=
  match fuel with
  | O => OutOfFuel
  | S fuel' =>
      '(l, nextState) ← runState fuel' state l;
      match nextState with
      | None => Returns l
      | Some state' => lexRun fuel' state' l
      end
  end.

Definition lex (fuel : nat) (inp : str) : outcome (list item) :=
  l ← lexRun fuel lexToBlock
         {| input := inp; buff := []; items := []; line := 1 |};
  Returns (items l).

(** *** [strings.TrimSpace] *)

Definition asciiSpace (c : ascii) : bool :=
  let b := byteZ c in
  (b =? 9) || (b =? 10) || (b =? 11) || (b =? 12) || (b =? 13) || (b =? 32).

(** One of the two loops of [TrimSpace]: pass the ASCII space at the head;
    the flag says that the loop met a byte that is not ASCII. *)
Fixpoint skipAsciiSpace (s : str) : str * bool :=
  match s with
  | [] => ([], false)
  | c :: t =>
      if 128 <=? byteZ c then (s, true)
      else if asciiSpace c then skipAsciiSpace t
      else (s, false)
  end.

Section TrimSpace.

(** [strings.TrimFunc(s, unicode.IsSpace)] and
    [strings.TrimRightFunc(s, unicode.IsSpace)], to which [TrimSpace]
    hands over at a byte that is not ASCII, are left open. *)
Variable TrimFuncIsSpace : str -> str.
Variable TrimRightFuncIsSpace : str -> str.

Definition TrimSpace (s : str) : str :=
  let '(fromStart, nonASCII) := skipAsciiSpace s in
  if nonASCII then TrimFuncIsSpace fromStart
  else
    let '(revKept, nonASCII') := skipAsciiSpace (rev fromStart) in
    if nonASCII' then TrimRightFuncIsSpace (rev revKept)
    else rev revKept.

End TrimSpace.

(** *** The parser of the block structure *)

Definition blockLabelBasicHeader : str := lit "1".
Definition blockLabelAppHeader : str := lit "2".
Definition blockLabelUsrHeader : str := lit "3".
Definition blockLabelBody : str := lit "4".
Definition blockLabelTrailers : str := lit "5".

Record SubBlock := { SubLabel : str; SubContent : str }.

Definition newMessageSubBlock : SubBlock :=
  {| SubLabel := []; SubContent := [] |}.

(** A Go map is a reference: [Fields] is the address of the map in the
    store of the parser, [None] for the nil map of a zero [Block]. A copy
    of the block shares the map. The slice [Blocks] is only ever appended
    to through [currBlock], which leaves every copy as it was, so it is a
    plain list. *)
Record Block := {
  Label : str;
  Content : str;
  Fields : option nat;
  Blocks : list SubBlock
}.

Definition zeroBlock : Block :=
  {| Label := []; Content := []; Fields := None; Blocks := [] |}.

Record Config := { StopOnError : bool }.

Record Message := {
  Line : Z;
  Raw : str;
  BasicHeader : Block;
  AppHeader : Block;
  UsrHeader : Block;
  Body : option nat;
  Trailers : Block
}.

Record Error := { ErrLine : Z; Err : str }.

(** [fmt.Sprintf("{%s:%s}", label, content)] *)
Definition rawBlock (label content : str) : str :=
  lit "{" ++ label ++ lit ":" ++ content ++ lit "}".

(** The variables [blocksToMessage] assigns in its loop. *)
Record assembly := {
  m : Message;
  rawHeader : str;
  rawAppHeader : str;
  rawUsrHeader : str;
  rawBody : str;
  rawTrailers : str
}.

Definition withBlocks (a : assembly) (bh ah uh : Block) (body : option nat)
    (tr : Block) : Message :=
  {| Line := Line (m a); Raw := Raw (m a); BasicHeader := bh;
     AppHeader := ah; UsrHeader := uh; Body := body; Trailers := tr |}.

Definition blocksToMessageStep (a : assembly) (block : Block) : assembly :=
  let msg := m a in
  if streq (Label block) blockLabelBasicHeader then
    {| m := withBlocks a block (AppHeader msg) (UsrHeader msg) (Body msg)
              (Trailers msg);
       rawHeader := rawBlock blockLabelBasicHeader (Content block);
       rawAppHeader := rawAppHeader a; rawUsrHeader := rawUsrHeader a;
       rawBody := rawBody a; rawTrailers := rawTrailers a |}
  else if streq (Label block) blockLabelAppHeader then
    {| m := withBlocks a (BasicHeader msg) block (UsrHeader msg) (Body msg)
              (Trailers msg);
       rawHeader := rawHeader a;
       rawAppHeader := rawBlock blockLabelAppHeader (Content block);
       rawUsrHeader := rawUsrHeader a;
       rawBody := rawBody a; rawTrailers := rawTrailers a |}
  else if streq (Label block) blockLabelUsrHeader then
    {| m := withBlocks a (BasicHeader msg) (AppHeader msg) block (Body msg)
              (Trailers msg);
       rawHeader := rawHeader a; rawAppHeader := rawAppHeader a;
       rawUsrHeader := rawBlock blockLabelUsrHeader (Content block);
       rawBody := rawBody a; rawTrailers := rawTrailers a |}
  else if streq (Label block) blockLabelBody then
    {| m := withBlocks a (BasicHeader msg) (AppHeader msg) (UsrHeader msg)
              (Fields block) (Trailers msg);
       rawHeader := rawHeader a; rawAppHeader := rawAppHeader a;
       rawUsrHeader := rawUsrHeader a;
       rawBody := rawBlock blockLabelBody (Content block);
       rawTrailers := rawTrailers a |}
  else if streq (Label block) blockLabelTrailers then
    {| m := withBlocks a (BasicHeader msg) (AppHeader msg) (UsrHeader msg)
              (Body msg) block;
       rawHeader := rawHeader a; rawAppHeader := rawAppHeader a;
       rawUsrHeader := rawUsrHeader a; rawBody := rawBody a;
       rawTrailers := rawBlock blockLabelTrailers (Content block) |}
  else a.

Definition blocksToMessage (blocks : list Block) (line : Z) : Message :=
  let a := fold_left blocksToMessageStep blocks
    {| m := {| Line := line; Raw := []; BasicHeader := zeroBlock;
               AppHeader := zeroBlock; UsrHeader := zeroBlock;
               Body := None; Trailers := zeroBlock |};
       rawHeader := []; rawAppHeader := []; rawUsrHeader := [];
       rawBody := []; rawTrailers := [] |} in
  {| Line := Line (m a);
     Raw := rawHeader a ++ rawAppHeader a ++ rawUsrHeader a ++ rawBody a
            ++ rawTrailers a;
     BasicHeader := BasicHeader (m a); AppHeader := AppHeader (m a);
     UsrHeader := UsrHeader (m a); Body := Body (m a);
     Trailers := Trailers (m a) |}.

(** The state of [parser.run]: its local variables, the store of the maps
    made by [newBlock], what was sent on the two channels, and whether
    the loop was left. *)
Record state := {
  heap : list (gmap str (list str));
  blocks : list Block;
  currLine : Z;
  currBlock : Block;
  currSubBlock : SubBlock;
  currTag : str;
  messages : list Message;
  errors : list Error;
  stopped : bool
}.

Definition setCurrBlock (st : state) (b : Block) : state :=
  {| heap := heap st; blocks := blocks st; currLine := currLine st;
     currBlock := b; currSubBlock := currSubBlock st; currTag := currTag st;
     messages := messages st; errors := errors st; stopped := stopped st |}.

Definition setCurrSubBlock (st : state) (sb : SubBlock) : state :=
  {| heap := heap st; blocks := blocks st; currLine := currLine st;
     currBlock := currBlock st; currSubBlock := sb; currTag := currTag st;
     messages := messages st; errors := errors st; stopped := stopped st |}.

Definition sendMessage (st : state) : state :=
  if 0 <? len0 (blocks st) then
    {| heap := heap st; blocks := blocks st; currLine := currLine st;
       currBlock := currBlock st; currSubBlock := currSubBlock st;
       currTag := currTag st;
       messages := messages st ++ [blocksToMessage (blocks st) (currLine st)];
       errors := errors st; stopped := stopped st |}
  else st.

Definition stop (st : state) : state :=
  {| heap := heap st; blocks := blocks st; currLine := currLine st;
     currBlock := currBlock st; currSubBlock := currSubBlock st;
     currTag := currTag st; messages := messages st; errors := errors st;
     stopped := true |}.

(** [newBlock]: a block with a fresh, empty map. *)
Definition newBlock (h : list (gmap str (list str)))
    : list (gmap str (list str)) * Block :=
  (h ++ [∅],
   {| Label := []; Content := []; Fields := Some (length h); Blocks := [] |}).

Section Parser.

Variable TrimFuncIsSpace : str -> str.
Variable TrimRightFuncIsSpace : str -> str.
Variable cfg : Config.

(** The body of the loop of [parser.run] for one item. Writing to a nil
    map is a panic. *)
Definition step (st : state) (it : item) : outcome state :=
  match ityp it with
  | itemBlockLabel =>
      let st :=
        if streq (ival it) blockLabelBasicHeader then
          let st := sendMessage st in
          {| heap := heap st; blocks := []; currLine := iline it;
             currBlock := currBlock st; currSubBlock := currSubBlock st;
             currTag := currTag st; messages := messages st;
             errors := errors st; stopped := stopped st |}
        else st in
      let '(h, b) := newBlock (heap st) in
      Returns
        {| heap := h; blocks := blocks st; currLine := currLine st;
           currBlock := {| Label := ival it; Content := Content b;
                           Fields := Fields b; Blocks := Blocks b |};
           currSubBlock := currSubBlock st; currTag := currTag st;
           messages := messages st; errors := errors st;
           stopped := stopped st |}
  | itemBlockContent =>
      let b := currBlock st in
      Returns (setCurrBlock st
        {| Label := Label b; Content := ival it; Fields := Fields b;
           Blocks := Blocks b |})
  | itemSubBlockLeftMeta => Returns (setCurrSubBlock st newMessageSubBlock)
  | itemSubBlockLabel =>
      Returns (setCurrSubBlock st
        {| SubLabel := ival it; SubContent := SubContent (currSubBlock st) |})
  | itemSubBlockContent =>
      Returns (setCurrSubBlock st
        {| SubLabel := SubLabel (currSubBlock st); SubContent := ival it |})
  | itemSubBlockRightMeta =>
      let b := currBlock st in
      Returns (setCurrBlock st
        {| Label := Label b; Content := Content b; Fields := Fields b;
           Blocks := Blocks b ++ [currSubBlock st] |})
  | itemTagContent =>
      Returns
        {| heap := heap st; blocks := blocks st; currLine := currLine st;
           currBlock := currBlock st; currSubBlock := currSubBlock st;
           currTag := ival it; messages := messages st;
           errors := errors st; stopped := stopped st |}
  | itemFieldContent =>
      match Fields (currBlock st) with
      | None => Panics
      | Some a =>
          match heap st !! a with
          | None => Panics
          | Some fields =>
              let values := default [] (fields !! currTag st) in
              let fields :=
                <[currTag st :=
                    values ++ [TrimSpace TrimFuncIsSpace
                                 TrimRightFuncIsSpace (ival it)]]> fields in
              Returns
                {| heap := <[a := fields]> (heap st); blocks := blocks st;
                   currLine := currLine st; currBlock := currBlock st;
                   currSubBlock := currSubBlock st; currTag := [];
                   messages := messages st; errors := errors st;
                   stopped := stopped st |}
          end
      end
  | itemBlockRightMeta =>
      Returns
        {| heap := heap st; blocks := blocks st ++ [currBlock st];
           currLine := currLine st; currBlock := currBlock st;
           currSubBlock := currSubBlock st; currTag := currTag st;
           messages := messages st; errors := errors st;
           stopped := stopped st |}
  | itemError =>
      let st :=
        {| heap := heap st; blocks := blocks st; currLine := currLine st;
           currBlock := currBlock st; currSubBlock := currSubBlock st;
           currTag := currTag st; messages := messages st;
           errors := errors st
                     ++ [{| ErrLine := currLine st; Err := ival it |}];
           stopped := stopped st |} in
      if StopOnError cfg then Returns (stop st) else Returns st
  | itemEOF => Returns (stop (sendMessage st))
  | _ => Returns st
  end.

(** The loop over the items of the lexer, until it is left. *)
Fixpoint runItems (st : state) (its : list item) : outcome state :=
  match its with
  | [] => Returns st
  | it :: its' =>
      if stopped st then Returns st
      else st' ← step st it; runItems st' its'
  end.

(** The state in which [parser.run] enters its loop. *)
Definition initial : state :=
  let '(h, b) := newBlock [] in
  {| heap := h; blocks := []; currLine := 1; currBlock := b;
     currSubBlock := newMessageSubBlock; currTag := []; messages := [];
     errors := []; stopped := false |}.

(** [Parse] on the bytes of the reader: what was sent on the channels,
    with the store in which the [Body] of a message is looked up. *)
Definition Parse (fuel : nat) (inp : str) : outcome state :=
  its ← lex fuel inp;
  runItems initial its.

End Parser.

(** The values a receiver finds in the body of [msg] under [tag]; a nil
    map and a missing key give the empty slice. *)
Definition bodyValues (st : state) (msg : Message) (tag : str) : list str :=
  match Body msg with
  | None => []
  | Some a => default [] (fields ← heap st !! a; fields !! tag)
  end.

End message.

(** ** Package [mt]: header decoders and the statement line *)

Module mt.

Inductive ApplicationID :=
| ApplicationIDFinancial
| ApplicationIDGeneral
| ApplicationIDLogin.

Inductive ServiceID := ServiceIDFINGPA | ServiceIDACKNACK.

Inductive Priority := PriorityNormal | PrioritySystem | PriorityUrgent.

Inductive DeliveryMonitor :=
| DeliveryMonitorNonDelivery
| DeliveryMonitorDelivery
| DeliveryMonitorBoth.

(** The methods [String] of the two enumerations of the basic header. *)
Definition ApplicationIDString (aid : ApplicationID) : str :=
  match aid with
  | ApplicationIDGeneral => lit "A"
  | ApplicationIDLogin => lit "L"
  | ApplicationIDFinancial => lit "F"
  end.

Definition ServiceIDString (sid : ServiceID) : str :=
  match sid with
  | ServiceIDACKNACK => lit "21"
  | ServiceIDFINGPA => lit "01"
  end.

Record BasicHeader := {
  Raw : str;
  AppID : ApplicationID;
  ServiceId : ServiceID;
  SessionNumber : str;
  SequenceNumber : str;
  LogicalTerminalAddress : str
}.

Record AppHeaderInput := {
  InSet : bool;
  InRaw : str;
  ObsolescencePeriodInMinutes : Z;
  MessageType : str;
  ReceiverAddress : str;
  MessagePriority : Priority;
  DeliveryMonitorOf : DeliveryMonitor
}.

Inductive error :=
| ErrBasicHeaderLength (n : Z)
    (* invalid basic header block content length: %d *)
| ErrUnknownApplicationID (s : str)
    (* unknown application id in basic header block content: %s *)
| ErrUnknownServiceID (s : str)
    (* unknown service id in basic header block content: %s *)
| ErrAppHeaderInputLength (n : Z)
    (* invalid app header input block content length: %d *)
| ErrUnknownPriority (char : str)
    (* unknown message priority in app header input block content: %s *)
| ErrInvalidDeliveryMonitor (char : str)
    (* invalid delivery monitor in app header input block content: %s *)
| ErrInvalidPriorityOrDeliveryMonitor (char : str)
    (* invalid priority or delivery monitor in app header input block
       content: %s *)
| ErrInvalidObsolescencePeriod (factor : Z) (cause : NumError)
    (* invalid obsolescence period in app header input block content:
       %v: %w *)
| ErrCouldNotSet (what : string) (cause : error).
    (* could not set <what> for app header input: %w *)

Definition obsolescenceMinutesPerFactor : Z := 5.

(** [leadingZerosRegexp.ReplaceAll(chars, "")] for the expression [^0+]:
    the zeros at the head are taken away. *)
Fixpoint stripLeadingZeros (chars : str) : str :=
  match chars with
  | c :: t => if Ascii.eqb c "0" then stripLeadingZeros t else chars
  | [] => []
  end.

Definition basicHeaderBlockToBasicHeader (block : message.Block)
    : outcome (BasicHeader * option error) :=
  let content := message.Content block in
  let msgBscHeader :=
    {| Raw := lit "{1:" ++ content ++ lit "}";
       AppID := ApplicationIDFinancial; ServiceId := ServiceIDFINGPA;
       SessionNumber := []; SequenceNumber := [];
       LogicalTerminalAddress := [] |} in
  if negb (len content =? 25)
  then Returns (msgBscHeader, Some (ErrBasicHeaderLength (len content)))
  else
    appId ← slice content 0 1;
    let withApp (a : ApplicationID) :=
      {| Raw := Raw msgBscHeader; AppID := a; ServiceId := ServiceIDFINGPA;
         SessionNumber := []; SequenceNumber := [];
         LogicalTerminalAddress := [] |} in
    match
      (if streq appId (lit "F") then Some ApplicationIDFinancial
       else if streq appId (lit "A") then Some ApplicationIDGeneral
       else if streq appId (lit "L") then Some ApplicationIDLogin
       else None)
    with
    | None => Returns (msgBscHeader, Some (ErrUnknownApplicationID appId))
    | Some a =>
        serviceId ← slice content 1 3;
        match
          (if streq serviceId (lit "01") then Some ServiceIDFINGPA
           else if streq serviceId (lit "21") then Some ServiceIDACKNACK
           else None)
        with
        | None => Returns (withApp a, Some (ErrUnknownServiceID serviceId))
        | Some s =>
            lta ← slice content 3 15;
            session ← slice content 15 19;
            sequence ← sliceFrom content 19;
            Returns ({| Raw := Raw msgBscHeader; AppID := a; ServiceId := s;
                        SessionNumber := session; SequenceNumber := sequence;
                        LogicalTerminalAddress := lta |}, None)
        end
    end.

(** The closures of [appHeaderBlockToAppHeaderInput] assign to the header
    under construction: each takes it and returns it with the error. *)
Definition withPriority (h : AppHeaderInput) (p : Priority) : AppHeaderInput :=
  {| InSet := InSet h; InRaw := InRaw h;
     ObsolescencePeriodInMinutes := ObsolescencePeriodInMinutes h;
     MessageType := MessageType h; ReceiverAddress := ReceiverAddress h;
     MessagePriority := p; DeliveryMonitorOf := DeliveryMonitorOf h |}.

Definition withDeliveryMonitor (h : AppHeaderInput) (d : DeliveryMonitor)
    : AppHeaderInput :=
  {| InSet := InSet h; InRaw := InRaw h;
     ObsolescencePeriodInMinutes := ObsolescencePeriodInMinutes h;
     MessageType := MessageType h; ReceiverAddress := ReceiverAddress h;
     MessagePriority := MessagePriority h; DeliveryMonitorOf := d |}.

Definition withObsolescence (h : AppHeaderInput) (minutes : Z)
    : AppHeaderInput :=
  {| InSet := InSet h; InRaw := InRaw h;
     ObsolescencePeriodInMinutes := minutes;
     MessageType := MessageType h; ReceiverAddress := ReceiverAddress h;
     MessagePriority := MessagePriority h;
     DeliveryMonitorOf := DeliveryMonitorOf h |}.

Definition setPriority (h : AppHeaderInput) (char : str)
    : AppHeaderInput * option error :=
  if streq char (lit "S") then (withPriority h PrioritySystem, None)
  else if streq char (lit "N") then (withPriority h PriorityNormal, None)
  else if streq char (lit "U") then (withPriority h PriorityUrgent, None)
  else (h, Some (ErrUnknownPriority char)).

Definition setDeliveryMonitor (h : AppHeaderInput) (char : str)
    : AppHeaderInput * option error :=
  if streq char (lit "1")
  then (withDeliveryMonitor h DeliveryMonitorNonDelivery, None)
  else if streq char (lit "2")
  then (withDeliveryMonitor h DeliveryMonitorDelivery, None)
  else if streq char (lit "3")
  then (withDeliveryMonitor h DeliveryMonitorBoth, None)
  else (h, Some (ErrInvalidDeliveryMonitor char)).

Definition setPriorityOrDeliveryMonitor (h : AppHeaderInput) (char : str)
    : AppHeaderInput * option error :=
  if streq char (lit "S") || streq char (lit "N") || streq char (lit "U")
  then setPriority h char
  else if streq char (lit "1") || streq char (lit "2") || streq char (lit "3")
  then setDeliveryMonitor h char
  else (h, Some (ErrInvalidPriorityOrDeliveryMonitor char)).

Definition setObsolescencePeriod (h : AppHeaderInput) (chars : str)
    : AppHeaderInput * option error :=
  let factorString := stripLeadingZeros chars in
  match Atoi factorString with
  | (factor, Some err) => (h, Some (ErrInvalidObsolescencePeriod factor err))
  | (factor, None) =>
      (withObsolescence h (wrap64 (factor * obsolescenceMinutesPerFactor)),
       None)
  end.

(** Run a closure; on its error leave the function with the error wrapped
    in [what], otherwise go on with the header it left. *)
Definition orLeave (r : AppHeaderInput * option error) (what : string)
    (k : AppHeaderInput -> outcome (AppHeaderInput * option error))
    : outcome (AppHeaderInput * option error) :=
  match r with
  | (h, Some err) => Returns (h, Some (ErrCouldNotSet what err))
  | (h, None) => k h
  end.

Definition appHeaderBlockToAppHeaderInput (block : message.Block)
    : outcome (AppHeaderInput * option error) :=
  let content := message.Content block in
  let h0 :=
    {| InSet := false; InRaw := lit "{2:" ++ content ++ lit "}";
       ObsolescencePeriodInMinutes := 0; MessageType := [];
       ReceiverAddress := []; MessagePriority := PriorityNormal;
       DeliveryMonitorOf := DeliveryMonitorNonDelivery |} in
  if len content <? 16
  then Returns (h0, Some (ErrAppHeaderInputLength (len content)))
  else
    messageType ← slice content 1 4;
    receiverAddress ← slice content 4 16;
    let h :=
      {| InSet := true; InRaw := InRaw h0; ObsolescencePeriodInMinutes := 0;
         MessageType := messageType; ReceiverAddress := receiverAddress;
         MessagePriority := PriorityNormal;
         DeliveryMonitorOf := DeliveryMonitorNonDelivery |} in
    let n := len content in
    if n =? 16 then Returns (h, None)
    else if n =? 17 then
      c ← slice content 16 17;
      orLeave (setPriorityOrDeliveryMonitor h c)
        "priority or delivery monitor" (fun h => Returns (h, None))
    else if n =? 18 then
      c ← slice content 16 17;
      orLeave (setPriority h c) "priority" (fun h =>
      c ← slice content 17 18;
      orLeave (setDeliveryMonitor h c) "delivery monitor" (fun h =>
      Returns (h, None)))
    else if n =? 19 then
      tail ← sliceFrom content 16;
      orLeave (setObsolescencePeriod h tail) "obsolescence period" (fun h =>
      Returns (h, None))
    else if n =? 20 then
      c ← slice content 16 17;
      orLeave (setPriorityOrDeliveryMonitor h c)
        "priority or delivery monitor" (fun h =>
      tail ← sliceFrom content 17;
      orLeave (setObsolescencePeriod h tail) "obsolescence period" (fun h =>
      Returns (h, None)))
    else if n =? 21 then
      c ← slice content 16 17;
      orLeave (setPriority h c) "priority" (fun h =>
      c ← slice content 17 18;
      orLeave (setDeliveryMonitor h c) "delivery monitor" (fun h =>
      tail ← sliceFrom content 18;
      orLeave (setObsolescencePeriod h tail) "obsolescence period" (fun h =>
      Returns (h, None))))
    else Returns (h, Some (ErrAppHeaderInputLength (len content))).

(** *** The statement line, field 61 *)

Inductive FundsCode :=
| FundsCodeCredit
| FundsCodeCreditReversal
| FundsCodeDebit
| FundsCodeDebitReversal.

(** [Date] and [Month] without their field [Time]. *)
Record Date := { DateSet : bool; DateRaw : str }.
Record Month := { MonthSet : bool; MonthRaw : str }.

(** A [float64] and a [float32] are held as the bits of their IEEE 754
    encodings ([math.Float64bits], [math.Float32bits]); the zero value of
    either is [0]. *)
Definition float64 := Z.
Definition float32 := Z.

Record StatementLine := {
  Set_ : bool;
  SlRaw : str;
  SlDate : Date;
  EntryDate : Month;
  FundsCodeOf : FundsCode;
  Amount : float64;
  SwiftCode : str;
  AccountOwnerReference : str;
  BankReference : str;
  Description : str
}.

Inductive slError :=
| ErrInvalidDate          (* statement line: invalid date *)
| ErrInvalidEntryDate     (* statement line: invalid entry date *)
| ErrFundsCode.           (* statement line: invalid or missing funds code *)

Definition TimeFormatMonth : str := lit "0102".
Definition TimeFormatDate : str := lit "060102".

(** [strings.ReplaceAll(s, ",", ".")] *)
Definition commasToDots (s : str) : str :=
  map (fun c => if Ascii.eqb c "," then "."%char else c) s.

(** The loop that counts the bytes of the amount: it reads
    [line1[amountNrOfDigits]] before it looks at the length, so it panics
    when the digits and commas reach the end of [line1]. [rest] is
    [line1[amountNrOfDigits:]]. *)
Fixpoint amountLoop (rest : str) (amountNrOfDigits : Z) : outcome Z :=
  match rest with
  | [] => Panics
  | c :: rest' =>
      if isDigitByte c || Ascii.eqb c ","
      then amountLoop rest' (amountNrOfDigits + 1)
      else Returns amountNrOfDigits
  end.

Section StatementLine.

(** Whether [time.Parse(layout, value)] returns without an error. *)
Variable timeParses : str -> str -> bool.

Definition DateUnmarshalMT (d : Date) (inp : str) : Date * bool :=
  if timeParses TimeFormatDate inp
  then ({| DateSet := true; DateRaw := inp |}, true)
  else (d, false).

Definition MonthUnmarshalMT (mo : Month) (inp : str) : Month * bool :=
  if timeParses TimeFormatMonth inp
  then ({| MonthSet := true; MonthRaw := inp |}, true)
  else (mo, false).

(** [strconv.ParseFloat(s, bitSize)]: the float it returns, and whether
    the error it returns is nil. *)
Variable ParseFloat : str -> Z -> float64 * bool.

(** [sl] is the value the receiver points to when the method is called;
    the result is the value it is left with, and the error. *)
Definition UnmarshalMT (sl : StatementLine) (inp : str)
    : outcome (StatementLine * option slError) :=
  let lines := Split inp newline in
  let line1 := nth 0 lines [] in
  dateStr ← slice line1 0 6;
  let '(d, ok) :=
    DateUnmarshalMT {| DateSet := false; DateRaw := [] |} dateStr in
  if negb ok then Returns (sl, Some ErrInvalidDate)
  else
    line1 ← sliceFrom line1 6;
    let hasEntryDate :=
      negb (HasPrefix line1 (lit "C")) && negb (HasPrefix line1 (lit "D")) in
    r ← (if hasEntryDate then
           entryDateStr ← slice line1 0 4;
           let '(month, ok) :=
             MonthUnmarshalMT {| MonthSet := false; MonthRaw := [] |}
               entryDateStr in
           if negb ok then Returns (inr ErrInvalidEntryDate)
           else line1 ← sliceFrom line1 4; Returns (inl (month, line1))
         else Returns (inl (EntryDate sl, line1)));
    let sl1 (e : Month) (f : FundsCode) :=
      {| Set_ := Set_ sl; SlRaw := SlRaw sl; SlDate := d; EntryDate := e;
         FundsCodeOf := f; Amount := Amount sl; SwiftCode := SwiftCode sl;
         AccountOwnerReference := AccountOwnerReference sl;
         BankReference := BankReference sl;
         Description := Description sl |} in
    match r with
    | inr e => Returns (sl1 (EntryDate sl) (FundsCodeOf sl), Some e)
    | inl (entryDate, line1) =>
        match
          (if HasPrefix line1 (lit "RC")
           then Some (FundsCodeCreditReversal, 2)
           else if HasPrefix line1 (lit "RD")
           then Some (FundsCodeDebitReversal, 2)
           else if HasPrefix line1 (lit "C") then Some (FundsCodeCredit, 1)
           else if HasPrefix line1 (lit "D") then Some (FundsCodeDebit, 1)
           else None)
        with
        | None =>
            Returns (sl1 entryDate (FundsCodeOf sl), Some ErrFundsCode)
        | Some (fundsCode, n) =>
            line1 ← sliceFrom line1 n;
            amountNrOfDigits ← amountLoop line1 0;
            amountStr ← slice line1 0 amountNrOfDigits;
            let '(amount, _) := ParseFloat (commasToDots amountStr) 32 in
            line1 ← sliceFrom line1 amountNrOfDigits;
            swiftCode ← slice line1 0 4;
            line1 ← sliceFrom line1 4;
            let split := Split line1 (lit "//") in
            let '(ownerRef, bankRef) :=
              if len0 split =? 2
              then (nth 0 split [], lit "//" ++ nth 1 split [])
              else (line1, BankReference sl) in
            Returns
              ({| Set_ := true; SlRaw := inp; SlDate := d;
                  EntryDate := entryDate; FundsCodeOf := fundsCode;
                  Amount := amount;
                  SwiftCode := swiftCode;
                  AccountOwnerReference := ownerRef;
                  BankReference := bankRef;
                  Description := if 1 <? len0 lines then nth 1 lines []
                                 else Description sl |}, None)
        end
    end.

End StatementLine.

End mt.

(** * Properties *)

(** ** Facts about the Go values *)

Module GoFacts.

Lemma len_app (a b : str) : len (a ++ b) = len a + len b.
Proof. unfold len. rewrite length_app. lia. Qed.

Lemma len_cons (c : ascii) (s : str) : len (c :: s) = 1 + len s.
Proof. unfold len. simpl. lia. Qed.

Lemma len_nonneg (s : str) : 0 <= len s.
Proof. unfold len. lia. Qed.

Lemma len_zero (s : str) : len s = 0 -> s = [].
Proof. unfold len. destruct s; simpl; [reflexivity | lia]. Qed.

Lemma streq_true (a b : str) : streq a b = true <-> a = b.
Proof. unfold streq. apply bool_decide_eq_true. Qed.

Lemma streq_false (a b : str) : streq a b = false <-> a <> b.
Proof. unfold streq. apply bool_decide_eq_false. Qed.

Lemma streq_refl (a : str) : streq a a = true.
Proof. apply streq_true. reflexivity. Qed.

Lemma sliceFrom_in_range (s : str) (lo : Z) :
  0 <= lo <= len s -> sliceFrom s lo = Returns (drop (Z.to_nat lo) s).
Proof.
  intros [H0 H1]. unfold sliceFrom.
  destruct (0 <=? lo) eqn:E0; [| lia].
  destruct (lo <=? len s) eqn:E1; [reflexivity | lia].
Qed.

Lemma sliceFrom_app (a b : str) : sliceFrom (a ++ b) (len a) = Returns b.
Proof.
  rewrite sliceFrom_in_range.
  - unfold len. rewrite Nat2Z.id. rewrite drop_app_length. reflexivity.
  - rewrite len_app. pose proof (len_nonneg a). pose proof (len_nonneg b). lia.
Qed.

Lemma sliceFrom_zero (s : str) : sliceFrom s 0 = Returns s.
Proof.
  rewrite sliceFrom_in_range; [reflexivity |].
  pose proof (len_nonneg s). lia.
Qed.

Lemma slice_in_range (s : str) (lo hi : Z) :
  0 <= lo <= hi -> hi <= len s ->
  slice s lo hi = Returns (take (Z.to_nat (hi - lo)) (drop (Z.to_nat lo) s)).
Proof.
  intros [H0 H1] H2. unfold slice.
  destruct (0 <=? lo) eqn:E0; [| lia].
  destruct (lo <=? hi) eqn:E1; [| lia].
  destruct (hi <=? len s) eqn:E2; [reflexivity | lia].
Qed.

Lemma slice_out_of_range (s : str) (lo hi : Z) :
  len s < hi -> slice s lo hi = Panics.
Proof.
  intros H. unfold slice.
  destruct (hi <=? len s) eqn:E; [lia |].
  rewrite andb_false_r. reflexivity.
Qed.

Lemma slice_middle (a b c : str) :
  slice (a ++ b ++ c) (len a) (len a + len b) = Returns b.
Proof.
  pose proof (len_nonneg a). pose proof (len_nonneg b).
  pose proof (len_nonneg c).
  rewrite slice_in_range by (rewrite ?len_app; lia).
  unfold len. rewrite Nat2Z.id. rewrite drop_app_length.
  replace (Z.to_nat (Z.of_nat (length a) + Z.of_nat (length b)
                     - Z.of_nat (length a))) with (length b) by lia.
  rewrite take_app_length. reflexivity.
Qed.

Lemma HasPrefix_app (p s : str) : HasPrefix (p ++ s) p = true.
Proof.
  induction p as [| c p IH]; simpl; [reflexivity |].
  rewrite Ascii.eqb_refl, IH. reflexivity.
Qed.

Lemma HasPrefix_inv (s p : str) :
  HasPrefix s p = true -> exists t, s = p ++ t.
Proof.
  revert s. induction p as [| c p IH]; intros s H; simpl in *.
  - exists s. reflexivity.
  - destruct s as [| d s]; [discriminate |].
    apply andb_prop in H as [Hc Hp].
    apply Ascii.eqb_eq in Hc. subst d.
    destruct (IH _ Hp) as [t ->]. exists t. reflexivity.
Qed.

Lemma HasPrefix_refl (s : str) : HasPrefix s s = true.
Proof.
  pose proof (HasPrefix_app s []) as H. rewrite app_nil_r in H. exact H.
Qed.

(** A byte below 128 is a rune of its own. *)
Lemma runes_cons_ascii (c : ascii) (s : str) :
  byteZ c < 128 -> runes (c :: s) = byteZ c :: runes s.
Proof.
  intros H. unfold runes. simpl length. simpl runesFrom.
  destruct (byteZ c <? 128) eqn:E; [| lia].
  reflexivity.
Qed.

Lemma isDigitByte_ascii (c : ascii) : isDigitByte c = true -> byteZ c < 128.
Proof. unfold isDigitByte. intros H. apply andb_prop in H as [_ H]. lia. Qed.

Lemma runes_app_digits (ds rest : str) :
  forallb isDigitByte ds = true ->
  runes (ds ++ rest) = map byteZ ds ++ runes rest.
Proof.
  induction ds as [| d ds IH]; intros H; simpl in *; [reflexivity |].
  apply andb_prop in H as [Hd Hds].
  rewrite runes_cons_ascii by (apply isDigitByte_ascii; exact Hd).
  rewrite IH by exact Hds. reflexivity.
Qed.

Lemma runes_nil : runes [] = [].
Proof. reflexivity. Qed.

End GoFacts.

(** ** The matchers *)

Module PatternSpec.

Import pattern GoFacts.

(** A validation that returned with an error, and one that returned
    without. *)
Definition failed (r : outcome (option error)) : Prop :=
  exists e, r = Returns (Some e).

Definition succeeded (r : outcome (option error)) : Prop :=
  r = Returns None.

Definition partialFailed (r : outcome partial) : Prop :=
  exists rest e, r = Returns (rest, Some e).

(** *** Literals *)

Lemma LiteralValidatePartial_prefix (s rest : str) :
  LiteralValidatePartial s (s ++ rest) = Returns (rest, None).
Proof.
  unfold LiteralValidatePartial. rewrite HasPrefix_app.
  rewrite len_app.
  destruct (len s <? len s + len rest) eqn:E.
  - rewrite sliceFrom_app. reflexivity.
  - assert (len rest = 0) by (pose proof (len_nonneg rest); lia).
    rewrite (len_zero rest) by assumption. reflexivity.
Qed.

Lemma LiteralValidatePartial_no_prefix (s t : str) :
  HasPrefix t s = false ->
  LiteralValidatePartial s t = Returns (t, Some (ErrLiteral s)).
Proof. intros H. unfold LiteralValidatePartial. rewrite H. reflexivity. Qed.

Lemma Validate_single (v : ValidatesPartially) (input rest : str) :
  ValidatePartial v input 1 = Returns (rest, None) ->
  Validate [v] input =
    Returns (if negb (streq rest []) then Some ErrIncomplete else None).
Proof.
  intros H. unfold Validate. simpl validateLoop. rewrite H. simpl.
  destruct (negb (streq rest [])); reflexivity.
Qed.

Lemma Validate_single_error (v : ValidatesPartially) (input rest : str)
    (e : error) :
  ValidatePartial v input 1 = Returns (rest, Some e) ->
  Validate [v] input = Returns (Some (ErrInputInvalid e)).
Proof.
  intros H. unfold Validate. simpl validateLoop. rewrite H. reflexivity.
Qed.

(** C6 as stated does not hold: ["ab"] starts with ["a"], and validating
    it against the pattern of the literal ["a"] fails, because [Validate]
    wants the whole input matched. *)
Lemma literal_validate_prefix_not_enough :
  HasPrefix (lit "ab") (lit "a") = true /\
  Validate [Literal (lit "a")] (lit "ab") = Returns (Some ErrIncomplete).
Proof. split; reflexivity. Qed.

(** C6, amended. For every literal [s]: the partial match of [s] against
    itself succeeds and leaves the empty remainder, and [Validate]
    accepts [s]; for every [t], the partial match of [t] fails exactly
    when [t] does not start with [s] (and leaves what follows [s]
    otherwise), while [Validate] fails exactly when [t] is not [s]: a [t]
    that starts with [s] and goes on is rejected with the error
    "incomplete match", and a [t] that does not start with [s] is
    rejected with the error of the literal, which the partial match
    returns together with the whole of [t]. *)
Theorem literal_validate (s : str) :
  (forall line, ValidatePartial (Literal s) s line = Returns ([], None)) /\
  succeeded (Validate [Literal s] s) /\
  (forall t line,
      partialFailed (ValidatePartial (Literal s) t line) <->
      HasPrefix t s = false) /\
  (forall rest line,
      ValidatePartial (Literal s) (s ++ rest) line = Returns (rest, None)) /\
  (forall t, failed (Validate [Literal s] t) <-> t <> s) /\
  (forall rest,
      rest <> [] ->
      Validate [Literal s] (s ++ rest) = Returns (Some ErrIncomplete)) /\
  (forall t line,
      HasPrefix t s = false ->
      ValidatePartial (Literal s) t line = Returns (t, Some (ErrLiteral s)) /\
      Validate [Literal s] t = Returns (Some (ErrInputInvalid (ErrLiteral s)))).
Proof.
  assert (Hself : forall line,
             ValidatePartial (Literal s) s line = Returns ([], None)).
  { intros line. simpl. rewrite <- (app_nil_r s) at 2.
    apply LiteralValidatePartial_prefix. }
  split; [exact Hself |]. split.
  { unfold succeeded. rewrite (Validate_single _ _ _ (Hself 1)). reflexivity. }
  split.
  { intros t line. simpl. split.
    - intros (rest & e & H). destruct (HasPrefix t s) eqn:E; [| reflexivity].
      apply HasPrefix_inv in E as [u ->].
      rewrite LiteralValidatePartial_prefix in H. discriminate.
    - intros H. exists t, (ErrLiteral s).
      apply LiteralValidatePartial_no_prefix. exact H. }
  split.
  { intros rest line. simpl. apply LiteralValidatePartial_prefix. }
  assert (Hmore : forall rest,
             rest <> [] ->
             Validate [Literal s] (s ++ rest) = Returns (Some ErrIncomplete)).
  { intros rest Hne. rewrite (Validate_single _ _ rest).
    - apply streq_false in Hne. rewrite Hne. reflexivity.
    - simpl. apply LiteralValidatePartial_prefix. }
  assert (Hother : forall t,
             HasPrefix t s = false ->
             Validate [Literal s] t
             = Returns (Some (ErrInputInvalid (ErrLiteral s)))).
  { intros t E. apply (Validate_single_error _ _ t). simpl.
    apply LiteralValidatePartial_no_prefix. exact E. }
  split; [| split; [exact Hmore |]].
  - intros t. split.
    + intros [e H] ->. rewrite (Validate_single _ _ _ (Hself 1)) in H.
      discriminate.
    + intros Hne. destruct (HasPrefix t s) eqn:E.
      * apply HasPrefix_inv in E as [u ->].
        assert (u <> []) by (intros ->; apply Hne; apply app_nil_r).
        exists ErrIncomplete. apply Hmore. assumption.
      * exists (ErrInputInvalid (ErrLiteral s)). apply Hother. exact E.
  - intros t line E. split; [| apply Hother; exact E].
    simpl. apply LiteralValidatePartial_no_prefix. exact E.
Qed.

(** *** Alternatives *)

Section OrPattern.

Variables (Left Right : ValidatesPartially) (input : str) (line : Z).

Lemma or_left_covers :
  ValidatePartial Left input line = Returns ([], None) ->
  ValidatePartial (OrPattern Left Right) input line = Returns ([], None).
Proof. intros H. simpl. rewrite H. reflexivity. Qed.

Lemma or_only_left (restLeft restRight : str) (e : error) :
  ValidatePartial Left input line = Returns (restLeft, None) ->
  ValidatePartial Right input line = Returns (restRight, Some e) ->
  ValidatePartial (OrPattern Left Right) input line
  = Returns (restLeft, None).
Proof.
  intros HL HR. simpl. rewrite HL. simpl.
  destruct (streq restLeft []) eqn:E.
  - apply streq_true in E. subst. reflexivity.
  - simpl. rewrite HR. reflexivity.
Qed.

Lemma or_only_right (restLeft restRight : str) (e : error) :
  ValidatePartial Left input line = Returns (restLeft, Some e) ->
  ValidatePartial Right input line = Returns (restRight, None) ->
  ValidatePartial (OrPattern Left Right) input line
  = Returns (restRight, None).
Proof. intros HL HR. simpl. rewrite HL. simpl. rewrite HR. reflexivity. Qed.

Lemma or_both_fail (restLeft restRight : str) (eL eR : error) :
  ValidatePartial Left input line = Returns (restLeft, Some eL) ->
  ValidatePartial Right input line = Returns (restRight, Some eR) ->
  ValidatePartial (OrPattern Left Right) input line
  = Returns (input, Some (ErrOr (Some eL) (Some eR))).
Proof. intros HL HR. simpl. rewrite HL. simpl. rewrite HR. reflexivity. Qed.

Lemma or_left_shorter (restLeft restRight : str) :
  ValidatePartial Left input line = Returns (restLeft, None) ->
  ValidatePartial Right input line = Returns (restRight, None) ->
  len restLeft < len restRight ->
  ValidatePartial (OrPattern Left Right) input line
  = Returns (restLeft, None).
Proof.
  intros HL HR Hlt. simpl. rewrite HL. simpl.
  destruct (streq restLeft []) eqn:E.
  - apply streq_true in E. subst. reflexivity.
  - simpl. rewrite HR. simpl.
    destruct (len restLeft <? len restRight) eqn:E1; [reflexivity | lia].
Qed.

Lemma or_right_shorter (restLeft restRight : str) :
  ValidatePartial Left input line = Returns (restLeft, None) ->
  ValidatePartial Right input line = Returns (restRight, None) ->
  len restRight < len restLeft ->
  ValidatePartial (OrPattern Left Right) input line
  = Returns (restRight, None).
Proof.
  intros HL HR Hlt. simpl. rewrite HL. simpl.
  destruct (streq restLeft []) eqn:E.
  - apply streq_true in E. subst. pose proof (len_nonneg restRight).
    unfold len in Hlt at 2. simpl in Hlt. lia.
  - simpl. rewrite HR. simpl.
    destruct (len restLeft <? len restRight) eqn:E1; [lia |].
    destruct (len restRight <? len restLeft) eqn:E2; [reflexivity | lia].
Qed.

(** Both sides match and leave remainders of one length that are not
    empty: no case of the [switch] but the default applies, which
    reports the error of a failed alternative, with two nil causes. *)
Lemma or_equal_remainders (restLeft restRight : str) :
  ValidatePartial Left input line = Returns (restLeft, None) ->
  ValidatePartial Right input line = Returns (restRight, None) ->
  restLeft <> [] ->
  len restLeft = len restRight ->
  ValidatePartial (OrPattern Left Right) input line
  = Returns (input, Some (ErrOr None None)).
Proof.
  intros HL HR Hne Heq. simpl. rewrite HL. simpl.
  apply streq_false in Hne. rewrite Hne. simpl. rewrite HR. simpl.
  destruct (len restLeft <? len restRight) eqn:E1; [lia |].
  destruct (len restRight <? len restLeft) eqn:E2; [lia | reflexivity].
Qed.

End OrPattern.

(** The groups [1!a] and [1!c] as [process] builds them. *)
Definition oneUpper : ValidatesPartially :=
  Seq [Group {| charSetKey := lit "a"; CharSetOf := Some alphaUpper;
                Count := 1; CountStrict := true |}].

Definition oneUpperOrDigit : ValidatesPartially :=
  Seq [Group {| charSetKey := lit "c"; CharSetOf := Some alphaNumericUpper;
                Count := 1; CountStrict := true |}].

(** C1 at the input on which the code departs from it. The pattern
    [1!a|1!c] compiles to one alternative; on ["AB"] its left side matches
    and leaves ["B"], its right side matches and leaves ["B"], and the
    alternative returns the whole input with an error instead of the
    result of one of its sides. *)
Theorem or_equal_remainders_rejected (isDigitAboveLatin1 : rune -> bool) :
  Parse isDigitAboveLatin1 20 (lit "1!a|1!c")
  = Returns (inl [OrPattern oneUpper oneUpperOrDigit]) /\
  ValidatePartial oneUpper (lit "AB") 1 = Returns (lit "B", None) /\
  ValidatePartial oneUpperOrDigit (lit "AB") 1 = Returns (lit "B", None) /\
  ValidatePartial (OrPattern oneUpper oneUpperOrDigit) (lit "AB") 1
  = Returns (lit "AB", Some (ErrOr None None)).
Proof. repeat split; reflexivity. Qed.

(** *** Amounts: the class [d] *)

(** The group of the pattern [<c>d]. *)
Definition amountGroup (c : Z) : CharGroup :=
  {| charSetKey := lit "d"; CharSetOf := Some floats; Count := c;
     CountStrict := false |}.

Definition comma : ascii := ","%char.

Lemma numbers_digit (d : ascii) : isDigitByte d = true -> numbers (byteZ d) = true.
Proof. intros H. exact H. Qed.

Lemma digit_not_comma (d : ascii) : isDigitByte d = true -> (byteZ d =? 44) = false.
Proof.
  unfold isDigitByte. intros H. apply andb_prop in H as [H _]. lia.
Qed.

(** The first loop over a run of digits: it passes them all, or stops
    where the count is reached. *)
Lemma beforeDecimalLoop_digits (c : Z) (ds : str) (rs : list rune)
    (charCount before : Z) :
  forallb isDigitByte ds = true ->
  beforeDecimalLoop c (map byteZ ds ++ rs) charCount before =
    if (before <=? c) && (c <? before + len ds)
    then Some (charCount + (c - before), c)
    else beforeDecimalLoop c rs (charCount + len ds) (before + len ds).
Proof.
  revert charCount before.
  induction ds as [| d ds IH]; intros charCount before H.
  - simpl. unfold len. simpl. rewrite !Z.add_0_r.
    destruct ((before <=? c) && (c <? before)) eqn:E; [lia | reflexivity].
  - simpl in H. apply andb_prop in H as [Hd Hds].
    simpl map. simpl app. simpl beforeDecimalLoop.
    assert (Hlen : len (d :: ds) = 1 + len ds) by (unfold len; simpl; lia).
    rewrite Hlen.
    destruct (before =? c) eqn:E.
    + apply Z.eqb_eq in E. subst before.
      pose proof (len_nonneg ds).
      destruct ((c <=? c) && (c <? c + (1 + len ds))) eqn:E1; [| lia].
      f_equal. f_equal; lia.
    + rewrite (digit_not_comma d Hd), (numbers_digit d Hd).
      rewrite IH by exact Hds.
      destruct ((before + 1 <=? c) && (c <? before + 1 + len ds)) eqn:E1;
        destruct ((before <=? c) && (c <? before + (1 + len ds))) eqn:E2;
        try lia.
      * f_equal. f_equal; lia.
      * f_equal; lia.
Qed.

Lemma afterDecimalLoop_digits (c : Z) (ds : str) (rs : list rune)
    (charCount before after : Z) :
  forallb isDigitByte ds = true ->
  afterDecimalLoop c (map byteZ ds ++ rs) charCount before after =
    if (before + after <=? c) && (c <? before + after + len ds)
    then (charCount + (c - before - after), c - before)
    else afterDecimalLoop c rs (charCount + len ds) before (after + len ds).
Proof.
  revert charCount after.
  induction ds as [| d ds IH]; intros charCount after H.
  - simpl. unfold len. simpl. rewrite !Z.add_0_r.
    destruct ((before + after <=? c) && (c <? before + after)) eqn:E;
      [lia | reflexivity].
  - simpl in H. apply andb_prop in H as [Hd Hds].
    simpl map. simpl app. simpl afterDecimalLoop.
    assert (Hlen : len (d :: ds) = 1 + len ds) by (unfold len; simpl; lia).
    rewrite Hlen.
    destruct (before + after =? c) eqn:E.
    + apply Z.eqb_eq in E.
      pose proof (len_nonneg ds).
      destruct ((before + after <=? c)
                && (c <? before + after + (1 + len ds))) eqn:E1; [| lia].
      f_equal; lia.
    + rewrite (numbers_digit d Hd).
      rewrite IH by exact Hds.
      destruct ((before + (after + 1) <=? c)
                && (c <? before + (after + 1) + len ds)) eqn:E1;
        destruct ((before + after <=? c)
                  && (c <? before + after + (1 + len ds))) eqn:E2;
        try lia.
      * f_equal; lia.
      * f_equal; lia.
Qed.

Lemma afterDecimalLoop_at_count (c : Z) (rs : list rune) (charCount : Z) :
  afterDecimalLoop c rs charCount c 0 = (charCount, 0).
Proof.
  destruct rs as [| r rs]; simpl; [reflexivity |].
  rewrite Z.add_0_r, Z.eqb_refl. reflexivity.
Qed.

Lemma sliceFrom_returns (s : str) (k : Z) :
  0 <= k <= len s -> exists t, sliceFrom s k = Returns t /\ len t = len s - k.
Proof.
  intros H. exists (drop (Z.to_nat k) s). split.
  - apply sliceFrom_in_range. exact H.
  - unfold len in *. rewrite length_drop. lia.
Qed.

Lemma nonempty_streq (s : str) : 0 < len s -> negb (streq s []) = true.
Proof.
  intros H. destruct s; [unfold len in H; simpl in H; lia |].
  reflexivity.
Qed.

(** What [Validate] makes of the answer of [countAndStripFloats]: the
    count is not strict, so only a remainder makes it fail. *)
Lemma amount_validate (c : Z) (input : str) (n : Z) (rest : str) :
  countAndStripFloats (amountGroup c) input = Returns (n, rest) ->
  Validate [Group (amountGroup c)] input =
    Returns (if negb (streq rest []) then Some ErrIncomplete else None).
Proof.
  intros H. apply Validate_single. simpl.
  unfold CharGroupValidatePartial, countAndStripChars. simpl charSetKey.
  rewrite streq_refl. rewrite H. simpl.
  rewrite andb_false_r. reflexivity.
Qed.

(** The first loop stopped at the count: the second loop stops at once and
    the group takes nothing. *)
Lemma floats_stopped_at_count (c : Z) (input : str) (charCount : Z) :
  beforeDecimalLoop c (runes input) 0 0 = Some (charCount, c) ->
  0 <= charCount <= len input ->
  countAndStripFloats (amountGroup c) input = Returns (0, input).
Proof.
  intros H Hr. unfold countAndStripFloats. simpl Count. rewrite H.
  destruct (sliceFrom_returns input charCount Hr) as (t & -> & _). simpl.
  rewrite afterDecimalLoop_at_count. reflexivity.
Qed.

Lemma runes_digits (ds : str) :
  forallb isDigitByte ds = true -> runes ds = map byteZ ds ++ [].
Proof.
  intros H. rewrite <- (app_nil_r ds) at 1.
  rewrite runes_app_digits by exact H. reflexivity.
Qed.

Lemma comma_ascii : byteZ comma < 128.
Proof. reflexivity. Qed.

Lemma amount_accepts (c : Z) (ds1 ds2 : str) :
  forallb isDigitByte ds1 = true ->
  forallb isDigitByte ds2 = true ->
  ds2 <> [] ->
  len ds1 + len ds2 <= c ->
  countAndStripFloats (amountGroup c) (ds1 ++ comma :: ds2)
  = Returns (len ds1 + len ds2, []).
Proof.
  intros H1 H2 Hne Hc.
  pose proof (len_nonneg ds1). pose proof (len_nonneg ds2).
  assert (0 < len ds2).
  { destruct ds2; [congruence | rewrite len_cons; pose proof (len_nonneg ds2); lia]. }
  unfold countAndStripFloats. simpl Count.
  rewrite runes_app_digits by exact H1.
  rewrite runes_cons_ascii by exact comma_ascii.
  rewrite beforeDecimalLoop_digits by exact H1.
  destruct ((0 <=? c) && (c <? 0 + len ds1)) eqn:E; [lia |].
  simpl beforeDecimalLoop.
  destruct (0 + len ds1 =? c) eqn:E1; [lia |].
  change (byteZ comma =? 44) with true. cbv iota.
  replace (ds1 ++ comma :: ds2) with ((ds1 ++ [comma]) ++ ds2)
    by (rewrite <- app_assoc; reflexivity).
  replace (0 + len ds1 + 1) with (len (ds1 ++ [comma]))
    by (rewrite len_app, len_cons; unfold len; simpl; lia).
  rewrite sliceFrom_app. simpl.
  rewrite runes_digits by exact H2.
  rewrite afterDecimalLoop_digits by exact H2.
  destruct ((0 + len ds1 + 0 <=? c) && (c <? 0 + len ds1 + 0 + len ds2)) eqn:E2;
    [lia |].
  simpl afterDecimalLoop. cbv iota beta.
  destruct (0 + len ds2 =? 0) eqn:E3; [lia |].
  replace (len (ds1 ++ [comma]) + len ds2) with (len ((ds1 ++ [comma]) ++ ds2))
    by (rewrite !len_app; reflexivity).
  rewrite <- (app_nil_r ((ds1 ++ [comma]) ++ ds2)) at 1.
  rewrite sliceFrom_app.
  change (Returns (0 + len ds1 + (0 + len ds2), @nil ascii)
          = Returns (len ds1 + len ds2, [])).
  rewrite !Z.add_0_l. reflexivity.
Qed.

Lemma amount_rejects_digits (c : Z) (ds : str) :
  forallb isDigitByte ds = true ->
  countAndStripFloats (amountGroup c) ds = Returns (0, ds).
Proof.
  intros Hd. pose proof (len_nonneg ds).
  destruct ((0 <=? c) && (c <? 0 + len ds)) eqn:E.
  - apply (floats_stopped_at_count c ds (0 + (c - 0))); [| lia].
    rewrite runes_digits by exact Hd.
    rewrite beforeDecimalLoop_digits by exact Hd. rewrite E. reflexivity.
  - unfold countAndStripFloats. simpl Count.
    rewrite runes_digits by exact Hd.
    rewrite beforeDecimalLoop_digits by exact Hd. rewrite E.
    simpl beforeDecimalLoop. cbv iota.
    rewrite Z.add_0_l. rewrite <- (app_nil_r ds) at 1.
    rewrite sliceFrom_app. reflexivity.
Qed.

Lemma amount_rejects_no_fraction (c : Z) (ds : str) :
  forallb isDigitByte ds = true ->
  countAndStripFloats (amountGroup c) (ds ++ [comma])
  = Returns (0, ds ++ [comma]).
Proof.
  intros Hd. pose proof (len_nonneg ds).
  assert (Hlen : len (ds ++ [comma]) = len ds + 1)
    by (rewrite len_app, len_cons; unfold len; simpl; lia).
  assert (Hr : runes (ds ++ [comma]) = map byteZ ds ++ [44]).
  { rewrite runes_app_digits by exact Hd.
    rewrite runes_cons_ascii by exact comma_ascii. reflexivity. }
  destruct ((0 <=? c) && (c <? 0 + len ds)) eqn:E.
  - apply (floats_stopped_at_count c _ (0 + (c - 0))); [| lia].
    rewrite Hr. rewrite beforeDecimalLoop_digits by exact Hd.
    rewrite E. reflexivity.
  - destruct (0 + len ds =? c) eqn:E1.
    + apply (floats_stopped_at_count c _ (0 + len ds)); [| lia].
      rewrite Hr. rewrite beforeDecimalLoop_digits by exact Hd.
      rewrite E. simpl. rewrite E1. f_equal. f_equal. lia.
    + unfold countAndStripFloats. simpl Count. rewrite Hr.
      rewrite beforeDecimalLoop_digits by exact Hd. rewrite E.
      simpl beforeDecimalLoop. rewrite E1. cbv iota.
      replace (0 + len ds + 1) with (len (ds ++ [comma])) by lia.
      rewrite <- (app_nil_r (ds ++ [comma])) at 1.
      rewrite sliceFrom_app. reflexivity.
Qed.

Lemma amount_rejects_two_commas (c : Z) (ds1 ds2 ds3 : str) :
  forallb isDigitByte ds1 = true ->
  forallb isDigitByte ds2 = true ->
  ds3 <> [] ->
  match
    countAndStripFloats (amountGroup c) (ds1 ++ comma :: ds2 ++ comma :: ds3)
  with
  | Returns (_, rest) => 0 < len rest
  | _ => False
  end.
Proof.
  intros H1 H2 Hne.
  set (input := ds1 ++ comma :: ds2 ++ comma :: ds3).
  pose proof (len_nonneg ds1). pose proof (len_nonneg ds2).
  assert (0 < len ds3).
  { destruct ds3; [congruence |].
    rewrite len_cons; pose proof (len_nonneg ds3); lia. }
  assert (Hlen : len input = len ds1 + 1 + len ds2 + 1 + len ds3).
  { unfold input. rewrite len_app, len_cons, len_app, len_cons. lia. }
  assert (Hr : runes input
               = map byteZ ds1 ++ 44 :: runes (ds2 ++ comma :: ds3)).
  { unfold input. rewrite runes_app_digits by exact H1.
    rewrite runes_cons_ascii by exact comma_ascii. reflexivity. }
  assert (Hwhole : 0 < len input) by lia.
  destruct ((0 <=? c) && (c <? 0 + len ds1)) eqn:E.
  { rewrite (floats_stopped_at_count c input (0 + (c - 0)));
      [exact Hwhole | | lia].
    rewrite Hr. rewrite beforeDecimalLoop_digits by exact H1.
    rewrite E. reflexivity. }
  destruct (0 + len ds1 =? c) eqn:E1.
  { rewrite (floats_stopped_at_count c input (0 + len ds1));
      [exact Hwhole | | lia].
    rewrite Hr. rewrite beforeDecimalLoop_digits by exact H1.
    rewrite E. simpl. rewrite E1. f_equal. f_equal. lia. }
  unfold countAndStripFloats. simpl Count. rewrite Hr.
  rewrite beforeDecimalLoop_digits by exact H1. rewrite E.
  simpl beforeDecimalLoop. rewrite E1. cbv iota.
  assert (Hl1 : len (ds1 ++ [comma]) = len ds1 + 1)
    by (rewrite len_app, len_cons; unfold len; simpl; lia).
  assert (Hs : sliceFrom input (0 + len ds1 + 1)
               = Returns (ds2 ++ comma :: ds3)).
  { replace (0 + len ds1 + 1) with (len (ds1 ++ [comma])) by lia.
    unfold input.
    replace (ds1 ++ comma :: ds2 ++ comma :: ds3)
      with ((ds1 ++ [comma]) ++ ds2 ++ comma :: ds3)
      by (rewrite <- app_assoc; reflexivity).
    apply sliceFrom_app. }
  rewrite Hs. simpl mbind.
  change (outcome_bind _ _ ?k (Returns ?a)) with (k a). cbv beta.
  rewrite runes_app_digits by exact H2.
  rewrite runes_cons_ascii by exact comma_ascii.
  rewrite afterDecimalLoop_digits by exact H2.
  destruct ((0 + len ds1 + 0 <=? c) && (c <? 0 + len ds1 + 0 + len ds2)) eqn:E2.
  - destruct (c - (0 + len ds1) =? 0) eqn:E3; [lia |].
    destruct (sliceFrom_returns input
                (0 + len ds1 + 1 + (c - (0 + len ds1) - 0)))
      as (t & Ht & Hlt); [lia |].
    rewrite Ht. simpl. lia.
  - simpl afterDecimalLoop.
    destruct (0 + len ds1 + (0 + len ds2) =? c) eqn:E3.
    + destruct (0 + len ds2 =? 0) eqn:E4; [exact Hwhole |].
      destruct (sliceFrom_returns input (0 + len ds1 + 1 + len ds2))
        as (t & Ht & Hlt); [lia |].
      rewrite Ht. simpl. lia.
    + change (numbers 44) with false. cbv iota.
      destruct (0 + len ds2 =? 0) eqn:E4; [exact Hwhole |].
      destruct (sliceFrom_returns input (0 + len ds1 + 1 + len ds2 + 1))
        as (t & Ht & Hlt); [lia |].
      rewrite Ht. simpl. lia.
Qed.

(** A string of decimal digits that is not empty: the [D+] of the
    specification. *)
Definition digits (ds : str) : Prop :=
  ds <> [] /\ forallb isDigitByte ds = true.

(** *** Compiling a count and a class *)

Section Compile.

Variable isDigitAboveLatin1 : rune -> bool.

Local Abbreviation IsDigit := (IsDigit isDigitAboveLatin1).
Local Abbreviation lexNumberLoop := (lexNumberLoop isDigitAboveLatin1).
Local Abbreviation lex := (lex isDigitAboveLatin1).

Definition mkLexer (inp : str) (p st w : Z) (toks : list token) : lexer :=
  {| input := inp; pos := p; start := st; width := w; tokens := toks |}.

Lemma next_ascii (pre : str) (c : ascii) (post : str) (st w : Z)
    (toks : list token) :
  byteZ c < 128 ->
  next (mkLexer (pre ++ c :: post) (len pre) st w toks)
  = Returns (mkLexer (pre ++ c :: post) (len pre + 1) st 1 toks, byteZ c).
Proof.
  intros Hc. unfold next, mkLexer. simpl input. simpl pos.
  pose proof (len_nonneg pre). pose proof (len_nonneg post).
  destruct (len (pre ++ c :: post) <=? len pre) eqn:E.
  { rewrite len_app, len_cons in E. lia. }
  rewrite sliceFrom_app. simpl.
  destruct (byteZ c <? 128) eqn:E1; [reflexivity | lia].
Qed.

Lemma next_at_end (inp : str) (st w : Z) (toks : list token) :
  next (mkLexer inp (len inp) st w toks)
  = Returns (mkLexer inp (len inp) st w toks, eof).
Proof.
  unfold next, mkLexer. simpl. rewrite Z.leb_refl. reflexivity.
Qed.

Lemma emit_middle (a b c : str) (w : Z) (toks : list token) (t : tokenType) :
  emit (mkLexer (a ++ b ++ c) (len a + len b) (len a) w toks) t
  = Returns (mkLexer (a ++ b ++ c) (len a + len b) (len a + len b) w
               (toks ++ [{| typ := t; val := b |}])).
Proof.
  unfold emit, mkLexer. simpl. rewrite slice_middle. reflexivity.
Qed.

Lemma IsDigit_digit (d : ascii) :
  isDigitByte d = true -> IsDigit (byteZ d) = true.
Proof.
  intros H. unfold pattern.IsDigit.
  pose proof (isDigitByte_ascii d H).
  destruct (byteZ d <=? 255) eqn:E; [exact H | lia].
Qed.

(** [lexNumber] passes a run of digits. *)
Lemma lexNumberLoop_digits (ds pre rest : str) (fuel : nat) (st : Z)
    (toks : list token) :
  forallb isDigitByte ds = true ->
  lexNumberLoop (length ds + fuel) (mkLexer (pre ++ ds ++ rest) (len pre) st 1 toks)
  = lexNumberLoop fuel
      (mkLexer (pre ++ ds ++ rest) (len pre + len ds) st 1 toks).
Proof.
  revert pre. induction ds as [| d ds IH]; intros pre H.
  - simpl. unfold len at 2. simpl. rewrite Z.add_0_r. reflexivity.
  - simpl in H. apply andb_prop in H as [Hd Hds].
    change (length (d :: ds) + fuel)%nat with (S (length ds + fuel)).
    simpl pattern.lexNumberLoop.
    change ((d :: ds) ++ rest) with (d :: ds ++ rest).
    rewrite next_ascii by (apply isDigitByte_ascii; exact Hd).
    simpl mbind.
    change (outcome_bind _ _ ?k (Returns ?a)) with (k a). cbv beta iota.
    rewrite (IsDigit_digit d Hd).
    replace (pre ++ d :: ds ++ rest) with ((pre ++ [d]) ++ ds ++ rest)
      by (rewrite <- app_assoc; reflexivity).
    replace (len pre + 1) with (len (pre ++ [d]))
      by (rewrite len_app; unfold len; simpl; lia).
    rewrite IH by exact Hds.
    f_equal. unfold mkLexer. f_equal.
    rewrite len_app, !len_cons. unfold len at 2. simpl. lia.
Qed.

Local Abbreviation runState := (runState isDigitAboveLatin1).
Local Abbreviation run := (run isDigitAboveLatin1).

Lemma run_step (fuel : nat) (state state' : stateFn) (l l' : lexer) :
  runState fuel state l = Returns (l', Some state') ->
  run (S fuel) state l = run fuel state' l'.
Proof. intros H. simpl. rewrite H. reflexivity. Qed.

Lemma run_last (fuel : nat) (state : stateFn) (l l' : lexer) :
  runState fuel state l = Returns (l', None) ->
  run (S fuel) state l = Returns l'.
Proof. intros H. simpl. rewrite H. reflexivity. Qed.

Ltac bind_returns :=
  simpl mbind;
  change (outcome_bind _ _ ?k (Returns ?a)) with (k a); cbv beta iota.

(** [lexToPattern] in front of a digit hands over to [lexNumber]. *)
Lemma lexToPattern_digit (fuel : nat) (d : ascii) (s : str) :
  isDigitByte d = true ->
  runState fuel lexToPattern (mkLexer (d :: s) 0 0 0 [])
  = Returns (mkLexer (d :: s) 0 0 1 [], Some lexNumber).
Proof.
  intros Hd. unfold pattern.runState.
  change (mkLexer (d :: s) 0 0 0 [])
    with (mkLexer ([] ++ d :: s) (len []) 0 0 []).
  rewrite next_ascii by (apply isDigitByte_ascii; exact Hd).
  bind_returns.
  assert (Hne : (byteZ d =? eof) = false).
  { unfold isDigitByte in Hd. apply andb_prop in Hd as [Hd _].
    unfold eof. lia. }
  rewrite Hne. rewrite (IsDigit_digit d Hd). reflexivity.
Qed.

(** [lexToPattern] at the end of the input sends [tokenEOF] and stops. *)
Lemma lexToPattern_end (fuel : nat) (inp : str) (w : Z)
    (toks : list token) :
  runState fuel lexToPattern (mkLexer inp (len inp) (len inp) w toks)
  = Returns (mkLexer inp (len inp) (len inp) w
               (toks ++ [{| typ := tokenEOF; val := [] |}]), None).
Proof.
  unfold pattern.runState. rewrite next_at_end. bind_returns.
  change (eof =? eof) with true. cbv iota.
  pose proof (emit_middle inp [] [] w toks tokenEOF) as H.
  rewrite !app_nil_r in H. change (len []) with 0 in H.
  rewrite Z.add_0_r in H. rewrite H. reflexivity.
Qed.

(** [lexNumber] on digits followed by [!]: the digits are the count. *)
Lemma lexNumber_strict (ds rest : str) (fuel : nat) :
  forallb isDigitByte ds = true ->
  runState (length ds + S fuel) lexNumber
    (mkLexer (ds ++ "!"%char :: rest) 0 0 1 [])
  = Returns (mkLexer (ds ++ "!"%char :: rest) (len ds) (len ds) 1
               [{| typ := tokenCharCount; val := ds |}],
             Some lexItemCharCountStrictMeta).
Proof.
  intros Hd. unfold pattern.runState.
  pose proof (lexNumberLoop_digits ds [] ("!"%char :: rest) (S fuel) 0 []
                Hd) as H.
  change (len []) with 0 in H. simpl app in H. rewrite H. clear H.
  simpl pattern.lexNumberLoop. rewrite Z.add_0_l.
  rewrite next_ascii by reflexivity. bind_returns.
  change (IsDigit (byteZ "!")) with false.
  change (byteZ "!" =? lineCountMetaRune) with false.
  change (byteZ "!" =? charCountStrictMetaRune) with true. cbv iota.
  unfold pattern.backup, setPos, mkLexer. simpl.
  replace (len ds + 1 - 1) with (len ds) by lia.
  pose proof (emit_middle [] ds ("!"%char :: rest) 1 [] tokenCharCount) as H.
  change (len []) with 0 in H. rewrite Z.add_0_l in H. simpl app in H.
  unfold mkLexer in H. rewrite H. reflexivity.
Qed.

(** [lexNumber] on digits followed by the key of a class. *)
Lemma lexNumber_class (ds rest : str) (c : ascii) (fuel : nat) :
  forallb isDigitByte ds = true ->
  byteZ c < 128 ->
  isCharSetSpecifier (byteZ c) = true ->
  runState (length ds + S fuel) lexNumber (mkLexer (ds ++ c :: rest) 0 0 1 [])
  = Returns (mkLexer (ds ++ c :: rest) (len ds) (len ds) 1
               [{| typ := tokenCharCount; val := ds |}],
             Some lexCharSet).
Proof.
  intros Hd Hc Hk. unfold pattern.runState.
  pose proof (lexNumberLoop_digits ds [] (c :: rest) (S fuel) 0 [] Hd) as H.
  change (len []) with 0 in H. simpl app in H. rewrite H. clear H.
  simpl pattern.lexNumberLoop. rewrite Z.add_0_l.
  rewrite next_ascii by exact Hc. bind_returns.
  assert (Hcases : byteZ c = 110 \/ byteZ c = 97 \/ byteZ c = 99
                   \/ byteZ c = 120 \/ byteZ c = 100).
  { unfold isCharSetSpecifier in Hk.
    repeat (apply orb_prop in Hk as [Hk | Hk]); lia. }
  assert (Hnd : IsDigit (byteZ c) = false).
  { unfold pattern.IsDigit.
    destruct (byteZ c <=? 255) eqn:E; [| lia].
    destruct Hcases as [-> | [-> | [-> | [-> | ->]]]]; reflexivity. }
  rewrite Hnd.
  assert (H1 : (byteZ c =? lineCountMetaRune) = false)
    by (unfold lineCountMetaRune; lia).
  assert (H2 : (byteZ c =? charCountStrictMetaRune) = false)
    by (unfold charCountStrictMetaRune; lia).
  rewrite H1, H2, Hk.
  unfold pattern.backup, setPos, mkLexer. simpl.
  replace (len ds + 1 - 1) with (len ds) by lia.
  pose proof (emit_middle [] ds (c :: rest) 1 [] tokenCharCount) as H.
  change (len []) with 0 in H. rewrite Z.add_0_l in H. simpl app in H.
  unfold mkLexer in H. rewrite H. reflexivity.
Qed.

(** A state that reads one byte and sends it as a token. *)
Lemma next_emit (pre post : str) (c : ascii) (w : Z) (toks : list token)
    (t : tokenType) :
  byteZ c < 128 ->
  ('(l, _) ← pattern.next (mkLexer (pre ++ c :: post) (len pre) (len pre) w toks);
   emit l t)
  = Returns (mkLexer (pre ++ c :: post) (len pre + 1) (len pre + 1) 1
               (toks ++ [{| typ := t; val := [c] |}])).
Proof.
  intros Hc. rewrite next_ascii by exact Hc. bind_returns.
  pose proof (emit_middle pre [c] post 1 toks t) as H.
  change (len [c]) with 1 in H. simpl app in H. exact H.
Qed.

Lemma lexItemCharCountStrictMeta_run (fuel : nat) (pre post : str)
    (w : Z) (toks : list token) :
  runState fuel lexItemCharCountStrictMeta
    (mkLexer (pre ++ "!"%char :: post) (len pre) (len pre) w toks)
  = Returns (mkLexer (pre ++ "!"%char :: post) (len pre + 1) (len pre + 1) 1
               (toks ++ [{| typ := tokenCharCountStrictMeta;
                            val := ["!"%char] |}]),
             Some lexCharSet).
Proof.
  unfold pattern.runState, lexMeta.
  pose proof (next_emit pre post "!"%char w toks tokenCharCountStrictMeta
                eq_refl) as H.
  simpl mbind in *.
  destruct (pattern.next _) as [[l r] | |]; simpl in *;
    try discriminate.
  rewrite H. reflexivity.
Qed.

Lemma lexCharSet_run (fuel : nat) (pre post : str) (c : ascii)
    (w : Z) (toks : list token) :
  byteZ c < 128 ->
  runState fuel lexCharSet
    (mkLexer (pre ++ c :: post) (len pre) (len pre) w toks)
  = Returns (mkLexer (pre ++ c :: post) (len pre + 1) (len pre + 1) 1
               (toks ++ [{| typ := tokenCharSet; val := [c] |}]),
             Some lexToPattern).
Proof.
  intros Hc. unfold pattern.runState.
  pose proof (next_emit pre post c w toks tokenCharSet Hc) as H.
  simpl mbind in *.
  destruct (pattern.next _) as [[l r] | |]; simpl in *;
    try discriminate.
  rewrite H. reflexivity.
Qed.

Definition tok (t : tokenType) (v : str) : token := {| typ := t; val := v |}.

(** The tokens of [<digits>!<c>]. *)
Lemma lex_count_strict_class (ds : str) (c : ascii) (extra : nat) :
  ds <> [] ->
  forallb isDigitByte ds = true ->
  byteZ c < 128 ->
  lex (S (S (S (S (S (length ds + extra)))))) (ds ++ ["!"%char; c])
  = Returns [tok tokenCharCount ds; tok tokenCharCountStrictMeta ["!"%char];
             tok tokenCharSet [c]; tok tokenEOF []].
Proof.
  intros Hne Hd Hc. unfold pattern.lex.
  destruct ds as [| d0 ds0] eqn:Eds; [congruence |]. rewrite <- Eds in *.
  assert (Hd0 : isDigitByte d0 = true).
  { rewrite Eds in Hd. simpl in Hd. apply andb_prop in Hd as [H _]. exact H. }
  fold (mkLexer (ds ++ ["!"%char; c]) 0 0 0 []).
  rewrite (run_step _ lexToPattern lexNumber _
             (mkLexer (ds ++ ["!"%char; c]) 0 0 1 [])).
  2:{ rewrite Eds. apply lexToPattern_digit. exact Hd0. }
  rewrite (run_step _ lexNumber lexItemCharCountStrictMeta _
             (mkLexer (ds ++ ["!"%char; c]) (len ds) (len ds) 1
                [tok tokenCharCount ds])).
  2:{ replace (S (S (S (length ds + extra))))
        with (length ds + S (S (S extra)))%nat by lia.
      apply lexNumber_strict. exact Hd. }
  rewrite (run_step _ lexItemCharCountStrictMeta lexCharSet _ _
             (lexItemCharCountStrictMeta_run _ ds [c] 1 _)).
  replace (ds ++ ["!"%char; c]) with ((ds ++ ["!"%char]) ++ [c])
    by (rewrite <- app_assoc; reflexivity).
  assert (Hl : len ds + 1 = len (ds ++ ["!"%char]))
    by (rewrite len_app; reflexivity).
  rewrite Hl.
  rewrite (run_step _ lexCharSet lexToPattern _ _
             (lexCharSet_run _ (ds ++ ["!"%char]) [] c 1 _ Hc)).
  assert (Hl2 : len (ds ++ ["!"%char]) + 1 = len ((ds ++ ["!"%char]) ++ [c]))
    by (rewrite (len_app _ [c]); reflexivity).
  rewrite Hl2.
  rewrite (run_last _ lexToPattern _ _ (lexToPattern_end _ _ 1 _)).
  reflexivity.
Qed.

(** The tokens of [<digits><key>]. *)
Lemma lex_count_class (ds : str) (c : ascii) (extra : nat) :
  ds <> [] ->
  forallb isDigitByte ds = true ->
  byteZ c < 128 ->
  isCharSetSpecifier (byteZ c) = true ->
  lex (S (S (S (S (length ds + extra))))) (ds ++ [c])
  = Returns [tok tokenCharCount ds; tok tokenCharSet [c]; tok tokenEOF []].
Proof.
  intros Hne Hd Hc Hk. unfold pattern.lex.
  destruct ds as [| d0 ds0] eqn:Eds; [congruence |]. rewrite <- Eds in *.
  assert (Hd0 : isDigitByte d0 = true).
  { rewrite Eds in Hd. simpl in Hd. apply andb_prop in Hd as [H _]. exact H. }
  fold (mkLexer (ds ++ [c]) 0 0 0 []).
  rewrite (run_step _ lexToPattern lexNumber _
             (mkLexer (ds ++ [c]) 0 0 1 [])).
  2:{ rewrite Eds. apply lexToPattern_digit. exact Hd0. }
  rewrite (run_step _ lexNumber lexCharSet _
             (mkLexer (ds ++ [c]) (len ds) (len ds) 1
                [tok tokenCharCount ds])).
  2:{ replace (S (S (length ds + extra)))
        with (length ds + S (S extra))%nat by lia.
      apply lexNumber_class; assumption. }
  rewrite (run_step _ lexCharSet lexToPattern _ _
             (lexCharSet_run _ ds [] c 1 _ Hc)).
  assert (Hl2 : len ds + 1 = len (ds ++ [c]))
    by (rewrite (len_app _ [c]); reflexivity).
  rewrite Hl2.
  rewrite (run_last _ lexToPattern _ _ (lexToPattern_end _ _ 1 _)).
  reflexivity.
Qed.

(** The pattern [<digits>!<c>] compiles to one strict group of the class
    [c], whatever byte below 128 [c] is. *)
Lemma Parse_count_strict_class (ds : str) (c : ascii) (fuel : nat) :
  ds <> [] ->
  forallb isDigitByte ds = true ->
  byteZ c < 128 ->
  (length ds + 5 <= fuel)%nat ->
  Parse isDigitAboveLatin1 fuel (ds ++ ["!"%char; c])
  = Returns (inl [Group (astCharGroupToCharGroup (fst (Atoi ds)) true [c])]).
Proof.
  intros Hne Hd Hc Hf.
  replace fuel with (S (S (S (S (S (length ds + (fuel - length ds - 5)))))))
    by lia.
  unfold Parse. rewrite lex_count_strict_class by assumption.
  reflexivity.
Qed.

(** The pattern [<digits><key>] compiles to one group of the class, not
    strict. *)
Lemma Parse_count_class (ds : str) (c : ascii) (fuel : nat) :
  ds <> [] ->
  forallb isDigitByte ds = true ->
  byteZ c < 128 ->
  isCharSetSpecifier (byteZ c) = true ->
  (length ds + 4 <= fuel)%nat ->
  Parse isDigitAboveLatin1 fuel (ds ++ [c])
  = Returns (inl [Group (astCharGroupToCharGroup (fst (Atoi ds)) false [c])]).
Proof.
  intros Hne Hd Hc Hk Hf.
  replace fuel with (S (S (S (S (length ds + (fuel - length ds - 4))))))
    by lia.
  unfold Parse. rewrite lex_count_class by assumption.
  reflexivity.
Qed.

End Compile.

Lemma amountGroup_compiled (c : Z) :
  astCharGroupToCharGroup c false (lit "d") = amountGroup c.
Proof. reflexivity. Qed.

(** *** A class key that is not in the table *)

(** The group [process] builds for a key without a character set. *)
Definition nilGroup (n : Z) (key : ascii) : CharGroup :=
  {| charSetKey := [key]; CharSetOf := None; Count := n;
     CountStrict := true |}.

Definition isLetter (c : ascii) : Prop :=
  65 <= byteZ c <= 90 \/ 97 <= byteZ c <= 122.

Lemma byteZ_inj (a b : ascii) : byteZ a = byteZ b -> a = b.
Proof.
  unfold byteZ. intros H. apply N2Z.inj in H.
  rewrite <- (ascii_N_embedding a), <- (ascii_N_embedding b).
  rewrite H. reflexivity.
Qed.

Lemma streq_single (c k : ascii) :
  byteZ c <> byteZ k -> streq [c] [k] = false.
Proof.
  intros H. apply streq_false. intros E. inversion E. subst. congruence.
Qed.

Lemma charSets_not_key (c : ascii) :
  isCharSetSpecifier (byteZ c) = false -> charSets [c] = None.
Proof.
  intros H. unfold isCharSetSpecifier in H.
  repeat (apply orb_false_elim in H as [H ?]).
  unfold charSets. simpl list_ascii_of_string.
  rewrite !streq_single; [reflexivity | | | | |];
    match goal with |- byteZ c <> byteZ ?k => change (byteZ k) with
      ltac:(let v := eval vm_compute in (byteZ k) in exact v) end; lia.
Qed.

Lemma runes_nonempty (s : str) : s <> [] -> exists r rs, runes s = r :: rs.
Proof.
  intros H. destruct s as [| a s]; [congruence |].
  unfold runes.
  change (runesFrom (length (a :: s)) (a :: s))
    with (let '(r, w) := DecodeRuneInString (a :: s) in
          r :: runesFrom (length s) (drop (Z.to_nat w) (a :: s))).
  destruct (DecodeRuneInString (a :: s)) as [r w].
  do 2 eexists. reflexivity.
Qed.

(** C10 as stated does not hold for the count 0: the pattern [0!z]
    compiles to a group without a character set, but the loop leaves at
    the count before it calls the set, so no input makes it fault, and the
    empty input is accepted. *)
Lemma zero_count_unknown_class_no_fault :
  (forall isDigitAboveLatin1,
      Parse isDigitAboveLatin1 20 (lit "0!z")
      = Returns (inl [Group (nilGroup 0 "z")])) /\
  Validate [Group (nilGroup 0 "z")] (lit "a") = Returns (Some ErrIncomplete) /\
  Validate [Group (nilGroup 0 "z")] [] = Returns None.
Proof. repeat split; reflexivity. Qed.

Lemma decimalValue_nonneg (s : str) (n : Z) :
  forallb isDigitByte s = true -> 0 <= n ->
  0 <= fold_left (fun n c => n * 10 + (byteZ c - 48)) s n.
Proof.
  revert n. induction s as [| c s IH]; intros n H Hn; [exact Hn |].
  simpl in H. apply andb_prop in H as [Hc Hs]. simpl. apply IH; [exact Hs |].
  unfold isDigitByte in Hc. lia.
Qed.

(** The number [Atoi] gives for a string of digits is not negative. *)
Lemma Atoi_digits_nonneg (ds : str) : digits ds -> 0 <= fst (Atoi ds).
Proof.
  intros [Hne Hd]. destruct ds as [| c t]; [congruence |].
  unfold Atoi.
  assert (Hc : isDigitByte c = true) by (simpl in Hd; apply andb_prop in Hd; tauto).
  assert (E1 : Ascii.eqb c "-" = false).
  { apply Ascii.eqb_neq. intros ->. discriminate Hc. }
  assert (E2 : Ascii.eqb c "+" = false).
  { apply Ascii.eqb_neq. intros ->. discriminate Hc. }
  rewrite E1, E2, Hd.
  pose proof (decimalValue_nonneg (c :: t) 0 Hd ltac:(lia)) as Hv.
  fold (decimalValue (c :: t)) in Hv.
  destruct (MaxInt64 <? decimalValue (c :: t)); simpl; [| exact Hv].
  unfold MaxInt64. lia.
Qed.

(** C10, amended. A count, [!] and a letter that is none of [n], [a],
    [c], [x], [d] compile without an error to one strict group whose
    character set is nil. When the count is not zero, validating an input
    that is not empty against the group calls the nil function and panics,
    and validating the empty input returns the error of a count that was
    not reached. When the count is zero, the counting loop leaves before
    it calls the set and nothing panics: the empty input is accepted and
    every input that is not empty is rejected with the error "incomplete
    match". *)
Theorem unknown_class_group (isDigitAboveLatin1 : rune -> bool)
    (ds : str) (key : ascii) (fuel : nat) :
  digits ds ->
  isLetter key ->
  isCharSetSpecifier (byteZ key) = false ->
  (length ds + 5 <= fuel)%nat ->
  let n := fst (Atoi ds) in
  let p := [Group (nilGroup n key)] in
  Parse isDigitAboveLatin1 fuel (ds ++ ["!"%char; key]) = Returns (inl p) /\
  (n <> 0 ->
   (forall input, input <> [] -> Validate p input = Panics) /\
   Validate p [] = Returns (Some (ErrInputInvalid (ErrCount n [key] 0)))) /\
  (n = 0 ->
   (forall input,
       input <> [] -> Validate p input = Returns (Some ErrIncomplete)) /\
   Validate p [] = Returns None).
Proof.
  intros Hdig Hl Hk Hf n p.
  pose proof (Atoi_digits_nonneg ds Hdig) as Hn. fold n in Hn.
  destruct Hdig as [Hne Hd].
  assert (Hascii : byteZ key < 128) by (destruct Hl; lia).
  assert (Hd' : streq [key] (lit "d") = false).
  { apply streq_single. unfold isCharSetSpecifier in Hk.
    repeat (apply orb_false_elim in Hk as [Hk ?]).
    change (byteZ "d") with 100. lia. }
  assert (Hempty : Validate p []
            = Returns (if 0 <? n
                       then Some (ErrInputInvalid (ErrCount n [key] 0))
                       else None)).
  { unfold Validate, p. cbn [validateLoop ValidatePartial].
    unfold CharGroupValidatePartial, countAndStripChars.
    cbn [charSetKey nilGroup]. rewrite Hd'. rewrite runes_nil.
    cbn [countLoop].
    change (Returns 0 ≫= (fun count : Z =>
              sliceFrom [] count ≫= (fun rest : str => Returns (count, rest))))
      with (Returns (A := Z * str) (0, [])).
    cbn [mbind outcome_bind Count CountStrict nilGroup].
    destruct (0 <? n); reflexivity. }
  split; [| split].
  - rewrite Parse_count_strict_class by (try split; assumption).
    unfold astCharGroupToCharGroup. rewrite (charSets_not_key key Hk).
    reflexivity.
  - intros Hpos. split.
    + intros input Hin.
      destruct (runes_nonempty input Hin) as (r & rs & Hr).
      unfold Validate, p. cbn [validateLoop ValidatePartial].
      unfold CharGroupValidatePartial, countAndStripChars.
      cbn [charSetKey nilGroup]. rewrite Hd'. rewrite Hr.
      cbn [countLoop Count CharSetOf nilGroup].
      destruct (0 =? n) eqn:E; [lia |]. reflexivity.
    + rewrite Hempty. destruct (0 <? n) eqn:E; [reflexivity | lia].
  - intros Hzero. split.
    + intros input Hin.
      destruct (runes_nonempty input Hin) as (r & rs & Hr).
      unfold Validate, p. cbn [validateLoop ValidatePartial].
      unfold CharGroupValidatePartial, countAndStripChars.
      cbn [charSetKey nilGroup]. rewrite Hd'. rewrite Hr.
      cbn [countLoop Count CharSetOf nilGroup].
      rewrite Hzero. cbn [Z.eqb].
      cbn [mbind outcome_bind].
      rewrite sliceFrom_zero.
      cbn [mbind outcome_bind Count CountStrict nilGroup Z.ltb Z.compare andb].
      apply streq_false in Hin. rewrite Hin. reflexivity.
    + rewrite Hempty, Hzero. reflexivity.
Qed.

Lemma unknown_class_group_witness :
  (Parse (fun _ => false) 20 (lit "1!z")
   = Returns (inl [Group (nilGroup 1 "z")])
   /\ Validate [Group (nilGroup 1 "z")] (lit "A") = Panics
   /\ Validate [Group (nilGroup 1 "z")] []
      = Returns (Some (ErrInputInvalid (ErrCount 1 (lit "z") 0))))
  /\ (Parse (fun _ => false) 20 (lit "00!z")
      = Returns (inl [Group (nilGroup 0 "z")])
      /\ Validate [Group (nilGroup 0 "z")] (lit "AB")
         = Returns (Some ErrIncomplete)
      /\ Validate [Group (nilGroup 0 "z")] [] = Returns None).
Proof.
  assert (Hl : isLetter "z") by (right; vm_compute; split; discriminate).
  split.
  - assert (Hd : digits (lit "1")) by (split; [discriminate | reflexivity]).
    destruct (unknown_class_group (fun _ => false) (lit "1") "z" 20 Hd Hl
                eq_refl ltac:(simpl; lia)) as (H1 & H2 & _).
    destruct H2 as [H2 H3]; [discriminate |].
    split; [exact H1 | split; [| exact H3]].
    apply H2. discriminate.
  - assert (Hd : digits (lit "00")) by (split; [discriminate | reflexivity]).
    destruct (unknown_class_group (fun _ => false) (lit "00") "z" 20 Hd Hl
                eq_refl ltac:(simpl; lia)) as (H1 & _ & H2).
    destruct H2 as [H2 H3]; [reflexivity |].
    split; [exact H1 | split; [| exact H3]].
    apply H2. discriminate.
Defined.

(** *** The amount pattern *)

(** C2. The pattern [<c>d] compiles to one amount group of count [c] that
    is not strict; for this pattern [Validate] accepts every string of
    digits, one comma and digits with at most [c] digits in all, and it
    rejects a string of digits without a comma, a string of digits that
    ends in its comma, and a string with two commas that ends in
    digits. *)
Theorem amount_group_validate (c : Z) :
  (forall isDigitAboveLatin1 count fuel,
      digits count -> fst (Atoi count) = c ->
      (length count + 4 <= fuel)%nat ->
      Parse isDigitAboveLatin1 fuel (count ++ lit "d")
      = Returns (inl [Group (amountGroup c)])) /\
  (forall ds1 ds2,
      digits ds1 -> digits ds2 -> len ds1 + len ds2 <= c ->
      succeeded (Validate [Group (amountGroup c)] (ds1 ++ comma :: ds2))) /\
  (forall ds, digits ds -> failed (Validate [Group (amountGroup c)] ds)) /\
  (forall ds,
      digits ds -> failed (Validate [Group (amountGroup c)] (ds ++ [comma]))) /\
  (forall ds1 ds2 ds3,
      digits ds1 -> forallb isDigitByte ds2 = true -> digits ds3 ->
      failed (Validate [Group (amountGroup c)]
                (ds1 ++ comma :: ds2 ++ comma :: ds3))).
Proof.
  split; [| repeat split].
  - intros nd count fuel [Hne Hd] <- Hf.
    change (lit "d") with ["d"%char].
    rewrite (Parse_count_class nd count "d" fuel Hne Hd); try reflexivity.
    exact Hf.
  - intros ds1 ds2 [_ H1] [Hne H2] Hc. unfold succeeded.
    rewrite (amount_validate c _ _ _ (amount_accepts c ds1 ds2 H1 H2 Hne Hc)).
    reflexivity.
  - intros ds [Hne Hd]. exists ErrIncomplete.
    rewrite (amount_validate c _ _ _ (amount_rejects_digits c ds Hd)).
    apply streq_false in Hne. rewrite Hne. reflexivity.
  - intros ds [_ Hd]. exists ErrIncomplete.
    rewrite (amount_validate c _ _ _ (amount_rejects_no_fraction c ds Hd)).
    assert (Hne : ds ++ [comma] <> []) by (destruct ds; discriminate).
    apply streq_false in Hne. rewrite Hne. reflexivity.
  - intros ds1 ds2 ds3 [_ H1] H2 [Hne _]. exists ErrIncomplete.
    pose proof (amount_rejects_two_commas c ds1 ds2 ds3 H1 H2 Hne) as Hf.
    destruct (countAndStripFloats (amountGroup c)
                (ds1 ++ comma :: ds2 ++ comma :: ds3))
      as [[n rest] | |] eqn:Ef; try contradiction.
    rewrite (amount_validate c _ _ _ Ef).
    rewrite nonempty_streq by exact Hf. reflexivity.
Qed.

Lemma amount_group_validate_witness :
  Parse (fun _ => false) 20 (lit "15d") = Returns (inl [Group (amountGroup 15)])
  /\ succeeded (Validate [Group (amountGroup 15)] (lit "40000,00"))
  /\ failed (Validate [Group (amountGroup 15)] (lit "4000000"))
  /\ failed (Validate [Group (amountGroup 15)] (lit "40000,"))
  /\ failed (Validate [Group (amountGroup 15)] (lit "40,000,00")).
Proof.
  destruct (amount_group_validate 15) as (H0 & H1 & H2 & H3 & H4).
  assert (D : forall s, s <> [] -> forallb isDigitByte s = true -> digits s)
    by (intros s ? ?; split; assumption).
  split; [| split; [| split; [| split]]].
  - apply (H0 (fun _ => false) (lit "15") 20%nat);
      [apply D; [discriminate | reflexivity] | reflexivity | simpl; lia].
  - apply (H1 (lit "40000") (lit "00"));
      [apply D; [discriminate | reflexivity]
      | apply D; [discriminate | reflexivity]
      | vm_compute; discriminate].
  - apply (H2 (lit "4000000")). apply D; [discriminate | reflexivity].
  - apply (H3 (lit "40000")). apply D; [discriminate | reflexivity].
  - apply (H4 (lit "40") (lit "000") (lit "00"));
      [apply D; [discriminate | reflexivity] | reflexivity
      | apply D; [discriminate | reflexivity]].
Defined.
End PatternSpec.

(** ** The header decoders and the statement line *)

Module MtSpec.

Import mt GoFacts.

(** The bytes of [s] from index [lo] up to, not including, [hi]. *)
Definition sub (s : str) (lo hi : nat) : str := take (hi - lo) (drop lo s).

Definition blockOf (content : str) : message.Block :=
  {| message.Label := lit "1"; message.Content := content;
     message.Fields := None; message.Blocks := [] |}.

(** *** The basic header *)

Lemma slice_sub (s : str) (lo hi : Z) :
  0 <= lo <= hi -> hi <= len s ->
  slice s lo hi = Returns (sub s (Z.to_nat lo) (Z.to_nat hi)).
Proof.
  intros H1 H2. rewrite slice_in_range by lia.
  unfold sub.
  replace (Z.to_nat (hi - lo)) with (Z.to_nat hi - Z.to_nat lo)%nat by lia.
  reflexivity.
Qed.

Lemma applicationId_known (s : str) :
  In s [lit "F"; lit "A"; lit "L"] ->
  exists a,
    ApplicationIDString a = s /\
    (if streq s (lit "F") then Some ApplicationIDFinancial
     else if streq s (lit "A") then Some ApplicationIDGeneral
     else if streq s (lit "L") then Some ApplicationIDLogin
     else None) = Some a.
Proof.
  intros [<- | [<- | [<- | []]]];
    [exists ApplicationIDFinancial | exists ApplicationIDGeneral
    | exists ApplicationIDLogin]; split; reflexivity.
Qed.

Lemma applicationId_unknown (s : str) :
  ~ In s [lit "F"; lit "A"; lit "L"] ->
  (if streq s (lit "F") then Some ApplicationIDFinancial
   else if streq s (lit "A") then Some ApplicationIDGeneral
   else if streq s (lit "L") then Some ApplicationIDLogin
   else None) = None.
Proof.
  intros H.
  destruct (streq s (lit "F")) eqn:E1;
    [apply streq_true in E1; exfalso; apply H; rewrite E1; simpl; tauto |].
  destruct (streq s (lit "A")) eqn:E2;
    [apply streq_true in E2; exfalso; apply H; rewrite E2; simpl; tauto |].
  destruct (streq s (lit "L")) eqn:E3;
    [apply streq_true in E3; exfalso; apply H; rewrite E3; simpl; tauto |].
  reflexivity.
Qed.

Lemma serviceId_known (s : str) :
  In s [lit "01"; lit "21"] ->
  exists sid,
    ServiceIDString sid = s /\
    (if streq s (lit "01") then Some ServiceIDFINGPA
     else if streq s (lit "21") then Some ServiceIDACKNACK
     else None) = Some sid.
Proof.
  intros [<- | [<- | []]];
    [exists ServiceIDFINGPA | exists ServiceIDACKNACK]; split; reflexivity.
Qed.

Lemma serviceId_unknown (s : str) :
  ~ In s [lit "01"; lit "21"] ->
  (if streq s (lit "01") then Some ServiceIDFINGPA
   else if streq s (lit "21") then Some ServiceIDACKNACK
   else None) = None.
Proof.
  intros H.
  destruct (streq s (lit "01")) eqn:E1;
    [apply streq_true in E1; exfalso; apply H; rewrite E1; simpl; tauto |].
  destruct (streq s (lit "21")) eqn:E2;
    [apply streq_true in E2; exfalso; apply H; rewrite E2; simpl; tauto |].
  reflexivity.
Qed.

(** C4. Decoding the content of block 1 returns an error whenever the
    content is not 25 bytes long, or its byte 0 is none of [F], [A], [L],
    or its bytes 1 to 2 are neither [01] nor [21], and the error names the
    first of these that holds: the length error with the length when the
    content is not 25 bytes long; the unknown-application-id error with
    byte 0 when the length is 25 and byte 0 is none of [F], [A], [L]; the
    unknown-service-id error with bytes 1 to 2 when the length is 25, byte
    0 is known and bytes 1 to 2 are neither [01] nor [21]. In each case the
    header returned with the error holds the rebuilt block text. Otherwise
    the decoder returns without an error the header whose application id
    is that of byte 0, whose service id is that of bytes 1 to 2, and whose
    logical terminal address, session number and sequence number are the
    bytes 3 to 14, 15 to 18 and 19 to 24. *)
Theorem basic_header_decoding (content : str) :
  let result := basicHeaderBlockToBasicHeader (blockOf content) in
  let appId := sub content 0 1 in
  let serviceId := sub content 1 3 in
  let fails (e : error) :=
    exists h,
      Raw h = lit "{1:" ++ content ++ lit "}" /\
      result = Returns (h, Some e) in
  (length content <> 25%nat
   \/ ~ In appId [lit "F"; lit "A"; lit "L"]
   \/ ~ In serviceId [lit "01"; lit "21"] ->
   exists h e, result = Returns (h, Some e)) /\
  (length content <> 25%nat ->
   fails (ErrBasicHeaderLength (len content))) /\
  (length content = 25%nat ->
   ~ In appId [lit "F"; lit "A"; lit "L"] ->
   fails (ErrUnknownApplicationID appId)) /\
  (length content = 25%nat ->
   In appId [lit "F"; lit "A"; lit "L"] ->
   ~ In serviceId [lit "01"; lit "21"] ->
   fails (ErrUnknownServiceID serviceId)) /\
  (length content = 25%nat ->
   In appId [lit "F"; lit "A"; lit "L"] ->
   In serviceId [lit "01"; lit "21"] ->
   exists a s,
     ApplicationIDString a = appId /\
     ServiceIDString s = serviceId /\
     result = Returns
       ({| Raw := lit "{1:" ++ content ++ lit "}";
           AppID := a;
           ServiceId := s;
           SessionNumber := sub content 15 19;
           SequenceNumber := sub content 19 25;
           LogicalTerminalAddress := sub content 3 15 |}, None)).
Proof.
  intros result appId serviceId fails.
  unfold fails, result, basicHeaderBlockToBasicHeader, blockOf.
  cbn [message.Content].
  destruct (Nat.eq_dec (length content) 25%nat) as [Hlen | Hlen].
  - assert (E : (len content =? 25) = true) by (unfold len; lia).
    rewrite E. cbn [negb].
    assert (Hl : len content = 25) by (unfold len; lia).
    rewrite (slice_sub content 0 1) by lia.
    rewrite (slice_sub content 1 3) by lia.
    rewrite (slice_sub content 3 15) by lia.
    rewrite (slice_sub content 15 19) by lia.
    rewrite (sliceFrom_in_range content 19) by lia.
    change (Z.to_nat 0) with 0%nat. change (Z.to_nat 1) with 1%nat.
    change (Z.to_nat 3) with 3%nat. change (Z.to_nat 15) with 15%nat.
    change (Z.to_nat 19) with 19%nat.
    fold appId serviceId. cbn [mbind outcome_bind].
    assert (Hseq : drop 19 content = sub content 19 25).
    { unfold sub. rewrite take_ge; [reflexivity |].
      rewrite length_drop. lia. }
    split; [| split; [| split; [| split]]].
    + intros [H | [H | H]]; [contradiction | |].
      * rewrite (applicationId_unknown appId H). eauto.
      * match goal with
        | |- context [match ?x with Some _ => _ | None => _ end] =>
            destruct x as [a |]
        end; [| eauto].
        rewrite (serviceId_unknown serviceId H). eauto.
    + contradiction.
    + intros _ H. rewrite (applicationId_unknown appId H).
      eexists. split; [| reflexivity]. reflexivity.
    + intros _ Ha H.
      destruct (applicationId_known appId Ha) as (a & Has & ->).
      rewrite (serviceId_unknown serviceId H).
      eexists. split; [| reflexivity]. reflexivity.
    + intros _ Ha Hs.
      destruct (applicationId_known appId Ha) as (a & Has & ->).
      destruct (serviceId_known serviceId Hs) as (s & Hss & ->).
      exists a, s. rewrite Hseq. auto.
  - assert (E : (len content =? 25) = false) by (unfold len; lia).
    rewrite E. cbn [negb].
    split; [eauto | split; [| split; [| split]]]; try contradiction.
    intros _. eexists. split; [| reflexivity]. reflexivity.
Qed.

Lemma basic_header_decoding_witness :
  basicHeaderBlockToBasicHeader (blockOf (lit "F01SCBLZAJJXXXX5712100002"))
  = Returns
      ({| Raw := lit "{1:F01SCBLZAJJXXXX5712100002}";
          AppID := ApplicationIDFinancial;
          ServiceId := ServiceIDFINGPA;
          SessionNumber := lit "5712";
          SequenceNumber := lit "100002";
          LogicalTerminalAddress := lit "SCBLZAJJXXXX" |}, None)
  /\ (exists h,
        Raw h = lit "{1:F01SCBLZAJJ}" /\
        basicHeaderBlockToBasicHeader (blockOf (lit "F01SCBLZAJJ"))
        = Returns (h, Some (ErrBasicHeaderLength 11)))
  /\ (exists h,
        Raw h = lit "{1:X01SCBLZAJJXXXX5712100002}" /\
        basicHeaderBlockToBasicHeader
          (blockOf (lit "X01SCBLZAJJXXXX5712100002"))
        = Returns (h, Some (ErrUnknownApplicationID (lit "X"))))
  /\ (exists h,
        Raw h = lit "{1:F99SCBLZAJJXXXX5712100002}" /\
        basicHeaderBlockToBasicHeader
          (blockOf (lit "F99SCBLZAJJXXXX5712100002"))
        = Returns (h, Some (ErrUnknownServiceID (lit "99")))).
Proof.
  split; [| split; [| split]].
  - destruct (basic_header_decoding (lit "F01SCBLZAJJXXXX5712100002"))
      as (_ & _ & _ & _ & H).
    destruct H as (a & s & Ha & Hs & ->);
      [reflexivity | left; reflexivity | left; reflexivity |].
    destruct a; try discriminate Ha. destruct s; try discriminate Hs.
    reflexivity.
  - destruct (basic_header_decoding (lit "F01SCBLZAJJ")) as (_ & H & _).
    apply H. simpl. lia.
  - destruct (basic_header_decoding (lit "X01SCBLZAJJXXXX5712100002"))
      as (_ & _ & H & _).
    apply H; [reflexivity |]. simpl.
    intros [E | [E | [E | []]]]; discriminate E.
  - destruct (basic_header_decoding (lit "F99SCBLZAJJXXXX5712100002"))
      as (_ & _ & _ & H & _).
    apply H; [reflexivity | left; reflexivity |]. simpl.
    intros [E | [E | []]]; discriminate E.
Defined.

(** *** The obsolescence period of the input application header *)

Definition appBlock (content : str) : message.Block :=
  {| message.Label := lit "2"; message.Content := content;
     message.Fields := None; message.Blocks := [] |}.

Definition obsolescenceError : error :=
  ErrCouldNotSet "obsolescence period"
    (ErrInvalidObsolescencePeriod 0 ErrSyntax).

(** C8 at the input on which the code departs from it. The tail [000] is
    three decimal digits of value 0; taking the leading zeros away leaves
    the empty string, which [Atoi] does not accept, so the header is
    refused with the error of an invalid obsolescence period instead of
    being decoded with a period of 0 minutes. The same holds with a
    priority, and with a priority and a delivery monitor, before the
    tail. *)
Theorem obsolescence_zero_rejected :
  (exists h,
      appHeaderBlockToAppHeaderInput (appBlock (lit "I940BOFAUS6BXBAM000"))
      = Returns (h, Some obsolescenceError)) /\
  (exists h,
      appHeaderBlockToAppHeaderInput (appBlock (lit "I940BOFAUS6BXBAMN000"))
      = Returns (h, Some obsolescenceError)) /\
  (exists h,
      appHeaderBlockToAppHeaderInput (appBlock (lit "I940BOFAUS6BXBAMN2000"))
      = Returns (h, Some obsolescenceError)).
Proof. repeat split; eexists; reflexivity. Qed.

Lemma decimalValue_from (s : str) (acc : Z) :
  forallb isDigitByte s = true -> 0 <= acc ->
  acc * 10 ^ len s
  <= fold_left (fun n c => n * 10 + (byteZ c - 48)) s acc
  < (acc + 1) * 10 ^ len s.
Proof.
  revert acc. induction s as [| c s IH]; intros acc H Hacc.
  - simpl. change (len []) with 0. simpl. lia.
  - simpl in H. apply andb_prop in H as [Hc Hs].
    unfold isDigitByte in Hc. apply andb_prop in Hc as [Hc1 Hc2].
    simpl fold_left. rewrite len_cons.
    pose proof (len_nonneg s) as Hl.
    replace (1 + len s) with (Z.succ (len s)) by lia.
    rewrite Z.pow_succ_r by exact Hl.
    assert (Hp : 0 < 10 ^ len s) by (apply Z.pow_pos_nonneg; lia).
    specialize (IH (acc * 10 + (byteZ c - 48)) Hs ltac:(lia)).
    nia.
Qed.

Lemma decimalValue_bound (s : str) :
  forallb isDigitByte s = true -> 0 <= decimalValue s < 10 ^ len s.
Proof.
  intros H. pose proof (decimalValue_from s 0 H ltac:(lia)) as B.
  unfold decimalValue. lia.
Qed.

Lemma stripLeadingZeros_digits (s : str) :
  forallb isDigitByte s = true ->
  forallb isDigitByte (stripLeadingZeros s) = true
  /\ decimalValue (stripLeadingZeros s) = decimalValue s
  /\ len (stripLeadingZeros s) <= len s
  /\ match stripLeadingZeros s with
     | c :: _ => Ascii.eqb c "0" = false
     | [] => True
     end.
Proof.
  induction s as [| c s IH]; intros H.
  - simpl. repeat split; try reflexivity; lia.
  - simpl in H. apply andb_prop in H as [Hc Hs]. simpl stripLeadingZeros.
    destruct (Ascii.eqb c "0") eqn:E.
    + apply Ascii.eqb_eq in E. subst c.
      destruct (IH Hs) as (A & B & C & D).
      split; [exact A |]. split; [exact B |]. split; [| exact D].
      rewrite len_cons. lia.
    + repeat split.
      * simpl. rewrite Hc, Hs. reflexivity.
      * lia.
      * exact E.
Qed.

(** Three decimal digits that are not all zero give their value times
    five. *)
Lemma setObsolescencePeriod_digits (h : AppHeaderInput) (tail : str) :
  forallb isDigitByte tail = true ->
  length tail = 3%nat ->
  decimalValue tail <> 0 ->
  setObsolescencePeriod h tail
  = (withObsolescence h (decimalValue tail * 5), None).
Proof.
  intros Hd Hlen Hnz. unfold setObsolescencePeriod.
  destruct (stripLeadingZeros_digits tail Hd) as (A & B & C & D).
  pose proof (decimalValue_bound _ A) as Bd.
  assert (Hl3 : len tail = 3) by (unfold len; lia).
  pose proof (len_nonneg (stripLeadingZeros tail)) as Hn.
  assert (Hpow : 10 ^ len (stripLeadingZeros tail) <= 10 ^ 3)
    by (apply Z.pow_le_mono_r; lia).
  destruct (stripLeadingZeros tail) as [| c t] eqn:E.
  - rewrite <- B in Hnz. exfalso. apply Hnz. reflexivity.
  - unfold Atoi.
    assert (Hc : isDigitByte c = true)
      by (simpl in A; apply andb_prop in A as [A _]; exact A).
    assert (Hminus : Ascii.eqb c "-" = false).
    { apply Ascii.eqb_neq. intros ->. discriminate Hc. }
    assert (Hplus : Ascii.eqb c "+" = false).
    { apply Ascii.eqb_neq. intros ->. discriminate Hc. }
    rewrite Hminus, Hplus. rewrite A.
    destruct (MaxInt64 <? decimalValue (c :: t)) eqn:Em.
    { unfold MaxInt64 in Em. lia. }
    rewrite B. unfold obsolescenceMinutesPerFactor, wrap64.
    rewrite B in Bd.
    f_equal. f_equal.
    rewrite Z.mod_small by lia. lia.
Qed.

(** A tail with a byte that is neither a digit nor a sign is refused. *)
Lemma setObsolescencePeriod_not_numeric (h : AppHeaderInput) (tail : str) :
  existsb (fun c => negb (isDigitByte c || Ascii.eqb c "+" || Ascii.eqb c "-"))
    tail = true ->
  exists factor cause,
    setObsolescencePeriod h tail
    = (h, Some (ErrInvalidObsolescencePeriod factor cause)).
Proof.
  intros H. unfold setObsolescencePeriod.
  assert (Hs : existsb (fun c => negb (isDigitByte c || Ascii.eqb c "+"
                                       || Ascii.eqb c "-"))
                 (stripLeadingZeros tail) = true).
  { induction tail as [| c t IH]; [discriminate |].
    simpl stripLeadingZeros.
    destruct (Ascii.eqb c "0") eqn:E; [| exact H].
    apply Ascii.eqb_eq in E. subst c. simpl in H. apply IH. exact H. }
  assert (Hbad : forall s,
             existsb (fun c => negb (isDigitByte c || Ascii.eqb c "+"
                                     || Ascii.eqb c "-")) s = true ->
             forallb isDigitByte s = false).
  { induction s as [| c s IHs]; [discriminate |].
    simpl. intros Hx. apply orb_prop in Hx as [Hx | Hx].
    - apply negb_true_iff in Hx.
      apply orb_false_elim in Hx as [Hx _].
      apply orb_false_elim in Hx as [Hx _]. rewrite Hx. reflexivity.
    - rewrite (IHs Hx). apply andb_false_r. }
  destruct (stripLeadingZeros tail) as [| c t] eqn:E; [discriminate |].
  unfold Atoi.
  destruct (Ascii.eqb c "-") eqn:Em;
    [| destruct (Ascii.eqb c "+") eqn:Ep].
  - simpl in Hs. rewrite Em in Hs. rewrite !orb_true_r in Hs. simpl in Hs.
    destruct t as [| c' t']; [eauto |].
    rewrite (Hbad _ Hs). eauto.
  - simpl in Hs. rewrite Ep in Hs. rewrite orb_true_r in Hs. simpl in Hs.
    destruct t as [| c' t']; [eauto |].
    rewrite (Hbad _ Hs). eauto.
  - rewrite (Hbad _ Hs). eauto.
Qed.

(** *** The statement line *)

Definition isAmountByte (c : ascii) : bool := isDigitByte c || Ascii.eqb c ",".

Definition noNewline (s : str) : bool :=
  forallb (fun c => negb (Ascii.eqb c "010")) s.

Lemma Split_no_newline (s : str) :
  noNewline s = true -> Split s newline = [s].
Proof.
  unfold Split. induction s as [| c s IH]; intros H; [reflexivity |].
  simpl in H. apply andb_prop in H as [Hc Hs].
  simpl splitFrom. apply negb_true_iff in Hc. rewrite Hc. simpl.
  rewrite (IH Hs). reflexivity.
Qed.

Lemma noNewline_app (a b : str) :
  noNewline (a ++ b) = noNewline a && noNewline b.
Proof. unfold noNewline. apply forallb_app. Qed.

Lemma digits_noNewline (s : str) :
  forallb isDigitByte s = true -> noNewline s = true.
Proof.
  induction s as [| c s IH]; intros H; [reflexivity |].
  simpl in H. apply andb_prop in H as [Hc Hs]. simpl.
  rewrite (IH Hs), andb_true_r. apply negb_true_iff. apply Ascii.eqb_neq.
  intros ->. discriminate Hc.
Qed.

Lemma amount_noNewline (s : str) :
  forallb isAmountByte s = true -> noNewline s = true.
Proof.
  induction s as [| c s IH]; intros H; [reflexivity |].
  simpl in H. apply andb_prop in H as [Hc Hs]. simpl.
  rewrite (IH Hs), andb_true_r. apply negb_true_iff. apply Ascii.eqb_neq.
  intros ->. discriminate Hc.
Qed.

(** The loop runs off the end of a string of digits and commas. *)
Lemma amountLoop_runs_off (s : str) (n : Z) :
  forallb isAmountByte s = true -> amountLoop s n = Panics.
Proof.
  revert n. induction s as [| c s IH]; intros n H; [reflexivity |].
  simpl in H. apply andb_prop in H as [Hc Hs]. simpl.
  unfold isAmountByte in Hc. rewrite Hc. apply IH. exact Hs.
Qed.

Lemma amountLoop_stops (s : str) (c : ascii) (t : str) (n : Z) :
  forallb isAmountByte s = true ->
  isAmountByte c = false ->
  amountLoop (s ++ c :: t) n = Returns (n + len s).
Proof.
  revert n. induction s as [| d s IH]; intros n H Hc.
  - simpl. unfold isAmountByte in Hc. rewrite Hc.
    change (len []) with 0. rewrite Z.add_0_r. reflexivity.
  - simpl in H. apply andb_prop in H as [Hd Hs]. simpl.
    unfold isAmountByte in Hd. rewrite Hd. rewrite IH by assumption.
    rewrite len_cons. f_equal. lia.
Qed.

Section StatementLine.

Variable timeParses : str -> str -> bool.
Variable ParseFloat : str -> Z -> float64 * bool.
Variable sl : StatementLine.
Variables date funds amount : str.

Hypothesis date_digits : forallb isDigitByte date = true.
Hypothesis date_length : length date = 6%nat.
Hypothesis date_parses : timeParses TimeFormatDate date = true.
Hypothesis funds_code : funds = lit "C" \/ funds = lit "D".
Hypothesis amount_bytes : forallb isAmountByte amount = true.

Let len_date : len date = 6.
Proof. unfold len. rewrite date_length. reflexivity. Qed.

Let funds_noNewline : noNewline funds = true.
Proof. destruct funds_code as [-> | ->]; reflexivity. Qed.

(** Up to the funds code the method goes the same way whatever follows
    the code on the first line: it is left with the rest of the line and
    has not returned. *)
Lemma UnmarshalMT_to_amount (rest : str) :
  noNewline rest = true ->
  UnmarshalMT timeParses ParseFloat sl (date ++ funds ++ rest)
  = (amountNrOfDigits ← amountLoop rest 0;
     amountStr ← slice rest 0 amountNrOfDigits;
     let '(amount, _) := ParseFloat (commasToDots amountStr) 32 in
     line1 ← sliceFrom rest amountNrOfDigits;
     swiftCode ← slice line1 0 4;
     line1 ← sliceFrom line1 4;
     let '(ownerRef, bankRef) :=
       if len0 (Split line1 (lit "//")) =? 2
       then (nth 0 (Split line1 (lit "//")) [],
             lit "//" ++ nth 1 (Split line1 (lit "//")) [])
       else (line1, BankReference sl) in
     Returns
       ({| Set_ := true; SlRaw := date ++ funds ++ rest;
           SlDate := {| DateSet := true; DateRaw := date |};
           EntryDate := EntryDate sl;
           FundsCodeOf := if streq funds (lit "C") then FundsCodeCredit
                          else FundsCodeDebit;
           Amount := amount;
           SwiftCode := swiftCode;
           AccountOwnerReference := ownerRef;
           BankReference := bankRef;
           Description := Description sl |}, None)).
Proof.
  intros Hrest. unfold UnmarshalMT.
  rewrite Split_no_newline.
  2:{ rewrite !noNewline_app, (digits_noNewline _ date_digits),
        funds_noNewline, Hrest. reflexivity. }
  cbn [nth].
  pose proof (slice_middle [] date (funds ++ rest)) as Hs.
  change (len []) with 0 in Hs. rewrite Z.add_0_l, len_date in Hs.
  simpl app in Hs. rewrite Hs. cbn [mbind outcome_bind].
  unfold DateUnmarshalMT. rewrite date_parses. cbn [negb].
  rewrite <- len_date. rewrite sliceFrom_app. cbn [mbind outcome_bind].
  assert (Hcut : forall (c : ascii) (s : str),
             sliceFrom (c :: s) 1 = Returns s).
  { intros c s. apply (sliceFrom_app [c] s). }
  destruct funds_code as [-> | ->]; simpl; rewrite Hcut; reflexivity.
Qed.

(** C9. The statement line is a date that parses, the funds code [C] or
    [D], and digits and commas. If the first line ends there, the loop
    that measures the amount reads the byte after the last one and the
    method panics; if fewer than four bytes follow the amount, the slice
    of the SWIFT code is out of range and the method panics. In neither
    case does it return an error. *)
Theorem statement_line_out_of_range :
  UnmarshalMT timeParses ParseFloat sl (date ++ funds ++ amount) = Panics /\
  forall (c : ascii) (t : str),
    isAmountByte c = false ->
    noNewline (c :: t) = true ->
    (length (c :: t) < 4)%nat ->
    UnmarshalMT timeParses ParseFloat sl (date ++ funds ++ amount ++ c :: t)
    = Panics.
Proof.
  split.
  - rewrite UnmarshalMT_to_amount by (apply amount_noNewline, amount_bytes).
    rewrite amountLoop_runs_off by exact amount_bytes. reflexivity.
  - intros c t Hc Hn Hlen.
    rewrite UnmarshalMT_to_amount.
    2:{ rewrite noNewline_app, (amount_noNewline _ amount_bytes), Hn.
        reflexivity. }
    rewrite amountLoop_stops by assumption.
    cbn [mbind outcome_bind]. rewrite Z.add_0_l.
    pose proof (slice_middle [] amount (c :: t)) as Hs.
    change (len []) with 0 in Hs. rewrite Z.add_0_l in Hs.
    simpl app in Hs. rewrite Hs. cbn [mbind outcome_bind].
    destruct (ParseFloat (commasToDots amount) 32) as [value ok].
    rewrite sliceFrom_app. cbn [mbind outcome_bind].
    rewrite slice_out_of_range; [reflexivity |].
    unfold len. lia.
Qed.

End StatementLine.

Definition digitsParse (layout value : str) : bool := forallb isDigitByte value.

(** [strconv.ParseFloat] at the amount of the examples, [20000.00], whose
    [float64] is [0x40D3880000000000]; any other text is taken as one that
    does not parse, for which [strconv.ParseFloat] returns zero and an
    error. *)
Definition amountParse (s : str) (bitSize : Z) : float64 * bool :=
  if streq s (lit "20000.00") then (0x40D3880000000000, true) else (0, false).

Definition zeroStatementLine : StatementLine :=
  {| Set_ := false; SlRaw := [];
     SlDate := {| DateSet := false; DateRaw := [] |};
     EntryDate := {| MonthSet := false; MonthRaw := [] |};
     FundsCodeOf := FundsCodeCredit; Amount := 0; SwiftCode := [];
     AccountOwnerReference := []; BankReference := []; Description := [] |}.

Lemma statement_line_out_of_range_witness :
  UnmarshalMT digitsParse amountParse zeroStatementLine
    (lit "031020C20000,00") = Panics
  /\ UnmarshalMT digitsParse amountParse zeroStatementLine
       (lit "031020C20000,00FM") = Panics.
Proof.
  destruct (statement_line_out_of_range digitsParse amountParse
              zeroStatementLine
              (lit "031020") (lit "C") (lit "20000,00")
              eq_refl eq_refl eq_refl (or_introl eq_refl) eq_refl)
    as [H1 H2].
  split; [exact H1 |].
  apply (H2 "F"%char (lit "M")); [reflexivity | reflexivity | simpl; lia].
Defined.

End MtSpec.

(** ** The parser of the block structure *)

Module MessageSpec.

Import message GoFacts.

(** *** The raw text of a message *)

(** The last block of a slice that carries a label, and the text
    [{label:content}] it stands for in [Raw]; no text if there is none. *)
Definition lastLabelled (label : str) (blocks : list Block) : option Block :=
  last (filter (fun b => Label b = label) blocks).

Definition rawOf (label : str) (blocks : list Block) : str :=
  match lastLabelled label blocks with
  | Some b => lit "{" ++ label ++ lit ":" ++ Content b ++ lit "}"
  | None => []
  end.

Definition assembled (blocks : list Block) (line : Z) : assembly :=
  fold_left blocksToMessageStep blocks
    {| m := {| Line := line; Raw := []; BasicHeader := zeroBlock;
               AppHeader := zeroBlock; UsrHeader := zeroBlock;
               Body := None; Trailers := zeroBlock |};
       rawHeader := []; rawAppHeader := []; rawUsrHeader := [];
       rawBody := []; rawTrailers := [] |}.

Lemma lastLabelled_snoc (label : str) (blocks : list Block) (b : Block) :
  lastLabelled label (blocks ++ [b])
  = if streq (Label b) label then Some b else lastLabelled label blocks.
Proof.
  unfold lastLabelled. rewrite filter_app.
  destruct (streq (Label b) label) eqn:E.
  - apply streq_true in E.
    rewrite filter_cons_True by exact E. rewrite filter_nil.
    apply last_snoc.
  - apply streq_false in E.
    rewrite filter_cons_False by exact E. rewrite filter_nil.
    rewrite app_nil_r. reflexivity.
Qed.

Lemma rawOf_snoc (label : str) (blocks : list Block) (b : Block) :
  rawOf label (blocks ++ [b])
  = if streq (Label b) label then rawBlock label (Content b)
    else rawOf label blocks.
Proof.
  unfold rawOf. rewrite lastLabelled_snoc.
  destruct (streq (Label b) label); reflexivity.
Qed.

Lemma assembled_raw (blocks : list Block) (line : Z) :
  let a := assembled blocks line in
  rawHeader a = rawOf blockLabelBasicHeader blocks
  /\ rawAppHeader a = rawOf blockLabelAppHeader blocks
  /\ rawUsrHeader a = rawOf blockLabelUsrHeader blocks
  /\ rawBody a = rawOf blockLabelBody blocks
  /\ rawTrailers a = rawOf blockLabelTrailers blocks
  /\ Body (m a) = (b ← lastLabelled blockLabelBody blocks; Fields b).
Proof.
  induction blocks as [| b blocks IH] using rev_ind.
  - repeat split.
  - unfold assembled in *. rewrite fold_left_app. cbn [fold_left].
    cbv zeta in IH. destruct IH as (H1 & H2 & H3 & H4 & H5 & H6).
    rewrite !rawOf_snoc, lastLabelled_snoc.
    set (a := fold_left blocksToMessageStep blocks _) in *.
    unfold blocksToMessageStep.
    destruct (streq (Label b) blockLabelBasicHeader) eqn:E1.
    { apply streq_true in E1. rewrite ?E1. cbn. repeat split; assumption. }
    destruct (streq (Label b) blockLabelAppHeader) eqn:E2.
    { apply streq_true in E2. rewrite ?E2. cbn. repeat split; assumption. }
    destruct (streq (Label b) blockLabelUsrHeader) eqn:E3.
    { apply streq_true in E3. rewrite ?E3. cbn. repeat split; assumption. }
    destruct (streq (Label b) blockLabelBody) eqn:E4.
    { apply streq_true in E4. rewrite ?E4. cbn. repeat split; assumption. }
    destruct (streq (Label b) blockLabelTrailers) eqn:E5.
    { apply streq_true in E5. rewrite ?E5. cbn. repeat split; assumption. }
    repeat split; assumption.
Qed.

Lemma filter_label_absent (label : str) (blocks : list Block) :
  label ∉ (Label <$> blocks) ->
  filter (fun b => Label b = label) blocks = [].
Proof.
  induction blocks as [| b blocks IH]; intros H; [reflexivity |].
  rewrite fmap_cons in H. apply not_elem_of_cons in H as [Hb Hbs].
  rewrite filter_cons_False by congruence. apply IH. exact Hbs.
Qed.

(** With one block at most for a label, the last block with the label
    does not depend on the order of the blocks. *)
Lemma lastLabelled_Permutation (label : str) (blocks blocks' : list Block) :
  NoDup (Label <$> blocks) ->
  Permutation blocks blocks' ->
  lastLabelled label blocks = lastLabelled label blocks'.
Proof.
  intros Hnd Hp. unfold lastLabelled.
  assert (Hshort : forall bs : list Block,
             NoDup (Label <$> bs) ->
             (length (filter (fun b => Label b = label) bs) <= 1)%nat).
  { induction bs as [| b bs IHbs]; intros H; [simpl; lia |].
    rewrite fmap_cons in H. apply NoDup_cons in H as [Hb Hbs].
    destruct (decide (Label b = label)) as [E | E].
    - rewrite filter_cons_True by exact E.
      rewrite filter_label_absent by (rewrite <- E; exact Hb).
      simpl. lia.
    - rewrite filter_cons_False by exact E. apply IHbs. exact Hbs. }
  assert (Hp' : Permutation (filter (fun b => Label b = label) blocks)
                  (filter (fun b => Label b = label) blocks'))
    by (rewrite Hp; reflexivity).
  pose proof (Hshort blocks Hnd) as Hl.
  destruct (filter (fun b => Label b = label) blocks) as [| x [| y t]].
  - apply Permutation_nil_l in Hp'. rewrite <- Hp'. reflexivity.
  - apply Permutation_singleton_l in Hp'. rewrite <- Hp'. reflexivity.
  - simpl in Hl. lia.
Qed.

(** C3. The field [Raw] of the message assembled from a slice of blocks
    is the text [{1:...}] of the block labelled 1, then that of the block
    labelled 2, then 3, 4 and 5, each with the content of the block and
    each there only if a block carries the label (the last one, should
    several carry it); and it is the same in whatever order the blocks
    come if no label comes twice. *)
Theorem raw_canonical_order (blocks : list Block) (line : Z) :
  Raw (blocksToMessage blocks line)
  = rawOf (lit "1") blocks ++ rawOf (lit "2") blocks ++ rawOf (lit "3") blocks
    ++ rawOf (lit "4") blocks ++ rawOf (lit "5") blocks
  /\ forall blocks' line',
       NoDup (Label <$> blocks) ->
       Permutation blocks blocks' ->
       Raw (blocksToMessage blocks' line') = Raw (blocksToMessage blocks line).
Proof.
  assert (Hraw : forall bs l,
             Raw (blocksToMessage bs l)
             = rawOf (lit "1") bs ++ rawOf (lit "2") bs ++ rawOf (lit "3") bs
               ++ rawOf (lit "4") bs ++ rawOf (lit "5") bs).
  { intros bs l.
    destruct (assembled_raw bs l) as (H1 & H2 & H3 & H4 & H5 & _).
    unfold blocksToMessage. fold (assembled bs l). cbn [Raw].
    rewrite H1, H2, H3, H4, H5. reflexivity. }
  split; [apply Hraw |].
  intros blocks' line' Hnd Hp. rewrite !Hraw. unfold rawOf.
  rewrite !(lastLabelled_Permutation _ blocks blocks' Hnd Hp). reflexivity.
Qed.

Definition blockWith (label content : string) : Block :=
  {| Label := lit label; Content := lit content; Fields := None;
     Blocks := [] |}.

Lemma raw_canonical_order_witness :
  Raw (blocksToMessage
         [blockWith "4" "-"; blockWith "2" "I940BOFAUS6BXBAM";
          blockWith "1" "F01SCBLZAJJXXXX5712100002"] 1)
  = lit "{1:F01SCBLZAJJXXXX5712100002}{2:I940BOFAUS6BXBAM}{4:-}"
  /\ Raw (blocksToMessage
            [blockWith "1" "F01SCBLZAJJXXXX5712100002";
             blockWith "2" "I940BOFAUS6BXBAM"; blockWith "4" "-"] 1)
     = Raw (blocksToMessage
              [blockWith "4" "-"; blockWith "2" "I940BOFAUS6BXBAM";
               blockWith "1" "F01SCBLZAJJXXXX5712100002"] 1).
Proof.
  destruct (raw_canonical_order
              [blockWith "4" "-"; blockWith "2" "I940BOFAUS6BXBAM";
               blockWith "1" "F01SCBLZAJJXXXX5712100002"] 1) as [H1 H2].
  split.
  - rewrite H1. reflexivity.
  - apply H2.
    + apply (bool_decide_unpack _). vm_compute. exact I.
    + apply (Permutation_rev [_; _; _]).
Defined.

(** *** White space around a field value *)

(** White space of the ASCII range, and a byte of the ASCII range that is
    not white space. *)
Definition spaces (s : str) : Prop :=
  forallb (fun c => (byteZ c <? 128) && asciiSpace c) s = true.

Definition visible (c : ascii) : Prop :=
  byteZ c < 128 /\ asciiSpace c = false.

(** A text that neither starts nor ends with white space: it is empty, or
    its first and its last byte are visible. *)
Definition trimmed (core : str) : Prop :=
  match core with
  | [] => True
  | c :: _ => visible c /\ exists front l, core = front ++ [l] /\ visible l
  end.

Lemma skipAsciiSpace_spaces (ws rest : str) :
  spaces ws -> skipAsciiSpace (ws ++ rest) = skipAsciiSpace rest.
Proof.
  unfold spaces. induction ws as [| c ws IH]; intros H; [reflexivity |].
  simpl in H. apply andb_prop in H as [Hc Hws].
  apply andb_prop in Hc as [Hc1 Hc2].
  simpl. destruct (128 <=? byteZ c) eqn:E; [lia |].
  rewrite Hc2. apply IH. exact Hws.
Qed.

Lemma skipAsciiSpace_visible (c : ascii) (rest : str) :
  visible c -> skipAsciiSpace (c :: rest) = (c :: rest, false).
Proof.
  intros [H1 H2]. simpl. destruct (128 <=? byteZ c) eqn:E; [lia |].
  rewrite H2. reflexivity.
Qed.

Lemma spaces_rev (ws : str) : spaces ws -> spaces (rev ws).
Proof.
  unfold spaces. intros H. rewrite forallb_forall in *.
  intros x Hx. apply H. apply in_rev. exact Hx.
Qed.

Section Trim.

Variables TrimFuncIsSpace TrimRightFuncIsSpace : str -> str.

Local Abbreviation TrimSpace :=
  (TrimSpace TrimFuncIsSpace TrimRightFuncIsSpace).

(** [TrimSpace] takes away the white space on both sides and nothing
    else. *)
Lemma TrimSpace_core (ws1 core ws2 : str) :
  spaces ws1 -> spaces ws2 -> trimmed core ->
  TrimSpace (ws1 ++ core ++ ws2) = core.
Proof.
  intros H1 H2 Hc. unfold message.TrimSpace.
  rewrite skipAsciiSpace_spaces by exact H1.
  destruct core as [| c core'].
  - simpl app. rewrite <- (app_nil_r ws2) at 1.
    rewrite skipAsciiSpace_spaces by exact H2. reflexivity.
  - destruct Hc as (Hv & front & l & Hcore & Hl).
    change ((c :: core') ++ ws2) with (c :: (core' ++ ws2)).
    rewrite skipAsciiSpace_visible by exact Hv.
    change (c :: core' ++ ws2) with ((c :: core') ++ ws2).
    rewrite Hcore. rewrite rev_app_distr, rev_app_distr. simpl rev at 2.
    simpl app at 2.
    rewrite skipAsciiSpace_spaces by (apply spaces_rev; exact H2).
    rewrite skipAsciiSpace_visible by exact Hl.
    change (l :: rev front) with (rev [l] ++ rev front).
    rewrite <- rev_app_distr. apply rev_involutive.
Qed.

Variable cfg : Config.

(** C7, amended. The value stored for a field is the text of the field
    without the white space at its start and at its end, whatever that
    white space is; the white space between its first and its last
    visible byte is stored as it is. *)
Theorem field_value_trimmed (st : state) (it : item) (a : nat)
    (fields : gmap str (list str)) (ws1 core ws2 : str) :
  ityp it = itemFieldContent ->
  ival it = ws1 ++ core ++ ws2 ->
  spaces ws1 -> spaces ws2 -> trimmed core ->
  Fields (currBlock st) = Some a ->
  heap st !! a = Some fields ->
  exists st',
    step TrimFuncIsSpace TrimRightFuncIsSpace cfg st it = Returns st' /\
    heap st' !! a
    = Some (<[currTag st := default [] (fields !! currTag st) ++ [core]]>
              fields).
Proof.
  intros Ht Hv H1 H2 Hc Hf Hh. unfold step. rewrite Ht, Hf, Hh, Hv.
  rewrite TrimSpace_core by assumption.
  eexists. split; [reflexivity |]. cbn [heap].
  apply list_lookup_insert_eq. apply lookup_lt_Some in Hh. exact Hh.
Qed.

End Trim.

Definition bodyWire : str :=
  lit "{4:" ++ newline ++ lit ":20: a  b " ++ newline ++ lit "-}".

(** C7 as stated does not hold: the field [:20:] with the text [ a  b ]
    before its newline is stored as [a  b]; the space at its start and
    the space before the newline are gone as well. *)
Lemma field_value_spaces_removed :
  (forall f g,
      exists st msg,
        Parse f g {| StopOnError := false |} 100 bodyWire = Returns st
        /\ messages st = [msg]
        /\ bodyValues st msg (lit "20") = [lit "a  b"])
  /\ lit "a  b" <> lit " a  b ".
Proof.
  split; [| discriminate].
  intros f g. eexists _, _. split; [vm_compute; reflexivity |].
  split; reflexivity.
Qed.

Lemma field_value_trimmed_witness :
  exists st',
    step id id {| StopOnError := false |} (initial)
      {| ityp := itemFieldContent; ival := lit " a  b " ++ newline;
         iline := 1 |}
    = Returns st'
    /\ heap st' !! 0%nat = Some (<[ [] := [lit "a  b"] ]> ∅).
Proof.
  destruct (field_value_trimmed id id {| StopOnError := false |} initial
              {| ityp := itemFieldContent; ival := lit " a  b " ++ newline;
                 iline := 1 |} 0 ∅ (lit " ") (lit "a  b") (lit " " ++ newline))
    as (st' & Hs & Hh); try reflexivity.
  - split; [split; [vm_compute; reflexivity | reflexivity] |].
    exists (lit "a  "), "b"%char.
    split; [reflexivity | split; [vm_compute; reflexivity | reflexivity]].
  - exists st'. split; [exact Hs | exact Hh].
Defined.

(** *** The values of a body tag *)

(** The tag under which the parser files the next field text, after an
    item; and the text an item contributes to a tag. *)
Definition tagAfter (currTag : str) (it : item) : str :=
  match ityp it with
  | itemTagContent => ival it
  | itemFieldContent => []
  | _ => currTag
  end.

Definition valueAt (tag currTag : str) (it : item) : list str :=
  match ityp it with
  | itemFieldContent => if streq currTag tag then [ival it] else []
  | _ => []
  end.

(** The field texts that the items of the lexer give for [tag], in the
    order of the items: each text of a field belongs to the tag content
    that came before it. *)
Fixpoint wireValues (tag currTag : str) (its : list item) : list str :=
  match its with
  | [] => []
  | it :: its' =>
      valueAt tag currTag it ++ wireValues tag (tagAfter currTag it) its'
  end.

(** An item at which the parser leaves its loop, and an item that stays
    within the block that is open. *)
Definition stops (cfg : Config) (it : item) : bool :=
  bool_decide (ityp it = itemEOF)
  || (bool_decide (ityp it = itemError) && StopOnError cfg).

Definition inBlock (cfg : Config) (it : item) : bool :=
  negb (stops cfg it) && negb (bool_decide (ityp it = itemBlockLabel)).

Definition closesBlock (it : item) : bool :=
  bool_decide (ityp it = itemBlockRightMeta).

(** The values of [tag] in the map at address [a]. *)
Definition valuesAt (st : state) (a : nat) (tag : str) : list str :=
  default [] (fields ← heap st !! a; fields !! tag).

Section BodyOrder.

Variables TrimFuncIsSpace TrimRightFuncIsSpace : str -> str.
Variable cfg : Config.

Local Abbreviation TrimSpace :=
  (TrimSpace TrimFuncIsSpace TrimRightFuncIsSpace).
Local Abbreviation step := (step TrimFuncIsSpace TrimRightFuncIsSpace cfg).
Local Abbreviation runItems :=
  (runItems TrimFuncIsSpace TrimRightFuncIsSpace cfg).

(** One item within a block. *)
Lemma step_inBlock (st : state) (it : item) (a : nat) :
  inBlock cfg it = true ->
  Fields (currBlock st) = Some a ->
  (a < length (heap st))%nat ->
  exists st',
    step st it = Returns st'
    /\ stopped st' = stopped st
    /\ Fields (currBlock st') = Some a
    /\ Label (currBlock st') = Label (currBlock st)
    /\ length (heap st') = length (heap st)
    /\ messages st' = messages st
    /\ currLine st' = currLine st
    /\ currTag st' = tagAfter (currTag st) it
    /\ (forall tag,
          valuesAt st' a tag
          = valuesAt st a tag ++ map TrimSpace (valueAt tag (currTag st) it))
    /\ blocks st'
       = blocks st ++ (if closesBlock it then [currBlock st] else []).
Proof.
  intros Hin Hf Ha.
  destruct (lookup_lt_is_Some_2 (heap st) a Ha) as [fields Hh].
  unfold inBlock, stops in Hin.
  apply andb_prop in Hin as [Hs Hl].
  apply negb_true_iff in Hs. apply orb_false_elim in Hs as [Heof Herr].
  apply negb_true_iff in Hl.
  unfold message.step, tagAfter, valueAt, closesBlock, valuesAt.
  destruct (ityp it) eqn:Et; try discriminate;
    try (eexists; split; [reflexivity |];
         cbn; rewrite ?app_nil_r; repeat split; auto;
         intros tag; rewrite app_nil_r; reflexivity).
  - (* itemError *)
    simpl in Herr. rewrite Herr.
    eexists; split; [reflexivity |].
    cbn; rewrite ?app_nil_r; repeat split; auto.
    intros tag; rewrite app_nil_r; reflexivity.
  - (* itemFieldContent *)
    rewrite Hf, Hh. eexists; split; [reflexivity |]. cbn.
    rewrite app_nil_r, length_insert.
    repeat split; auto.
    intros tag. rewrite list_lookup_insert_eq by exact Ha. cbn.
    destruct (streq (currTag st) tag) eqn:E.
    + apply streq_true in E. subst tag. rewrite lookup_insert_eq.
      reflexivity.
    + apply streq_false in E. rewrite lookup_insert_ne by exact E.
      rewrite app_nil_r. reflexivity.
Qed.

(** The items of an open block, up to the next label: the map of the block
    gains, for every tag, the trimmed field texts of the tag in the order
    of the items, and the block is appended to the blocks of the message
    once for every closing brace. *)
Lemma run_inBlock (seg : list item) (st : state) (a : nat) :
  forallb (inBlock cfg) seg = true ->
  stopped st = false ->
  Fields (currBlock st) = Some a ->
  (a < length (heap st))%nat ->
  exists st' bs,
    runItems st seg = Returns st'
    /\ stopped st' = false
    /\ Fields (currBlock st') = Some a
    /\ Label (currBlock st') = Label (currBlock st)
    /\ length (heap st') = length (heap st)
    /\ messages st' = messages st
    /\ currLine st' = currLine st
    /\ (forall tag,
          valuesAt st' a tag
          = valuesAt st a tag
            ++ map TrimSpace (wireValues tag (currTag st) seg))
    /\ blocks st' = blocks st ++ bs
    /\ Forall (fun b => Label b = Label (currBlock st) /\ Fields b = Some a) bs
    /\ (existsb closesBlock seg = true -> bs <> []).
Proof.
  revert st. induction seg as [| it seg IH]; intros st Hseg Hrun Hf Ha.
  - exists st, []. cbn. rewrite app_nil_r.
    repeat split; auto; try discriminate.
    intros tag. rewrite app_nil_r. reflexivity.
  - simpl in Hseg. apply andb_prop in Hseg as [Hit Hseg].
    destruct (step_inBlock st it a Hit Hf Ha)
      as (st1 & Hstep & Hs1 & Hf1 & Hl1 & Hh1 & Hm1 & Hc1 & Ht1 & Hv1 & Hb1).
    destruct (IH st1 Hseg ltac:(congruence) Hf1 ltac:(lia))
      as (st' & bs & Hr & Hs' & Hf' & Hl' & Hh' & Hm' & Hc' & Hv' & Hb' & Hall
          & Hne).
    exists st', ((if closesBlock it then [currBlock st] else []) ++ bs).
    cbn [message.runItems]. rewrite Hrun, Hstep. cbn [mbind outcome_bind].
    rewrite Hr.
    repeat split; try congruence.
    + intros tag. rewrite Hv', Hv1, Ht1. cbn [wireValues].
      rewrite map_app, app_assoc. reflexivity.
    + rewrite Hb', Hb1, app_assoc. reflexivity.
    + apply Forall_app. split.
      * destruct (closesBlock it); repeat constructor. exact Hf.
      * rewrite <- Hl1. exact Hall.
    + intros Hex. simpl in Hex.
      destruct (closesBlock it); [discriminate |]. simpl in *.
      apply Hne. exact Hex.
Qed.

(** Any item leaves alone every map but the one of the block that is
    open, and sends messages without taking any back. *)
Lemma step_frame (st : state) (it : item) (a a' : nat) :
  Fields (currBlock st) = Some a' ->
  (a' < length (heap st))%nat ->
  (a < length (heap st))%nat ->
  a <> a' ->
  exists st',
    step st it = Returns st'
    /\ heap st' !! a = heap st !! a
    /\ (length (heap st) <= length (heap st'))%nat
    /\ (exists a'', Fields (currBlock st') = Some a''
                    /\ (a'' < length (heap st'))%nat /\ a <> a'')
    /\ exists sent, messages st' = messages st ++ sent.
Proof.
  intros Hf Ha' Ha Hne.
  destruct (lookup_lt_is_Some_2 (heap st) a' Ha') as [fields Hh].
  unfold message.step.
  destruct (ityp it) eqn:Et;
    try (eexists; split; [reflexivity |]; cbn;
         repeat split; auto; [exists a'; auto | exists []; rewrite app_nil_r; auto];
         fail).
  - (* itemError *)
    destruct (StopOnError cfg);
      (eexists; split; [reflexivity |]; cbn;
       repeat split; auto;
       [exists a'; auto | exists []; rewrite app_nil_r; auto]).
  - (* itemEOF *)
    eexists; split; [reflexivity |]. unfold sendMessage.
    destruct (0 <? len0 (blocks st)); cbn;
      (repeat split; auto; [exists a'; auto |]).
    + eexists. reflexivity.
    + exists []. rewrite app_nil_r. reflexivity.
  - (* itemBlockLabel *)
    eexists; split; [reflexivity |]. unfold sendMessage.
    destruct (streq (ival it) blockLabelBasicHeader);
      [destruct (0 <? len0 (blocks st)) |]; cbn;
      rewrite ?length_app; cbn;
      (repeat split;
       [apply lookup_app_l; exact Ha | lia
       | eexists; split; [reflexivity | split; lia] |]).
    + eexists. reflexivity.
    + exists []. rewrite app_nil_r. reflexivity.
    + exists []. rewrite app_nil_r. reflexivity.
  - (* itemFieldContent *)
    rewrite Hf, Hh. eexists; split; [reflexivity |]. cbn.
    rewrite length_insert.
    repeat split; auto.
    + apply list_lookup_insert_ne. congruence.
    + exists a'. auto.
    + exists []. rewrite app_nil_r. reflexivity.
Qed.

Lemma run_frame (its : list item) (st : state) (a a' : nat) :
  Fields (currBlock st) = Some a' ->
  (a' < length (heap st))%nat ->
  (a < length (heap st))%nat ->
  a <> a' ->
  exists st',
    runItems st its = Returns st'
    /\ heap st' !! a = heap st !! a
    /\ exists sent, messages st' = messages st ++ sent.
Proof.
  revert st a'. induction its as [| it its IH]; intros st a' Hf Ha' Ha Hne.
  - exists st. repeat split. exists []. rewrite app_nil_r. reflexivity.
  - cbn [message.runItems]. destruct (stopped st).
    { exists st. repeat split. exists []. rewrite app_nil_r. reflexivity. }
    destruct (step_frame st it a a' Hf Ha' Ha Hne)
      as (st1 & Hs & Hh & Hl & (a1 & Hf1 & Ha1 & Hne1) & sent1 & Hm1).
    rewrite Hs. cbn [mbind outcome_bind].
    destruct (IH st1 a1 Hf1 Ha1 ltac:(lia) Hne1)
      as (st' & Hr & Hh' & sent & Hm').
    exists st'. split; [exact Hr |]. split; [congruence |].
    exists (sent1 ++ sent). rewrite Hm', Hm1, app_assoc. reflexivity.
Qed.

(** An item of a block that is neither the first of a message nor its
    body. *)
Definition inOtherBlock (it : item) : bool :=
  negb (stops cfg it)
  && (negb (bool_decide (ityp it = itemBlockLabel))
      || (negb (streq (ival it) blockLabelBasicHeader)
          && negb (streq (ival it) blockLabelBody))).

Lemma step_inOtherBlock (st : state) (it : item) (a a' : nat) :
  inOtherBlock it = true ->
  Fields (currBlock st) = Some a' ->
  (a' < length (heap st))%nat ->
  (a < length (heap st))%nat ->
  a <> a' ->
  Label (currBlock st) <> blockLabelBody ->
  exists st',
    step st it = Returns st'
    /\ stopped st' = stopped st
    /\ heap st' !! a = heap st !! a
    /\ (length (heap st) <= length (heap st'))%nat
    /\ (exists a'', Fields (currBlock st') = Some a''
                    /\ (a'' < length (heap st'))%nat /\ a <> a'')
    /\ Label (currBlock st') <> blockLabelBody
    /\ messages st' = messages st
    /\ currLine st' = currLine st
    /\ blocks st'
       = blocks st ++ (if closesBlock it then [currBlock st] else []).
Proof.
  intros Hin Hf Ha' Ha Hne Hlab.
  destruct (lookup_lt_is_Some_2 (heap st) a' Ha') as [fields Hh].
  unfold inOtherBlock, stops in Hin.
  apply andb_prop in Hin as [Hs Hl].
  apply negb_true_iff in Hs. apply orb_false_elim in Hs as [Heof Herr].
  unfold message.step, closesBlock.
  destruct (ityp it) eqn:Et; try discriminate;
    try (eexists; split; [reflexivity |]; cbn; rewrite ?app_nil_r;
         repeat split; auto; exists a'; auto; fail).
  - (* itemError *)
    simpl in Herr. rewrite Herr.
    eexists; split; [reflexivity |]. cbn. rewrite ?app_nil_r.
    repeat split; auto. exists a'; auto.
  - (* itemBlockLabel *)
    simpl in Hl. apply andb_prop in Hl as [Hl1 Hl4].
    apply negb_true_iff in Hl1. apply negb_true_iff in Hl4.
    rewrite Hl1. eexists; split; [reflexivity |]. cbn.
    rewrite length_app, app_nil_r. cbn.
    repeat split; auto.
    + apply lookup_app_l. exact Ha.
    + lia.
    + eexists; split; [reflexivity | split; lia].
    + apply streq_false in Hl4. exact Hl4.
  - (* itemFieldContent *)
    rewrite Hf, Hh. eexists; split; [reflexivity |]. cbn.
    rewrite length_insert, app_nil_r.
    repeat split; auto.
    + apply list_lookup_insert_ne. congruence.
    + exists a'. auto.
Qed.

Lemma run_inOtherBlock (its : list item) (st : state) (a a' : nat) :
  forallb inOtherBlock its = true ->
  stopped st = false ->
  Fields (currBlock st) = Some a' ->
  (a' < length (heap st))%nat ->
  (a < length (heap st))%nat ->
  a <> a' ->
  Label (currBlock st) <> blockLabelBody ->
  exists st' bs,
    runItems st its = Returns st'
    /\ stopped st' = false
    /\ heap st' !! a = heap st !! a
    /\ (length (heap st) <= length (heap st'))%nat
    /\ (exists a'', Fields (currBlock st') = Some a''
                    /\ (a'' < length (heap st'))%nat /\ a <> a'')
    /\ messages st' = messages st
    /\ currLine st' = currLine st
    /\ blocks st' = blocks st ++ bs
    /\ Forall (fun b => Label b <> blockLabelBody) bs.
Proof.
  revert st a'.
  induction its as [| it its IH]; intros st a' Hits Hrun Hf Ha' Ha Hne Hlab.
  - exists st, []. cbn. rewrite app_nil_r.
    repeat split; auto. exists a'. auto.
  - simpl in Hits. apply andb_prop in Hits as [Hit Hits].
    destruct (step_inOtherBlock st it a a' Hit Hf Ha' Ha Hne Hlab)
      as (st1 & Hs & Hst1 & Hh1 & Hl1 & (a1 & Hf1 & Ha1 & Hne1) & Hlab1 & Hm1
          & Hc1 & Hb1).
    destruct (IH st1 a1 Hits ltac:(congruence) Hf1 Ha1 ltac:(lia) Hne1 Hlab1)
      as (st' & bs & Hr & Hst' & Hh' & Hl' & Hcur & Hm' & Hc' & Hb' & Hall).
    exists st', ((if closesBlock it then [currBlock st] else []) ++ bs).
    cbn [message.runItems]. rewrite Hrun, Hs. cbn [mbind outcome_bind].
    rewrite Hr.
    repeat split; try congruence; try lia; auto.
    + rewrite Hb', Hb1, app_assoc. reflexivity.
    + apply Forall_app. split; [| exact Hall].
      destruct (closesBlock it); repeat constructor. exact Hlab.
Qed.

(** The label of a block that is neither the first of a message nor its
    body, met in any state. *)
Lemma step_other_label (st : state) (it : item) (a : nat) :
  ityp it = itemBlockLabel ->
  inOtherBlock it = true ->
  (a < length (heap st))%nat ->
  exists st',
    step st it = Returns st'
    /\ stopped st' = stopped st
    /\ heap st' !! a = heap st !! a
    /\ length (heap st') = S (length (heap st))
    /\ Fields (currBlock st') = Some (length (heap st))
    /\ Label (currBlock st') <> blockLabelBody
    /\ messages st' = messages st
    /\ currLine st' = currLine st
    /\ blocks st' = blocks st.
Proof.
  intros Et Hin Ha. unfold inOtherBlock in Hin.
  apply andb_prop in Hin as [_ Hl]. rewrite Et in Hl. simpl in Hl.
  apply andb_prop in Hl as [Hl1 Hl4].
  apply negb_true_iff in Hl1. apply negb_true_iff in Hl4.
  unfold message.step. rewrite Et, Hl1.
  eexists; split; [reflexivity |]. cbn. rewrite length_app. cbn.
  repeat split; auto.
  - apply lookup_app_l. exact Ha.
  - lia.
  - apply streq_false in Hl4. exact Hl4.
Qed.

(** An item at which the blocks gathered so far are sent as a message:
    the end of the input, or the label of a first block. *)
Definition flushes (it : item) : bool :=
  bool_decide (ityp it = itemEOF)
  || (bool_decide (ityp it = itemBlockLabel)
      && streq (ival it) blockLabelBasicHeader).

Lemma step_flushes (st : state) (it : item) (a : nat) :
  flushes it = true ->
  blocks st <> [] ->
  (a < length (heap st))%nat ->
  exists st',
    step st it = Returns st'
    /\ heap st' !! a = heap st !! a
    /\ messages st'
       = messages st ++ [blocksToMessage (blocks st) (currLine st)]
    /\ (stopped st' = true
        \/ exists a', Fields (currBlock st') = Some a'
                      /\ (a' < length (heap st'))%nat /\ a <> a').
Proof.
  intros Hfl Hb Ha.
  assert (Hpos : (0 <? len0 (blocks st)) = true).
  { destruct (blocks st); [congruence |]. reflexivity. }
  unfold flushes in Hfl. unfold message.step.
  destruct (ityp it) eqn:Et; try discriminate.
  - (* itemEOF *)
    unfold sendMessage. rewrite Hpos.
    eexists; split; [reflexivity |]. cbn. auto.
  - (* itemBlockLabel *)
    simpl in Hfl. rewrite Hfl. unfold sendMessage. rewrite Hpos.
    eexists; split; [reflexivity |]. cbn. rewrite length_app. cbn.
    repeat split.
    + apply lookup_app_l. exact Ha.
    + right. eexists; split; [reflexivity | split; lia].
Qed.

Lemma last_app_nonempty {A} (l bs : list A) :
  bs <> [] -> last (l ++ bs) = last bs.
Proof.
  intros H. destruct bs as [| x bs' _] using rev_ind; [congruence |].
  rewrite app_assoc, !last_snoc. reflexivity.
Qed.

(** The body of the message assembled from blocks that end in copies of
    the body block and blocks with other labels is the map of the body
    block. *)
Lemma body_of_blocks (before bs others : list Block) (a : nat) (line : Z) :
  bs <> [] ->
  Forall (fun b => Label b = blockLabelBody /\ Fields b = Some a) bs ->
  Forall (fun b => Label b <> blockLabelBody) others ->
  Body (blocksToMessage ((before ++ bs) ++ others) line) = Some a.
Proof.
  intros Hne Hbs Hothers.
  assert (Ho : filter (fun b => Label b = blockLabelBody) others = []).
  { clear Hne Hbs. induction Hothers as [| b others Hb _ IH]; [reflexivity |].
    rewrite filter_cons_False by exact Hb. exact IH. }
  assert (Hb : filter (fun b => Label b = blockLabelBody) bs = bs).
  { clear Hne Ho. induction Hbs as [| b bs' [Hb _] _ IH]; [reflexivity |].
    rewrite filter_cons_True by exact Hb. rewrite IH. reflexivity. }
  destruct (assembled_raw ((before ++ bs) ++ others) line)
    as (_ & _ & _ & _ & _ & Hbody).
  unfold blocksToMessage. fold (assembled ((before ++ bs) ++ others) line).
  cbn [Body]. rewrite Hbody. unfold lastLabelled.
  rewrite !filter_app, Ho, Hb.
  rewrite app_nil_r. rewrite last_app_nonempty by exact Hne.
  clear Hb Hbody.
  destruct bs as [| x bs' _] using rev_ind; [congruence |].
  rewrite last_snoc. cbn.
  apply Forall_app in Hbs as [_ Hx]. apply Forall_inv in Hx as [_ Hx].
  exact Hx.
Qed.

Definition startsWithLabel (its : list item) : bool :=
  match its with
  | [] => true
  | it :: _ => bool_decide (ityp it = itemBlockLabel)
  end.

(** C5, amended. The items of the lexer are: the label of the body
    block, the items of this block up to and with a closing brace, the
    items of further blocks other than a first and a body block, then an
    item that sends the message (the end of the input or the label of a
    first block), and whatever comes after; none of the items before the
    one that sends the message stops the parser. Then the parser, taken
    in any state in which it is still running, returns, the message it
    sends next has in its body under every tag the trimmed field texts of
    the tag in the order in which the lexer gave them, none left out and
    none added, and this is what a receiver finds however much of the
    input the parser has gone on to read. *)
Theorem body_values_in_wire_order (st : state) (label : item)
    (body others : list item) (flush : item) (later : list item) :
  stopped st = false ->
  ityp label = itemBlockLabel ->
  ival label = blockLabelBody ->
  forallb (inBlock cfg) body = true ->
  existsb closesBlock body = true ->
  forallb inOtherBlock others = true ->
  startsWithLabel others = true ->
  flushes flush = true ->
  exists st' msg,
    runItems st (label :: body ++ others ++ flush :: later) = Returns st'
    /\ messages st' !! length (messages st) = Some msg
    /\ forall tag,
         bodyValues st' msg tag
         = map TrimSpace (wireValues tag (currTag st) body).
Proof.
  intros Hrun Etl Hvl Hbody Hclose Hothers Hstart Hflush.
  set (a := length (heap st)).
  (* the label of the body block *)
  assert (H1 : exists st1,
             step st label = Returns st1
             /\ stopped st1 = false
             /\ Fields (currBlock st1) = Some a
             /\ Label (currBlock st1) = blockLabelBody
             /\ length (heap st1) = S a
             /\ heap st1 !! a = Some ∅
             /\ messages st1 = messages st
             /\ currTag st1 = currTag st
             /\ blocks st1 = blocks st).
  { unfold message.step. rewrite Etl, Hvl.
    change (streq blockLabelBody blockLabelBasicHeader) with false.
    eexists; split; [reflexivity |]. cbn. rewrite length_app. cbn.
    repeat split; auto; [lia |].
    rewrite lookup_app_r by reflexivity.
    rewrite Nat.sub_diag. reflexivity. }
  destruct H1 as (st1 & Hs1 & Hr1 & Hf1 & Hl1 & Hh1 & Hm1 & Hms1 & Ht1 & Hb1).
  (* the items of the body block *)
  destruct (run_inBlock body st1 a Hbody Hr1 Hf1 ltac:(lia))
    as (st2 & bs & Hs2 & Hr2 & Hf2 & Hl2 & Hh2 & Hms2 & Hc2 & Hv2 & Hb2 & Hall2
        & Hne2).
  specialize (Hne2 Hclose).
  assert (Hall2' : Forall (fun b => Label b = blockLabelBody
                                    /\ Fields b = Some a) bs).
  { eapply Forall_impl; [exact Hall2 |]. intros b [Hx Hy]. split; congruence. }
  assert (Hvals : forall tag,
             valuesAt st2 a tag
             = map TrimSpace (wireValues tag (currTag st) body)).
  { intros tag. rewrite Hv2. unfold valuesAt at 1. rewrite Hm1. cbn.
    rewrite lookup_empty. cbn. rewrite Ht1. reflexivity. }
  (* the blocks that follow *)
  assert (H3 : exists st3 bs',
             runItems st2 others = Returns st3
             /\ stopped st3 = false
             /\ heap st3 !! a = heap st2 !! a
             /\ (a < length (heap st3))%nat
             /\ messages st3 = messages st
             /\ blocks st3 = (blocks st ++ bs) ++ bs'
             /\ Forall (fun b => Label b <> blockLabelBody) bs').
  { destruct others as [| l others'].
    - exists st2, []. cbn. rewrite app_nil_r.
      repeat split; try congruence; auto. lia.
    - simpl in Hstart. apply bool_decide_eq_true in Hstart.
      simpl in Hothers. apply andb_prop in Hothers as [Hl Hothers'].
      destruct (step_other_label st2 l a Hstart Hl ltac:(lia))
        as (sta & Hsa & Hra & Hha & Hla & Hfa & Hlaba & Hmsa & Hca & Hba).
      destruct (run_inOtherBlock others' sta a (length (heap st2)) Hothers'
                  ltac:(congruence) Hfa ltac:(lia) ltac:(lia) ltac:(lia) Hlaba)
        as (st3 & bs' & Hs3 & Hr3 & Hh3 & Hl3 & _ & Hms3 & _ & Hb3 & Hall3).
      exists st3, bs'. cbn [message.runItems]. rewrite Hr2, Hsa.
      cbn [mbind outcome_bind]. rewrite Hs3.
      repeat split; try congruence; auto; try lia. }
  destruct H3 as (st3 & bs' & Hs3 & Hr3 & Hh3 & Ha3 & Hms3 & Hb3 & Hall3).
  (* the item that sends the message *)
  assert (Hblocks : blocks st3 <> []).
  { rewrite Hb3. destruct bs; [congruence |].
    destruct (blocks st); discriminate. }
  destruct (step_flushes st3 flush a Hflush Hblocks Ha3)
    as (st4 & Hs4 & Hh4 & Hms4 & Hcur4).
  set (msg := blocksToMessage (blocks st3) (currLine st3)) in *.
  assert (Hbodymsg : Body msg = Some a).
  { unfold msg. rewrite Hb3. apply body_of_blocks; assumption. }
  (* what comes after *)
  assert (H5 : exists st',
             runItems st4 later = Returns st'
             /\ heap st' !! a = heap st4 !! a
             /\ exists sent, messages st' = messages st4 ++ sent).
  { destruct Hcur4 as [Hstop | (a' & Hf4 & Ha4 & Hne4)].
    - exists st4. split.
      + destruct later; cbn [message.runItems]; [| rewrite Hstop]; reflexivity.
      + split; [reflexivity |]. exists []. rewrite app_nil_r. reflexivity.
    - apply (run_frame later st4 a a' Hf4 Ha4); [| exact Hne4].
      apply lookup_lt_is_Some_1. rewrite Hh4.
      apply lookup_lt_is_Some_2. exact Ha3. }
  destruct H5 as (st' & Hs5 & Hh5 & sent & Hms5).
  exists st', msg. split; [| split].
  - cbn [message.runItems]. rewrite Hrun, Hs1. cbn [mbind outcome_bind].
    assert (Hcat : forall (xs ys : list item) (s s1 : state),
               runItems s xs = Returns s1 ->
               runItems s (xs ++ ys) = runItems s1 ys).
    { induction xs as [| x xs IHx]; intros ys s s1 Hx.
      - cbn in Hx. injection Hx as <-. reflexivity.
      - cbn [message.runItems app] in *. destruct (stopped s) eqn:Es.
        + injection Hx as <-.
          destruct ys; cbn [message.runItems]; [| rewrite Es]; reflexivity.
        + destruct (step s x) as [s2 | |]; cbn [mbind outcome_bind] in *;
            try discriminate.
          apply IHx. exact Hx. }
    rewrite (Hcat body _ st1 st2 Hs2).
    rewrite (Hcat others _ st2 st3 Hs3).
    cbn [message.runItems]. rewrite Hr3, Hs4. cbn [mbind outcome_bind].
    exact Hs5.
  - rewrite Hms5, Hms4, Hms3.
    rewrite <- app_assoc. rewrite lookup_app_r by reflexivity.
    rewrite Nat.sub_diag. reflexivity.
  - intros tag. unfold bodyValues. rewrite Hbodymsg.
    rewrite Hh5, Hh4, Hh3. apply (Hvals tag).
Qed.

End BodyOrder.

(** The body block of the test [BodyAllCorrect] of the package, as the
    lexer gives it. *)
Definition bodyAllCorrect : str :=
  lit "{4:" ++ newline ++ lit ":20:Test1" ++ newline ++ lit ":20a:Test2"
  ++ newline ++ lit ":21:Test3" ++ newline ++ lit ":21:Test4" ++ newline
  ++ lit "-}".

Definition itemOf (t : itemType) (v : str) (l : Z) : item :=
  {| ityp := t; ival := v; iline := l |}.

Definition bodyAllCorrectItems : list item :=
  [itemOf itemBlockLabelMeta (lit ":") 1;
   itemOf itemBlockContent newline 2;
   itemOf itemTagLeftMeta (lit ":") 2;
   itemOf itemTagContent (lit "20") 2;
   itemOf itemTagRightMeta (lit ":") 2;
   itemOf itemFieldContent (lit "Test1" ++ newline) 3;
   itemOf itemTagLeftMeta (lit ":") 3;
   itemOf itemTagContent (lit "20a") 3;
   itemOf itemTagRightMeta (lit ":") 3;
   itemOf itemFieldContent (lit "Test2" ++ newline) 4;
   itemOf itemTagLeftMeta (lit ":") 4;
   itemOf itemTagContent (lit "21") 4;
   itemOf itemTagRightMeta (lit ":") 4;
   itemOf itemFieldContent (lit "Test3" ++ newline) 5;
   itemOf itemTagLeftMeta (lit ":") 5;
   itemOf itemTagContent (lit "21") 5;
   itemOf itemTagRightMeta (lit ":") 5;
   itemOf itemFieldContent (lit "Test4" ++ newline) 6;
   itemOf itemBlockContent (lit "-") 6;
   itemOf itemBlockRightMeta (lit "}") 6;
   itemOf itemIgnore [] 6].

Lemma bodyAllCorrect_lex :
  lex 100 bodyAllCorrect
  = Returns ([itemOf itemIgnore [] 1; itemOf itemBlockLeftMeta (lit "{") 1]
             ++ itemOf itemBlockLabel (lit "4") 1 :: bodyAllCorrectItems
             ++ [] ++ itemOf itemEOF [] 6 :: []).
Proof. vm_compute. reflexivity. Qed.

(** An item that leaves the state as it is (ignored text, an opening
    brace) is skipped by the run. *)
Lemma runItems_skip f g cfg (st : state) (it : item) (its : list item) :
  step f g cfg st it = Returns st ->
  stopped st = false ->
  runItems f g cfg st (it :: its) = runItems f g cfg st its.
Proof.
  intros Hs Hr. cbn [message.runItems]. rewrite Hr, Hs. reflexivity.
Qed.

Lemma body_values_in_wire_order_witness :
  exists st msg,
    Parse id id {| StopOnError := false |} 100 bodyAllCorrect = Returns st
    /\ messages st !! 0%nat = Some msg
    /\ bodyValues st msg (lit "20") = [lit "Test1"]
    /\ bodyValues st msg (lit "20a") = [lit "Test2"]
    /\ bodyValues st msg (lit "21") = [lit "Test3"; lit "Test4"].
Proof.
  destruct (body_values_in_wire_order id id {| StopOnError := false |}
              (initial) (itemOf itemBlockLabel (lit "4") 1)
              bodyAllCorrectItems [] (itemOf itemEOF [] 6) [])
    as (st & msg & Hr & Hm & Hv); try reflexivity.
  exists st, msg. split; [| split; [exact Hm |]].
  - unfold Parse. rewrite bodyAllCorrect_lex.
    cbn [mbind outcome_bind app].
    rewrite 2 runItems_skip by reflexivity.
    exact Hr.
  - rewrite !Hv. repeat split; vm_compute; reflexivity.
Defined.

(** A message with two body blocks, and a message whose body block is
    not closed when the input ends. *)
Definition twoBodies : str :=
  lit "{4:" ++ newline ++ lit ":20:Test1" ++ newline ++ lit "-}"
  ++ lit "{4:" ++ newline ++ lit ":20:Test2" ++ newline ++ lit "-}".

Definition openBody : str :=
  lit "{1:F01SCBLZAJJXXXX5712100002}{4:" ++ newline ++ lit ":20:Test1"
  ++ newline.

(** C5 as stated does not hold for every message the parser sends. In
    [twoBodies] the tag [20] occurs twice, with [Test1] and then [Test2],
    and the one message sent holds [Test2] alone: the second body block
    has taken the place of the first. In [openBody] the tag [20] occurs
    once, with [Test1], and the message sent has no body: a block that is
    not closed is not among the blocks of the message. *)
Lemma body_values_dropped :
  (exists its st msg,
      lex 100 twoBodies = Returns its
      /\ map (TrimSpace id id) (wireValues (lit "20") [] its)
         = [lit "Test1"; lit "Test2"]
      /\ Parse id id {| StopOnError := false |} 100 twoBodies = Returns st
      /\ messages st = [msg]
      /\ bodyValues st msg (lit "20") = [lit "Test2"])
  /\ (exists its st msg,
        lex 100 openBody = Returns its
        /\ map (TrimSpace id id) (wireValues (lit "20") [] its)
           = [lit "Test1"]
        /\ Parse id id {| StopOnError := false |} 100 openBody = Returns st
        /\ messages st = [msg]
        /\ Body msg = None
        /\ bodyValues st msg (lit "20") = []).
Proof.
  split.
  - eexists _, _, _.
    split; [vm_compute; reflexivity |].
    split; [vm_compute; reflexivity |].
    split; [vm_compute; reflexivity |].
    split; vm_compute; reflexivity.
  - eexists _, _, _.
    split; [vm_compute; reflexivity |].
    split; [vm_compute; reflexivity |].
    split; [vm_compute; reflexivity |].
    split; [vm_compute; reflexivity |].
    split; vm_compute; reflexivity.
Qed.

End MessageSpec.

(** ** What every matcher keeps *)

Module MatcherSpec.

Import pattern GoFacts.

(** A matcher all of whose character groups have a character set: what
    [process] builds from the keys of [charSets]. *)
Fixpoint hasCharSets (v : ValidatesPartially) : bool :=
  match v with
  | Literal _ => true
  | Optional p => hasCharSets p
  | Group cg => bool_decide (CharSetOf cg <> None)
  | Seq ps => forallb hasCharSets ps
  | LinePattern _ _ p => hasCharSets p
  | OrPattern l r => hasCharSets l && hasCharSets r
  end.

(** [rest] is what is left of [input] after some bytes at its head. *)
Definition restOf (input rest : str) : Prop := exists n, rest = drop n input.

(** The result of a partial match: it returned, and what it left is a
    rest of the input. *)
Definition leavesRest (input : str) (r : outcome partial) : Prop :=
  exists rest e, r = Returns (rest, e) /\ restOf input rest.

(** Induction over the matcher tree, the children of a pattern
    included. *)
Lemma ValidatesPartially_tree (P : ValidatesPartially -> Prop) :
  (forall s, P (Literal s)) ->
  (forall p, P p -> P (Optional p)) ->
  (forall cg, P (Group cg)) ->
  (forall ps, Forall P ps -> P (Seq ps)) ->
  (forall f e p, P p -> P (LinePattern f e p)) ->
  (forall l r, P l -> P r -> P (OrPattern l r)) ->
  forall v, P v.
Proof.
  intros HL HO HG HS HP HOr.
  fix IH 1. intros [s | p | cg | ps | f e p | l r].
  - apply HL.
  - apply HO, IH.
  - apply HG.
  - apply HS. induction ps as [| q ps IHps]; constructor; [apply IH | exact IHps].
  - apply HP, IH.
  - apply HOr; apply IH.
Qed.

Lemma restOf_refl (input : str) : restOf input input.
Proof. exists 0%nat. reflexivity. Qed.

Lemma restOf_nil (input : str) : restOf input [].
Proof. exists (length input). rewrite drop_all. reflexivity. Qed.

Lemma restOf_trans (a b c : str) : restOf a b -> restOf b c -> restOf a c.
Proof.
  intros [n ->] [m ->]. exists (n + m)%nat. rewrite drop_drop. reflexivity.
Qed.

Lemma restOf_sliceFrom (input : str) (n : Z) :
  0 <= n <= len input ->
  exists rest, sliceFrom input n = Returns rest /\ restOf input rest.
Proof.
  intros H. rewrite sliceFrom_in_range by exact H.
  eexists. split; [reflexivity |]. eexists. reflexivity.
Qed.

Lemma length_runesFrom (fuel : nat) (s : str) :
  (length (runesFrom fuel s) <= fuel)%nat.
Proof.
  revert s. induction fuel as [| fuel IH]; intros s; simpl; [lia |].
  destruct s as [| c t]; [simpl; lia |].
  destruct (DecodeRuneInString (c :: t)) as [r w]. simpl.
  specialize (IH (drop (Z.to_nat w) (c :: t))). lia.
Qed.

Lemma length_runes (s : str) : len0 (runes s) <= len s.
Proof.
  unfold len0, len, runes. pose proof (length_runesFrom (length s) s). lia.
Qed.

Lemma countLoop_bound (cg : CharGroup) (rs : list rune) (count : Z) :
  CharSetOf cg <> None ->
  exists n, countLoop cg rs count = Returns n /\ count <= n <= count + len0 rs.
Proof.
  intros Hcs. revert count. unfold len0.
  induction rs as [| r rs IH]; intros count; simpl.
  - exists count. split; [reflexivity | lia].
  - destruct (count =? Count cg); [exists count; split; [reflexivity | lia] |].
    destruct (CharSetOf cg) as [cs |]; [| congruence].
    destruct (cs r); simpl.
    + destruct (IH (count + 1)) as (m & -> & Hm). exists m.
      split; [reflexivity | lia].
    + exists count. split; [reflexivity | lia].
Qed.

Lemma beforeDecimalLoop_bound (c : Z) (rs : list rune) (charCount before : Z) :
  match beforeDecimalLoop c rs charCount before with
  | Some (charCount', _) => charCount <= charCount' <= charCount + len0 rs
  | None => True
  end.
Proof.
  revert charCount before. unfold len0.
  induction rs as [| r rs IH]; intros charCount before; simpl; [lia |].
  destruct (before =? c); [lia |].
  destruct (r =? 44); [lia |].
  destruct (numbers r); [| exact I].
  specialize (IH (charCount + 1) (before + 1)).
  destruct (beforeDecimalLoop c rs (charCount + 1) (before + 1)) as [[a b] |];
    [lia | exact I].
Qed.

Lemma afterDecimalLoop_bound (c : Z) (rs : list rune)
    (charCount before after : Z) :
  charCount <= fst (afterDecimalLoop c rs charCount before after)
            <= charCount + len0 rs.
Proof.
  revert charCount after. unfold len0.
  induction rs as [| r rs IH]; intros charCount after; simpl; [lia |].
  destruct (before + after =? c); [simpl; lia |].
  destruct (numbers r); [| simpl; lia].
  specialize (IH (charCount + 1) (after + 1)). lia.
Qed.

Lemma countAndStripFloats_rest (cg : CharGroup) (input : str) :
  exists n rest,
    countAndStripFloats cg input = Returns (n, rest) /\ restOf input rest.
Proof.
  unfold countAndStripFloats.
  pose proof (beforeDecimalLoop_bound (Count cg) (runes input) 0 0) as Hb.
  destruct (beforeDecimalLoop (Count cg) (runes input) 0 0)
    as [[charCount before] |].
  2:{ exists 0, input. split; [reflexivity | apply restOf_refl]. }
  pose proof (length_runes input) as Hr.
  rewrite sliceFrom_in_range by lia. cbn [mbind outcome_bind].
  set (tail := drop (Z.to_nat charCount) input).
  pose proof (afterDecimalLoop_bound (Count cg) (runes tail) charCount
                before 0) as Ha.
  pose proof (length_runes tail) as Ht.
  assert (Hlt : len tail = len input - charCount).
  { unfold tail, len. rewrite length_drop. unfold len in Hr. lia. }
  destruct (afterDecimalLoop (Count cg) (runes tail) charCount before 0)
    as [charCount' after]. simpl in Ha.
  destruct (after =? 0).
  - exists 0, input. split; [reflexivity | apply restOf_refl].
  - destruct (restOf_sliceFrom input charCount') as (rest & -> & Hrest);
      [lia |].
    exists (before + after), rest. split; [reflexivity | exact Hrest].
Qed.

Lemma countAndStripChars_rest (cg : CharGroup) (input : str) :
  CharSetOf cg <> None ->
  exists n rest,
    countAndStripChars cg input = Returns (n, rest) /\ restOf input rest.
Proof.
  intros Hcs. unfold countAndStripChars.
  destruct (streq (charSetKey cg) (lit "d")).
  - apply countAndStripFloats_rest.
  - destruct (countLoop_bound cg (runes input) 0 Hcs) as (n & -> & Hn).
    pose proof (length_runes input) as Hr.
    cbn [mbind outcome_bind].
    destruct (restOf_sliceFrom input n) as (rest & -> & Hrest); [lia |].
    exists n, rest. split; [reflexivity | exact Hrest].
Qed.

Lemma seqLoop_rest (ps : list ValidatesPartially) :
  Forall (fun v => forall input line,
            leavesRest input (ValidatePartial v input line)) ps ->
  forall input line,
    leavesRest input (seqLoop ValidatePartial ps input line).
Proof.
  induction 1 as [| v ps Hv _ IH]; intros input line; simpl.
  - exists input, None. split; [reflexivity | apply restOf_refl].
  - destruct (Hv input line) as (rest & e & -> & Hrest).
    cbn [mbind outcome_bind].
    destruct e as [e |].
    + exists rest, (Some e). split; [reflexivity | exact Hrest].
    + destruct (IH rest line) as (rest' & e' & -> & Hrest').
      exists rest', e'. split; [reflexivity |].
      eapply restOf_trans; eassumption.
Qed.

Lemma lineLoop_rest (f e : Z) (p : ValidatesPartially) :
  (forall input line, leavesRest input (ValidatePartial p input line)) ->
  forall lines input line,
    leavesRest input (lineLoop ValidatePartial f e p lines input line).
Proof.
  intros Hp lines. induction lines as [| l lines IH]; intros input line; simpl.
  - exists input, None. split; [reflexivity | apply restOf_refl].
  - destruct (InRange f e line).
    2:{ exists input, None. split; [reflexivity | apply restOf_refl]. }
    destruct (Hp l line) as (rest & err & -> & _).
    cbn [mbind outcome_bind].
    destruct err as [err |].
    { eexists input, _. split; [reflexivity | apply restOf_refl]. }
    destruct (negb (streq rest [])).
    { eexists input, _. split; [reflexivity | apply restOf_refl]. }
    destruct (len l + 1 <? len input) eqn:E.
    + destruct (restOf_sliceFrom input (len l + 1)) as (input' & -> & Hi).
      { pose proof (len_nonneg l). lia. }
      cbn [mbind outcome_bind].
      destruct (IH input' (line + 1)) as (rest' & e' & -> & Hrest').
      exists rest', e'. split; [reflexivity |].
      eapply restOf_trans; eassumption.
    + cbn [mbind outcome_bind].
      destruct (IH [] (line + 1)) as (rest' & e' & -> & [n ->]).
      exists [], e'. rewrite drop_nil. split; [reflexivity | apply restOf_nil].
Qed.

Lemma ValidatePartial_rest (v : ValidatesPartially) :
  hasCharSets v = true ->
  forall input line, leavesRest input (ValidatePartial v input line).
Proof.
  induction v as [s | p IH | cg | ps IH | f e p IH | l r IHl IHr]
    using ValidatesPartially_tree; intros Hv input line.
  - (* Literal *)
    cbn [ValidatePartial]. unfold LiteralValidatePartial.
    destruct (HasPrefix input s).
    + destruct (len s <? len input) eqn:E.
      * destruct (restOf_sliceFrom input (len s)) as (rest & -> & Hrest).
        { pose proof (len_nonneg s). lia. }
        exists rest, None. split; [reflexivity | exact Hrest].
      * exists [], None. split; [reflexivity | apply restOf_nil].
    + eexists input, _. split; [reflexivity | apply restOf_refl].
  - (* Optional *)
    cbn [ValidatePartial].
    destruct (IH Hv input line) as (rest & e & -> & Hrest).
    cbn [mbind outcome_bind]. destruct e.
    + exists input, None. split; [reflexivity | apply restOf_refl].
    + exists rest, None. split; [reflexivity | exact Hrest].
  - (* Group *)
    cbn [ValidatePartial]. unfold CharGroupValidatePartial.
    simpl in Hv. apply bool_decide_eq_true in Hv.
    destruct (countAndStripChars_rest cg input Hv) as (n & rest & -> & Hrest).
    cbn [mbind outcome_bind].
    destruct ((n <? Count cg) && CountStrict cg);
      eexists rest, _; (split; [reflexivity | exact Hrest]).
  - (* Pattern *)
    cbn [ValidatePartial]. apply seqLoop_rest.
    simpl in Hv. rewrite forallb_forall in Hv.
    rewrite Forall_forall in IH |- *.
    intros q Hq. apply IH; [exact Hq |]. apply Hv.
    apply list_elem_of_In. exact Hq.
  - (* LinePattern *)
    cbn [ValidatePartial]. apply lineLoop_rest. apply IH. exact Hv.
  - (* OrPattern *)
    cbn [ValidatePartial]. simpl in Hv. apply andb_prop in Hv as [Hl Hr].
    destruct (IHl Hl input line) as (restL & eL & -> & HrestL).
    cbn [mbind outcome_bind].
    destruct (bool_decide (eL = None) && streq restL []).
    { exists restL, None. split; [reflexivity | exact HrestL]. }
    destruct (IHr Hr input line) as (restR & eR & -> & HrestR).
    cbn [mbind outcome_bind]. unfold orSwitch.
    destruct eL, eR;
      try (eexists _, _; split; [reflexivity |]; first [assumption | apply restOf_refl]).
    destruct (len restL <? len restR);
      [eexists _, _; split; [reflexivity | assumption] |].
    destruct (len restR <? len restL);
      eexists _, _; (split; [reflexivity |]); first [assumption | apply restOf_refl].
Qed.


(** X1. A matcher all of whose groups have a character set returns on
    every input, well-formed UTF-8 or not, at every line: it does not
    panic, and what it leaves is the input without some bytes at its
    head. [Validate] of a pattern of such matchers returns as well. *)
Theorem matcher_returns_rest (v : ValidatesPartially) (input : str)
    (line : Z) :
  hasCharSets v = true ->
  (exists rest e n,
      ValidatePartial v input line = Returns (rest, e)
      /\ rest = drop n input)
  /\ exists r, Validate [v] input = Returns r.
Proof.
  intros Hv. split.
  - destruct (ValidatePartial_rest v Hv input line)
      as (rest & e & H & n & Hn).
    exists rest, e, n. split; assumption.
  - destruct (ValidatePartial_rest v Hv input 1) as (rest & e & H & _).
    unfold Validate. cbn [validateLoop]. rewrite H.
    cbn [mbind outcome_bind]. destruct e as [e |]; cbn [mbind outcome_bind].
    + eexists. reflexivity.
    + destruct (negb (streq rest [])); eexists; reflexivity.
Qed.

Lemma matcher_returns_rest_witness :
  exists rest e n,
    ValidatePartial
      (OrPattern (Literal (lit "ab"))
         (Seq [Group {| charSetKey := lit "a"; CharSetOf := Some alphaUpper;
                        Count := 2; CountStrict := false |};
               LinePattern 1 3 (Optional (Literal (lit "x")))]))
      ("195"%char :: lit "AB") 1 = Returns (rest, e)
    /\ rest = drop n ("195"%char :: lit "AB").
Proof.
  apply (matcher_returns_rest _ _ 1). reflexivity.
Defined.

(** *** The empty input, and optional parts *)

Lemma ValidatePartial_empty (v : ValidatesPartially) :
  forall line, exists e, ValidatePartial v [] line = Returns ([], e).
Proof.
  induction v as [s | p IH | cg | ps IH | f e p IH | l r IHl IHr]
    using ValidatesPartially_tree; intros line.
  - cbn [ValidatePartial]. unfold LiteralValidatePartial.
    destruct (HasPrefix [] s); [| eexists; reflexivity].
    pose proof (len_nonneg s).
    destruct (len s <? len []) eqn:E; [| eexists; reflexivity].
    change (len []) with 0 in E. lia.
  - cbn [ValidatePartial]. destruct (IH line) as [e ->].
    cbn [mbind outcome_bind]. destruct e; eexists; reflexivity.
  - cbn [ValidatePartial]. unfold CharGroupValidatePartial, countAndStripChars.
    destruct (streq (charSetKey cg) (lit "d")).
    + change (countAndStripFloats cg []) with (Returns (A := Z * str) (0, [])).
      cbn [mbind outcome_bind].
      destruct ((0 <? Count cg) && CountStrict cg); eexists; reflexivity.
    + change (runes []) with (@nil rune). cbn [countLoop].
      cbn [mbind outcome_bind]. rewrite sliceFrom_zero.
      cbn [mbind outcome_bind].
      destruct ((0 <? Count cg) && CountStrict cg); eexists; reflexivity.
  - cbn [ValidatePartial].
    induction IH as [| q ps Hq _ IHps]; simpl; [eexists; reflexivity |].
    destruct (Hq line) as [e ->]. cbn [mbind outcome_bind].
    destruct e; [eexists; reflexivity | exact IHps].
  - cbn [ValidatePartial]. change (Split [] newline) with [@nil ascii].
    cbn [lineLoop]. destruct (InRange f e line); [| eexists; reflexivity].
    destruct (IH line) as [err ->]. cbn [mbind outcome_bind].
    destruct err; eexists; reflexivity.
  - cbn [ValidatePartial]. destruct (IHl line) as [eL ->].
    cbn [mbind outcome_bind].
    destruct (bool_decide (eL = None) && streq [] []); [eexists; reflexivity |].
    destruct (IHr line) as [eR ->]. cbn [mbind outcome_bind].
    destruct eL, eR; eexists; reflexivity.
Qed.

(** X2. An optional part never reports an error. Around any matcher,
    with or without character sets, it accepts the empty input as a
    whole; around a matcher with character sets it returns, on every
    input, without an error: what the matcher left if it matched, the
    input as it was if it did not. *)
Theorem optional_never_fails (p : ValidatesPartially) :
  Validate [Optional p] [] = Returns None
  /\ (hasCharSets p = true ->
      forall input line,
        exists rest,
          ValidatePartial (Optional p) input line = Returns (rest, None)
          /\ (forall r e, ValidatePartial p input line = Returns (r, Some e) ->
                          rest = input)
          /\ (forall r, ValidatePartial p input line = Returns (r, None) ->
                        rest = r)).
Proof.
  split.
  - unfold Validate. cbn [validateLoop ValidatePartial].
    destruct (ValidatePartial_empty p 1) as [e ->].
    cbn [mbind outcome_bind]. destruct e; reflexivity.
  - intros Hp input line. cbn [ValidatePartial].
    destruct (ValidatePartial_rest p Hp input line) as (rest & e & -> & _).
    cbn [mbind outcome_bind]. destruct e as [e |].
    + exists input. split; [reflexivity |]. split; [reflexivity |].
      intros r H. discriminate.
    + exists rest. split; [reflexivity |]. split.
      * intros r e H. discriminate.
      * intros r H. congruence.
Qed.

Lemma optional_never_fails_witness :
  exists rest,
    ValidatePartial (Optional (Literal (lit "/"))) (lit "ab") 1
    = Returns (rest, None)
    /\ (forall r e, ValidatePartial (Literal (lit "/")) (lit "ab") 1
                    = Returns (r, Some e) -> rest = lit "ab")
    /\ (forall r, ValidatePartial (Literal (lit "/")) (lit "ab") 1
                  = Returns (r, None) -> rest = r).
Proof.
  apply (optional_never_fails (Literal (lit "/"))). reflexivity.
Defined.

(** *** Character groups *)

Definition isAscii (c : ascii) : bool := byteZ c <? 128.

Lemma runes_app_ascii (pre rest : str) :
  forallb isAscii pre = true ->
  runes (pre ++ rest) = map byteZ pre ++ runes rest.
Proof.
  induction pre as [| c pre IH]; intros H; simpl in *; [reflexivity |].
  apply andb_prop in H as [Hc Hpre]. unfold isAscii in Hc.
  rewrite runes_cons_ascii by lia.
  rewrite IH by exact Hpre. reflexivity.
Qed.

(** The head of what follows the members: nothing, or a rune that is not
    in the set. *)
Definition stopsAt (cs : CharSet) (rest : str) : Prop :=
  match runes rest with
  | [] => True
  | r :: _ => cs r = false
  end.

Lemma countLoop_members (cg : CharGroup) (cs : CharSet) (pre : str)
    (rs : list rune) (count : Z) :
  CharSetOf cg = Some cs ->
  forallb (fun c => cs (byteZ c)) pre = true ->
  count + len pre <= Count cg ->
  (count + len pre = Count cg
   \/ match rs with [] => True | r :: _ => cs r = false end) ->
  countLoop cg (map byteZ pre ++ rs) count = Returns (count + len pre).
Proof.
  intros Hcs. revert count.
  induction pre as [| c pre IH]; intros count Hm Hle Hstop.
  - change (len []) with 0 in *. rewrite Z.add_0_r in *. simpl.
    destruct rs as [| r rs]; [reflexivity |]. simpl.
    destruct (count =? Count cg) eqn:E; [reflexivity |].
    rewrite Hcs. destruct Hstop as [H | H]; [lia |]. rewrite H. reflexivity.
  - simpl in Hm. apply andb_prop in Hm as [Hc Hm].
    rewrite len_cons in *. pose proof (len_nonneg pre).
    simpl. destruct (count =? Count cg) eqn:E; [lia |].
    rewrite Hcs, Hc. simpl.
    rewrite IH; [f_equal; lia | exact Hm | lia |].
    destruct Hstop as [Hs | Hs]; [left; lia | right; exact Hs].
Qed.

(** X3. A group of a class other than [d], on an input that starts with
    members of the class below 128: it takes the members up to its count
    and leaves the rest, where the members end or the count is reached.
    It reports an error exactly when it is strict and the members are
    fewer than the count; a group that is not strict never does. *)
Theorem char_group_takes_members (cg : CharGroup) (cs : CharSet)
    (pre rest : str) (line : Z) :
  CharSetOf cg = Some cs ->
  charSetKey cg <> lit "d" ->
  forallb isAscii pre = true ->
  forallb (fun c => cs (byteZ c)) pre = true ->
  len pre <= Count cg ->
  len pre = Count cg \/ stopsAt cs rest ->
  ValidatePartial (Group cg) (pre ++ rest) line
  = Returns (rest,
             if (len pre <? Count cg) && CountStrict cg
             then Some (ErrCount (Count cg) (charSetKey cg) (len pre))
             else None).
Proof.
  intros Hcs Hkey Ha Hm Hle Hstop.
  cbn [ValidatePartial]. unfold CharGroupValidatePartial, countAndStripChars.
  apply streq_false in Hkey. rewrite Hkey.
  rewrite runes_app_ascii by exact Ha.
  rewrite (countLoop_members cg cs pre (runes rest) 0 Hcs Hm);
    [| lia | rewrite Z.add_0_l; exact Hstop].
  rewrite Z.add_0_l. cbn [mbind outcome_bind].
  rewrite sliceFrom_app. cbn [mbind outcome_bind].
  destruct ((len pre <? Count cg) && CountStrict cg); reflexivity.
Qed.

Lemma char_group_takes_members_witness :
  ValidatePartial
    (Group {| charSetKey := lit "n"; CharSetOf := Some numbers; Count := 6;
              CountStrict := true |}) (lit "0310C") 1
  = Returns (lit "C", Some (ErrCount 6 (lit "n") 4)).
Proof.
  apply (char_group_takes_members
           {| charSetKey := lit "n"; CharSetOf := Some numbers; Count := 6;
              CountStrict := true |} numbers (lit "0310") (lit "C") 1);
    try reflexivity; [discriminate | vm_compute; discriminate
                     | right; reflexivity].
Defined.

(** *** Alternatives *)

Lemma len_pos (s : str) : s <> [] -> 0 < len s.
Proof. destruct s; [congruence |]. intros _. rewrite len_cons. pose proof (len_nonneg s). lia. Qed.

(** X4. An alternative does not depend on the order of its sides, as long
    as both return: with the sides exchanged it leaves the same rest and
    reports an error in the same cases. *)
Theorem or_sides_exchange (l r : ValidatesPartially) (input : str)
    (line : Z) (resL resR : partial) :
  ValidatePartial l input line = Returns resL ->
  ValidatePartial r input line = Returns resR ->
  exists rest e1 e2,
    ValidatePartial (OrPattern l r) input line = Returns (rest, e1)
    /\ ValidatePartial (OrPattern r l) input line = Returns (rest, e2)
    /\ (e1 = None <-> e2 = None).
Proof.
  intros HL HR. destruct resL as [restL eL], resR as [restR eR].
  cbn [ValidatePartial]. rewrite HL, HR. cbn [mbind outcome_bind].
  unfold orSwitch.
  destruct eL as [eL |], eR as [eR |]; cbn [bool_decide andb].
  - rewrite !bool_decide_eq_false_2 by discriminate. cbn [andb].
    eexists _, _, _. split; [reflexivity |]. split; [reflexivity |].
    split; discriminate.
  - rewrite bool_decide_eq_false_2 by discriminate.
    rewrite bool_decide_eq_true_2 by reflexivity. cbn [andb].
    destruct (streq restR []) eqn:E.
    + apply streq_true in E. subst restR.
      eexists _, _, _. split; [reflexivity |]. split; [reflexivity |].
      split; reflexivity.
    + eexists _, _, _. split; [reflexivity |]. split; [reflexivity |].
      split; reflexivity.
  - rewrite bool_decide_eq_true_2 by reflexivity.
    rewrite bool_decide_eq_false_2 by discriminate. cbn [andb].
    destruct (streq restL []) eqn:E.
    + apply streq_true in E. subst restL.
      eexists _, _, _. split; [reflexivity |]. split; [reflexivity |].
      split; reflexivity.
    + eexists _, _, _. split; [reflexivity |]. split; [reflexivity |].
      split; reflexivity.
  - rewrite !bool_decide_eq_true_2 by reflexivity. cbn [andb].
    pose proof (len_nonneg restL). pose proof (len_nonneg restR).
    destruct (streq restL []) eqn:EL, (streq restR []) eqn:ER;
      try (apply streq_true in EL; subst restL);
      try (apply streq_true in ER; subst restR);
      try (apply streq_false in EL; apply len_pos in EL);
      try (apply streq_false in ER; apply len_pos in ER);
      change (len []) with 0 in *.
    + eexists _, _, _. repeat split; reflexivity.
    + destruct (len restR <? 0) eqn:E1; [lia |].
      destruct (0 <? len restR) eqn:E2; [| lia].
      eexists _, _, _. repeat split; reflexivity.
    + destruct (len restL <? 0) eqn:E1; [lia |].
      destruct (0 <? len restL) eqn:E2; [| lia].
      eexists _, _, _. repeat split; reflexivity.
    + destruct (len restL <? len restR) eqn:E1,
               (len restR <? len restL) eqn:E2; try lia;
        eexists _, _, _; (split; [reflexivity |]);
        (split; [reflexivity |]); split; congruence.
Qed.

Lemma or_sides_exchange_witness :
  exists rest e1 e2,
    ValidatePartial (OrPattern (Literal (lit "a")) (Literal (lit "ab")))
      (lit "abc") 1 = Returns (rest, e1)
    /\ ValidatePartial (OrPattern (Literal (lit "ab")) (Literal (lit "a")))
         (lit "abc") 1 = Returns (rest, e2)
    /\ (e1 = None <-> e2 = None).
Proof.
  apply (or_sides_exchange (Literal (lit "a")) (Literal (lit "ab"))
           (lit "abc") 1 (lit "bc", None) (lit "c", None));
    reflexivity.
Defined.


(** *** Line patterns *)

(** [strings.Join(lines, "\n")] *)
Fixpoint joinLines (lines : list str) : str :=
  match lines with
  | [] => []
  | [l] => l
  | l :: ls => l ++ newline ++ joinLines ls
  end.

Definition oneLine (l : str) : bool :=
  forallb (fun c => negb (Ascii.eqb c "010")) l.

Lemma splitFrom_line (l rest : str) :
  oneLine l = true ->
  splitFrom newline 0 (l ++ newline ++ rest)
  = l :: splitFrom newline 0 rest.
Proof.
  induction l as [| c l IH]; intros H.
  - reflexivity.
  - simpl in H. apply andb_prop in H as [Hc Hl].
    apply negb_true_iff in Hc.
    change ((c :: l) ++ newline ++ rest) with (c :: (l ++ newline ++ rest)).
    cbn [splitFrom HasPrefix newline]. rewrite Hc. cbn [andb].
    rewrite (IH Hl). reflexivity.
Qed.

Lemma splitFrom_last (l : str) :
  oneLine l = true -> splitFrom newline 0 l = [l].
Proof.
  induction l as [| c l IH]; intros H; [reflexivity |].
  simpl in H. apply andb_prop in H as [Hc Hl].
  apply negb_true_iff in Hc.
  cbn [splitFrom HasPrefix newline]. rewrite Hc. cbn [andb].
  rewrite (IH Hl). reflexivity.
Qed.

(** [Split] gives back the lines that were joined. *)
Lemma Split_joinLines (lines : list str) :
  lines <> [] ->
  forallb oneLine lines = true ->
  Split (joinLines lines) newline = lines.
Proof.
  unfold Split. induction lines as [| l lines IH]; intros Hne H; [congruence |].
  simpl in H. apply andb_prop in H as [Hl Hls].
  destruct lines as [| l' lines].
  - apply splitFrom_last. exact Hl.
  - change (joinLines (l :: l' :: lines))
      with (l ++ newline ++ joinLines (l' :: lines)).
    rewrite splitFrom_line by exact Hl.
    rewrite IH; [reflexivity | discriminate | exact Hls].
Qed.

Lemma len_joinLines_cons (l : str) (ls : list str) :
  len (joinLines (l :: ls))
  = len l + (if bool_decide (ls = []) then 0 else 1 + len (joinLines ls)).
Proof.
  destruct ls as [| l' ls].
  - simpl. lia.
  - change (joinLines (l :: l' :: ls))
      with (l ++ newline ++ joinLines (l' :: ls)).
    rewrite !len_app. change (len newline) with 1.
    rewrite bool_decide_eq_false_2 by discriminate. reflexivity.
Qed.

(** The loop on the lines that are left, on the text that joins them. *)
Lemma lineLoop_lines (f e : Z) (p : ValidatesPartially)
    (lines : list str) (line : Z) (k : nat) :
  f <= line ->
  k = Nat.min (length lines) (Z.to_nat (e - line)) ->
  (forall (i : nat) l,
      lines !! i = Some l -> (i < k)%nat ->
      ValidatePartial p l (line + Z.of_nat i) = Returns ([], None)) ->
  lineLoop ValidatePartial f e p lines (joinLines lines) line
  = Returns (joinLines (drop k lines), None).
Proof.
  revert line k. induction lines as [| l lines IH]; intros line k Hf Hk Hp.
  - simpl in Hk. subst k. reflexivity.
  - cbn [lineLoop]. unfold InRange.
    destruct (f <=? line) eqn:E1; [| lia]. cbn [andb].
    destruct (line <? e) eqn:E2.
    2:{ replace (Z.to_nat (e - line)) with 0%nat in Hk by lia.
        rewrite Nat.min_0_r in Hk. subst k. reflexivity. }
    apply Z.ltb_lt in E2.
    destruct k as [| k]; [simpl length in Hk; lia |].
    assert (H0 : ValidatePartial p l line = Returns ([], None)).
    { rewrite <- (Z.add_0_r line). apply (Hp 0%nat l eq_refl). lia. }
    rewrite H0.
    cbn [mbind outcome_bind]. change (streq [] []) with true. cbn [negb].
    assert (Hin : (if len l + 1 <? len (joinLines (l :: lines))
                   then sliceFrom (joinLines (l :: lines)) (len l + 1)
                   else Returns []) = Returns (joinLines lines)).
    { rewrite len_joinLines_cons. destruct lines as [| l' lines].
      - rewrite bool_decide_eq_true_2 by reflexivity.
        destruct (len l + 1 <? len l + 0) eqn:E; [lia | reflexivity].
      - rewrite bool_decide_eq_false_2 by discriminate.
        change (joinLines (l :: l' :: lines))
          with (l ++ newline ++ joinLines (l' :: lines)).
        pose proof (len_nonneg (joinLines (l' :: lines))) as Hn.
        destruct (len l + 1 <? len l + (1 + len (joinLines (l' :: lines))))
          eqn:E.
        + rewrite app_assoc.
          replace (len l + 1) with (len (l ++ newline))
            by (rewrite len_app; reflexivity).
          apply sliceFrom_app.
        + assert (Hz : len (joinLines (l' :: lines)) = 0) by lia.
          apply len_zero in Hz. rewrite Hz. reflexivity. }
    rewrite Hin. cbn [mbind outcome_bind].
    rewrite (IH (line + 1) k); [reflexivity | lia | |].
    + simpl length in Hk. lia.
    + intros i l' Hl' Hi. replace (line + 1 + Z.of_nat i)
        with (line + Z.of_nat (S i)) by lia.
      apply Hp; [exact Hl' | lia].
Qed.

(** X5. A line pattern for the lines [f] to [f + n - 1], called at line
    [f] on a text of lines: if the inner matcher matches each of the
    first [n] lines (all of them if there are fewer) as a whole, the line
    pattern takes these lines with their newlines and leaves the lines
    after them joined as they were. *)
Theorem line_pattern_takes_lines (f n : Z) (p : ValidatesPartially)
    (lines : list str) (k : nat) :
  lines <> [] ->
  forallb oneLine lines = true ->
  k = Nat.min (length lines) (Z.to_nat n) ->
  (forall (i : nat) l,
      lines !! i = Some l -> (i < k)%nat ->
      ValidatePartial p l (f + Z.of_nat i) = Returns ([], None)) ->
  ValidatePartial (LinePattern f (f + n) p) (joinLines lines) f
  = Returns (joinLines (drop k lines), None).
Proof.
  intros Hne Hl Hk Hp. cbn [ValidatePartial].
  rewrite Split_joinLines by assumption.
  apply lineLoop_lines; [lia | | exact Hp].
  rewrite Hk. f_equal. f_equal. lia.
Qed.

Lemma line_pattern_takes_lines_witness :
  ValidatePartial
    (LinePattern 1 3
       (Group {| charSetKey := lit "x"; CharSetOf := Some any; Count := 3;
                 CountStrict := false |}))
    (lit "AB" ++ newline ++ lit "C" ++ newline ++ lit "DEF") 1
  = Returns (lit "DEF", None).
Proof.
  apply (line_pattern_takes_lines 1 2 _ [lit "AB"; lit "C"; lit "DEF"] 2);
    [discriminate | reflexivity | reflexivity |].
  intros [| [| i]] l Hl Hi; [| | lia];
    injection Hl as <-; reflexivity.
Defined.

End MatcherSpec.

(** ** The lexer and the parser of the block structure, on any input *)

Module StreamSpec.

Import message GoFacts.
Import MatcherSpec(isAscii).

(** The bytes of the values of the items, one after the other. *)
Definition itemsText (its : list item) : str := concat (map ival its).

Lemma itemsText_app (a b : list item) :
  itemsText (a ++ b) = itemsText a ++ itemsText b.
Proof. unfold itemsText. rewrite map_app, concat_app. reflexivity. Qed.

(** What the lexer has read: the items it sent and its buffer. *)
Definition readSoFar (l : lexer) : str := itemsText (items l) ++ buff l.

(** *** Reading *)

Lemma next_byte (l : lexer) (c : ascii) (t : str) :
  input l = c :: t -> isAscii c = true ->
  next l = ({| input := t; buff := buff l ++ [c]; items := items l;
               line := if byteZ c =? 10 then line l + 1 else line l |},
            byteZ c).
Proof.
  intros Hi Hc. unfold next. rewrite Hi. unfold isAscii in Hc.
  cbn [DecodeRuneInString]. rewrite Hc. unfold runeBytes.
  replace (byteZ c =? RuneError) with false
    by (symmetry; apply Z.eqb_neq; unfold RuneError; lia).
  reflexivity.
Qed.

Lemma byteZ_not_eof (c : ascii) : (byteZ c =? eof) = false.
Proof.
  apply Z.eqb_neq. unfold eof, byteZ. lia.
Qed.

(** *** Suffixes *)

Lemma HasSuffix_inv (b suf : str) :
  HasSuffix b suf = true -> exists pre, b = pre ++ suf.
Proof.
  unfold HasSuffix. intros H. apply HasPrefix_inv in H as [u Hu].
  exists (rev u). rewrite <- (rev_involutive b), Hu, rev_app_distr,
    rev_involutive. reflexivity.
Qed.

Lemma findSuffix_Some (b : str) (nextOf : list (str * stateFn))
    (suf : str) (st : stateFn) :
  findSuffix b nextOf = Some (suf, st) ->
  In (suf, st) nextOf /\ exists pre, b = pre ++ suf.
Proof.
  induction nextOf as [| [s n] rest IH]; simpl; [discriminate |].
  destruct (HasSuffix b s) eqn:E.
  - intros [= <- <-]. split; [left; reflexivity | apply HasSuffix_inv, E].
  - intros H. destruct (IH H) as [Hin Hpre]. split; [right |]; assumption.
Qed.

Lemma findSuffix_nil (nextOf : list (str * stateFn)) :
  Forall (fun p => fst p <> []) nextOf -> findSuffix [] nextOf = None.
Proof.
  induction 1 as [| [s n] rest Hs _ IH]; simpl; [reflexivity |].
  simpl in Hs. unfold HasSuffix. simpl rev at 1.
  destruct (rev s) as [| c r] eqn:E.
  - apply (f_equal (@rev ascii)) in E. rewrite rev_involutive in E.
    simpl in E. congruence.
  - simpl. exact IH.
Qed.

Lemma slice_prefix (pre suf : str) :
  slice (pre ++ suf) 0 (len (pre ++ suf) - len suf) = Returns pre.
Proof.
  rewrite len_app. replace (len pre + len suf - len suf) with (len pre) by lia.
  pose proof (slice_middle [] pre suf) as H.
  change (len []) with 0 in H. rewrite Z.add_0_l in H. exact H.
Qed.

(** *** One text *)

(** How [lexText] ends: at the end of the input, with the text and the
    end sent; or at a suffix of its table, with the text before the
    suffix sent and the suffix in the buffer. Either way it has read
    [readSoFar l] and some bytes [more] of the input, and nothing is
    lost. *)
Definition textEnds (nextOf : list (str * stateFn)) (l l' : lexer)
    (nx : option stateFn) : Prop :=
  exists more,
    input l = more ++ input l'
    /\ readSoFar l' = readSoFar l ++ more
    /\ match nx with
       | None =>
           input l' = [] /\ buff l' = []
           /\ exists its, items l' = its ++ [{| ityp := itemEOF; ival := [];
                                                iline := line l' |}]
       | Some st =>
           In (buff l', st) nextOf
           /\ (findSuffix (buff l) nextOf = None -> more <> [])
       end.

Lemma lexText_ends (t : itemType) (nextOf : list (str * stateFn))
    (fuel : nat) (l : lexer) :
  forallb isAscii (input l) = true ->
  (length (input l) < fuel)%nat ->
  exists l' nx,
    lexText fuel l t nextOf = Returns (l', nx) /\ textEnds nextOf l l' nx.
Proof.
  revert l. induction fuel as [| fuel IH]; intros l Ha Hf; [lia |].
  cbn [lexText].
  destruct (findSuffix (buff l) nextOf) as [[suf st] |] eqn:Ef.
  - destruct (findSuffix_Some _ _ _ _ Ef) as [Hin [pre Hpre]].
    rewrite Hpre, slice_prefix. cbn [mbind outcome_bind].
    eexists _, _. split; [reflexivity |].
    exists []. cbn [input buff items emit]. rewrite !app_nil_r.
    split; [reflexivity |]. split.
    + unfold readSoFar. cbn [items buff emit]. rewrite itemsText_app.
      unfold itemsText at 2. simpl. rewrite app_nil_r, Hpre, app_assoc.
      reflexivity.
    + split; [exact Hin | congruence].
  - destruct (input l) as [| c rest] eqn:Ei.
    + unfold next. rewrite Ei. change (eof =? eof) with true. cbn iota.
      eexists _, _. split; [reflexivity |].
      exists []. cbn [input buff items emit].
      split; [reflexivity |]. split.
      * unfold readSoFar. cbn [items buff emit]. rewrite !itemsText_app.
        unfold itemsText at 2 3. simpl. rewrite !app_nil_r. reflexivity.
      * split; [exact Ei |]. split; [reflexivity |].
        eexists. reflexivity.
    + simpl in Ha. apply andb_prop in Ha as [Hc Hrest].
      rewrite (next_byte l c rest Ei Hc). rewrite byteZ_not_eof.
      set (l1 := {| input := rest; buff := buff l ++ [c]; items := items l;
                    line := if byteZ c =? 10 then line l + 1 else line l |}).
      destruct (IH l1) as (l' & nx & Hr & more & Hin & Hread & Hnx).
      { exact Hrest. }
      { simpl in Hf |- *. lia. }
      exists l', nx. split; [exact Hr |].
      exists (c :: more).
      split; [rewrite Ei; simpl in Hin; rewrite Hin; reflexivity |].
      split.
      * rewrite Hread. unfold readSoFar. cbn [items buff l1].
        rewrite <- !app_assoc. reflexivity.
      * destruct nx as [st |]; [| exact Hnx].
        destruct Hnx as [H1 _]. split; [exact H1 | discriminate].
Qed.


(** *** The run of the states *)

(** A state that sends its buffer and goes on: one step without
    reading. The content of a block that is entered with the end of the
    fields in the buffer takes two such steps. *)
Definition rank (s : stateFn) (b : str) : nat :=
  match s with
  | lexBlockLeftMeta | lexBlockLabelMeta | lexBlockRightMeta
  | lexSubBlockLeftMeta | lexSubBlockLabelMeta | lexSubBlockRightMeta
  | lexTagLeftMeta | lexTagRightMeta => 1
  | lexBlockContent => if bool_decide (b = fieldsRightMeta) then 2 else 0
  | _ => 0
  end.

(** The buffer with which the run enters a state. *)
Definition entered (s : stateFn) (b : str) : Prop :=
  match s with
  | lexBlockLeftMeta | lexBlockLabelMeta | lexBlockRightMeta
  | lexSubBlockLeftMeta | lexSubBlockLabelMeta | lexSubBlockRightMeta
  | lexTagLeftMeta | lexTagRightMeta => True
  | lexBlockContent => b = [] \/ b = fieldsRightMeta
  | _ => b = []
  end.

(** The lexer has sent the end as its last item, and has nothing left. *)
Definition atEnd (l : lexer) : Prop :=
  input l = [] /\ buff l = []
  /\ exists its, items l = its ++ [{| ityp := itemEOF; ival := [];
                                      iline := line l |}].

Lemma readSoFar_emit (l : lexer) (t : itemType) :
  readSoFar (emit l t) = readSoFar l.
Proof.
  unfold readSoFar. cbn [emit items buff]. rewrite itemsText_app.
  unfold itemsText at 2. simpl. rewrite !app_nil_r. reflexivity.
Qed.

Lemma lexRun_ends (fuel : nat) :
  forall (s : stateFn) (l : lexer),
    entered s (buff l) ->
    forallb isAscii (input l) = true ->
    (3 * length (input l) + rank s (buff l) + 2 <= fuel)%nat ->
    exists l',
      lexRun fuel s l = Returns l'
      /\ readSoFar l' = readSoFar l ++ input l
      /\ atEnd l'.
Proof.
  induction fuel as [| fuel IH]; intros s l He Ha Hf; [lia |].
  (* a state that sends its buffer *)
  assert (Hmeta : forall t nx,
             rank s (buff l) = 1%nat ->
             runState fuel s l = Returns (emit l t, Some nx) ->
             entered nx [] -> rank nx [] = 0%nat ->
             exists l',
               lexRun (S fuel) s l = Returns l'
               /\ readSoFar l' = readSoFar l ++ input l /\ atEnd l').
  { intros t nx Hr Hs Hnx Hrk. cbn [lexRun]. rewrite Hs.
    cbn [mbind outcome_bind].
    destruct (IH nx (emit l t)) as (l' & Hl' & Hread & Hend).
    - exact Hnx.
    - exact Ha.
    - cbn [emit input buff]. rewrite Hrk. lia.
    - exists l'. split; [exact Hl' |]. split; [| exact Hend].
      rewrite Hread, readSoFar_emit. reflexivity. }
  (* a state that reads a text, entered with an empty buffer *)
  assert (Htext : forall t nextOf,
             buff l = [] ->
             rank s [] = 0%nat ->
             runState fuel s l = lexText fuel l t nextOf ->
             Forall (fun p => fst p <> [] /\ entered (snd p) (fst p)) nextOf ->
             exists l',
               lexRun (S fuel) s l = Returns l'
               /\ readSoFar l' = readSoFar l ++ input l /\ atEnd l').
  { intros t nextOf Hb Hrk Hs Htab. cbn [lexRun]. rewrite Hs.
    destruct (lexText_ends t nextOf fuel l Ha) as (l1 & nx & -> & more & Hin & Hread & Hnx).
    { rewrite Hb, Hrk in Hf. lia. }
    cbn [mbind outcome_bind]. destruct nx as [st |].
    - destruct Hnx as [Hmem Hmore].
      assert (Hne : more <> []).
      { apply Hmore. rewrite Hb. apply findSuffix_nil.
        eapply Forall_impl; [exact Htab |]. intros p [H _]. exact H. }
      rewrite Forall_forall in Htab.
      destruct (Htab _ (proj2 (list_elem_of_In _ _) Hmem)) as [_ Hent].
      simpl in Hent.
      assert (Hlen : (length (input l1) < length (input l))%nat).
      { rewrite Hin, length_app. destruct more; [congruence | simpl; lia]. }
      destruct (IH st l1) as (l' & Hl' & Hread' & Hend).
      + exact Hent.
      + rewrite Hin, forallb_app in Ha. apply andb_prop in Ha as [_ Ha].
        exact Ha.
      + rewrite Hb, Hrk in Hf.
        assert (rank st (buff l1) <= 2)%nat.
        { destruct st; simpl; try lia. destruct (bool_decide _); lia. }
        lia.
      + exists l'. split; [exact Hl' |]. split; [| exact Hend].
        rewrite Hread', Hread, Hin, <- !app_assoc. reflexivity.
    - destruct Hnx as (Hi & Hbf & Hits).
      exists l1. split; [reflexivity |]. split.
      + rewrite Hread, Hin, Hi, app_nil_r. reflexivity.
      + split; [exact Hi |]. split; [exact Hbf | exact Hits]. }
  destruct s; cbn [entered] in He;
    try (eapply Hmeta; [reflexivity | reflexivity | simpl; auto | reflexivity]);
    try (eapply Htext;
         [exact He | reflexivity | reflexivity
         | repeat (apply List.Forall_cons;
                   [split; [discriminate | simpl; auto] |]);
           apply List.Forall_nil]).
  (* the content of a block *)
  destruct He as [He | He].
  - eapply Htext;
      [exact He | reflexivity | reflexivity
      | repeat (apply List.Forall_cons;
                   [split; [discriminate | simpl; auto] |]);
           apply List.Forall_nil].
  - cbn [lexRun runState]. destruct fuel as [| fuel']; [simpl in Hf; lia |].
    cbn [lexText]. rewrite He.
    change (findSuffix fieldsRightMeta
              [(blockRightMeta, lexBlockRightMeta);
               (subBlockLeftMeta, lexSubBlockLeftMeta);
               (tagLeftMeta, lexTagLeftMeta)])
      with (Some (blockRightMeta, lexBlockRightMeta)).
    cbn iota beta.
    change (slice fieldsRightMeta 0 (len fieldsRightMeta - len blockRightMeta))
      with (Returns (lit "-")).
    cbn [mbind outcome_bind].
    match goal with
    | |- context [lexRun _ lexBlockRightMeta ?l1] =>
        destruct (IH lexBlockRightMeta l1) as (l' & Hl' & Hread & Hend)
    end.
    + exact I.
    + exact Ha.
    + cbn [input buff emit rank]. rewrite He in Hf. simpl rank in Hf. lia.
    + exists l'. split; [exact Hl' |]. split; [| exact Hend].
      rewrite Hread. unfold readSoFar. cbn [items buff input emit].
      rewrite He, itemsText_app. unfold itemsText at 2. simpl.
      rewrite <- !app_assoc. reflexivity.
Qed.


(** X6. On an input of bytes below 128 the lexer returns, given fuel for
    three steps a byte and two more; the values of the items it sends,
    one after the other, are the input: no byte is dropped, none is
    added and none changes its place. The last item is the end of the
    input. *)
Theorem lexer_loses_nothing (inp : str) (fuel : nat) :
  forallb isAscii inp = true ->
  (3 * length inp + 2 <= fuel)%nat ->
  exists its last,
    lex fuel inp = Returns (its ++ [last])
    /\ itemsText (its ++ [last]) = inp
    /\ ityp last = itemEOF.
Proof.
  intros Ha Hf. unfold lex.
  destruct (lexRun_ends fuel lexToBlock
              {| input := inp; buff := []; items := []; line := 1 |})
    as (l' & -> & Hread & Hi & Hb & its & Hits).
  - reflexivity.
  - exact Ha.
  - simpl. lia.
  - cbn [mbind outcome_bind]. rewrite Hits. eexists its, _.
    split; [reflexivity |]. split; [| reflexivity].
    unfold readSoFar in Hread. rewrite Hb, Hits, app_nil_r in Hread.
    exact Hread.
Qed.

Lemma lexer_loses_nothing_witness :
  exists its last,
    lex 60 (lit "{1:F01}{4:" ++ newline ++ lit ":20:a" ++ newline ++ lit "-}")
    = Returns (its ++ [last])
    /\ itemsText (its ++ [last])
       = lit "{1:F01}{4:" ++ newline ++ lit ":20:a" ++ newline ++ lit "-}"
    /\ ityp last = itemEOF.
Proof.
  apply lexer_loses_nothing; [reflexivity | vm_compute; lia].
Defined.

(** *** The parser on any items *)

(** The map of the block under construction exists in the store. *)
Definition hasMap (st : state) : Prop :=
  exists a, Fields (currBlock st) = Some a /\ (a < length (heap st))%nat.

Section Parser.

Variables TrimFuncIsSpace TrimRightFuncIsSpace : str -> str.
Variable cfg : Config.

Local Abbreviation step := (step TrimFuncIsSpace TrimRightFuncIsSpace cfg).
Local Abbreviation runItems :=
  (runItems TrimFuncIsSpace TrimRightFuncIsSpace cfg).

Lemma hasMap_sendMessage (st : state) : hasMap st -> hasMap (sendMessage st).
Proof.
  unfold sendMessage. destruct (0 <? len0 (blocks st)); intros H; exact H.
Qed.

Lemma step_hasMap (st : state) (it : item) :
  hasMap st -> exists st', step st it = Returns st' /\ hasMap st'.
Proof.
  intros (a & Hf & Ha). unfold message.step.
  destruct (ityp it);
    try (eexists; split; [reflexivity |]; exists a; split; assumption).
  - (* itemError *)
    destruct (StopOnError cfg);
      eexists; (split; [reflexivity |]); exists a; split; assumption.
  - (* itemEOF *)
    eexists. split; [reflexivity |].
    apply (hasMap_sendMessage st). exists a. split; assumption.
  - (* itemBlockLabel *)
    eexists. split; [reflexivity |]. unfold hasMap.
    cbn [currBlock heap Fields newBlock].
    eexists. split; [reflexivity |]. rewrite length_app. simpl. lia.
  - (* itemFieldContent *)
    rewrite Hf. destruct (lookup_lt_is_Some_2 (heap st) a Ha) as [fields ->].
    eexists. split; [reflexivity |]. exists a. cbn [currBlock heap].
    split; [exact Hf |]. rewrite length_insert. exact Ha.
Qed.

Lemma runItems_hasMap (its : list item) :
  forall st, hasMap st -> exists st', runItems st its = Returns st'.
Proof.
  induction its as [| it its IH]; intros st Hst; simpl.
  - eexists. reflexivity.
  - destruct (stopped st); [eexists; reflexivity |].
    destruct (step_hasMap st it Hst) as (st1 & -> & H1).
    cbn [mbind outcome_bind]. apply IH. exact H1.
Qed.

Lemma hasMap_initial : hasMap initial.
Proof. exists 0%nat. split; [reflexivity | simpl; lia]. Qed.

End Parser.

(** X7. The parser returns on every sequence of items, in whatever order
    they come: it never writes a field to a nil map. With the lexer
    before it, [Parse] returns on every input of bytes below 128. *)
Theorem parser_never_panics (f g : str -> str) (cfg : Config) :
  (forall its, exists st, runItems f g cfg initial its = Returns st)
  /\ (forall inp fuel,
         forallb isAscii inp = true ->
         (3 * length inp + 2 <= fuel)%nat ->
         exists st, Parse f g cfg fuel inp = Returns st).
Proof.
  split.
  - intros its. apply runItems_hasMap, hasMap_initial.
  - intros inp fuel Ha Hf. unfold Parse.
    destruct (lexRun_ends fuel lexToBlock
                {| input := inp; buff := []; items := []; line := 1 |})
      as (l' & Hl & _); [reflexivity | exact Ha | simpl; lia |].
    unfold lex. rewrite Hl. cbn [mbind outcome_bind].
    apply runItems_hasMap, hasMap_initial.
Qed.

Lemma parser_never_panics_witness :
  exists st,
    Parse id id {| StopOnError := true |} 20 (lit ":20:x}") = Returns st.
Proof.
  apply (parser_never_panics id id {| StopOnError := true |});
    [reflexivity | simpl; lia].
Defined.

(** *** Text outside blocks *)

Definition noBrace (c : ascii) : bool := negb (Ascii.eqb c "{").

(** The line the lexer is at after [s]. *)
Definition lineAfter (line : Z) (s : str) : Z :=
  fold_left (fun n c => if byteZ c =? 10 then n + 1 else n) s line.

Lemma findSuffix_brace (b : str) (c : ascii) (st : stateFn) :
  noBrace c = true -> findSuffix (b ++ [c]) [(blockLeftMeta, st)] = None.
Proof.
  intros Hc. cbn [findSuffix]. unfold HasSuffix.
  rewrite rev_app_distr. simpl. unfold noBrace in Hc.
  apply negb_true_iff in Hc. rewrite Hc. reflexivity.
Qed.

Lemma lexText_no_brace (fuel : nat) (l : lexer) :
  findSuffix (buff l) [(blockLeftMeta, lexBlockLeftMeta)] = None ->
  forallb isAscii (input l) = true ->
  forallb noBrace (input l) = true ->
  (length (input l) < fuel)%nat ->
  lexText fuel l itemIgnore [(blockLeftMeta, lexBlockLeftMeta)]
  = Returns
      ({| input := []; buff := [];
          items := items l
                   ++ [{| ityp := itemIgnore; ival := buff l ++ input l;
                          iline := lineAfter (line l) (input l) |};
                       {| ityp := itemEOF; ival := [];
                          iline := lineAfter (line l) (input l) |}];
          line := lineAfter (line l) (input l) |}, None).
Proof.
  revert l. induction fuel as [| fuel IH]; intros l Hb Ha Hn Hf; [lia |].
  cbn [lexText]. rewrite Hb.
  destruct l as [inp b its ln]. cbn [input buff items line] in *.
  destruct inp as [| c rest].
  - unfold next. cbn [input]. change (eof =? eof) with true. cbn iota.
    unfold emit. cbn [input buff items line]. rewrite app_nil_r.
    rewrite <- app_assoc. reflexivity.
  - simpl in Ha, Hn. apply andb_prop in Ha as [Hc Ha].
    apply andb_prop in Hn as [Hcn Hn].
    rewrite (next_byte {| input := c :: rest; buff := b; items := its;
                           line := ln |} c rest eq_refl Hc).
    rewrite byteZ_not_eof.
    cbn [input buff items line].
    rewrite IH; cbn [input buff items line].
    + rewrite <- app_assoc. reflexivity.
    + apply findSuffix_brace. exact Hcn.
    + exact Ha.
    + exact Hn.
    + simpl in Hf. lia.
Qed.

(** X8. An input of bytes below 128 without an opening brace holds no
    block: the lexer sends it as one item to ignore, and the parser
    reports neither a message nor an error for it. *)
Theorem text_without_block_ignored (f g : str -> str) (cfg : Config)
    (inp : str) (fuel : nat) :
  forallb isAscii inp = true ->
  forallb noBrace inp = true ->
  (length inp + 1 < fuel)%nat ->
  lex fuel inp
  = Returns [{| ityp := itemIgnore; ival := inp;
                iline := lineAfter 1 inp |};
             {| ityp := itemEOF; ival := []; iline := lineAfter 1 inp |}]
  /\ exists st,
       Parse f g cfg fuel inp = Returns st
       /\ messages st = [] /\ errors st = [] /\ stopped st = true.
Proof.
  intros Ha Hn Hf.
  assert (Hlex : lex fuel inp
                 = Returns [{| ityp := itemIgnore; ival := inp;
                               iline := lineAfter 1 inp |};
                            {| ityp := itemEOF; ival := [];
                               iline := lineAfter 1 inp |}]).
  { unfold lex. destruct fuel as [| fuel]; [lia |].
    cbn [lexRun runState].
    rewrite lexText_no_brace; [reflexivity | reflexivity | exact Ha
                              | exact Hn | simpl; lia]. }
  split; [exact Hlex |].
  unfold Parse. rewrite Hlex. cbn [mbind outcome_bind].
  eexists. split; [reflexivity |]. repeat split.
Qed.

Lemma text_without_block_ignored_witness :
  exists st,
    Parse id id {| StopOnError := false |} 20 (lit ":20:x}-") = Returns st
    /\ messages st = [] /\ errors st = [] /\ stopped st = true.
Proof.
  apply (text_without_block_ignored id id {| StopOnError := false |});
    [reflexivity | reflexivity | simpl; lia].
Defined.

End StreamSpec.

(** ** Package [mt], continued: references, the application header of an
    output message, the user header, the trailers, the generic message *)

Module mtx.

Import mt.

(** *** The stamps of [types.go]

    Each of these types has the fields [Set], [Raw] and [Time]; the
    embedding leaves [Time] out, as it does for [Date] and [Month]. *)

Definition TimeFormatTime : str := lit "1504".
Definition TimeFormatDateTime : str := lit "0601021504".
Definition TimeFormatDateTimeSec : str := lit "060102150405".
Definition TimeFormatDateTimeSecCent : str := lit "060102150405.999".

Record Time := { TimeSet : bool; TimeRaw : str }.
Record DateTime := { DateTimeSet : bool; DateTimeRaw : str }.
Record DateOrDateTime := { DateOrDateTimeSet : bool; DateOrDateTimeRaw : str }.
Record DateTimeSecCent := { DateTimeSecCentSet : bool; DateTimeSecCentRaw : str }.
Record DateTimeSecOptCent :=
  { DateTimeSecOptCentSet : bool; DateTimeSecOptCentRaw : str }.

Definition zeroTime : Time := {| TimeSet := false; TimeRaw := [] |}.
Definition zeroDate : Date := {| DateSet := false; DateRaw := [] |}.
Definition zeroDateTime : DateTime :=
  {| DateTimeSet := false; DateTimeRaw := [] |}.
Definition zeroDateOrDateTime : DateOrDateTime :=
  {| DateOrDateTimeSet := false; DateOrDateTimeRaw := [] |}.
Definition zeroDateTimeSecOptCent : DateTimeSecOptCent :=
  {| DateTimeSecOptCentSet := false; DateTimeSecOptCentRaw := [] |}.

(** The errors of the methods [UnmarshalMT], without the cause that
    [time.Parse] gives. *)
Inductive stampError :=
| ErrInvalidTime                 (* invalid Time: %w *)
| ErrInvalidDateStamp            (* invalid Date: %w *)
| ErrInvalidDateTime             (* invalid DateTime: %w *)
| ErrInvalidDateOrDateTimeTime   (* invalid DateOrDateTime date/time: %w *)
| ErrInvalidDateOrDateTimeDate   (* invalid DateOrDateTime date: %w *)
| ErrInvalidDateTimeSecCent      (* invalid DateTimeSecCent: %w *)
| ErrInvalidDateTimeSecOptCent.  (* invalid DateTimeSecOptCent: %w *)

(** *** The records of the headers *)

Record InputReference := {
  IrSet : bool;
  IrRaw : str;
  IrLogicalTerminalAddress : str;
  IrSessionNumber : str;
  IrSequenceNumber : str;
  IrDateOrDateTime : DateOrDateTime
}.

Record OutputReference := {
  OrSet : bool;
  OrRaw : str;
  OrLogicalTerminalAddress : str;
  OrSessionNumber : str;
  OrSequenceNumber : str;
  OrDateOrDateTime : DateOrDateTime
}.

Record Reference := {
  RefSet : bool;
  RefRaw : str;
  RefDateTime : DateTime;
  RefMessageInputReference : InputReference
}.

Record AppHeaderOutput := {
  OutSet : bool;
  OutRaw : str;
  OutMessagePriority : Priority;
  OutMessageType : str;
  OutMessageInputReference : InputReference;
  InputTime : Time;
  OutputDate : Date;
  OutputTime : Time
}.

Record UsrHeader := {
  UsrSet : bool;
  UsrRaw : str;
  UsrServiceID : str;
  AddresseeInformation : str;
  BankingPriority : str;
  MessageUserReference : str;
  ValidationFlag : str;
  RelatedReference : str;
  ServiceTypeID : str;
  UniqueEndToEndTransactionReference : str;
  PaymentReleaseInformation : str;
  SanctionsScreeningInformation : str;
  PaymentControlsInformation : str;
  BalanceCheckpointDateTime : DateTimeSecOptCent;
  UsrMessageInputReference : InputReference
}.

Record PossibleDuplicateEmission := {
  PdeRaw : str;
  PdeTime : Time;
  PdeMessageInputReference : InputReference
}.

Record PossibleDuplicateMessage := {
  PdmRaw : str;
  PdmTime : Time;
  PdmMessageOutputReference : OutputReference
}.

Record SystemOriginatedMessage := {
  SomRaw : str;
  SomTime : Time;
  SomMessageInputReference : InputReference
}.

Record Trailers := {
  TrSet : bool;
  TrRaw : str;
  DelayedMessage : bool;
  TestAndTrainingMessage : bool;
  Checksum : str;
  MessageReference : Reference;
  TrPossibleDuplicateEmission : PossibleDuplicateEmission;
  TrPossibleDuplicateMessage : PossibleDuplicateMessage;
  TrSystemOriginatedMessage : SystemOriginatedMessage;
  AdditionalTrailers : option (gmap str str)
}.

Definition zeroInputReference : InputReference :=
  {| IrSet := false; IrRaw := []; IrLogicalTerminalAddress := [];
     IrSessionNumber := []; IrSequenceNumber := [];
     IrDateOrDateTime := zeroDateOrDateTime |}.

Definition zeroOutputReference : OutputReference :=
  {| OrSet := false; OrRaw := []; OrLogicalTerminalAddress := [];
     OrSessionNumber := []; OrSequenceNumber := [];
     OrDateOrDateTime := zeroDateOrDateTime |}.

Definition zeroReference : Reference :=
  {| RefSet := false; RefRaw := []; RefDateTime := zeroDateTime;
     RefMessageInputReference := zeroInputReference |}.

Definition zeroAppHeaderInput : AppHeaderInput :=
  {| InSet := false; InRaw := []; ObsolescencePeriodInMinutes := 0;
     MessageType := []; ReceiverAddress := [];
     MessagePriority := PriorityNormal;
     DeliveryMonitorOf := DeliveryMonitorNonDelivery |}.

Definition zeroAppHeaderOutput : AppHeaderOutput :=
  {| OutSet := false; OutRaw := []; OutMessagePriority := PriorityNormal;
     OutMessageType := []; OutMessageInputReference := zeroInputReference;
     InputTime := zeroTime; OutputDate := zeroDate; OutputTime := zeroTime |}.

(** *** The errors of [parse.go] *)

Inductive error :=
| ErrInputReferenceLength (n : Z)
    (* invalid message input reference with date string length: %d *)
| ErrInputReferenceDate (dateStr : str) (cause : stampError)
    (* invalid message input reference with date date string: %s: %w *)
| ErrReferenceDateTime (dateTimeStr : str) (cause : stampError)
    (* invalid message reference date/time string: %s: %w *)
| ErrReferenceInputReference (s : str) (cause : error)
    (* invalid message reference message input reference: %s: %w *)
| ErrOutputReferenceDateTime (cause : stampError)
    (* invalid message output reference date/time string: %s: %w *)
| ErrEmissionLength (n : Z)
    (* invalid possible duplicate emission string length: %d *)
| ErrEmissionTime (timeStr : str) (cause : stampError)
    (* invalid possible duplicate emission time: %s: %w *)
| ErrEmissionInputReference (s : str) (cause : error)
    (* invalid possible duplicate emission message input reference: %s: %w *)
| ErrDuplicateLength (n : Z)
    (* invalid possible duplicate message string length: %d *)
| ErrDuplicateTime (timeStr : str) (cause : stampError)
    (* invalid possible duplicate message time: %s: %w *)
| ErrDuplicateOutputReference (s : str) (cause : error)
    (* invalid possible duplicate message message output reference: %s: %w *)
| ErrSystemLength (n : Z)
    (* invalid system originated message string length: %d *)
| ErrSystemTime (timeStr : str) (cause : stampError)
    (* invalid system originated message time: %s: %w *)
| ErrSystemInputReference (s : str) (cause : error)
    (* invalid system originated message message input reference: %s: %w *)
| ErrAppHeaderOutputLength (n : Z)
    (* invalid app header output block content length: %d *)
| ErrOutputInputTime (s : str) (cause : stampError)
    (* invalid input time in app header output block content: %v: %w *)
| ErrOutputOutputDate (s : str) (cause : stampError)
    (* invalid output date in app header output block content: %v: %w *)
| ErrOutputOutputTime (s : str) (cause : stampError)
    (* invalid output time in app header output block content: %v: %w *)
| ErrOutputInputReference (cause : error)
    (* could not parse message input reference with date: %w *)
| ErrOutputPriority
    (* invalid message priority *)
| ErrAppHeaderLength (n : Z)
    (* invalid app header block content length: %d *)
| ErrAsInput (cause : mt.error)
    (* could not parse app header block as app header input: %w *)
| ErrAsOutput (cause : error)
    (* could not parse app header block as app header output: %w *)
| ErrAppHeaderType (s : str)
    (* invalid app header message type: %s *)
| ErrUsrInputReference (cause : error)
    (* invalid message input reference: %w *)
| ErrUsrBalanceCheckpoint (content : str) (cause : stampError)
    (* invalid balance checkpoint time in usr header block content: %s: %w *)
| ErrUsrLabel (label : str)
    (* invalid usr header block sub block label: %s *)
| ErrTrailerEmission (cause : error)
    (* invalid possible duplicate emission: %w *)
| ErrTrailerReference (cause : error)
    (* invalid message reference: %w *)
| ErrTrailerDuplicate (cause : error)
    (* invalid possible duplicate message: %w *)
| ErrTrailerSystem (cause : error)
    (* invalid system originated message: %w *)
| ErrInvalidBasicHeader (cause : mt.error)
    (* invalid basic header: %w *)
| ErrInvalidAppHeader (cause : error)
    (* invalid app header: %w *)
| ErrInvalidUserHeader (cause : error)
    (* invalid user header: %w *)
| ErrInvalidTrailers (cause : error).
    (* invalid trailers: %w *)

Section Decoders.

(** Whether [time.Parse(layout, value)] returns without an error. *)
Variable timeParses : str -> str -> bool.

(** The methods [UnmarshalMT] of the stamps: the value the receiver is
    left with, and the error. *)
Definition TimeUnmarshalMT (t : Time) (inp : str)
    : Time * option stampError :=
  if timeParses TimeFormatTime inp
  then ({| TimeSet := true; TimeRaw := inp |}, None)
  else (t, Some ErrInvalidTime).

Definition DateStampUnmarshalMT (d : Date) (inp : str)
    : Date * option stampError :=
  if timeParses TimeFormatDate inp
  then ({| DateSet := true; DateRaw := inp |}, None)
  else (d, Some ErrInvalidDateStamp).

Definition DateTimeUnmarshalMT (d : DateTime) (inp : str)
    : DateTime * option stampError :=
  if timeParses TimeFormatDateTime inp
  then ({| DateTimeSet := true; DateTimeRaw := inp |}, None)
  else (d, Some ErrInvalidDateTime).

Definition DateOrDateTimeUnmarshalMT (d : DateOrDateTime) (inp : str)
    : DateOrDateTime * option stampError :=
  if len inp =? 10 then
    if timeParses TimeFormatDateTime inp
    then ({| DateOrDateTimeSet := true; DateOrDateTimeRaw := inp |}, None)
    else (d, Some ErrInvalidDateOrDateTimeTime)
  else
    if timeParses TimeFormatDate inp
    then ({| DateOrDateTimeSet := true; DateOrDateTimeRaw := inp |}, None)
    else (d, Some ErrInvalidDateOrDateTimeDate).

(** [input[:12] + "." + input[12:]] is out of range for an input of
    fewer than 12 bytes. *)
Definition withDecimalPoint (inp : str) : outcome str :=
  a ← slice inp 0 12;
  b ← sliceFrom inp 12;
  Returns (a ++ lit "." ++ b).

Definition DateTimeSecCentUnmarshalMT (d : DateTimeSecCent) (inp : str)
    : outcome (DateTimeSecCent * option stampError) :=
  value ← withDecimalPoint inp;
  if timeParses TimeFormatDateTimeSecCent value
  then Returns ({| DateTimeSecCentSet := true; DateTimeSecCentRaw := inp |},
                None)
  else Returns (d, Some ErrInvalidDateTimeSecCent).

Definition DateTimeSecOptCentUnmarshalMT (d : DateTimeSecOptCent) (inp : str)
    : outcome (DateTimeSecOptCent * option stampError) :=
  if len inp =? 15 then
    value ← withDecimalPoint inp;
    if timeParses TimeFormatDateTimeSecCent value
    then Returns ({| DateTimeSecOptCentSet := true;
                     DateTimeSecOptCentRaw := inp |}, None)
    else Returns (d, Some ErrInvalidDateTimeSecOptCent)
  else
    if timeParses TimeFormatDateTimeSec inp
    then Returns ({| DateTimeSecOptCentSet := true;
                     DateTimeSecOptCentRaw := inp |}, None)
    else Returns (d, Some ErrInvalidDateTimeSecOptCent).

(** *** References *)

Definition stringToMessageInputReferenceDate (s : str)
    : outcome (InputReference * option error) :=
  let mird :=
    {| IrSet := true; IrRaw := s; IrLogicalTerminalAddress := [];
       IrSessionNumber := []; IrSequenceNumber := [];
       IrDateOrDateTime := zeroDateOrDateTime |} in
  if negb (len s =? 28)
  then Returns (mird, Some (ErrInputReferenceLength (len s)))
  else
    dateStr ← slice s 0 6;
    match DateOrDateTimeUnmarshalMT zeroDateOrDateTime dateStr with
    | (_, Some err) => Returns (mird, Some (ErrInputReferenceDate dateStr err))
    | (date, None) =>
        lta ← slice s 6 18;
        session ← slice s 18 22;
        sequence ← sliceFrom s 22;
        Returns ({| IrSet := true; IrRaw := s;
                    IrLogicalTerminalAddress := lta;
                    IrSessionNumber := session;
                    IrSequenceNumber := sequence;
                    IrDateOrDateTime := date |}, None)
    end.

Definition stringToMessageReference (s : str)
    : outcome (Reference * option error) :=
  let mr :=
    {| RefSet := true; RefRaw := s; RefDateTime := zeroDateTime;
       RefMessageInputReference := zeroInputReference |} in
  dateTimeStr ← slice s 0 10;
  match DateTimeUnmarshalMT zeroDateTime dateTimeStr with
  | (_, Some err) => Returns (mr, Some (ErrReferenceDateTime dateTimeStr err))
  | (dateTime, None) =>
      let mr :=
        {| RefSet := true; RefRaw := s; RefDateTime := dateTime;
           RefMessageInputReference := zeroInputReference |} in
      rest ← sliceFrom s 10;
      '(mir, err) ← stringToMessageInputReferenceDate rest;
      match err with
      | Some err => Returns (mr, Some (ErrReferenceInputReference rest err))
      | None =>
          Returns ({| RefSet := true; RefRaw := s; RefDateTime := dateTime;
                      RefMessageInputReference := mir |}, None)
      end
  end.

Definition stringToMessageOutputReference (s : str)
    : outcome (OutputReference * option error) :=
  let mor :=
    {| OrSet := true; OrRaw := s; OrLogicalTerminalAddress := [];
       OrSessionNumber := []; OrSequenceNumber := [];
       OrDateOrDateTime := zeroDateOrDateTime |} in
  if len s =? 28 then
    dateTimeStr ← slice s 0 6;
    match DateOrDateTimeUnmarshalMT zeroDateOrDateTime dateTimeStr with
    | (_, Some err) => Returns (mor, Some (ErrOutputReferenceDateTime err))
    | (dateTime, None) =>
        lta ← slice s 6 18;
        session ← slice s 18 23;
        sequence ← sliceFrom s 23;
        Returns ({| OrSet := true; OrRaw := s;
                    OrLogicalTerminalAddress := lta;
                    OrSessionNumber := session;
                    OrSequenceNumber := sequence;
                    OrDateOrDateTime := dateTime |}, None)
    end
  else if len s =? 32 then
    date ← slice s 4 10;
    time ← slice s 0 4;
    let dateTimeStr := date ++ time in
    match DateOrDateTimeUnmarshalMT zeroDateOrDateTime dateTimeStr with
    | (_, Some err) => Returns (mor, Some (ErrOutputReferenceDateTime err))
    | (dateTime, None) =>
        lta ← slice s 10 22;
        session ← slice s 22 27;
        sequence ← sliceFrom s 27;
        Returns ({| OrSet := true; OrRaw := s;
                    OrLogicalTerminalAddress := lta;
                    OrSessionNumber := session;
                    OrSequenceNumber := sequence;
                    OrDateOrDateTime := dateTime |}, None)
    end
  else Returns (mor, None).

Definition stringToPossibleDuplicateEmission (s : str)
    : outcome (PossibleDuplicateEmission * option error) :=
  let pde :=
    {| PdeRaw := s; PdeTime := zeroTime;
       PdeMessageInputReference := zeroInputReference |} in
  if negb (len s =? 32)
  then Returns (pde, Some (ErrEmissionLength (len s)))
  else
    timeStr ← slice s 0 4;
    match TimeUnmarshalMT zeroTime timeStr with
    | (_, Some err) => Returns (pde, Some (ErrEmissionTime timeStr err))
    | (time, None) =>
        let pde :=
          {| PdeRaw := s; PdeTime := time;
             PdeMessageInputReference := zeroInputReference |} in
        rest ← sliceFrom s 4;
        '(mir, err) ← stringToMessageInputReferenceDate rest;
        match err with
        | Some err => Returns (pde, Some (ErrEmissionInputReference rest err))
        | None =>
            Returns ({| PdeRaw := s; PdeTime := time;
                        PdeMessageInputReference := mir |}, None)
        end
    end.

Definition stringToPossibleDuplicateMessage (s : str)
    : outcome (PossibleDuplicateMessage * option error) :=
  let pdm :=
    {| PdmRaw := s; PdmTime := zeroTime;
       PdmMessageOutputReference := zeroOutputReference |} in
  if negb (len s =? 32) && negb (len s =? 36)
  then Returns (pdm, Some (ErrDuplicateLength (len s)))
  else
    timeStr ← slice s 0 4;
    match TimeUnmarshalMT zeroTime timeStr with
    | (_, Some err) => Returns (pdm, Some (ErrDuplicateTime timeStr err))
    | (time, None) =>
        let pdm :=
          {| PdmRaw := s; PdmTime := time;
             PdmMessageOutputReference := zeroOutputReference |} in
        rest ← sliceFrom s 4;
        '(mor, err) ← stringToMessageOutputReference rest;
        match err with
        | Some err =>
            Returns (pdm, Some (ErrDuplicateOutputReference rest err))
        | None =>
            Returns ({| PdmRaw := s; PdmTime := time;
                        PdmMessageOutputReference := mor |}, None)
        end
    end.

Definition stringToSystemOriginatedMessage (s : str)
    : outcome (SystemOriginatedMessage * option error) :=
  let som :=
    {| SomRaw := s; SomTime := zeroTime;
       SomMessageInputReference := zeroInputReference |} in
  if negb (len s =? 32)
  then Returns (som, Some (ErrSystemLength (len s)))
  else
    timeStr ← slice s 0 4;
    match TimeUnmarshalMT zeroTime timeStr with
    | (_, Some err) => Returns (som, Some (ErrSystemTime timeStr err))
    | (time, None) =>
        let som :=
          {| SomRaw := s; SomTime := time;
             SomMessageInputReference := zeroInputReference |} in
        rest ← sliceFrom s 4;
        '(mir, err) ← stringToMessageInputReferenceDate rest;
        match err with
        | Some err => Returns (som, Some (ErrSystemInputReference rest err))
        | None =>
            Returns ({| SomRaw := s; SomTime := time;
                        SomMessageInputReference := mir |}, None)
        end
    end.

(** *** The application header *)

Definition appHeaderBlockToAppHeaderOutput (block : message.Block)
    : outcome (AppHeaderOutput * option error) :=
  let content := message.Content block in
  let h0 :=
    {| OutSet := false; OutRaw := lit "{2:" ++ content ++ lit "}";
       OutMessagePriority := PriorityNormal; OutMessageType := [];
       OutMessageInputReference := zeroInputReference;
       InputTime := zeroTime; OutputDate := zeroDate;
       OutputTime := zeroTime |} in
  if len content <? 46
  then Returns (h0, Some (ErrAppHeaderOutputLength (len content)))
  else
    messageType ← slice content 1 4;
    let h (p : Priority) (mir : InputReference) (it : Time) (od : Date)
          (ot : Time) :=
      {| OutSet := true; OutRaw := OutRaw h0; OutMessagePriority := p;
         OutMessageType := messageType; OutMessageInputReference := mir;
         InputTime := it; OutputDate := od; OutputTime := ot |} in
    inputTimeStr ← slice content 4 8;
    match TimeUnmarshalMT zeroTime inputTimeStr with
    | (_, Some err) =>
        Returns (h PriorityNormal zeroInputReference zeroTime zeroDate
                   zeroTime,
                 Some (ErrOutputInputTime inputTimeStr err))
    | (inputTime, None) =>
        outputDateStr ← slice content 36 42;
        match DateStampUnmarshalMT zeroDate outputDateStr with
        | (_, Some err) =>
            Returns (h PriorityNormal zeroInputReference inputTime zeroDate
                       zeroTime,
                     Some (ErrOutputOutputDate outputDateStr err))
        | (outputDate, None) =>
            outputTimeStr ← slice content 42 46;
            match TimeUnmarshalMT zeroTime outputTimeStr with
            | (_, Some err) =>
                Returns (h PriorityNormal zeroInputReference inputTime
                           outputDate zeroTime,
                         Some (ErrOutputOutputTime outputTimeStr err))
            | (outputTime, None) =>
                mirStr ← slice content 8 36;
                '(mird, err) ← stringToMessageInputReferenceDate mirStr;
                match err with
                | Some err =>
                    Returns (h PriorityNormal zeroInputReference inputTime
                               outputDate outputTime,
                             Some (ErrOutputInputReference err))
                | None =>
                    if len content =? 47 then
                      c ← index content 46;
                      if Ascii.eqb c "N"
                      then Returns (h PriorityNormal mird inputTime
                                      outputDate outputTime, None)
                      else if Ascii.eqb c "S"
                      then Returns (h PrioritySystem mird inputTime
                                      outputDate outputTime, None)
                      else if Ascii.eqb c "U"
                      then Returns (h PriorityUrgent mird inputTime
                                      outputDate outputTime, None)
                      else Returns (h PriorityNormal mird inputTime
                                      outputDate outputTime,
                                    Some ErrOutputPriority)
                    else Returns (h PriorityNormal mird inputTime outputDate
                                    outputTime, None)
                end
            end
        end
    end.

Definition appHeaderBlockToAppHeader (block : message.Block)
    : outcome (AppHeaderInput * AppHeaderOutput * option error) :=
  let content := message.Content block in
  if len content <? 4
  then Returns (zeroAppHeaderInput, zeroAppHeaderOutput,
                Some (ErrAppHeaderLength (len content)))
  else
    io ← slice content 0 1;
    if streq io (lit "I") then
      '(msgAppHeaderIn, err) ← appHeaderBlockToAppHeaderInput block;
      Returns (msgAppHeaderIn, zeroAppHeaderOutput,
               match err with
               | Some err => Some (ErrAsInput err)
               | None => None
               end)
    else if streq io (lit "O") then
      '(msgAppHeaderOut, err) ← appHeaderBlockToAppHeaderOutput block;
      Returns (zeroAppHeaderInput, msgAppHeaderOut,
               match err with
               | Some err => Some (ErrAsOutput err)
               | None => None
               end)
    else Returns (zeroAppHeaderInput, zeroAppHeaderOutput,
                  Some (ErrAppHeaderType io)).

(** *** The user header *)

Definition newUsrHeader (content : str) : UsrHeader :=
  {| UsrSet := true; UsrRaw := lit "{3:" ++ content ++ lit "}";
     UsrServiceID := []; AddresseeInformation := []; BankingPriority := [];
     MessageUserReference := []; ValidationFlag := [];
     RelatedReference := []; ServiceTypeID := [];
     UniqueEndToEndTransactionReference := [];
     PaymentReleaseInformation := [];
     SanctionsScreeningInformation := [];
     PaymentControlsInformation := [];
     BalanceCheckpointDateTime := zeroDateTimeSecOptCent;
     UsrMessageInputReference := zeroInputReference |}.

(** The fields of the user header that are the content of a sub block as
    it is. *)
Inductive usrField :=
| FServiceID | FAddresseeInformation | FBankingPriority
| FMessageUserReference | FValidationFlag | FRelatedReference
| FServiceTypeID | FUniqueEndToEndTransactionReference
| FPaymentReleaseInformation | FSanctionsScreeningInformation
| FPaymentControlsInformation.

#[global] Instance usrField_eq_dec : EqDecision usrField.
Proof. solve_decision. Defined.

Definition usrFieldOf (label : str) : option usrField :=
  if streq label (lit "103") then Some FServiceID
  else if streq label (lit "108") then Some FMessageUserReference
  else if streq label (lit "111") then Some FServiceTypeID
  else if streq label (lit "113") then Some FBankingPriority
  else if streq label (lit "115") then Some FAddresseeInformation
  else if streq label (lit "119") then Some FValidationFlag
  else if streq label (lit "121")
  then Some FUniqueEndToEndTransactionReference
  else if streq label (lit "165") then Some FPaymentReleaseInformation
  else if streq label (lit "424") then Some FRelatedReference
  else if streq label (lit "433") then Some FSanctionsScreeningInformation
  else if streq label (lit "434") then Some FPaymentControlsInformation
  else None.

Definition usrGet (h : UsrHeader) (f : usrField) : str :=
  match f with
  | FServiceID => UsrServiceID h
  | FAddresseeInformation => AddresseeInformation h
  | FBankingPriority => BankingPriority h
  | FMessageUserReference => MessageUserReference h
  | FValidationFlag => ValidationFlag h
  | FRelatedReference => RelatedReference h
  | FServiceTypeID => ServiceTypeID h
  | FUniqueEndToEndTransactionReference =>
      UniqueEndToEndTransactionReference h
  | FPaymentReleaseInformation => PaymentReleaseInformation h
  | FSanctionsScreeningInformation => SanctionsScreeningInformation h
  | FPaymentControlsInformation => PaymentControlsInformation h
  end.

Definition usrSet (h : UsrHeader) (f : usrField) (v : str) : UsrHeader :=
  let pick (g : usrField) (old : str) :=
    if bool_decide (f = g) then v else old in
  {| UsrSet := UsrSet h; UsrRaw := UsrRaw h;
     UsrServiceID := pick FServiceID (UsrServiceID h);
     AddresseeInformation :=
       pick FAddresseeInformation (AddresseeInformation h);
     BankingPriority := pick FBankingPriority (BankingPriority h);
     MessageUserReference :=
       pick FMessageUserReference (MessageUserReference h);
     ValidationFlag := pick FValidationFlag (ValidationFlag h);
     RelatedReference := pick FRelatedReference (RelatedReference h);
     ServiceTypeID := pick FServiceTypeID (ServiceTypeID h);
     UniqueEndToEndTransactionReference :=
       pick FUniqueEndToEndTransactionReference
         (UniqueEndToEndTransactionReference h);
     PaymentReleaseInformation :=
       pick FPaymentReleaseInformation (PaymentReleaseInformation h);
     SanctionsScreeningInformation :=
       pick FSanctionsScreeningInformation (SanctionsScreeningInformation h);
     PaymentControlsInformation :=
       pick FPaymentControlsInformation (PaymentControlsInformation h);
     BalanceCheckpointDateTime := BalanceCheckpointDateTime h;
     UsrMessageInputReference := UsrMessageInputReference h |}.

Definition withUsrInputReference (h : UsrHeader) (r : InputReference)
    : UsrHeader :=
  {| UsrSet := UsrSet h; UsrRaw := UsrRaw h;
     UsrServiceID := UsrServiceID h;
     AddresseeInformation := AddresseeInformation h;
     BankingPriority := BankingPriority h;
     MessageUserReference := MessageUserReference h;
     ValidationFlag := ValidationFlag h;
     RelatedReference := RelatedReference h;
     ServiceTypeID := ServiceTypeID h;
     UniqueEndToEndTransactionReference :=
       UniqueEndToEndTransactionReference h;
     PaymentReleaseInformation := PaymentReleaseInformation h;
     SanctionsScreeningInformation := SanctionsScreeningInformation h;
     PaymentControlsInformation := PaymentControlsInformation h;
     BalanceCheckpointDateTime := BalanceCheckpointDateTime h;
     UsrMessageInputReference := r |}.

Definition withBalanceCheckpoint (h : UsrHeader) (d : DateTimeSecOptCent)
    : UsrHeader :=
  {| UsrSet := UsrSet h; UsrRaw := UsrRaw h;
     UsrServiceID := UsrServiceID h;
     AddresseeInformation := AddresseeInformation h;
     BankingPriority := BankingPriority h;
     MessageUserReference := MessageUserReference h;
     ValidationFlag := ValidationFlag h;
     RelatedReference := RelatedReference h;
     ServiceTypeID := ServiceTypeID h;
     UniqueEndToEndTransactionReference :=
       UniqueEndToEndTransactionReference h;
     PaymentReleaseInformation := PaymentReleaseInformation h;
     SanctionsScreeningInformation := SanctionsScreeningInformation h;
     PaymentControlsInformation := PaymentControlsInformation h;
     BalanceCheckpointDateTime := d;
     UsrMessageInputReference := UsrMessageInputReference h |}.

(** The body of the loop of [usrHeaderBlockToUsrHeader] for one sub
    block: the header and the errors so far, and what they become. *)
Definition usrHeaderStep (acc : UsrHeader * list error)
    (sb : message.SubBlock) : outcome (UsrHeader * list error) :=
  let '(h, errors) := acc in
  let label := message.SubLabel sb in
  let content := message.SubContent sb in
  if streq label (lit "106") then
    '(msgInReference, err) ← stringToMessageInputReferenceDate content;
    match err with
    | Some err => Returns (h, errors ++ [ErrUsrInputReference err])
    | None => Returns (withUsrInputReference h msgInReference, errors)
    end
  else if streq label (lit "423") then
    '(d, err) ← DateTimeSecOptCentUnmarshalMT zeroDateTimeSecOptCent content;
    match err with
    | Some err =>
        Returns (h, errors ++ [ErrUsrBalanceCheckpoint content err])
    | None => Returns (withBalanceCheckpoint h d, errors)
    end
  else
    match usrFieldOf label with
    | Some f => Returns (usrSet h f content, errors)
    | None => Returns (h, errors ++ [ErrUsrLabel label])
    end.

Fixpoint foldOutcome {A B} (f : A -> B -> outcome A) (l : list B) (a : A)
    : outcome A :=
  match l with
  | [] => Returns a
  | b :: l' => a' ← f a b; foldOutcome f l' a'
  end.

Definition usrHeaderBlockToUsrHeader (block : message.Block)
    : outcome (UsrHeader * list error) :=
  foldOutcome usrHeaderStep (message.Blocks block)
    (newUsrHeader (message.Content block), []).

(** *** The trailers *)

(** The variables of the loop of [trailersBlockToTrailers]: the trailers
    without their [Raw], the map [AdditionalTrailers], the errors and
    [raw]. The map is made by the function and seen by nobody else before
    it returns, so it is a value here. *)
Record trailersAcc := {
  tr : Trailers;
  additional : gmap str str;
  trErrors : list error;
  raw : str
}.

Definition zeroPossibleDuplicateEmission : PossibleDuplicateEmission :=
  {| PdeRaw := []; PdeTime := zeroTime;
     PdeMessageInputReference := zeroInputReference |}.

Definition zeroPossibleDuplicateMessage : PossibleDuplicateMessage :=
  {| PdmRaw := []; PdmTime := zeroTime;
     PdmMessageOutputReference := zeroOutputReference |}.

Definition zeroSystemOriginatedMessage : SystemOriginatedMessage :=
  {| SomRaw := []; SomTime := zeroTime;
     SomMessageInputReference := zeroInputReference |}.

Definition newTrailers : Trailers :=
  {| TrSet := true; TrRaw := []; DelayedMessage := false;
     TestAndTrainingMessage := false; Checksum := [];
     MessageReference := zeroReference;
     TrPossibleDuplicateEmission := zeroPossibleDuplicateEmission;
     TrPossibleDuplicateMessage := zeroPossibleDuplicateMessage;
     TrSystemOriginatedMessage := zeroSystemOriginatedMessage;
     AdditionalTrailers := None |}.

Definition appendError (errors : list error) (wrap : error -> error)
    (err : option error) : list error :=
  match err with
  | Some e => errors ++ [wrap e]
  | None => errors
  end.

Definition trailersStep (acc : trailersAcc) (sb : message.SubBlock)
    : outcome trailersAcc :=
  let label := message.SubLabel sb in
  let content := message.SubContent sb in
  let t := tr acc in
  let raw := raw acc ++ lit "{" ++ label ++ lit ":" ++ content ++ lit "}" in
  let upd (t : Trailers) (errors : list error) :=
    {| tr := t; additional := additional acc; trErrors := errors;
       raw := raw |} in
  if streq label (lit "CHK") then
    Returns (upd
      {| TrSet := TrSet t; TrRaw := TrRaw t;
         DelayedMessage := DelayedMessage t;
         TestAndTrainingMessage := TestAndTrainingMessage t;
         Checksum := content; MessageReference := MessageReference t;
         TrPossibleDuplicateEmission := TrPossibleDuplicateEmission t;
         TrPossibleDuplicateMessage := TrPossibleDuplicateMessage t;
         TrSystemOriginatedMessage := TrSystemOriginatedMessage t;
         AdditionalTrailers := AdditionalTrailers t |} (trErrors acc))
  else if streq label (lit "TNG") then
    Returns (upd
      {| TrSet := TrSet t; TrRaw := TrRaw t;
         DelayedMessage := DelayedMessage t;
         TestAndTrainingMessage := true;
         Checksum := Checksum t; MessageReference := MessageReference t;
         TrPossibleDuplicateEmission := TrPossibleDuplicateEmission t;
         TrPossibleDuplicateMessage := TrPossibleDuplicateMessage t;
         TrSystemOriginatedMessage := TrSystemOriginatedMessage t;
         AdditionalTrailers := AdditionalTrailers t |} (trErrors acc))
  else if streq label (lit "PDE") then
    '(pde, err) ← stringToPossibleDuplicateEmission content;
    Returns (upd
      {| TrSet := TrSet t; TrRaw := TrRaw t;
         DelayedMessage := DelayedMessage t;
         TestAndTrainingMessage := TestAndTrainingMessage t;
         Checksum := Checksum t; MessageReference := MessageReference t;
         TrPossibleDuplicateEmission := pde;
         TrPossibleDuplicateMessage := TrPossibleDuplicateMessage t;
         TrSystemOriginatedMessage := TrSystemOriginatedMessage t;
         AdditionalTrailers := AdditionalTrailers t |}
      (appendError (trErrors acc) ErrTrailerEmission err))
  else if streq label (lit "DLM") then
    Returns (upd
      {| TrSet := TrSet t; TrRaw := TrRaw t;
         DelayedMessage := true;
         TestAndTrainingMessage := TestAndTrainingMessage t;
         Checksum := Checksum t; MessageReference := MessageReference t;
         TrPossibleDuplicateEmission := TrPossibleDuplicateEmission t;
         TrPossibleDuplicateMessage := TrPossibleDuplicateMessage t;
         TrSystemOriginatedMessage := TrSystemOriginatedMessage t;
         AdditionalTrailers := AdditionalTrailers t |} (trErrors acc))
  else if streq label (lit "MRF") then
    '(mr, err) ← stringToMessageReference content;
    Returns (upd
      {| TrSet := TrSet t; TrRaw := TrRaw t;
         DelayedMessage := DelayedMessage t;
         TestAndTrainingMessage := TestAndTrainingMessage t;
         Checksum := Checksum t; MessageReference := mr;
         TrPossibleDuplicateEmission := TrPossibleDuplicateEmission t;
         TrPossibleDuplicateMessage := TrPossibleDuplicateMessage t;
         TrSystemOriginatedMessage := TrSystemOriginatedMessage t;
         AdditionalTrailers := AdditionalTrailers t |}
      (appendError (trErrors acc) ErrTrailerReference err))
  else if streq label (lit "PDM") then
    '(mor, err) ← stringToPossibleDuplicateMessage content;
    Returns (upd
      {| TrSet := TrSet t; TrRaw := TrRaw t;
         DelayedMessage := DelayedMessage t;
         TestAndTrainingMessage := TestAndTrainingMessage t;
         Checksum := Checksum t; MessageReference := MessageReference t;
         TrPossibleDuplicateEmission := TrPossibleDuplicateEmission t;
         TrPossibleDuplicateMessage := mor;
         TrSystemOriginatedMessage := TrSystemOriginatedMessage t;
         AdditionalTrailers := AdditionalTrailers t |}
      (appendError (trErrors acc) ErrTrailerDuplicate err))
  else if streq label (lit "SYS") then
    '(som, err) ← stringToSystemOriginatedMessage content;
    Returns (upd
      {| TrSet := TrSet t; TrRaw := TrRaw t;
         DelayedMessage := DelayedMessage t;
         TestAndTrainingMessage := TestAndTrainingMessage t;
         Checksum := Checksum t; MessageReference := MessageReference t;
         TrPossibleDuplicateEmission := TrPossibleDuplicateEmission t;
         TrPossibleDuplicateMessage := TrPossibleDuplicateMessage t;
         TrSystemOriginatedMessage := som;
         AdditionalTrailers := AdditionalTrailers t |}
      (appendError (trErrors acc) ErrTrailerSystem err))
  else
    Returns {| tr := t; additional := <[label := content]> (additional acc);
               trErrors := trErrors acc; raw := raw |}.

Definition trailersBlockToTrailers (block : message.Block)
    : outcome (Trailers * list error) :=
  acc ← foldOutcome trailersStep (message.Blocks block)
          {| tr := newTrailers; additional := ∅; trErrors := [];
             raw := lit "{5:" |};
  let t := tr acc in
  Returns
    ({| TrSet := TrSet t; TrRaw := raw acc ++ lit "}";
        DelayedMessage := DelayedMessage t;
        TestAndTrainingMessage := TestAndTrainingMessage t;
        Checksum := Checksum t; MessageReference := MessageReference t;
        TrPossibleDuplicateEmission := TrPossibleDuplicateEmission t;
        TrPossibleDuplicateMessage := TrPossibleDuplicateMessage t;
        TrSystemOriginatedMessage := TrSystemOriginatedMessage t;
        AdditionalTrailers := Some (additional acc) |}, trErrors acc).

(** *** The generic message *)

(** [Error] of [errors.go]: a cause and the line of the message. *)
Record Error := { cause : error; line : Z }.

Definition NewError (cause : error) (line : Z) : Error :=
  {| cause := cause; line := line |}.

Record Base := {
  Raw : str;
  Line : Z;
  BasicHeaderOf : BasicHeader;
  AppHeaderInputOf : AppHeaderInput;
  AppHeaderOutputOf : AppHeaderOutput;
  UsrHeaderOf : UsrHeader;
  TrailersOf : Trailers
}.

(** [Body] is the map of the message, shared with it: its address in the
    store of the parser. *)
Record MTx := { base : Base; Body : option nat }.

Definition IsInput (b : Base) : bool := InSet (AppHeaderInputOf b).
Definition IsOutput (b : Base) : bool := OutSet (AppHeaderOutputOf b).

Definition Type_ (b : Base) : str :=
  if IsInput b then MessageType (AppHeaderInputOf b)
  else OutMessageType (AppHeaderOutputOf b).

Definition PriorityOf (b : Base) : Priority :=
  if IsInput b then MessagePriority (AppHeaderInputOf b)
  else OutMessagePriority (AppHeaderOutputOf b).

Definition HasUserHeader (b : Base) : bool := UsrSet (UsrHeaderOf b).
Definition HasTrailers (b : Base) : bool := TrSet (TrailersOf b).

(** The errors are [nil] when there are none; the embedding has the
    empty list for both. *)
Definition messageToMTx (msg : message.Message)
    : outcome (MTx * list Error) :=
  let line := message.Line msg in
  '(msgHeader, err) ← basicHeaderBlockToBasicHeader (message.BasicHeader msg);
  let errors :=
    match err with
    | Some err => [NewError (ErrInvalidBasicHeader err) line]
    | None => []
    end in
  '(appHeaderInput, appHeaderOutput, err) ←
    appHeaderBlockToAppHeader (message.AppHeader msg);
  let errors :=
    match err with
    | Some err => errors ++ [NewError (ErrInvalidAppHeader err) line]
    | None => errors
    end in
  '(usrHeader, errs) ← usrHeaderBlockToUsrHeader (message.UsrHeader msg);
  let errors :=
    errors ++ map (fun err => NewError (ErrInvalidUserHeader err) line) errs in
  '(trailers, errs) ← trailersBlockToTrailers (message.Trailers msg);
  let errors :=
    errors ++ map (fun err => NewError (ErrInvalidTrailers err) line) errs in
  Returns
    ({| base := {| Raw := message.Raw msg; Line := line;
                   BasicHeaderOf := msgHeader;
                   AppHeaderInputOf := appHeaderInput;
                   AppHeaderOutputOf := appHeaderOutput;
                   UsrHeaderOf := usrHeader; TrailersOf := trailers |};
        Body := message.Body msg |}, errors).

End Decoders.

(** *** The balance, fields 60 to 65 *)

Inductive CreditDebit := Credit | Debit.

Definition CreditDebitString (cd : CreditDebit) : str :=
  match cd with
  | Debit => lit "D"
  | Credit => lit "C"
  end.

Inductive balanceError :=
| ErrBalanceLength (n : Z)      (* balance: invalid input length: %d *)
| ErrIndicator (input : str)    (* balance: credit/debit: invalid indicator: %s *)
| ErrBalanceDate                (* balance: invalid date *)
| ErrBalanceAmount.             (* balance: invalid amount *)

Definition creditDebitFromString (input : str)
    : CreditDebit * option balanceError :=
  if streq input (lit "C") then (Credit, None)
  else if streq input (lit "D") then (Debit, None)
  else (Credit, Some (ErrIndicator input)).

Record Balance := {
  BalSet : bool;
  BalRaw : str;
  BalCreditDebit : CreditDebit;
  BalDate : Date;
  Currency : str;
  BalAmount : float32
}.

Section Balance.

Variable timeParses : str -> str -> bool.

(** [strconv.ParseFloat(s, bitSize)]: the float it returns, and whether
    the error it returns is nil. *)
Variable ParseFloat : str -> Z -> float64 * bool.

(** The conversion [float32(x)] of a [float64]. *)
Variable toFloat32 : float64 -> float32.

(** [b] is the value the receiver points to when the method is called;
    the result is the value it is left with, and the error. *)
Definition BalanceUnmarshalMT (b : Balance) (input : str)
    : outcome (Balance * option balanceError) :=
  if (len input <? 11) || (25 <? len input)
  then Returns (b, Some (ErrBalanceLength (len input)))
  else
    creditDebitStr ← slice input 0 1;
    match creditDebitFromString creditDebitStr with
    | (_, Some err) => Returns (b, Some err)
    | (creditDebit, None) =>
        let b1 :=
          {| BalSet := BalSet b; BalRaw := BalRaw b;
             BalCreditDebit := creditDebit; BalDate := BalDate b;
             Currency := Currency b; BalAmount := BalAmount b |} in
        dateStr ← slice input 1 7;
        match DateStampUnmarshalMT timeParses zeroDate dateStr with
        | (_, Some _) => Returns (b1, Some ErrBalanceDate)
        | (d, None) =>
            currency ← slice input 7 10;
            amountStr ← sliceFrom input 10;
            let b2 :=
              {| BalSet := BalSet b; BalRaw := BalRaw b;
                 BalCreditDebit := creditDebit; BalDate := d;
                 Currency := currency; BalAmount := BalAmount b |} in
            let '(amount, ok) := ParseFloat (commasToDots amountStr) 32 in
            if ok
            then Returns
                   ({| BalSet := true; BalRaw := input;
                       BalCreditDebit := creditDebit; BalDate := d;
                       Currency := currency;
                       BalAmount := toFloat32 amount |}, None)
            else Returns (b2, Some ErrBalanceAmount)
        end
    end.

End Balance.

End mtx.

(** ** The decoders of the headers and the trailers *)

Module HeaderSpec.

Import mt mtx GoFacts.

(** A slice within the length of the string is taken. *)
Ltac in_range :=
  repeat (first [ rewrite slice_in_range by lia
                | rewrite sliceFrom_in_range by lia ];
          cbn [mbind outcome_bind]).

Lemma len_drop (s : str) (n : Z) :
  0 <= n <= len s -> len (drop (Z.to_nat n) s) = len s - n.
Proof. intros H. unfold len in *. rewrite length_drop. lia. Qed.

Lemma len_take (s : str) (n : Z) :
  0 <= n <= len s -> len (take (Z.to_nat n) s) = n.
Proof. intros H. unfold len in *. rewrite length_take. lia. Qed.

Section Decoders.

Variable timeParses : str -> str -> bool.

Local Abbreviation stringToMessageInputReferenceDate :=
  (stringToMessageInputReferenceDate timeParses).
Local Abbreviation stringToMessageReference :=
  (stringToMessageReference timeParses).
Local Abbreviation stringToMessageOutputReference :=
  (stringToMessageOutputReference timeParses).
Local Abbreviation stringToPossibleDuplicateEmission :=
  (stringToPossibleDuplicateEmission timeParses).
Local Abbreviation stringToPossibleDuplicateMessage :=
  (stringToPossibleDuplicateMessage timeParses).
Local Abbreviation stringToSystemOriginatedMessage :=
  (stringToSystemOriginatedMessage timeParses).
Local Abbreviation appHeaderBlockToAppHeaderOutput :=
  (appHeaderBlockToAppHeaderOutput timeParses).
Local Abbreviation appHeaderBlockToAppHeader :=
  (appHeaderBlockToAppHeader timeParses).
Local Abbreviation usrHeaderBlockToUsrHeader :=
  (usrHeaderBlockToUsrHeader timeParses).
Local Abbreviation trailersBlockToTrailers :=
  (trailersBlockToTrailers timeParses).
Local Abbreviation messageToMTx := (messageToMTx timeParses).

(** *** Which decoders return *)

Lemma inputReference_returns (s : str) :
  exists r e, stringToMessageInputReferenceDate s = Returns (r, e).
Proof.
  unfold mtx.stringToMessageInputReferenceDate.
  destruct (len s =? 28) eqn:E; cbn [negb]; [| eauto].
  apply Z.eqb_eq in E. in_range.
  destruct (DateOrDateTimeUnmarshalMT _ _ _) as [d [e |]]; [eauto |].
  in_range. eauto.
Qed.

Lemma outputReference_returns (s : str) :
  exists r e, stringToMessageOutputReference s = Returns (r, e).
Proof.
  unfold mtx.stringToMessageOutputReference.
  destruct (len s =? 28) eqn:E.
  - apply Z.eqb_eq in E. in_range.
    destruct (DateOrDateTimeUnmarshalMT _ _ _) as [d [e |]]; [eauto |].
    in_range. eauto.
  - destruct (len s =? 32) eqn:E2; [| eauto].
    apply Z.eqb_eq in E2. in_range.
    destruct (DateOrDateTimeUnmarshalMT _ _ _) as [d [e |]]; [eauto |].
    in_range. eauto.
Qed.

Lemma emission_returns (s : str) :
  exists r e, stringToPossibleDuplicateEmission s = Returns (r, e).
Proof.
  unfold mtx.stringToPossibleDuplicateEmission.
  destruct (len s =? 32) eqn:E; cbn [negb]; [| eauto].
  apply Z.eqb_eq in E. in_range.
  destruct (TimeUnmarshalMT _ _ _) as [t [e |]]; [eauto |].
  in_range.
  destruct (inputReference_returns (drop (Z.to_nat 4) s)) as (r & e & ->).
  cbn [mbind outcome_bind]. destruct e; eauto.
Qed.

Lemma duplicate_returns (s : str) :
  exists r e, stringToPossibleDuplicateMessage s = Returns (r, e).
Proof.
  unfold mtx.stringToPossibleDuplicateMessage.
  destruct (negb (len s =? 32) && negb (len s =? 36)) eqn:E; [eauto |].
  assert (Hl : 32 <= len s).
  { destruct (len s =? 32) eqn:E1; [lia |].
    destruct (len s =? 36) eqn:E2; [lia | discriminate]. }
  in_range.
  destruct (TimeUnmarshalMT _ _ _) as [t [e |]]; [eauto |].
  in_range.
  destruct (outputReference_returns (drop (Z.to_nat 4) s)) as (r & e & ->).
  cbn [mbind outcome_bind]. destruct e; eauto.
Qed.

Lemma system_returns (s : str) :
  exists r e, stringToSystemOriginatedMessage s = Returns (r, e).
Proof.
  unfold mtx.stringToSystemOriginatedMessage.
  destruct (len s =? 32) eqn:E; cbn [negb]; [| eauto].
  apply Z.eqb_eq in E. in_range.
  destruct (TimeUnmarshalMT _ _ _) as [t [e |]]; [eauto |].
  in_range.
  destruct (inputReference_returns (drop (Z.to_nat 4) s)) as (r & e & ->).
  cbn [mbind outcome_bind]. destruct e; eauto.
Qed.

Lemma reference_short (s : str) :
  len s < 10 -> stringToMessageReference s = Panics.
Proof.
  intros H. unfold mtx.stringToMessageReference.
  rewrite slice_out_of_range by lia. reflexivity.
Qed.

Lemma reference_returns (s : str) :
  10 <= len s -> exists r e, stringToMessageReference s = Returns (r, e).
Proof.
  intros H. unfold mtx.stringToMessageReference. in_range.
  destruct (DateTimeUnmarshalMT _ _ _) as [d [e |]]; [eauto |].
  in_range.
  destruct (inputReference_returns (drop (Z.to_nat 10) s)) as (r & e & ->).
  cbn [mbind outcome_bind]. destruct e; eauto.
Qed.

(** A sub block [MRF] whose content is shorter than the ten bytes of
    the date and the time. *)
Definition shortReference (sb : message.SubBlock) : bool :=
  streq (message.SubLabel sb) (lit "MRF")
  && (len (message.SubContent sb) <? 10).

Lemma trailersStep_outcome (acc : trailersAcc) (sb : message.SubBlock) :
  if shortReference sb then trailersStep timeParses acc sb = Panics
  else exists acc', trailersStep timeParses acc sb = Returns acc'.
Proof.
  unfold shortReference, trailersStep.
  destruct (streq (message.SubLabel sb) (lit "MRF")) eqn:Emrf.
  - apply streq_true in Emrf. rewrite Emrf.
    change (streq (lit "MRF") (lit "CHK")) with false.
    change (streq (lit "MRF") (lit "TNG")) with false.
    change (streq (lit "MRF") (lit "PDE")) with false.
    change (streq (lit "MRF") (lit "DLM")) with false.
    change (streq (lit "MRF") (lit "MRF")) with true.
    cbn iota. cbn [andb].
    destruct (len (message.SubContent sb) <? 10) eqn:E.
    + rewrite reference_short by lia. reflexivity.
    + destruct (reference_returns (message.SubContent sb)) as (r & e & ->);
        [lia |].
      cbn [mbind outcome_bind]. eauto.
  - cbn [andb].
    destruct (streq (message.SubLabel sb) (lit "CHK")); [eauto |].
    destruct (streq (message.SubLabel sb) (lit "TNG")); [eauto |].
    destruct (streq (message.SubLabel sb) (lit "PDE")).
    { destruct (emission_returns (message.SubContent sb)) as (r & e & ->).
      cbn [mbind outcome_bind]. eauto. }
    destruct (streq (message.SubLabel sb) (lit "DLM")); [eauto |].
    destruct (streq (message.SubLabel sb) (lit "PDM")).
    { destruct (duplicate_returns (message.SubContent sb)) as (r & e & ->).
      cbn [mbind outcome_bind]. eauto. }
    destruct (streq (message.SubLabel sb) (lit "SYS")).
    { destruct (system_returns (message.SubContent sb)) as (r & e & ->).
      cbn [mbind outcome_bind]. eauto. }
    eauto.
Qed.

Lemma trailersLoop_outcome (sbs : list message.SubBlock) :
  forall acc,
    if existsb shortReference sbs
    then foldOutcome (trailersStep timeParses) sbs acc = Panics
    else exists acc',
        foldOutcome (trailersStep timeParses) sbs acc = Returns acc'.
Proof.
  induction sbs as [| sb sbs IH]; intros acc; simpl; [eauto |].
  pose proof (trailersStep_outcome acc sb) as Hs.
  destruct (shortReference sb); cbn [orb].
  - rewrite Hs. reflexivity.
  - destruct Hs as [acc1 ->]. cbn [mbind outcome_bind]. apply IH.
Qed.

Lemma trailers_outcome (block : message.Block) :
  if existsb shortReference (message.Blocks block)
  then trailersBlockToTrailers block = Panics
  else exists t errs, trailersBlockToTrailers block = Returns (t, errs).
Proof.
  unfold mtx.trailersBlockToTrailers.
  pose proof (trailersLoop_outcome (message.Blocks block)
                {| tr := newTrailers; additional := ∅; trErrors := [];
                   raw := lit "{5:" |}) as H.
  destruct (existsb shortReference (message.Blocks block)).
  - rewrite H. reflexivity.
  - destruct H as [acc ->]. cbn [mbind outcome_bind]. eauto.
Qed.


Lemma optCent_returns (d : DateTimeSecOptCent) (s : str) :
  exists r e, DateTimeSecOptCentUnmarshalMT timeParses d s = Returns (r, e).
Proof.
  unfold DateTimeSecOptCentUnmarshalMT, withDecimalPoint.
  destruct (len s =? 15) eqn:E.
  - apply Z.eqb_eq in E. in_range.
    destruct (timeParses _ _); eauto.
  - destruct (timeParses _ _); eauto.
Qed.

Lemma usrHeaderStep_returns (acc : UsrHeader * list error)
    (sb : message.SubBlock) :
  exists acc', usrHeaderStep timeParses acc sb = Returns acc'.
Proof.
  unfold usrHeaderStep. destruct acc as [h errors].
  destruct (streq (message.SubLabel sb) (lit "106")).
  { destruct (inputReference_returns (message.SubContent sb))
      as (r & e & ->).
    cbn [mbind outcome_bind]. destruct e; eauto. }
  destruct (streq (message.SubLabel sb) (lit "423")).
  { destruct (optCent_returns zeroDateTimeSecOptCent (message.SubContent sb))
      as (r & e & ->).
    cbn [mbind outcome_bind]. destruct e; eauto. }
  destruct (usrFieldOf (message.SubLabel sb)); eauto.
Qed.

Lemma usrHeader_returns (block : message.Block) :
  exists h errs, usrHeaderBlockToUsrHeader block = Returns (h, errs).
Proof.
  unfold mtx.usrHeaderBlockToUsrHeader.
  generalize (newUsrHeader (message.Content block), @nil error).
  induction (message.Blocks block) as [| sb sbs IH]; intros acc; simpl.
  - destruct acc. eauto.
  - destruct (usrHeaderStep_returns acc sb) as [acc1 ->].
    cbn [mbind outcome_bind]. apply IH.
Qed.

(** *** The application header *)

Lemma setPriority_set (h : AppHeaderInput) (c : str) :
  InSet (fst (setPriority h c)) = InSet h.
Proof.
  unfold setPriority.
  repeat match goal with |- context [if ?b then _ else _] => destruct b end;
    reflexivity.
Qed.

Lemma setDeliveryMonitor_set (h : AppHeaderInput) (c : str) :
  InSet (fst (setDeliveryMonitor h c)) = InSet h.
Proof.
  unfold setDeliveryMonitor.
  repeat match goal with |- context [if ?b then _ else _] => destruct b end;
    reflexivity.
Qed.

Lemma setPriorityOrDeliveryMonitor_set (h : AppHeaderInput) (c : str) :
  InSet (fst (setPriorityOrDeliveryMonitor h c)) = InSet h.
Proof.
  unfold setPriorityOrDeliveryMonitor.
  destruct (_ || _); [apply setPriority_set |].
  destruct (_ || _); [apply setDeliveryMonitor_set | reflexivity].
Qed.

Lemma setObsolescencePeriod_set (h : AppHeaderInput) (c : str) :
  InSet (fst (setObsolescencePeriod h c)) = InSet h.
Proof.
  unfold setObsolescencePeriod.
  destruct (Atoi (stripLeadingZeros c)) as [n [e |]]; reflexivity.
Qed.

(** What [orLeave] keeps of the header: whether it is set. *)
Lemma orLeave_set (b : bool) (r : AppHeaderInput * option mt.error)
    (what : string)
    (k : AppHeaderInput -> outcome (AppHeaderInput * option mt.error)) :
  InSet (fst r) = b ->
  (forall h, InSet h = b ->
             exists h' e, k h = Returns (h', e) /\ InSet h' = b) ->
  exists h' e, orLeave r what k = Returns (h', e) /\ InSet h' = b.
Proof.
  intros Hr Hk. destruct r as [h [e |]]; simpl in *.
  - eauto.
  - apply Hk. exact Hr.
Qed.

Lemma appHeaderInput_set (block : message.Block) :
  exists h e,
    appHeaderBlockToAppHeaderInput block = Returns (h, e)
    /\ InSet h = (16 <=? len (message.Content block)).
Proof.
  unfold appHeaderBlockToAppHeaderInput.
  set (content := message.Content block).
  destruct (len content <? 16) eqn:E.
  { eexists _, _. split; [reflexivity |]. simpl. symmetry. lia. }
  assert (Hset : (16 <=? len content) = true) by lia. rewrite Hset.
  in_range.
  repeat match goal with
         | |- context [if ?n =? ?m then _ else _] =>
             let E := fresh "E" in
             destruct (n =? m) eqn:E; [apply Z.eqb_eq in E |]
         end;
    in_range;
    try (eexists _, _; split; reflexivity);
    repeat (apply orLeave_set;
            [ rewrite ?setPriority_set, ?setDeliveryMonitor_set,
                ?setPriorityOrDeliveryMonitor_set, ?setObsolescencePeriod_set;
              first [assumption | reflexivity]
            | intros ? ?; in_range ]);
    eauto.
Qed.

Lemma appHeaderInput_short (block : message.Block) :
  len (message.Content block) < 16 ->
  exists h e, appHeaderBlockToAppHeaderInput block = Returns (h, Some e).
Proof.
  intros H. unfold appHeaderBlockToAppHeaderInput.
  destruct (len (message.Content block) <? 16) eqn:E; [eauto | lia].
Qed.

Lemma appHeaderInput_returns (block : message.Block) :
  exists h e,
    appHeaderBlockToAppHeaderInput block = Returns (h, e)
    /\ InSet h = (16 <=? len (message.Content block))
    /\ (e = None -> InSet h = true).
Proof.
  destruct (appHeaderInput_set block) as (h & e & Hr & Hs).
  exists h, e. split; [exact Hr |]. split; [exact Hs |].
  intros ->. rewrite Hs.
  destruct (16 <=? len (message.Content block)) eqn:E; [reflexivity |].
  destruct (appHeaderInput_short block) as (h' & e' & Hr'); [lia |].
  congruence.
Qed.

Lemma appHeaderOutput_returns (block : message.Block) :
  exists h e,
    appHeaderBlockToAppHeaderOutput block = Returns (h, e)
    /\ OutSet h = (46 <=? len (message.Content block))
    /\ (e = None -> OutSet h = true).
Proof.
  unfold mtx.appHeaderBlockToAppHeaderOutput.
  set (content := message.Content block).
  destruct (len content <? 46) eqn:E.
  { eexists _, _. split; [reflexivity |]. split; [| discriminate].
    simpl. symmetry. lia. }
  assert (Hset : (46 <=? len content) = true) by lia. rewrite Hset.
  in_range.
  destruct (TimeUnmarshalMT _ _ _) as [t1 [e |]]; [eauto |].
  in_range.
  destruct (DateStampUnmarshalMT _ _ _) as [d [e |]]; [eauto |].
  in_range.
  destruct (TimeUnmarshalMT _ _ _) as [t2 [e |]]; [eauto |].
  in_range.
  match goal with
  | |- context [mtx.stringToMessageInputReferenceDate _ ?s] =>
      destruct (inputReference_returns s) as (r & e & ->)
  end.
  cbn [mbind outcome_bind]. destruct e; [eauto |].
  destruct (len content =? 47) eqn:E47; [| eauto].
  apply Z.eqb_eq in E47.
  assert (Hc : exists c, index content 46 = Returns c).
  { unfold index.
    destruct ((0 <=? 46) && (46 <? len content)) eqn:Ei; [| lia].
    match goal with
    | |- context [match ?x with Some _ => _ | None => _ end] =>
        destruct x as [c |] eqn:Hc
    end; [eauto |].
    apply lookup_ge_None in Hc. unfold len in E47. lia. }
  destruct Hc as [c ->]. cbn [mbind outcome_bind].
  destruct (Ascii.eqb c "N"); [eauto |].
  destruct (Ascii.eqb c "S"); [eauto |].
  destruct (Ascii.eqb c "U"); eauto.
Qed.

(** What [appHeaderBlockToAppHeader] gives: the two headers, of which
    one at most is set, and the error. *)
Lemma appHeader_returns (block : message.Block) :
  exists hin hout e,
    appHeaderBlockToAppHeader block = Returns (hin, hout, e)
    /\ InSet hin && OutSet hout = false
    /\ (e = None -> xorb (InSet hin) (OutSet hout) = true)
    /\ (len (message.Content block) < 4 -> e <> None).
Proof.
  unfold mtx.appHeaderBlockToAppHeader.
  set (content := message.Content block).
  destruct (len content <? 4) eqn:E.
  { eexists _, _, _. split; [reflexivity |]. split; [reflexivity |].
    split; [discriminate |]. intros _. discriminate. }
  in_range.
  destruct (streq _ (lit "I")).
  { destruct (appHeaderInput_returns block) as (h & e & -> & _ & Hset).
    cbn [mbind outcome_bind].
    eexists _, _, _. split; [reflexivity |]. cbn [OutSet zeroAppHeaderOutput].
    split; [apply andb_false_r |]. split; [| lia].
    destruct e; [discriminate |]. intros _.
    rewrite xorb_false_r. apply Hset. reflexivity. }
  destruct (streq _ (lit "O")).
  { destruct (appHeaderOutput_returns block) as (h & e & -> & _ & Hset).
    cbn [mbind outcome_bind].
    eexists _, _, _. split; [reflexivity |]. cbn [InSet zeroAppHeaderInput].
    split; [reflexivity |]. split; [| lia].
    destruct e; [discriminate |]. intros _.
    rewrite xorb_false_l. apply Hset. reflexivity. }
  eexists _, _, _. split; [reflexivity |]. split; [reflexivity |].
  split; [discriminate | lia].
Qed.


Lemma basicHeader_returns (block : message.Block) :
  exists h e, basicHeaderBlockToBasicHeader block = Returns (h, e).
Proof.
  unfold basicHeaderBlockToBasicHeader.
  destruct (len (message.Content block) =? 25) eqn:E; cbn [negb]; [| eauto].
  apply Z.eqb_eq in E. in_range.
  match goal with
  | |- context [match ?x with Some _ => _ | None => _ end] =>
      destruct x; [| eauto]
  end.
  in_range.
  match goal with
  | |- context [match ?x with Some _ => _ | None => _ end] =>
      destruct x; [| eauto]
  end.
  in_range. eauto.
Qed.

(** *** The loops over the sub blocks *)

Lemma foldOutcome_snoc {A B} (f : A -> B -> outcome A) (l : list B) (b : B)
    (a : A) :
  foldOutcome f (l ++ [b]) a = (a' ← foldOutcome f l a; f a' b).
Proof.
  revert a. induction l as [| x l IH]; intros a; simpl.
  - destruct (f a b); reflexivity.
  - destruct (f a x); simpl; [apply IH | reflexivity | reflexivity].
Qed.

Definition knownTrailer (label : str) : bool :=
  streq label (lit "CHK") || streq label (lit "TNG")
  || streq label (lit "PDE") || streq label (lit "DLM")
  || streq label (lit "MRF") || streq label (lit "PDM")
  || streq label (lit "SYS").

(** [ "{" + sb.Label + ":" + sb.Content + "}" ] *)
Definition rawSubBlock (sb : message.SubBlock) : str :=
  lit "{" ++ message.SubLabel sb ++ lit ":" ++ message.SubContent sb
  ++ lit "}".

(** The content of the last sub block with the label. *)
Definition lastContent (label : str) (sbs : list message.SubBlock)
    : option str :=
  message.SubContent
    <$> last (filter (fun sb => message.SubLabel sb = label) sbs).

Lemma lastContent_snoc (label : str) (sbs : list message.SubBlock)
    (sb : message.SubBlock) :
  lastContent label (sbs ++ [sb])
  = if streq (message.SubLabel sb) label
    then Some (message.SubContent sb)
    else lastContent label sbs.
Proof.
  unfold lastContent. rewrite filter_app, filter_cons, filter_nil.
  unfold streq. destruct (decide (message.SubLabel sb = label)) as [E | E].
  - rewrite bool_decide_eq_true_2 by exact E. rewrite last_snoc. reflexivity.
  - rewrite bool_decide_eq_false_2 by exact E. rewrite app_nil_r.
    reflexivity.
Qed.

Lemma trailersStep_keeps (acc acc' : trailersAcc) (sb : message.SubBlock) :
  trailersStep timeParses acc sb = Returns acc' ->
  raw acc' = raw acc ++ rawSubBlock sb
  /\ TrSet (tr acc') = TrSet (tr acc)
  /\ additional acc'
     = if knownTrailer (message.SubLabel sb) then additional acc
       else <[message.SubLabel sb := message.SubContent sb]> (additional acc).
Proof.
  unfold trailersStep, knownTrailer, rawSubBlock.
  destruct (streq (message.SubLabel sb) (lit "CHK")); cbn [orb].
  { intros [= <-]. repeat split. }
  destruct (streq (message.SubLabel sb) (lit "TNG")); cbn [orb].
  { intros [= <-]. repeat split. }
  destruct (streq (message.SubLabel sb) (lit "PDE")); cbn [orb].
  { destruct (mtx.stringToPossibleDuplicateEmission _ _) as [[r e] | |];
      cbn [mbind outcome_bind]; [| discriminate | discriminate].
    intros [= <-]. repeat split. }
  destruct (streq (message.SubLabel sb) (lit "DLM")); cbn [orb].
  { intros [= <-]. repeat split. }
  destruct (streq (message.SubLabel sb) (lit "MRF")); cbn [orb].
  { destruct (mtx.stringToMessageReference _ _) as [[r e] | |];
      cbn [mbind outcome_bind]; [| discriminate | discriminate].
    intros [= <-]. repeat split. }
  destruct (streq (message.SubLabel sb) (lit "PDM")); cbn [orb].
  { destruct (mtx.stringToPossibleDuplicateMessage _ _) as [[r e] | |];
      cbn [mbind outcome_bind]; [| discriminate | discriminate].
    intros [= <-]. repeat split. }
  destruct (streq (message.SubLabel sb) (lit "SYS")); cbn [orb].
  { destruct (mtx.stringToSystemOriginatedMessage _ _) as [[r e] | |];
      cbn [mbind outcome_bind]; [| discriminate | discriminate].
    intros [= <-]. repeat split. }
  intros [= <-]. repeat split.
Qed.

Lemma trailersLoop_keeps (sbs : list message.SubBlock) :
  forall acc0 acc,
    foldOutcome (trailersStep timeParses) sbs acc0 = Returns acc ->
    raw acc = raw acc0 ++ concat (map rawSubBlock sbs)
    /\ TrSet (tr acc) = TrSet (tr acc0)
    /\ forall label,
         additional acc !! label
         = if knownTrailer label then additional acc0 !! label
           else match lastContent label sbs with
                | Some content => Some content
                | None => additional acc0 !! label
                end.
Proof.
  induction sbs as [| sb sbs IH] using rev_ind; intros acc0 acc H.
  - simpl in H. injection H as <-. rewrite app_nil_r.
    split; [reflexivity |]. split; [reflexivity |].
    intros label. destruct (knownTrailer label); reflexivity.
  - rewrite foldOutcome_snoc in H.
    destruct (foldOutcome (trailersStep timeParses) sbs acc0)
      as [acc1 | |] eqn:E1; cbn [mbind outcome_bind] in H; try discriminate.
    destruct (IH acc0 acc1 E1) as (Hraw & Hset & Hadd).
    destruct (trailersStep_keeps acc1 acc sb H) as (Hraw' & Hset' & Hadd').
    split; [| split].
    + rewrite Hraw', Hraw, map_app, concat_app. simpl.
      rewrite app_nil_r, <- app_assoc. reflexivity.
    + congruence.
    + intros label. rewrite Hadd', lastContent_snoc.
      destruct (knownTrailer (message.SubLabel sb)) eqn:Ek.
      * rewrite Hadd. destruct (knownTrailer label) eqn:El; [reflexivity |].
        destruct (streq (message.SubLabel sb) label) eqn:E; [| reflexivity].
        apply streq_true in E. congruence.
      * destruct (streq (message.SubLabel sb) label) eqn:E.
        -- apply streq_true in E. subst label. rewrite Ek.
           apply lookup_insert_eq.
        -- apply streq_false in E. rewrite lookup_insert_ne by exact E.
           apply Hadd.
Qed.

Lemma usrSet_get (h : UsrHeader) (f g : usrField) (v : str) :
  usrGet (usrSet h f v) g = if bool_decide (f = g) then v else usrGet h g.
Proof. destruct g; reflexivity. Qed.

(** The content of the last sub block that goes to the field. *)
Definition lastFor (f : usrField) (sbs : list message.SubBlock)
    : option str :=
  message.SubContent
    <$> last (filter (fun sb => usrFieldOf (message.SubLabel sb) = Some f)
                sbs).

Lemma lastFor_snoc (f : usrField) (sbs : list message.SubBlock)
    (sb : message.SubBlock) :
  lastFor f (sbs ++ [sb])
  = if bool_decide (usrFieldOf (message.SubLabel sb) = Some f)
    then Some (message.SubContent sb)
    else lastFor f sbs.
Proof.
  unfold lastFor. rewrite filter_app, filter_cons, filter_nil.
  destruct (decide (usrFieldOf (message.SubLabel sb) = Some f)) as [E | E].
  - rewrite bool_decide_eq_true_2 by exact E. rewrite last_snoc. reflexivity.
  - rewrite bool_decide_eq_false_2 by exact E. rewrite app_nil_r.
    reflexivity.
Qed.

Lemma usrFieldOf_106 : usrFieldOf (lit "106") = None.
Proof. reflexivity. Qed.

Lemma usrFieldOf_423 : usrFieldOf (lit "423") = None.
Proof. reflexivity. Qed.

Lemma usrHeaderStep_keeps (h h' : UsrHeader) (errors errors' : list error)
    (sb : message.SubBlock) :
  usrHeaderStep timeParses (h, errors) sb = Returns (h', errors') ->
  UsrSet h' = UsrSet h /\ UsrRaw h' = UsrRaw h
  /\ (forall f, usrGet h' f
                = if bool_decide (usrFieldOf (message.SubLabel sb) = Some f)
                  then message.SubContent sb else usrGet h f)
  /\ (is_Some (usrFieldOf (message.SubLabel sb)) -> errors' = errors).
Proof.
  unfold usrHeaderStep.
  destruct (streq (message.SubLabel sb) (lit "106")) eqn:E1.
  { apply streq_true in E1. rewrite E1, usrFieldOf_106.
    destruct (mtx.stringToMessageInputReferenceDate _ _) as [[r e] | |];
      cbn [mbind outcome_bind]; [| discriminate | discriminate].
    destruct e; intros [= <- <-];
      (split; [reflexivity |]; split; [reflexivity |]; split;
       [intros f; destruct f; reflexivity | intros [? ?]; discriminate]). }
  destruct (streq (message.SubLabel sb) (lit "423")) eqn:E2.
  { apply streq_true in E2. rewrite E2, usrFieldOf_423.
    destruct (DateTimeSecOptCentUnmarshalMT _ _ _) as [[r e] | |];
      cbn [mbind outcome_bind]; [| discriminate | discriminate].
    destruct e; intros [= <- <-];
      (split; [reflexivity |]; split; [reflexivity |]; split;
       [intros f; destruct f; reflexivity | intros [? ?]; discriminate]). }
  destruct (usrFieldOf (message.SubLabel sb)) as [g |]; intros [= <- <-].
  - split; [reflexivity |]. split; [reflexivity |]. split; [| reflexivity].
    intros f. rewrite usrSet_get.
    destruct (decide (g = f)) as [-> | Hne].
    + rewrite !bool_decide_eq_true_2 by reflexivity. reflexivity.
    + rewrite !bool_decide_eq_false_2 by congruence. reflexivity.
  - split; [reflexivity |]. split; [reflexivity |]. split.
    + intros f. rewrite bool_decide_eq_false_2 by discriminate. reflexivity.
    + intros [? ?]; discriminate.
Qed.

Lemma usrLoop_keeps (sbs : list message.SubBlock) :
  forall h0 errors0 h errors,
    foldOutcome (usrHeaderStep timeParses) sbs (h0, errors0)
    = Returns (h, errors) ->
    UsrSet h = UsrSet h0 /\ UsrRaw h = UsrRaw h0
    /\ (forall f, usrGet h f = default (usrGet h0 f) (lastFor f sbs))
    /\ (Forall (fun sb => is_Some (usrFieldOf (message.SubLabel sb))) sbs ->
        errors = errors0).
Proof.
  induction sbs as [| sb sbs IH] using rev_ind; intros h0 errors0 h errors H.
  - simpl in H. injection H as <- <-. repeat split.
  - rewrite foldOutcome_snoc in H.
    destruct (foldOutcome (usrHeaderStep timeParses) sbs (h0, errors0))
      as [[h1 errors1] | |] eqn:E1; cbn [mbind outcome_bind] in H;
      try discriminate.
    destruct (IH h0 errors0 h1 errors1 E1) as (Hs & Hr & Hg & He).
    destruct (usrHeaderStep_keeps h1 h errors1 errors sb H)
      as (Hs' & Hr' & Hg' & He').
    split; [congruence |]. split; [congruence |]. split.
    + intros f. rewrite Hg', lastFor_snoc.
      destruct (bool_decide _); [reflexivity | apply Hg].
    + intros Hall. apply Forall_app in Hall as [Hall Hsb].
      apply Forall_inv in Hsb. rewrite (He' Hsb). apply He. exact Hall.
Qed.


(** *** The reference of the trailer [MRF] *)

(** X9. [stringToMessageReference] slices the date and the time off
    before it looks at the length: it panics exactly on the strings
    shorter than ten bytes. So the decoder of the trailers panics exactly
    when one of the sub blocks is an [MRF] with such a content, and so
    does [messageToMTx]; on every other message each decoder returns. *)
Theorem short_reference_panics :
  (forall s, stringToMessageReference s = Panics <-> len s < 10)
  /\ (forall block,
         trailersBlockToTrailers block = Panics
         <-> existsb shortReference (message.Blocks block) = true)
  /\ (forall msg,
         messageToMTx msg = Panics
         <-> existsb shortReference
               (message.Blocks (message.Trailers msg)) = true).
Proof.
  split; [| split].
  - intros s. split.
    + intros H. destruct (Z_lt_ge_dec (len s) 10) as [Hl | Hl]; [exact Hl |].
      destruct (reference_returns s) as (r & e & Hr); [lia |]. congruence.
    + apply reference_short.
  - intros block. pose proof (trailers_outcome block) as H.
    destruct (existsb shortReference (message.Blocks block)).
    + split; [reflexivity | intros _; exact H].
    + destruct H as (t & errs & ->). split; discriminate.
  - intros msg. unfold mtx.messageToMTx.
    destruct (basicHeader_returns (message.BasicHeader msg)) as (bh & e1 & ->).
    cbn [mbind outcome_bind].
    destruct (appHeader_returns (message.AppHeader msg))
      as (hin & hout & e2 & -> & _).
    cbn [mbind outcome_bind].
    destruct (usrHeader_returns (message.UsrHeader msg)) as (uh & e3 & ->).
    cbn [mbind outcome_bind].
    pose proof (trailers_outcome (message.Trailers msg)) as H.
    destruct (existsb shortReference (message.Blocks (message.Trailers msg))).
    + rewrite H. split; reflexivity.
    + destruct H as (t & errs & ->). split; discriminate.
Qed.

(** *** One kind of application header *)

(** X10. [appHeaderBlockToAppHeader] returns on every block. At most
    one of the two headers it gives is set; when it reports no error
    exactly one is; and a content of fewer than four bytes is an
    error. *)
Theorem app_header_one_kind (block : message.Block) :
  exists hin hout e,
    appHeaderBlockToAppHeader block = Returns (hin, hout, e)
    /\ InSet hin && OutSet hout = false
    /\ (e = None -> xorb (InSet hin) (OutSet hout) = true)
    /\ (len (message.Content block) < 4 -> e <> None).
Proof. apply appHeader_returns. Qed.

(** *** The generic message *)

(** X11. Whatever message [messageToMTx] returns: its user header and
    its trailers are marked as set, whether the message had these blocks
    or not, so [HasUserHeader] and [HasTrailers] hold; [Raw], [Line]
    and [Body] are those of the message of the parser; every error
    carries the line of the message; the message is not both input and
    output, and it is one of the two when there is no error; a message
    whose block 2 is missing or shorter than four bytes has an error. *)
Theorem generic_message_flags (msg : message.Message) (mtx : MTx)
    (errs : list Error) :
  messageToMTx msg = Returns (mtx, errs) ->
  HasUserHeader (base mtx) = true
  /\ HasTrailers (base mtx) = true
  /\ Raw (base mtx) = message.Raw msg
  /\ Line (base mtx) = message.Line msg
  /\ Body mtx = message.Body msg
  /\ Forall (fun e => line e = message.Line msg) errs
  /\ IsInput (base mtx) && IsOutput (base mtx) = false
  /\ (errs = [] -> xorb (IsInput (base mtx)) (IsOutput (base mtx)) = true)
  /\ (len (message.Content (message.AppHeader msg)) < 4 -> errs <> []).
Proof.
  unfold mtx.messageToMTx.
  destruct (basicHeader_returns (message.BasicHeader msg)) as (bh & e1 & ->).
  cbn [mbind outcome_bind].
  destruct (appHeader_returns (message.AppHeader msg))
    as (hin & hout & e2 & -> & Hboth & Hone & Hshort).
  cbn [mbind outcome_bind].
  destruct (mtx.usrHeaderBlockToUsrHeader timeParses (message.UsrHeader msg))
    as [[uh e3] | |] eqn:Eu; cbn [mbind outcome_bind]; try discriminate.
  destruct (mtx.trailersBlockToTrailers timeParses (message.Trailers msg))
    as [[t e4] | |] eqn:Et; cbn [mbind outcome_bind]; try discriminate.
  intros [= <- <-]. unfold HasUserHeader, HasTrailers, IsInput, IsOutput.
  cbn [base Body Raw Line UsrHeaderOf TrailersOf AppHeaderInputOf
       AppHeaderOutputOf].
  split.
  { unfold mtx.usrHeaderBlockToUsrHeader in Eu.
    apply usrLoop_keeps in Eu as (Hs & _). rewrite Hs. reflexivity. }
  split.
  { unfold mtx.trailersBlockToTrailers in Et.
    destruct (foldOutcome _ _ _) as [acc | |] eqn:Ef;
      cbn [mbind outcome_bind] in Et; try discriminate.
    injection Et as <- <-. cbn [TrSet].
    apply trailersLoop_keeps in Ef as (_ & Hs & _). rewrite Hs. reflexivity. }
  split; [reflexivity |]. split; [reflexivity |]. split; [reflexivity |].
  split.
  { rewrite !Forall_app. repeat split.
    - destruct e1, e2; simpl; repeat constructor.
    - rewrite Forall_forall. intros x Hx. apply list_elem_of_In in Hx.
      apply in_map_iff in Hx as (y & <- & _). reflexivity.
    - rewrite Forall_forall. intros x Hx. apply list_elem_of_In in Hx.
      apply in_map_iff in Hx as (y & <- & _). reflexivity. }
  split; [exact Hboth |]. split.
  - intros Hnil. apply Hone. destruct e2 as [e2 |]; [| reflexivity].
    exfalso. apply app_eq_nil in Hnil as [Hnil _].
    apply app_eq_nil in Hnil as [Hnil _].
    destruct e1; [discriminate |]. discriminate.
  - intros Hl Hnil. apply (Hshort Hl).
    destruct e2 as [e2 |]; [| reflexivity].
    exfalso. apply app_eq_nil in Hnil as [Hnil _].
    apply app_eq_nil in Hnil as [Hnil _].
    destruct e1; discriminate.
Qed.

(** *** The trailers *)

(** X12. When the decoder of the trailers returns, [Raw] is block 5
    rebuilt from the sub blocks in their order, each as
    [{label:content}], whatever the content of the block was; the
    trailers are marked as set; and [AdditionalTrailers] holds, for
    every label other than [CHK], [TNG], [PDE], [DLM], [MRF], [PDM] and
    [SYS], the content of the last sub block with this label, and
    nothing for a label that did not occur or is one of the seven. *)
Theorem trailers_raw_and_additional (block : message.Block) (t : Trailers)
    (errs : list error) :
  trailersBlockToTrailers block = Returns (t, errs) ->
  TrRaw t
  = lit "{5:" ++ concat (map rawSubBlock (message.Blocks block)) ++ lit "}"
  /\ TrSet t = true
  /\ exists additional,
       AdditionalTrailers t = Some additional
       /\ forall label,
            additional !! label
            = if knownTrailer label then None
              else lastContent label (message.Blocks block).
Proof.
  unfold mtx.trailersBlockToTrailers.
  destruct (foldOutcome _ _ _) as [acc | |] eqn:Ef;
    cbn [mbind outcome_bind]; try discriminate.
  intros [= <- <-]. cbn [TrRaw TrSet AdditionalTrailers].
  apply trailersLoop_keeps in Ef as (Hraw & Hset & Hadd).
  split; [rewrite Hraw, <- app_assoc; reflexivity |].
  split; [rewrite Hset; reflexivity |].
  eexists. split; [reflexivity |]. intros label. rewrite Hadd.
  cbn [additional]. rewrite lookup_empty.
  destruct (knownTrailer label); [reflexivity |].
  destruct (lastContent label (message.Blocks block)); reflexivity.
Qed.

(** *** The user header *)

(** X13. The decoder of the user header returns on every block. The
    header is marked as set and its [Raw] is the content of the block
    between [{3:] and [}]. Each of the eleven text fields holds the
    content of the last sub block with the label of the field, and is
    empty when there is none. If every sub block has the label of a
    text field there is no error. *)
Theorem user_header_last_wins (block : message.Block) :
  exists h errs,
    usrHeaderBlockToUsrHeader block = Returns (h, errs)
    /\ UsrSet h = true
    /\ UsrRaw h = lit "{3:" ++ message.Content block ++ lit "}"
    /\ (forall f,
           usrGet h f = default [] (lastFor f (message.Blocks block)))
    /\ (Forall (fun sb => is_Some (usrFieldOf (message.SubLabel sb)))
          (message.Blocks block) -> errs = []).
Proof.
  destruct (usrHeader_returns block) as (h & errs & Hr).
  exists h, errs. split; [exact Hr |].
  unfold mtx.usrHeaderBlockToUsrHeader in Hr.
  apply usrLoop_keeps in Hr as (Hs & Hraw & Hg & He).
  split; [exact Hs |]. split; [exact Hraw |]. split; [| exact He].
  intros f. rewrite Hg. destruct f; reflexivity.
Qed.

(** *** The message input reference *)

(** X14. [stringToMessageInputReferenceDate] returns on every string.
    It reports an error exactly when the string is not 28 bytes long or
    its first six bytes do not parse as a date. Without an error the
    reference is set, and the raw date, the logical terminal address,
    the session number and the sequence number, of 6, 12, 4 and 6
    bytes, are the string cut in four: put together again they give the
    string back, which is also [Raw]. *)
Theorem input_reference_round_trip (s : str) :
  exists r e,
    stringToMessageInputReferenceDate s = Returns (r, e)
    /\ IrRaw r = s /\ IrSet r = true
    /\ (e = None <->
        len s = 28 /\ timeParses TimeFormatDate (take 6 s) = true)
    /\ (e = None ->
        DateOrDateTimeRaw (IrDateOrDateTime r)
        ++ IrLogicalTerminalAddress r ++ IrSessionNumber r
        ++ IrSequenceNumber r = s
        /\ len (DateOrDateTimeRaw (IrDateOrDateTime r)) = 6
        /\ len (IrLogicalTerminalAddress r) = 12
        /\ len (IrSessionNumber r) = 4
        /\ len (IrSequenceNumber r) = 6
        /\ DateOrDateTimeSet (IrDateOrDateTime r) = true).
Proof.
  unfold mtx.stringToMessageInputReferenceDate.
  destruct (len s =? 28) eqn:E; cbn [negb].
  2:{ eexists _, _. split; [reflexivity |]. split; [reflexivity |].
      split; [reflexivity |]. split; [| discriminate].
      split; [discriminate | intros [H _]; lia]. }
  apply Z.eqb_eq in E. in_range.
  change (Z.to_nat (6 - 0)) with 6%nat. change (Z.to_nat 0) with 0%nat.
  rewrite drop_0. unfold DateOrDateTimeUnmarshalMT.
  assert (Hl6 : len (take 6 s) = 6).
  { unfold len in *. rewrite length_take. lia. }
  rewrite Hl6. change (6 =? 10) with false. cbn iota.
  destruct (timeParses TimeFormatDate (take 6 s)) eqn:Ep.
  - in_range. eexists _, _. split; [reflexivity |].
    cbn [IrRaw IrSet IrDateOrDateTime IrLogicalTerminalAddress
         IrSessionNumber IrSequenceNumber DateOrDateTimeRaw
         DateOrDateTimeSet].
    split; [reflexivity |]. split; [reflexivity |].
    split; [split; [intros _; split; [exact E | reflexivity] | reflexivity] |].
    intros _.
    change (Z.to_nat (18 - 6)) with 12%nat.
    change (Z.to_nat (22 - 18)) with 4%nat.
    change (Z.to_nat 6) with 6%nat. change (Z.to_nat 18) with 18%nat.
    change (Z.to_nat 22) with 22%nat.
    split.
    { rewrite <- (take_drop 6 s) at 5. f_equal.
      rewrite <- (take_drop 12 (drop 6 s)) at 2. f_equal.
      rewrite drop_drop. change (6 + 12)%nat with 18%nat.
      rewrite <- (take_drop 4 (drop 18 s)) at 2. f_equal.
      rewrite drop_drop. reflexivity. }
    unfold len in *.
    rewrite !length_take, !length_drop.
    repeat split; lia.
  - eexists _, _. split; [reflexivity |]. split; [reflexivity |].
    split; [reflexivity |]. split; [| discriminate].
    split; [discriminate | intros [_ H]; discriminate].
Qed.

End Decoders.

(** A stand-in for [time.Parse] that the examples run with: a value
    parses when it is as long as the layout and all digits. *)
Definition digitsOfLayout (layout value : str) : bool :=
  (len layout =? len value) && forallb isDigitByte value.

Definition blockWith (label content : str) (sbs : list message.SubBlock)
    : message.Block :=
  {| message.Label := label; message.Content := content;
     message.Fields := None; message.Blocks := sbs |}.

Definition subBlock (label content : str) : message.SubBlock :=
  {| message.SubLabel := label; message.SubContent := content |}.

Definition messageWith (app trailers : message.Block) : message.Message :=
  {| message.Line := 1; message.Raw := [];
     message.BasicHeader :=
       blockWith (lit "1") (lit "F01BPHKPLPKXXXX0000000000") [];
     message.AppHeader := app; message.UsrHeader := message.zeroBlock;
     message.Body := None; message.Trailers := trailers |}.

Lemma generic_message_flags_witness :
  exists mtx errs,
    messageToMTx digitsOfLayout
      (messageWith (blockWith (lit "2") (lit "I940BOFAUS6BXBAMN") [])
         message.zeroBlock) = Returns (mtx, errs)
    /\ errs = []
    /\ HasUserHeader (base mtx) = true
    /\ HasTrailers (base mtx) = true.
Proof.
  eexists _, _. split; [vm_compute; reflexivity |]. split; [reflexivity |].
  match goal with
  | |- HasUserHeader (base ?m) = true /\ _ =>
      destruct (generic_message_flags digitsOfLayout
                  (messageWith
                     (blockWith (lit "2") (lit "I940BOFAUS6BXBAMN") [])
                     message.zeroBlock) m [])
        as (H1 & H2 & _); [vm_compute; reflexivity |]
  end.
  split; [exact H1 | exact H2].
Defined.

Lemma trailers_raw_and_additional_witness :
  exists t additional,
    trailersBlockToTrailers digitsOfLayout
      (blockWith (lit "5") []
         [subBlock (lit "CHK") (lit "123456789ABC");
          subBlock (lit "XYZ") (lit "one");
          subBlock (lit "XYZ") (lit "two")]) = Returns (t, [])
    /\ TrRaw t = lit "{5:{CHK:123456789ABC}{XYZ:one}{XYZ:two}}"
    /\ AdditionalTrailers t = Some additional
    /\ additional !! lit "XYZ" = Some (lit "two")
    /\ additional !! lit "CHK" = None.
Proof.
  destruct (trailers_raw_and_additional digitsOfLayout
              (blockWith (lit "5") []
                 [subBlock (lit "CHK") (lit "123456789ABC");
                  subBlock (lit "XYZ") (lit "one");
                  subBlock (lit "XYZ") (lit "two")])
              _ [] eq_refl) as (Hraw & _ & additional & Hadd & Hl).
  eexists _, additional. split; [reflexivity |].
  split; [exact Hraw |]. split; [exact Hadd |].
  split; [rewrite Hl; reflexivity | rewrite Hl; reflexivity].
Defined.


(** *** The balance *)

(** X17. [Balance.UnmarshalMT] returns on every input: the test of the
    length comes before the first slice. It decodes the input exactly
    when this has 11 to 25 bytes, starts with [C] or [D], goes on with
    six bytes that parse as a date, and ends, after three bytes of
    currency, with a text for which [strconv.ParseFloat], called at bit
    size 32 once the commas are points, returns no error. The balance is
    then set, [Raw] is the input, the indicator, the raw date and the
    currency are the input cut at 1, 7 and 10, and the amount is the
    [float32] of the float that [strconv.ParseFloat] returned. *)
Theorem balance_decoding (timeParses : str -> str -> bool)
    (ParseFloat : str -> Z -> float64 * bool)
    (toFloat32 : float64 -> float32) (b : Balance) (input : str) :
  exists b' e,
    BalanceUnmarshalMT timeParses ParseFloat toFloat32 b input
    = Returns (b', e)
    /\ (e = None <->
        11 <= len input <= 25
        /\ (take 1 input = lit "C" \/ take 1 input = lit "D")
        /\ timeParses TimeFormatDate (take 6 (drop 1 input)) = true
        /\ snd (ParseFloat (commasToDots (drop 10 input)) 32) = true)
    /\ (e = None ->
        BalSet b' = true /\ BalRaw b' = input
        /\ CreditDebitString (BalCreditDebit b') = take 1 input
        /\ DateRaw (BalDate b') = take 6 (drop 1 input)
        /\ Currency b' = take 3 (drop 7 input)
        /\ BalAmount b'
           = toFloat32 (fst (ParseFloat (commasToDots (drop 10 input)) 32))).
Proof.
  unfold BalanceUnmarshalMT.
  destruct ((len input <? 11) || (25 <? len input)) eqn:E.
  { eexists _, _. split; [reflexivity |]. split; [| discriminate].
    split; [discriminate |]. intros [H _]. lia. }
  assert (Hl : 11 <= len input <= 25) by lia.
  in_range.
  change (Z.to_nat (1 - 0)) with 1%nat. change (Z.to_nat 0) with 0%nat.
  rewrite drop_0. unfold creditDebitFromString, streq.
  destruct (decide (take 1 input = lit "C")) as [Ec | Ec].
  - rewrite bool_decide_eq_true_2 by exact Ec. in_range.
    change (Z.to_nat (7 - 1)) with 6%nat. change (Z.to_nat 1) with 1%nat.
    change (Z.to_nat (10 - 7)) with 3%nat. change (Z.to_nat 7) with 7%nat.
    change (Z.to_nat 10) with 10%nat.
    unfold DateStampUnmarshalMT.
    destruct (timeParses TimeFormatDate (take 6 (drop 1 input))) eqn:Ed.
    + in_range. change (Z.to_nat (10 - 7)) with 3%nat.
      change (Z.to_nat 7) with 7%nat. change (Z.to_nat 10) with 10%nat.
      destruct (ParseFloat (commasToDots (drop 10 input)) 32)
          as [amount [|]] eqn:Ef; cbn [fst snd].
      * eexists _, _. split; [reflexivity |]. split.
        -- split; [intros _ | reflexivity]. repeat split; auto; lia.
        -- intros _. cbn. rewrite Ec. repeat split.
      * eexists _, _. split; [reflexivity |]. split; [| discriminate].
        split; [discriminate | intros (_ & _ & _ & H); discriminate].
    + eexists _, _. split; [reflexivity |]. split; [| discriminate].
      split; [discriminate | intros (_ & _ & H & _); discriminate].
  - rewrite bool_decide_eq_false_2 by exact Ec.
    destruct (decide (take 1 input = lit "D")) as [Ed' | Ed'].
    + rewrite bool_decide_eq_true_2 by exact Ed'. in_range.
      change (Z.to_nat (7 - 1)) with 6%nat. change (Z.to_nat 1) with 1%nat.
      unfold DateStampUnmarshalMT.
      destruct (timeParses TimeFormatDate (take 6 (drop 1 input))) eqn:Ed.
      * in_range. change (Z.to_nat (10 - 7)) with 3%nat.
        change (Z.to_nat 7) with 7%nat. change (Z.to_nat 10) with 10%nat.
        destruct (ParseFloat (commasToDots (drop 10 input)) 32)
          as [amount [|]] eqn:Ef; cbn [fst snd].
        -- eexists _, _. split; [reflexivity |]. split.
           ++ split; [intros _ | reflexivity]. repeat split; auto; lia.
           ++ intros _. cbn. rewrite Ed'. repeat split.
        -- eexists _, _. split; [reflexivity |]. split; [| discriminate].
           split; [discriminate | intros (_ & _ & _ & H); discriminate].
      * eexists _, _. split; [reflexivity |]. split; [| discriminate].
        split; [discriminate | intros (_ & _ & H & _); discriminate].
    + rewrite bool_decide_eq_false_2 by exact Ed'.
      eexists _, _. split; [reflexivity |]. split; [| discriminate].
      split; [discriminate | intros (_ & [H | H] & _); contradiction].
Qed.

End HeaderSpec.

(** ** The statement line, decoded *)

Module StatementSpec.

Import mt GoFacts.
Import MtSpec(isAmountByte, noNewline).

Section StatementLine.

Variable timeParses : str -> str -> bool.
Variable ParseFloat : str -> Z -> float64 * bool.
Variable sl : StatementLine.

(** X15. A first line made of a date of six digits that parses, the
    funds code [C] or [D], an amount of digits and commas, four bytes
    of SWIFT code of which the first is neither, and a reference: the
    method returns without an error, with the line as [Raw], as amount
    the float that [strconv.ParseFloat] returns, at bit size 32 and
    whatever the error that comes with it, for the amount with its commas
    turned to points, and the reference cut at [//] if this occurs
    once. *)
Theorem statement_line_decoded (date funds amount : str) (c : ascii)
    (swift ref : str) :
  forallb isDigitByte date = true ->
  length date = 6%nat ->
  timeParses TimeFormatDate date = true ->
  funds = lit "C" \/ funds = lit "D" ->
  forallb isAmountByte amount = true ->
  isAmountByte c = false ->
  length swift = 3%nat ->
  noNewline (c :: swift ++ ref) = true ->
  let input := date ++ funds ++ amount ++ c :: swift ++ ref in
  let split := Split ref (lit "//") in
  UnmarshalMT timeParses ParseFloat sl input
  = Returns
      ({| Set_ := true; SlRaw := input;
          SlDate := {| DateSet := true; DateRaw := date |};
          EntryDate := EntryDate sl;
          FundsCodeOf := if streq funds (lit "C") then FundsCodeCredit
                         else FundsCodeDebit;
          Amount := fst (ParseFloat (commasToDots amount) 32);
          SwiftCode := c :: swift;
          AccountOwnerReference :=
            if len0 split =? 2 then nth 0 split [] else ref;
          BankReference :=
            if len0 split =? 2 then lit "//" ++ nth 1 split []
            else BankReference sl;
          Description := Description sl |}, None).
Proof.
  intros Hd Hdl Hp Hf Ha Hc Hs Hn input split. unfold input.
  rewrite (MtSpec.UnmarshalMT_to_amount timeParses ParseFloat sl date funds
             Hd Hdl Hp Hf).
  2:{ rewrite MtSpec.noNewline_app, (MtSpec.amount_noNewline _ Ha), Hn.
      reflexivity. }
  rewrite MtSpec.amountLoop_stops by assumption.
  cbn [mbind outcome_bind]. rewrite Z.add_0_l.
  pose proof (slice_middle [] amount (c :: swift ++ ref)) as Hm.
  change (len []) with 0 in Hm. rewrite Z.add_0_l in Hm.
  simpl app in Hm. rewrite Hm. cbn [mbind outcome_bind].
  destruct (ParseFloat (commasToDots amount) 32) as [value ok]. cbn [fst].
  rewrite sliceFrom_app. cbn [mbind outcome_bind].
  pose proof (slice_middle [] (c :: swift) ref) as Hw.
  change (len []) with 0 in Hw. rewrite Z.add_0_l in Hw.
  assert (Hl4 : len (c :: swift) = 4).
  { rewrite len_cons. unfold len. rewrite Hs. reflexivity. }
  rewrite Hl4 in Hw. simpl app in Hw. rewrite Hw.
  cbn [mbind outcome_bind].
  pose proof (sliceFrom_app (c :: swift) ref) as Hr. rewrite Hl4 in Hr.
  simpl app in Hr. rewrite Hr. cbn [mbind outcome_bind].
  fold split. destruct (len0 split =? 2); reflexivity.
Qed.

(** X16. A first line that goes on with [R] after the date (the funds
    codes [RC] and [RD] without an entry date before them) is never
    decoded: since the line does not go on with [C] or [D] its next four
    bytes are taken for the entry date, and when these do not parse the
    method returns the error of the entry date; a line with fewer than
    four bytes there panics. *)
Theorem reversal_needs_entry_date (date rest : str) :
  forallb isDigitByte date = true ->
  length date = 6%nat ->
  timeParses TimeFormatDate date = true ->
  noNewline rest = true ->
  timeParses TimeFormatMonth (take 4 ("R"%char :: rest)) = false ->
  (3 <= len rest ->
   exists sl',
     UnmarshalMT timeParses ParseFloat sl (date ++ "R"%char :: rest)
     = Returns (sl', Some ErrInvalidEntryDate))
  /\ (len rest < 3 ->
      UnmarshalMT timeParses ParseFloat sl (date ++ "R"%char :: rest) = Panics).
Proof.
  intros Hd Hdl Hp Hn Hm.
  assert (Hlen : len date = 6) by (unfold len; rewrite Hdl; reflexivity).
  unfold UnmarshalMT.
  rewrite MtSpec.Split_no_newline.
  2:{ rewrite MtSpec.noNewline_app, (MtSpec.digits_noNewline _ Hd).
      simpl. exact Hn. }
  cbn [nth].
  pose proof (slice_middle [] date ("R"%char :: rest)) as Hs.
  change (len []) with 0 in Hs. rewrite Z.add_0_l, Hlen in Hs.
  simpl app in Hs. rewrite Hs. cbn [mbind outcome_bind].
  unfold DateUnmarshalMT. rewrite Hp. cbn [negb].
  rewrite <- Hlen, sliceFrom_app. cbn [mbind outcome_bind].
  change (HasPrefix ("R"%char :: rest) (lit "C")) with false.
  change (HasPrefix ("R"%char :: rest) (lit "D")) with false.
  cbn [negb andb].
  split.
  - intros Hr. rewrite slice_in_range by (rewrite ?len_cons; lia).
    cbn [mbind outcome_bind]. unfold MonthUnmarshalMT.
    change (Z.to_nat (4 - 0)) with 4%nat. change (Z.to_nat 0) with 0%nat.
    rewrite drop_0, Hm. cbn [negb mbind outcome_bind]. eauto.
  - intros Hr. rewrite slice_out_of_range by (rewrite len_cons; lia).
    reflexivity.
Qed.

End StatementLine.

Lemma statement_line_decoded_witness :
  exists sl,
    UnmarshalMT MtSpec.digitsParse MtSpec.amountParse
      MtSpec.zeroStatementLine
      (lit "031020C20000,00FMSCNONREF//8327000090031789")
    = Returns (sl, None)
    /\ Amount sl = 0x40D3880000000000
    /\ SwiftCode sl = lit "FMSC"
    /\ AccountOwnerReference sl = lit "NONREF"
    /\ BankReference sl = lit "//8327000090031789".
Proof.
  eexists. split.
  - apply (statement_line_decoded MtSpec.digitsParse MtSpec.amountParse
             MtSpec.zeroStatementLine (lit "031020") (lit "C")
             (lit "20000,00") "F"%char (lit "MSC")
             (lit "NONREF//8327000090031789"));
      first [reflexivity | left; reflexivity].
  - repeat split.
Defined.

Lemma reversal_needs_entry_date_witness :
  exists sl',
    UnmarshalMT MtSpec.digitsParse MtSpec.amountParse
      MtSpec.zeroStatementLine
      (lit "031020RC20000,00FMSCNONREF")
    = Returns (sl', Some ErrInvalidEntryDate).
Proof.
  apply (reversal_needs_entry_date MtSpec.digitsParse MtSpec.amountParse
           MtSpec.zeroStatementLine (lit "031020")
           (lit "C20000,00FMSCNONREF"));
    first [reflexivity | vm_compute; discriminate].
Defined.

End StatementSpec.

(** ** Compiling a pattern: plain text, and a closing parenthesis too
    many *)

Module CompileSpec.

Import pattern GoFacts.
Import PatternSpec(mkLexer).

(** A byte that the lexer of the pattern language takes for itself when
    no digit stands before it: below 128, no digit, and none of [(], [)]
    and [|]. *)
Definition plainByte (c : ascii) : bool :=
  (byteZ c <? 128) && negb (isDigitByte c)
  && negb (Ascii.eqb c "(") && negb (Ascii.eqb c ")")
  && negb (Ascii.eqb c "|").

Section Compile.

Variable isDigitAboveLatin1 : rune -> bool.

Local Abbreviation IsDigit := (IsDigit isDigitAboveLatin1).
Local Abbreviation lexLiteralLoop := (lexLiteralLoop isDigitAboveLatin1).
Local Abbreviation lexNumberLoop := (lexNumberLoop isDigitAboveLatin1).
Local Abbreviation runState := (runState isDigitAboveLatin1).
Local Abbreviation run := (run isDigitAboveLatin1).
Local Abbreviation lex := (lex isDigitAboveLatin1).
Local Abbreviation Parse := (Parse isDigitAboveLatin1).

Ltac bind_returns :=
  simpl mbind;
  change (outcome_bind _ _ ?k (Returns ?a)) with (k a); cbv beta iota.

(** What the lexer tests of a plain byte. *)
Lemma plainByte_tests (c : ascii) :
  plainByte c = true ->
  byteZ c < 128
  /\ (byteZ c =? eof) = false
  /\ IsDigit (byteZ c) = false
  /\ (byteZ c =? optionalLeftMetaRune) = false
  /\ (byteZ c =? optionalRightMetaRune) = false
  /\ (byteZ c =? orPatternMetaRune) = false.
Proof.
  unfold plainByte. intros H.
  repeat (apply andb_prop in H as [H ?]).
  repeat match goal with
         | H : negb _ = true |- _ => apply negb_true_iff in H
         end.
  assert (Hlt : byteZ c < 128) by lia.
  split; [exact Hlt |].
  split; [apply Z.eqb_neq; unfold eof, byteZ; lia |].
  split.
  { unfold pattern.IsDigit. destruct (byteZ c <=? 255) eqn:E; [| lia].
    assumption. }
  repeat split; apply Z.eqb_neq; intros E;
    match goal with
    | H : Ascii.eqb c ?x = false |- _ =>
        apply Ascii.eqb_neq in H; apply H;
        apply (PatternSpec.byteZ_inj c x); exact E
    end.
Qed.

(** [lexLiteral] passes plain bytes. *)
Lemma lexLiteralLoop_plain (s pre : str) (fuel : nat) (st : Z)
    (toks : list token) :
  forallb plainByte s = true ->
  lexLiteralLoop (length s + fuel) (mkLexer (pre ++ s) (len pre) st 1 toks) 0
  = lexLiteralLoop fuel
      (mkLexer (pre ++ s) (len pre + len s) st 1 toks) 0.
Proof.
  revert pre. induction s as [| c s IH]; intros pre H.
  - simpl. change (len []) with 0. rewrite Z.add_0_r. reflexivity.
  - simpl in H. apply andb_prop in H as [Hc Hs].
    destruct (plainByte_tests c Hc) as (Hlt & Heof & Hdig & Hl & Hr & Ho).
    change (length (c :: s) + fuel)%nat with (S (length s + fuel)).
    simpl pattern.lexLiteralLoop.
    rewrite PatternSpec.next_ascii by exact Hlt. bind_returns.
    rewrite Heof, Hl, Hr, Ho. cbn [andb Z.ltb Z.compare]. rewrite Hdig.
    replace (pre ++ c :: s) with ((pre ++ [c]) ++ s)
      by (rewrite <- app_assoc; reflexivity).
    replace (len pre + 1) with (len (pre ++ [c]))
      by (rewrite len_app; reflexivity).
    rewrite IH by exact Hs.
    f_equal. unfold mkLexer. f_equal.
    rewrite len_app, !len_cons. change (len []) with 0. lia.
Qed.

Lemma lex_plain (s : str) (fuel : nat) :
  s <> [] ->
  forallb plainByte s = true ->
  lex (length s + 4 + fuel) s
  = Returns [{| typ := tokenLiteral; val := s |};
             {| typ := tokenEOF; val := [] |}].
Proof.
  intros Hne Hs. unfold pattern.lex.
  destruct s as [| c s']; [congruence |]. set (s := c :: s') in *.
  assert (Hc : plainByte c = true).
  { simpl in Hs. apply andb_prop in Hs as [Hc _]. exact Hc. }
  destruct (plainByte_tests c Hc) as (Hlt & Heof & Hdig & Hl & Hr & Ho).
  replace (length s + 4 + fuel)%nat with (S (S (length s + S (S fuel))))
    by lia.
  (* to the literal *)
  rewrite (PatternSpec.run_step isDigitAboveLatin1 _ lexToPattern lexLiteral
             _ (mkLexer s 0 0 1 [])).
  2:{ unfold pattern.runState.
      pose proof (PatternSpec.next_ascii [] c s' 0 0 [] Hlt) as Hn.
      change (len []) with 0 in Hn. simpl app in Hn.
      unfold mkLexer in Hn. unfold s. rewrite Hn. bind_returns.
      rewrite Heof, Hdig, Hl, Hr, Ho. reflexivity. }
  (* the literal *)
  rewrite (PatternSpec.run_step isDigitAboveLatin1 _ lexLiteral lexToPattern
             _ (mkLexer s (len s) (len s) 1
                  [{| typ := tokenLiteral; val := s |}])).
  2:{ unfold pattern.runState.
      pose proof (lexLiteralLoop_plain s [] (S (S fuel)) 0 [] Hs) as Hloop.
      change (len []) with 0 in Hloop. simpl app in Hloop.
      rewrite Z.add_0_l in Hloop. rewrite Hloop.
      simpl pattern.lexLiteralLoop. rewrite PatternSpec.next_at_end.
      bind_returns. change (eof =? eof) with true. cbv iota.
      pose proof (PatternSpec.emit_middle [] s [] 1 [] tokenLiteral) as He.
      rewrite !app_nil_r in He. change (len []) with 0 in He.
      rewrite Z.add_0_l in He. simpl app in He. rewrite He. reflexivity. }
  (* the end *)
  replace (length s + S (S fuel))%nat with (S (length s + S fuel)) by lia.
  rewrite (PatternSpec.run_last isDigitAboveLatin1 _ lexToPattern _
             (mkLexer s (len s) (len s) 1
                ([{| typ := tokenLiteral; val := s |}]
                 ++ [{| typ := tokenEOF; val := [] |}]))).
  2:{ apply PatternSpec.lexToPattern_end. }
  reflexivity.
Qed.


(** X18. A pattern that is a plain text (bytes below 128, no digit, no
    parenthesis, no bar, and not empty) compiles, with fuel for its
    length and four steps, to the one literal of this text; [Validate]
    then accepts the text itself and no other input. Letters such as
    [n] and [x] and the signs [!] and [*] are plain where no digit
    stands before them. *)
Theorem plain_text_is_literal (s : str) (fuel : nat) :
  s <> [] ->
  forallb plainByte s = true ->
  (length s + 4 <= fuel)%nat ->
  Parse fuel s = Returns (inl [Literal s])
  /\ forall t, Validate [Literal s] t = Returns None <-> t = s.
Proof.
  intros Hne Hs Hf. split.
  - replace fuel with (length s + 4 + (fuel - length s - 4))%nat by lia.
    unfold pattern.Parse. rewrite lex_plain by assumption.
    bind_returns.
    replace (length s + 4 + (fuel - length s - 4))%nat
      with (S (S (length s + 2 + (fuel - length s - 4)))) by lia.
    reflexivity.
  - intros t. split.
    + intros H. destruct (HasPrefix t s) eqn:E.
      * apply HasPrefix_inv in E as [u ->].
        rewrite (PatternSpec.Validate_single (Literal s) (s ++ u) u) in H
          by (simpl; apply PatternSpec.LiteralValidatePartial_prefix).
        destruct (streq u []) eqn:Eu; [| discriminate H].
        apply streq_true in Eu. subst u. apply app_nil_r.
      * rewrite (PatternSpec.Validate_single_error (Literal s) t t
                   (ErrLiteral s)) in H
          by (simpl; apply PatternSpec.LiteralValidatePartial_no_prefix;
              exact E).
        discriminate H.
    + intros ->.
      rewrite (PatternSpec.Validate_single (Literal s) s [])
        by (simpl; rewrite <- (app_nil_r s) at 2;
            apply PatternSpec.LiteralValidatePartial_prefix).
      reflexivity.
Qed.

(** *** Tokens that the loop of [parsePattern] has no case for *)

Lemma next_tokens (l l' : lexer) (r : rune) :
  next l = Returns (l', r) -> tokens l' = tokens l.
Proof.
  unfold next. destruct (len (input l) <=? pos l); [intros [= <- _]; reflexivity |].
  destruct (sliceFrom (input l) (pos l)) as [tail | |]; simpl;
    try discriminate.
  destruct (DecodeRuneInString tail) as [r0 w]. intros [= <- _]. reflexivity.
Qed.

Lemma emit_tokens (l l' : lexer) (t : tokenType) :
  emit l t = Returns l' -> exists v, tokens l' = tokens l ++ [v].
Proof.
  unfold emit. destruct (slice (input l) (start l) (pos l)) as [v | |];
    simpl; try discriminate.
  intros [= <-]. eexists. reflexivity.
Qed.

(** The tokens sent stay sent: a state function only adds to them. *)
Definition addsTokens (l l' : lexer) : Prop :=
  exists more, tokens l' = tokens l ++ more.

Lemma addsTokens_refl (l l' : lexer) : tokens l' = tokens l -> addsTokens l l'.
Proof. intros H. exists []. rewrite app_nil_r. exact H. Qed.

Lemma addsTokens_trans (a b c : lexer) :
  addsTokens a b -> addsTokens b c -> addsTokens a c.
Proof.
  intros [m1 H1] [m2 H2]. exists (m1 ++ m2). rewrite H2, H1, app_assoc.
  reflexivity.
Qed.

Lemma addsTokens_emit (l0 l l' : lexer) (t : tokenType) :
  tokens l = tokens l0 -> emit l t = Returns l' -> addsTokens l0 l'.
Proof.
  intros H0 H. apply emit_tokens in H as [v Hv]. exists [v]. congruence.
Qed.

(** Take a call of [next], or of [emit] on a lexer with the same tokens,
    out of a bind that returned. *)
Ltac step_next H l1 r En :=
  match type of H with
  | (next ?l ≫= _) = Returns _ =>
      destruct (next l) as [[l1 r] | |] eqn:En;
      cbn [mbind outcome_bind] in H; try discriminate H;
      apply next_tokens in En
  end.

Ltac step_emit H l1 Ee :=
  match type of H with
  | (emit ?l ?t ≫= _) = Returns _ =>
      destruct (emit l t) as [l1 | |] eqn:Ee;
      cbn [mbind outcome_bind] in H; try discriminate H
  end.

Ltac finish_emit En Ee :=
  eapply addsTokens_emit; [| exact Ee]; cbn [tokens backup setPos];
  exact En.

Lemma lexNumberLoop_tokens (fuel : nat) :
  forall l l' nx,
    lexNumberLoop fuel l = Returns (l', nx) -> addsTokens l l'.
Proof.
  induction fuel as [| fuel IH]; intros l l' nx H; [discriminate |].
  cbn [pattern.lexNumberLoop] in H. step_next H l1 r En.
  destruct (IsDigit r).
  { apply IH in H. destruct H as [m Hm]. exists m. congruence. }
  destruct (r =? lineCountMetaRune).
  { step_emit H l2 Ee. injection H as <- _. finish_emit En Ee. }
  destruct (r =? charCountStrictMetaRune).
  { step_emit H l2 Ee. injection H as <- _. finish_emit En Ee. }
  destruct (isCharSetSpecifier r).
  { step_emit H l2 Ee. injection H as <- _. finish_emit En Ee. }
  injection H as <- _. apply addsTokens_refl. exact En.
Qed.

Lemma lexLiteralLoop_tokens (fuel : nat) :
  forall l l' digitsFound nx,
    lexLiteralLoop fuel l digitsFound = Returns (l', nx) -> addsTokens l l'.
Proof.
  induction fuel as [| fuel IH]; intros l l' digitsFound nx H;
    [discriminate |].
  cbn [pattern.lexLiteralLoop] in H. step_next H l1 r En.
  destruct (r =? eof).
  { step_emit H l2 Ee. injection H as <- _. finish_emit En Ee. }
  destruct (r =? optionalLeftMetaRune).
  { step_emit H l2 Ee. injection H as <- _. finish_emit En Ee. }
  destruct (r =? optionalRightMetaRune).
  { step_emit H l2 Ee. injection H as <- _. finish_emit En Ee. }
  destruct (r =? orPatternMetaRune).
  { step_emit H l2 Ee. injection H as <- _. finish_emit En Ee. }
  destruct ((0 <? digitsFound) && _).
  { step_emit H l2 Ee. injection H as <- _. finish_emit En Ee. }
  destruct (IsDigit r);
    apply IH in H; destruct H as [m Hm]; exists m; congruence.
Qed.

Lemma runState_tokens (fuel : nat) (state : stateFn) (l l' : lexer)
    (nx : option stateFn) :
  runState fuel state l = Returns (l', nx) -> addsTokens l l'.
Proof.
  destruct state; cbn [pattern.runState]; unfold lexMeta; intros H.
  - (* lexToPattern *)
    step_next H l1 r En.
    destruct (r =? eof).
    { step_emit H l2 Ee. injection H as <- _. finish_emit En Ee. }
    repeat match type of H with
           | (if ?b then _ else _) = _ => destruct b
           end;
      injection H as <- _; apply addsTokens_refl; exact En.
  - eapply lexNumberLoop_tokens. exact H.
  - eapply lexLiteralLoop_tokens. exact H.
  - step_next H l1 r En. step_emit H l2 Ee. injection H as <- _.
    finish_emit En Ee.
  - step_next H l1 r En. step_emit H l2 Ee. injection H as <- _.
    finish_emit En Ee.
  - step_next H l1 r En. step_emit H l2 Ee. injection H as <- _.
    finish_emit En Ee.
  - step_next H l1 r En. step_emit H l2 Ee. injection H as <- _.
    finish_emit En Ee.
  - step_next H l1 r En. step_emit H l2 Ee. injection H as <- _.
    finish_emit En Ee.
  - step_next H l1 r En. step_emit H l2 Ee. injection H as <- _.
    finish_emit En Ee.
Qed.

Lemma run_tokens (fuel : nat) :
  forall state l l', run fuel state l = Returns l' -> addsTokens l l'.
Proof.
  induction fuel as [| fuel IH]; intros state l l' H; [discriminate |].
  cbn [pattern.run] in H.
  destruct (runState fuel state l) as [[l1 nx] | |] eqn:Es;
    cbn [mbind outcome_bind] in H; try discriminate H.
  apply runState_tokens in Es.
  destruct nx as [state' |].
  - eapply addsTokens_trans; [exact Es |]. eapply IH. exact H.
  - injection H as <-. exact Es.
Qed.

(** A token that [parsePattern] has no case for is never passed: the
    loop goes round on it. *)
Definition noCase (t : tokenType) : bool :=
  match t with
  | tokenOptionalRightMeta | tokenLineCountMeta | tokenCharCountStrictMeta
  | tokenCharSet => true
  | _ => false
  end.

Lemma parsePattern_goes_round (fuel : nat) (p : parser)
    (Nodes : list ast.Node) (lineCountFound : bool) :
  noCase (typ (currToken p)) = true ->
  parsePattern fuel p Nodes lineCountFound = OutOfFuel.
Proof.
  intros H. induction fuel as [| fuel IH]; [reflexivity |].
  cbn [parsePattern]. destruct (typ (currToken p)); try discriminate H;
    exact IH.
Qed.

(** X19. A pattern that starts with a closing parenthesis never
    compiles: the lexer sends the parenthesis as its first token, the
    loop of [parsePattern] has no case for this token and does not
    pass it, so whatever the fuel, [Parse] does not return. The same
    holds for every sequence of tokens that starts with a token of a
    kind the loop has no case for. *)
Theorem closing_parenthesis_never_returns (rest : str) (fuel : nat) :
  (forall r, Parse fuel (")"%char :: rest) <> Returns r)
  /\ (forall t ts,
         noCase (typ t) = true -> parse fuel (t :: ts) = OutOfFuel).
Proof.
  assert (Hparse : forall t ts,
             noCase (typ t) = true -> parse fuel (t :: ts) = OutOfFuel).
  { intros t ts Ht. unfold parse.
    assert (Hp : pnext {| ptokens := t :: ts; currTokenIndex := -1;
                          currToken := zeroToken |}
                 = {| ptokens := t :: ts; currTokenIndex := 0;
                      currToken := t |}).
    { unfold pnext. cbn [currTokenIndex ptokens].
      destruct (-1 <? len0 (t :: ts) - 1) eqn:E; [reflexivity |].
      apply Z.ltb_ge in E. unfold len0 in E. simpl length in E. lia. }
    rewrite Hp. rewrite parsePattern_goes_round by exact Ht. reflexivity. }
  split; [| exact Hparse].
  intros res H. unfold pattern.Parse in H.
  destruct (pattern.lex isDigitAboveLatin1 fuel (")"%char :: rest))
    as [ts | |] eqn:El; cbn [mbind outcome_bind] in H; try discriminate H.
  assert (Hts : exists ts',
             ts = {| typ := tokenOptionalRightMeta; val := lit ")" |} :: ts').
  { unfold pattern.lex in El.
    destruct fuel as [| f1]; [discriminate El |].
    cbn [pattern.run pattern.runState] in El.
    pose proof (PatternSpec.next_ascii [] ")"%char rest 0 0 []
                  ltac:(vm_compute; reflexivity)) as Hn.
    change (len []) with 0 in Hn. simpl app in Hn. unfold mkLexer in Hn.
    rewrite Hn in El. cbn [mbind outcome_bind] in El.
    change (byteZ ")" =? eof) with false in El.
    change (pattern.IsDigit isDigitAboveLatin1 (byteZ ")")) with false in El.
    change (byteZ ")" =? optionalLeftMetaRune) with false in El.
    change (byteZ ")" =? optionalRightMetaRune) with true in El.
    cbn iota in El. cbn [mbind outcome_bind] in El.
    destruct f1 as [| f2]; [discriminate El |].
    cbn [pattern.run pattern.runState] in El. unfold lexMeta in El.
    unfold backup, setPos in El. cbn [pos width input start tokens] in El.
    change (0 + 1 - 1) with 0 in El.
    pose proof (PatternSpec.next_ascii [] ")"%char rest 0 1 []
                  ltac:(vm_compute; reflexivity)) as Hn1.
    change (len []) with 0 in Hn1. simpl app in Hn1. unfold mkLexer in Hn1.
    rewrite Hn1 in El. cbn [mbind outcome_bind] in El.
    pose proof (PatternSpec.emit_middle [] (lit ")") rest 1 []
                  tokenOptionalRightMeta) as He.
    change (len []) with 0 in He. change (len (lit ")")) with 1 in He.
    simpl app in He. unfold mkLexer in He. rewrite He in El.
    cbn [mbind outcome_bind] in El.
    destruct (pattern.run isDigitAboveLatin1 f2 lexToPattern _)
      as [l' | |] eqn:Er; cbn [mbind outcome_bind] in El;
      try discriminate El.
    apply run_tokens in Er as [more Hm]. cbn [tokens] in Hm.
    injection El as <-. rewrite Hm. eexists. reflexivity. }
  destruct Hts as [ts' ->].
  rewrite Hparse in H by reflexivity. discriminate H.
Qed.

End Compile.

Lemma plain_text_is_literal_witness :
  Parse (fun _ => false) 20 (lit "/FRF/n!x") = Returns (inl [Literal (lit "/FRF/n!x")])
  /\ Validate [Literal (lit "/FRF/n!x")] (lit "/FRF/n!x") = Returns None.
Proof.
  destruct (plain_text_is_literal (fun _ => false) (lit "/FRF/n!x") 20)
    as [H1 H2]; [discriminate | reflexivity | simpl; lia |].
  split; [exact H1 |]. apply H2. reflexivity.
Defined.

End CompileSpec.

(** ** The lexer of the pattern language on ASCII patterns *)

Module TokenSpec.

Import pattern GoFacts.
Import MatcherSpec(isAscii).

(** The text of the tokens, one after the other. *)
Definition tokensText (ts : list token) : str := concat (map val ts).

(** The order in which the state functions follow each other without
    reading a byte. *)
Definition rank (st : stateFn) : Z :=
  match st with
  | lexCharSet => 3
  | lexToPattern => 2
  | lexNumber => 1
  | _ => 0
  end.

Lemma rank_nonneg (st : stateFn) : 0 <= rank st.
Proof. destruct st; simpl; lia. Qed.

Lemma rank_le (st : stateFn) : rank st <= 3.
Proof. destruct st; simpl; lia. Qed.

Section Lexer.

Variable isDigitAboveLatin1 : rune -> bool.

Local Abbreviation IsDigit := (IsDigit isDigitAboveLatin1).
Local Abbreviation lexLiteralLoop := (lexLiteralLoop isDigitAboveLatin1).
Local Abbreviation lexNumberLoop := (lexNumberLoop isDigitAboveLatin1).
Local Abbreviation runState := (runState isDigitAboveLatin1).
Local Abbreviation run := (run isDigitAboveLatin1).
Local Abbreviation lex := (lex isDigitAboveLatin1).

Variable inp : str.
Hypothesis inp_ascii : forallb isAscii inp = true.

Ltac bind_returns :=
  simpl mbind;
  change (outcome_bind _ _ ?k (Returns ?a)) with (k a); cbv beta iota.

(** The byte at an offset, as the rune [next] returns for it. *)
Definition runeAt (i : Z) : rune := byteZ (nth (Z.to_nat i) inp "000"%char).

Definition isSpecial (r : rune) : bool :=
  (r =? optionalLeftMetaRune) || (r =? optionalRightMetaRune)
  || (r =? orPatternMetaRune).

(** What holds of the lexer between two state functions: the tokens sent
    are the input up to [start]. *)
Definition Inv (l : lexer) : Prop :=
  input l = inp
  /\ 0 <= start l <= pos l /\ pos l <= len inp
  /\ tokensText (tokens l) = take (Z.to_nat (start l)) inp.

(** What holds when a state function is entered. *)
Definition entry (st : stateFn) (l : lexer) : Prop :=
  match st with
  | lexToPattern | lexCharSet => start l = pos l
  | lexNumber =>
      start l = pos l /\ pos l < len inp /\ IsDigit (runeAt (pos l)) = true
  | lexLiteral =>
      pos l < len inp
      /\ (start l < pos l
          \/ (IsDigit (runeAt (pos l)) = false
              /\ isSpecial (runeAt (pos l)) = false)
          \/ (pos l = len inp - 1 /\ IsDigit (runeAt (pos l)) = true))
  | _ => start l = pos l /\ pos l < len inp
  end.

Definition weight (st : stateFn) (l : lexer) : Z :=
  4 * ((len inp - start l) + (len inp - pos l)) + rank st.

Lemma runeAt_range (i : Z) : 0 <= i < len inp -> 0 <= runeAt i < 128.
Proof.
  intros Hi. unfold runeAt.
  assert (Hin : In (nth (Z.to_nat i) inp "000"%char) inp).
  { apply nth_In. unfold len in Hi. lia. }
  pose proof (proj1 (forallb_forall _ _) inp_ascii _ Hin) as Hc.
  unfold isAscii in Hc. apply Z.ltb_lt in Hc.
  split; [unfold byteZ; lia | exact Hc].
Qed.

Lemma next_inside (l : lexer) :
  input l = inp -> 0 <= pos l < len inp ->
  next l = Returns ({| input := inp; pos := pos l + 1; start := start l;
                       width := 1; tokens := tokens l |}, runeAt (pos l)).
Proof.
  intros Hi Hp. unfold next. rewrite Hi.
  destruct (len inp <=? pos l) eqn:E; [apply Z.leb_le in E; lia |].
  rewrite sliceFrom_in_range by lia. bind_returns.
  destruct (inp !! Z.to_nat (pos l)) as [c |] eqn:Hc.
  2:{ apply lookup_ge_None in Hc. unfold len in Hp. lia. }
  rewrite (drop_S _ _ _ Hc).
  pose proof (runeAt_range (pos l) Hp) as Hr.
  unfold runeAt in *. rewrite (nth_lookup_Some _ _ _ _ Hc) in *.
  unfold DecodeRuneInString.
  destruct (byteZ c <? 128) eqn:E1; [reflexivity |].
  apply Z.ltb_ge in E1. lia.
Qed.

Lemma next_outside (l : lexer) :
  input l = inp -> len inp <= pos l -> next l = Returns (l, eof).
Proof.
  intros Hi Hp. unfold next. rewrite Hi.
  destruct (len inp <=? pos l) eqn:E; [reflexivity |].
  apply Z.leb_gt in E. lia.
Qed.

Lemma emit_Inv (l : lexer) (t : tokenType) :
  Inv l ->
  exists l', emit l t = Returns l' /\ Inv l'
             /\ start l' = pos l /\ pos l' = pos l
             /\ exists v, tokens l' = tokens l ++ [{| typ := t; val := v |}]
                          /\ (start l = pos l -> v = []).
Proof.
  intros (Hi & Hs & Hp & Ht). unfold emit. rewrite Hi.
  rewrite slice_in_range by lia. bind_returns.
  eexists. split; [reflexivity |].
  split; [| split; [reflexivity | split; [reflexivity |]]].
  - unfold Inv. cbn [input start pos tokens].
    split; [reflexivity |]. split; [lia |]. split; [lia |].
    unfold tokensText in *. rewrite map_app, concat_app. cbn [map concat val].
    rewrite app_nil_r, Ht, take_take_drop. f_equal. lia.
  - cbn [tokens]. eexists. split; [reflexivity |].
    intros E. rewrite E, Z.sub_diag. reflexivity.
Qed.

Lemma inside_not_eof (i : Z) :
  0 <= i < len inp -> (runeAt i =? eof) = false.
Proof.
  intros Hi. pose proof (runeAt_range i Hi). apply Z.eqb_neq.
  unfold eof. lia.
Qed.

Lemma Inv_moved (l : lexer) (p w : Z) :
  Inv l -> start l <= p <= len inp ->
  Inv {| input := inp; pos := p; start := start l; width := w;
         tokens := tokens l |}.
Proof.
  intros (Hi & Hs & Hp & Ht) Hq. unfold Inv. cbn [input start pos tokens].
  repeat split; try lia. exact Ht.
Qed.

(** [lexNumber] after its first digit. *)
Lemma lexNumberLoop_ok (fuel : nat) : forall l : lexer,
  Inv l -> width l = 1 -> start l < pos l ->
  IsDigit (runeAt (pos l - 1)) = true ->
  len inp - pos l + 1 <= Z.of_nat fuel ->
  exists l' nx,
    lexNumberLoop fuel l = Returns (l', Some nx)
    /\ Inv l' /\ entry nx l'
    /\ ((nx = lexLiteral /\ start l' = start l /\ pos l - 1 <= pos l')
        \/ (nx <> lexLiteral /\ start l' = pos l' /\ pos l <= pos l')).
Proof.
  induction fuel as [| fuel IH]; intros l HI Hw Hsp Hd Hf.
  { destruct HI as (_ & _ & ? & _). lia. }
  pose proof HI as (Hi & Hs & Hp & Ht).
  simpl pattern.lexNumberLoop.
  destruct (Z_lt_le_dec (pos l) (len inp)) as [Hlt | Hge].
  - rewrite next_inside by (auto; lia). bind_returns.
    set (l1 := {| input := inp; pos := pos l + 1; start := start l;
                  width := 1; tokens := tokens l |}).
    assert (Hb : backup l1
                 = {| input := inp; pos := pos l; start := start l;
                      width := 1; tokens := tokens l |}).
    { unfold backup, setPos, l1. cbn [input pos start width tokens].
      f_equal. lia. }
    assert (HIb : Inv (backup l1)).
    { rewrite Hb. apply Inv_moved; [exact HI | lia]. }
    destruct (IsDigit (runeAt (pos l))) eqn:Ed.
    + destruct (IH l1) as (l' & nx & He & HI' & Hen & Hor).
      * apply Inv_moved; [exact HI | lia].
      * reflexivity.
      * unfold l1. cbn [start pos]. lia.
      * unfold l1. cbn [pos]. replace (pos l + 1 - 1) with (pos l) by lia. exact Ed.
      * unfold l1. cbn [pos]. lia.
      * exists l', nx. split; [exact He |]. split; [exact HI' |].
        split; [exact Hen |]. unfold l1 in Hor. cbn [start pos] in Hor.
        destruct Hor as [(? & ? & ?) | (? & ? & ?)]; [left | right];
          repeat split; auto; lia.
    + destruct (runeAt (pos l) =? lineCountMetaRune) eqn:E1;
        [| destruct (runeAt (pos l) =? charCountStrictMetaRune) eqn:E2;
           [| destruct (isCharSetSpecifier (runeAt (pos l))) eqn:E3]].
      1-3: match goal with
           | |- context [emit ?b ?t] =>
               destruct (emit_Inv b t HIb)
                 as (l' & He & HI' & Hs' & Hp' & _)
           end;
           rewrite He; bind_returns; rewrite Hb in Hs', Hp';
           cbn [pos] in Hs', Hp';
           eexists l', _; split; [reflexivity |]; split; [exact HI' |];
           split; [cbn [entry]; first [lia | split; lia] |];
           right; split; [discriminate | split; lia].
      exists (backup l1), lexLiteral. split; [reflexivity |].
      split; [exact HIb |]. rewrite Hb. cbn [entry start pos].
      split; [split; [lia | left; lia] |]. left. repeat split; lia.
  - rewrite next_outside by (auto; lia). bind_returns.
    assert (Hb : backup l
                 = {| input := inp; pos := len inp - 1; start := start l;
                      width := 1; tokens := tokens l |}).
    { unfold backup, setPos. rewrite Hw, Hi. f_equal. lia. }
    exists (backup l), lexLiteral. split; [reflexivity |].
    rewrite Hb. split; [apply Inv_moved; [exact HI | lia] |].
    cbn [entry start pos].
    split.
    + split; [lia |]. right. right. split; [reflexivity |].
      replace (len inp - 1) with (pos l - 1) by lia. exact Hd.
    + left. repeat split; lia.
Qed.

(** [lexLiteral] is entered behind the start of its token, at a byte it
    keeps, or at the last digit of the input. *)
Definition mayEnter (s0 p0 : Z) : Prop :=
  s0 < p0
  \/ (IsDigit (runeAt p0) = false /\ isSpecial (runeAt p0) = false)
  \/ (p0 = len inp - 1 /\ IsDigit (runeAt p0) = true).

Lemma special_no_digit (r : rune) : isSpecial r = true -> IsDigit r = false.
Proof.
  unfold isSpecial. intros H.
  apply orb_prop in H as [H | H]; [apply orb_prop in H as [H | H] |];
    apply Z.eqb_eq in H; subst r; reflexivity.
Qed.

Lemma special_progress (s0 p0 q : Z) :
  mayEnter s0 p0 -> p0 <= q -> isSpecial (runeAt q) = true ->
  s0 < q \/ p0 < q.
Proof.
  intros He Hq Hs. destruct (Z.eq_dec p0 q) as [-> | Hne]; [| right; lia].
  destruct He as [H | [[_ H] | [_ H]]]; [left; exact H | congruence |].
  rewrite (special_no_digit _ Hs) in H. discriminate.
Qed.

Lemma digit_progress (s0 p0 q : Z) :
  mayEnter s0 p0 -> p0 <= q -> q < len inp - 1 ->
  IsDigit (runeAt q) = true -> s0 < q \/ p0 < q.
Proof.
  intros He Hq Hl Hd. destruct (Z.eq_dec p0 q) as [-> | Hne]; [| right; lia].
  destruct He as [H | [[H _] | [H _]]]; [left; exact H | congruence | lia].
Qed.

(** [lexLiteral], [digitsFound] digits behind the position. *)
Lemma lexLiteralLoop_ok (s0 p0 : Z) (fuel : nat) : forall (l : lexer) (d : Z),
  Inv l -> start l = s0 -> s0 <= p0 -> p0 < len inp -> mayEnter s0 p0 ->
  0 <= d -> p0 <= pos l - d ->
  (forall i, pos l - d <= i < pos l -> IsDigit (runeAt i) = true) ->
  len inp - pos l + 1 <= Z.of_nat fuel ->
  exists l' nx,
    lexLiteralLoop fuel l d = Returns (l', Some nx)
    /\ Inv l' /\ entry nx l' /\ start l' = pos l' /\ p0 <= pos l'
    /\ (s0 < pos l' \/ p0 < pos l') /\ rank nx <= 2.
Proof.
  induction fuel as [| fuel IH]; intros l d HI Hs0 Hsp Hpl He Hd0 Hpd Hds Hf.
  { destruct HI as (_ & _ & ? & _). lia. }
  pose proof HI as (Hi & Hs & Hp & Ht).
  simpl pattern.lexLiteralLoop.
  destruct (Z_lt_le_dec (pos l) (len inp)) as [Hlt | Hge].
  - rewrite next_inside by (auto; lia). bind_returns.
    rewrite inside_not_eof by lia.
    set (l1 := {| input := inp; pos := pos l + 1; start := start l;
                  width := 1; tokens := tokens l |}).
    assert (HI1 : Inv l1) by (apply Inv_moved; [exact HI | lia]).
    assert (Hb : backup l1
                 = {| input := inp; pos := pos l; start := start l;
                      width := 1; tokens := tokens l |}).
    { unfold backup, setPos, l1. cbn [input pos start width tokens].
      f_equal. lia. }
    assert (HIb : Inv (backup l1)).
    { rewrite Hb. apply Inv_moved; [exact HI | lia]. }
    destruct (runeAt (pos l) =? optionalLeftMetaRune) eqn:E1;
      [| destruct (runeAt (pos l) =? optionalRightMetaRune) eqn:E2;
         [| destruct (runeAt (pos l) =? orPatternMetaRune) eqn:E3]].
    1-3: destruct (emit_Inv (backup l1) tokenLiteral HIb)
           as (l2 & Hem & HI2 & Hs2 & Hp2 & _);
         rewrite Hem; bind_returns; rewrite Hb in Hs2, Hp2;
         cbn [pos] in Hs2, Hp2;
         eexists l2, _; split; [reflexivity |]; split; [exact HI2 |];
         split; [cbn [entry]; lia |]; split; [lia |]; split; [lia |];
         split; [| cbn [rank]; lia];
         rewrite Hp2; apply (special_progress s0 p0);
           [exact He | lia
           | unfold isSpecial; rewrite ?E1, ?E2, ?E3; reflexivity].
    destruct ((0 <? d)
              && ((runeAt (pos l) =? charCountStrictMetaRune)
                  || isCharSetSpecifier (runeAt (pos l))
                  || (runeAt (pos l) =? lineCountMetaRune))) eqn:E4.
    + apply andb_prop in E4 as [E4 _]. apply Z.ltb_lt in E4.
      match goal with
      | |- context [emit ?b tokenLiteral] => set (l2 := b)
      end.
      assert (Hl2 : l2 = {| input := inp; pos := pos l - d; start := start l;
                            width := 1; tokens := tokens l |}).
      { unfold l2, setPos, l1. cbn [input pos start width tokens].
        f_equal. lia. }
      assert (HI2 : Inv l2).
      { rewrite Hl2. apply Inv_moved; [exact HI | lia]. }
      destruct (emit_Inv l2 tokenLiteral HI2)
        as (l' & Hem & HI' & Hs' & Hp' & _).
      rewrite Hem. bind_returns. rewrite Hl2 in Hs', Hp'.
      cbn [pos] in Hs', Hp'.
      assert (Hdig : IsDigit (runeAt (pos l - d)) = true)
        by (apply Hds; lia).
      exists l', lexNumber. split; [reflexivity |]. split; [exact HI' |].
      split; [cbn [entry]; rewrite Hp'; repeat split; [lia | lia | exact Hdig] |].
      split; [lia |]. split; [lia |]. split; [| cbn [rank]; lia].
      rewrite Hp'. apply (digit_progress s0 p0); [exact He | lia | lia |].
      exact Hdig.
    + clear E4. destruct (IsDigit (runeAt (pos l))) eqn:Ed.
      * destruct (IH l1 (d + 1)) as (l' & nx & Hr & Hrest); try assumption.
        -- lia.
        -- unfold l1. cbn [pos]. lia.
        -- unfold l1. cbn [pos]. intros i Hi'.
           destruct (Z.eq_dec i (pos l)) as [-> | Hne]; [exact Ed |].
           apply Hds. lia.
        -- unfold l1. cbn [pos]. lia.
        -- exists l', nx. split; [exact Hr | exact Hrest].
      * destruct (IH l1 0) as (l' & nx & Hr & Hrest); try assumption.
        -- lia.
        -- unfold l1. cbn [pos]. lia.
        -- intros i Hi'. lia.
        -- unfold l1. cbn [pos]. lia.
        -- exists l', nx. split; [exact Hr | exact Hrest].
  - rewrite next_outside by (auto; lia). bind_returns.
    destruct (emit_Inv l tokenLiteral HI) as (l' & Hem & HI' & Hs' & Hp' & _).
    rewrite Hem. bind_returns.
    exists l', lexToPattern. split; [reflexivity |]. split; [exact HI' |].
    split; [cbn [entry]; lia |]. split; [lia |]. split; [lia |].
    split; [right; lia | cbn [rank]; lia].
Qed.

(** A state function that reads one byte and sends it. *)
Lemma lexMeta_ok (l : lexer) (t : tokenType) (nx : stateFn) :
  Inv l -> start l = pos l -> pos l < len inp ->
  exists l',
    lexMeta l t nx = Returns (l', Some nx)
    /\ Inv l' /\ start l' = pos l' /\ pos l' = pos l + 1.
Proof.
  intros HI Hs Hp. pose proof HI as (Hi & Hb & _ & _).
  unfold lexMeta. rewrite next_inside by (auto; lia). bind_returns.
  match goal with
  | |- context [emit ?b t] =>
      destruct (emit_Inv b t) as (l' & Hem & HI' & Hs' & Hp' & _)
  end.
  { apply Inv_moved; [exact HI | lia]. }
  rewrite Hem. bind_returns. cbn [pos] in Hs', Hp'.
  exists l'. split; [reflexivity |]. split; [exact HI' |]. lia.
Qed.

(** One state function: it returns, keeps the invariant, and either
    stops at the end of the input with the token [tokenEOF] sent, or
    hands over to a state function of less weight. *)
Lemma runState_ok (st : stateFn) (l : lexer) (fuel : nat) :
  Inv l -> entry st l -> len inp + 2 <= Z.of_nat fuel ->
  exists l' nx,
    runState fuel st l = Returns (l', nx)
    /\ Inv l'
    /\ match nx with
       | None =>
           start l' = len inp
           /\ exists ts, tokens l' = ts ++ [{| typ := tokenEOF; val := [] |}]
       | Some st' => entry st' l' /\ weight st' l' < weight st l
       end.
Proof.
  intros HI Hen Hf. pose proof HI as (Hi & Hs & Hp & Ht).
  assert (Hmeta : forall t nx,
            start l = pos l -> pos l < len inp ->
            (entry nx l <-> start l = pos l) -> rank nx <= 3 ->
            (forall l', entry nx l' <-> start l' = pos l') ->
            exists l' nx',
              lexMeta l t nx = Returns (l', nx')
              /\ Inv l'
              /\ match nx' with
                 | None =>
                     start l' = len inp
                     /\ exists ts,
                          tokens l' = ts ++ [{| typ := tokenEOF; val := [] |}]
                 | Some st' => entry st' l' /\ weight st' l' < weight st l
                 end).
  { intros t nx Hsp Hpl _ Hr Hnx.
    destruct (lexMeta_ok l t nx HI Hsp Hpl) as (l' & He & HI' & Hs' & Hp').
    exists l', (Some nx). split; [exact He |]. split; [exact HI' |].
    split; [apply Hnx; exact Hs' |].
    unfold weight. pose proof (rank_nonneg st). lia. }
  destruct st; cbn [entry] in Hen.
  - (* lexToPattern *)
    cbn [pattern.runState].
    destruct (Z_lt_le_dec (pos l) (len inp)) as [Hlt | Hge].
    + rewrite next_inside by (auto; lia). bind_returns.
      rewrite inside_not_eof by lia.
      match goal with
      | |- context [Returns (backup ?b, _)] => set (l1 := b)
      end.
      assert (Hb : backup l1
                   = {| input := inp; pos := pos l; start := start l;
                        width := 1; tokens := tokens l |}).
      { unfold backup, setPos, l1. cbn [input pos start width tokens].
        f_equal. lia. }
      assert (HIb : Inv (backup l1)).
      { rewrite Hb. apply Inv_moved; [exact HI | lia]. }
      rewrite Hb in *.
      destruct (IsDigit (runeAt (pos l))) eqn:Ed;
        [| destruct (runeAt (pos l) =? optionalLeftMetaRune) eqn:E1;
           [| destruct (runeAt (pos l) =? optionalRightMetaRune) eqn:E2;
              [| destruct (runeAt (pos l) =? orPatternMetaRune) eqn:E3]]];
        eexists _, _; (split; [reflexivity |]); (split; [exact HIb |]);
        cbn [entry start pos]; unfold weight; cbn [start pos rank];
        (split; [| lia]).
      * repeat split; [lia | lia | exact Ed].
      * split; lia.
      * split; lia.
      * split; lia.
      * split; [lia |]. right. left. split; [exact Ed |].
        unfold isSpecial. rewrite E1, E2, E3. reflexivity.
    + rewrite next_outside by (auto; lia). bind_returns.
      destruct (emit_Inv l tokenEOF HI)
        as (l' & Hem & HI' & Hs' & Hp' & v & Hv & Hv0).
      rewrite Hem. bind_returns. exists l', None.
      split; [reflexivity |]. split; [exact HI' |].
      split; [lia |]. exists (tokens l). rewrite Hv, Hv0 by exact Hen.
      reflexivity.
  - (* lexNumber *)
    destruct Hen as (Hsp & Hpl & Hd). cbn [pattern.runState].
    destruct fuel as [| fuel]; [pose proof (len_nonneg inp); lia |].
    simpl pattern.lexNumberLoop.
    rewrite next_inside by (auto; lia). bind_returns. rewrite Hd.
    match goal with
    | |- context [lexNumberLoop fuel ?b] => set (l1 := b)
    end.
    destruct (lexNumberLoop_ok fuel l1) as (l' & nx & Hr & HI' & Hen' & Hor).
    { apply Inv_moved; [exact HI | lia]. }
    { reflexivity. }
    { unfold l1. cbn [start pos]. lia. }
    { unfold l1. cbn [pos]. replace (pos l + 1 - 1) with (pos l) by lia.
      exact Hd. }
    { unfold l1. cbn [pos]. lia. }
    exists l', (Some nx). split; [exact Hr |]. split; [exact HI' |].
    split; [exact Hen' |]. unfold weight. unfold l1 in Hor.
    cbn [start pos] in Hor. pose proof (rank_le nx).
    destruct Hor as [(-> & Hs' & Hp') | (_ & Hs' & Hp')];
      cbn [rank]; lia.
  - (* lexLiteral *)
    destruct Hen as (Hpl & Hme). cbn [pattern.runState].
    destruct (lexLiteralLoop_ok (start l) (pos l) fuel l 0)
      as (l' & nx & Hr & HI' & Hen' & Hs' & Hp' & Hpr & Hrk);
      try first [assumption | reflexivity | lia].
    exists l', (Some nx). split; [exact Hr |]. split; [exact HI' |].
    split; [exact Hen' |]. unfold weight. cbn [rank].
    pose proof (rank_nonneg nx). lia.
  - (* lexOptionalLeftMeta *)
    destruct Hen as (Hsp & Hpl).
    apply (Hmeta tokenOptionalLeftMeta lexToPattern Hsp Hpl);
      [reflexivity | cbn [rank]; lia | reflexivity].
  - destruct Hen as (Hsp & Hpl).
    apply (Hmeta tokenOptionalRightMeta lexToPattern Hsp Hpl);
      [reflexivity | cbn [rank]; lia | reflexivity].
  - destruct Hen as (Hsp & Hpl).
    apply (Hmeta tokenOrPatternMeta lexToPattern Hsp Hpl);
      [reflexivity | cbn [rank]; lia | reflexivity].
  - destruct Hen as (Hsp & Hpl).
    apply (Hmeta tokenLineCountMeta lexToPattern Hsp Hpl);
      [reflexivity | cbn [rank]; lia | reflexivity].
  - destruct Hen as (Hsp & Hpl).
    apply (Hmeta tokenCharCountStrictMeta lexCharSet Hsp Hpl);
      [reflexivity | cbn [rank]; lia | reflexivity].
  - (* lexCharSet *)
    destruct (Z_lt_le_dec (pos l) (len inp)) as [Hlt | Hge].
    + apply (Hmeta tokenCharSet lexToPattern Hen Hlt);
        [reflexivity | cbn [rank]; lia | reflexivity].
    + cbn [pattern.runState].
      rewrite next_outside by (auto; lia). bind_returns.
      destruct (emit_Inv l tokenCharSet HI) as (l' & Hem & HI' & Hs' & Hp' & _).
      rewrite Hem. bind_returns. exists l', (Some lexToPattern).
      split; [reflexivity |]. split; [exact HI' |].
      cbn [entry]. split; [lia |]. unfold weight. cbn [rank]. lia.
Qed.

(** The state functions, one after the other, up to the nil state. *)
Lemma run_ok (fuel : nat) : forall (st : stateFn) (l : lexer),
  Inv l -> entry st l -> weight st l + len inp + 3 <= Z.of_nat fuel ->
  exists l',
    run fuel st l = Returns l'
    /\ Inv l' /\ start l' = len inp
    /\ exists ts, tokens l' = ts ++ [{| typ := tokenEOF; val := [] |}].
Proof.
  induction fuel as [| fuel IH]; intros st l HI Hen Hf.
  { pose proof HI as (_ & ? & ? & _). pose proof (rank_nonneg st).
    unfold weight in Hf. lia. }
  assert (Hw : 0 <= weight st l).
  { pose proof HI as (_ & ? & ? & _). pose proof (rank_nonneg st).
    unfold weight. lia. }
  simpl pattern.run.
  destruct (runState_ok st l fuel HI Hen) as (l' & nx & Hr & HI' & Hnx);
    [lia |].
  rewrite Hr. bind_returns. destruct nx as [st' |].
  - destruct Hnx as (Hen' & Hlt). apply IH; [exact HI' | exact Hen' | lia].
  - destruct Hnx as (Hs' & Hts). exists l'. auto.
Qed.

End Lexer.

(** X20. On a pattern of bytes below 128 the lexer comes to its end, never
    slices out of range, and loses nothing: the last token is [tokenEOF]
    with the empty text, and the texts of the tokens before it, one after
    the other, are the pattern. *)
Theorem lexer_tokens_spell_pattern (isDigitAboveLatin1 : rune -> bool)
    (inp : str) (fuel : nat) :
  forallb isAscii inp = true ->
  (9 * length inp + 5 <= fuel)%nat ->
  exists ts,
    lex isDigitAboveLatin1 fuel inp
    = Returns (ts ++ [{| typ := tokenEOF; val := [] |}])
    /\ tokensText ts = inp.
Proof.
  intros Ha Hf. unfold lex.
  set (l0 := {| input := inp; pos := 0; start := 0; width := 0;
                tokens := [] |}).
  pose proof (len_nonneg inp) as Hl.
  destruct (run_ok isDigitAboveLatin1 inp Ha fuel lexToPattern l0)
    as (l' & Hr & HI' & Hs' & ts & Hts).
  - unfold Inv, l0. cbn [input start pos tokens]. repeat split; try lia.
  - reflexivity.
  - unfold weight, l0. cbn [start pos rank]. unfold len. lia.
  - rewrite Hr. simpl mbind.
    change (outcome_bind _ _ ?k (Returns ?a)) with (k a). cbv beta.
    exists ts. rewrite Hts. split; [reflexivity |].
    destruct HI' as (_ & _ & _ & Ht). rewrite Hts, Hs' in Ht.
    unfold tokensText in *. rewrite map_app, concat_app in Ht.
    cbn [map concat val] in Ht. rewrite !app_nil_r in Ht. rewrite Ht.
    apply take_ge. unfold len. lia.
Qed.

Lemma lexer_tokens_spell_pattern_witness :
  exists ts,
    lex (fun _ => false) 130 (lit "4!c(/3n)|2*5x")
    = Returns (ts ++ [{| typ := tokenEOF; val := [] |}])
    /\ tokensText ts = lit "4!c(/3n)|2*5x".
Proof.
  apply (lexer_tokens_spell_pattern (fun _ => false)
           (lit "4!c(/3n)|2*5x") 130).
  - reflexivity.
  - vm_compute. lia.
Defined.

End TokenSpec.

(** ** The block structure from the wire: the lexer on well-formed blocks,
    and the parser behind it *)

Module WireSpec.

Import message GoFacts.
Import MatcherSpec(isAscii).
Import StreamSpec(lineAfter).

(** *** Fuel *)

Lemma lexText_mono (t : itemType) (nextOf : list (str * stateFn))
    (fuel : nat) :
  forall (fuel' : nat) (l : lexer) r,
    lexText fuel l t nextOf = Returns r -> (fuel <= fuel')%nat ->
    lexText fuel' l t nextOf = Returns r.
Proof.
  induction fuel as [| fuel IH]; intros fuel' l r H Hf; [discriminate |].
  destruct fuel' as [| fuel']; [lia |].
  cbn [lexText] in *.
  destruct (findSuffix (buff l) nextOf) as [[suf st] |]; [exact H |].
  destruct (next l) as [l1 c]. destruct (c =? eof); [exact H |].
  apply IH; [exact H | lia].
Qed.

Lemma runState_mono (fuel fuel' : nat) (s : stateFn) (l : lexer) r :
  runState fuel s l = Returns r -> (fuel <= fuel')%nat ->
  runState fuel' s l = Returns r.
Proof.
  destruct s; cbn [runState]; intros H Hf; try exact H;
    eapply lexText_mono; eauto.
Qed.

Lemma lexRun_mono (fuel : nat) :
  forall (fuel' : nat) (s : stateFn) (l : lexer) r,
    lexRun fuel s l = Returns r -> (fuel <= fuel')%nat ->
    lexRun fuel' s l = Returns r.
Proof.
  induction fuel as [| fuel IH]; intros fuel' s l r H Hf; [discriminate |].
  destruct fuel' as [| fuel']; [lia |].
  cbn [lexRun] in *.
  destruct (runState fuel s l) as [[l1 nx] | |] eqn:E;
    cbn [mbind outcome_bind] in H; try discriminate.
  rewrite (runState_mono fuel fuel' s l _ E) by lia.
  cbn [mbind outcome_bind].
  destruct nx as [s' |]; [apply IH; [exact H | lia] | exact H].
Qed.

(** From [s] with [l] the run comes to [s'] with [l']: what the run
    returns from there, it returns from here. *)
Definition leadsTo (s : stateFn) (l : lexer) (s' : stateFn) (l' : lexer)
    : Prop :=
  forall fuel r, lexRun fuel s' l' = Returns r ->
                 exists fuel', lexRun fuel' s l = Returns r.

Lemma leadsTo_refl (s : stateFn) (l : lexer) : leadsTo s l s l.
Proof. intros fuel r H. exists fuel. exact H. Qed.

Lemma leadsTo_trans (s1 s2 s3 : stateFn) (l1 l2 l3 : lexer) :
  leadsTo s1 l1 s2 l2 -> leadsTo s2 l2 s3 l3 -> leadsTo s1 l1 s3 l3.
Proof.
  intros H12 H23 fuel r H. destruct (H23 fuel r H) as [f2 H2].
  exact (H12 f2 r H2).
Qed.

Lemma leadsTo_step (s s' : stateFn) (l l' : lexer) (f0 : nat) :
  (forall fuel, (f0 <= fuel)%nat ->
                runState fuel s l = Returns (l', Some s')) ->
  leadsTo s l s' l'.
Proof.
  intros H fuel r Hr. exists (S (max f0 fuel)). cbn [lexRun].
  rewrite H by lia. cbn [mbind outcome_bind].
  eapply lexRun_mono; [exact Hr | lia].
Qed.

(** *** Segments *)

(** The text of an item with its type; the line follows from the text
    read so far. *)
Definition segment : Type := itemType * str.

Definition segsText (segs : list segment) : str := concat (map snd segs).

Fixpoint emitAll (line : Z) (segs : list segment) : list item :=
  match segs with
  | [] => []
  | (t, s) :: rest =>
      {| ityp := t; ival := s; iline := lineAfter line s |}
      :: emitAll (lineAfter line s) rest
  end.

Lemma lineAfter_app (line : Z) (a b : str) :
  lineAfter line (a ++ b) = lineAfter (lineAfter line a) b.
Proof. unfold lineAfter. apply fold_left_app. Qed.

Lemma segsText_app (a b : list segment) :
  segsText (a ++ b) = segsText a ++ segsText b.
Proof. unfold segsText. rewrite map_app, concat_app. reflexivity. Qed.

Lemma emitAll_app (line : Z) (a b : list segment) :
  emitAll line (a ++ b)
  = emitAll line a ++ emitAll (lineAfter line (segsText a)) b.
Proof.
  revert line. induction a as [| [t s] a IH]; intros line; [reflexivity |].
  cbn [app emitAll]. rewrite IH. unfold segsText. cbn [map concat snd].
  rewrite lineAfter_app. reflexivity.
Qed.

Definition noNewline (s : str) : bool :=
  forallb (fun c => negb (byteZ c =? 10)) s.

Lemma lineAfter_noNewline (line : Z) (s : str) :
  noNewline s = true -> lineAfter line s = line.
Proof.
  revert line. induction s as [| c s IH]; intros line H; [reflexivity |].
  simpl in H. apply andb_prop in H as [Hc Hs].
  apply negb_true_iff in Hc. unfold lineAfter in *. simpl. rewrite Hc.
  apply IH, Hs.
Qed.

(** The lexer after the segments [segs], with [b] in its buffer and
    [rest] to read. *)
Definition after (segs : list segment) (b rest : str) : lexer :=
  {| input := rest; buff := b; items := emitAll 1 segs;
     line := lineAfter 1 (segsText segs) |}.

Lemma after_snoc (segs : list segment) (t : itemType) (m b rest : str) :
  after (segs ++ [(t, m)]) b rest
  = {| input := rest; buff := b;
       items := emitAll 1 segs
                ++ [{| ityp := t; ival := m;
                       iline := lineAfter (lineAfter 1 (segsText segs)) m |}];
       line := lineAfter (lineAfter 1 (segsText segs)) m |}.
Proof.
  unfold after. rewrite emitAll_app, segsText_app, lineAfter_app.
  cbn [emitAll]. unfold segsText. cbn [map concat snd].
  rewrite app_nil_r. reflexivity.
Qed.

(** *** One text *)

(** [c] is the last byte of a key of the table. *)
Definition endsKey (nextOf : list (str * stateFn)) (c : ascii) : bool :=
  existsb (fun p => match rev (fst p) with
                    | [] => true
                    | c' :: _ => Ascii.eqb c c'
                    end) nextOf.

Definition keyFree (nextOf : list (str * stateFn)) (s : str) : bool :=
  forallb (fun c => negb (endsKey nextOf c)) s.

Lemma findSuffix_not_key (b : str) (c : ascii)
    (nextOf : list (str * stateFn)) :
  endsKey nextOf c = false -> findSuffix (b ++ [c]) nextOf = None.
Proof.
  induction nextOf as [| [k st] rest IH]; simpl; [reflexivity |].
  intros H. apply orb_false_elim in H as [H1 H2].
  unfold HasSuffix. rewrite rev_app_distr. simpl.
  destruct (rev k) as [| c' r]; [discriminate |].
  simpl. rewrite H1. simpl. apply IH, H2.
Qed.

Lemma lexText_stops (t : itemType) (nextOf : list (str * stateFn))
    (more : str) :
  forall (fuel : nat) (l : lexer) (rest pre suf : str) (st : stateFn),
    input l = more ++ rest ->
    forallb isAscii more = true ->
    (forall m1 m2, more = m1 ++ m2 -> m2 <> [] ->
                   findSuffix (buff l ++ m1) nextOf = None) ->
    findSuffix (buff l ++ more) nextOf = Some (suf, st) ->
    buff l ++ more = pre ++ suf ->
    (length more < fuel)%nat ->
    lexText fuel l t nextOf
    = Returns ({| input := rest; buff := suf;
                  items := items l
                           ++ [{| ityp := t; ival := pre;
                                  iline := lineAfter (line l) more |}];
                  line := lineAfter (line l) more |}, Some st).
Proof.
  induction more as [| c m IH];
    intros fuel l rest pre suf st Hi Ha Hnone Hsome Hsplit Hf.
  - destruct fuel as [| fuel]; [simpl in Hf; lia |].
    cbn [lexText]. rewrite app_nil_r in Hsome, Hsplit.
    rewrite Hsome, Hsplit, StreamSpec.slice_prefix.
    cbn [mbind outcome_bind]. unfold emit.
    cbn [input buff items line]. simpl in Hi. rewrite Hi. reflexivity.
  - destruct fuel as [| fuel]; [simpl in Hf; lia |].
    cbn [lexText].
    pose proof (Hnone [] (c :: m) eq_refl ltac:(discriminate)) as H0.
    rewrite app_nil_r in H0. rewrite H0.
    simpl in Ha. apply andb_prop in Ha as [Hc Hm].
    rewrite (StreamSpec.next_byte l c (m ++ rest) Hi Hc).
    rewrite StreamSpec.byteZ_not_eof.
    rewrite (IH fuel _ rest pre suf st); cbn [input buff items line].
    + reflexivity.
    + reflexivity.
    + exact Hm.
    + intros m1 m2 E Hne. rewrite <- app_assoc. simpl.
      apply (Hnone (c :: m1) m2); [rewrite E; reflexivity | exact Hne].
    + rewrite <- app_assoc. exact Hsome.
    + rewrite <- app_assoc. exact Hsplit.
    + simpl in Hf. lia.
Qed.

Lemma strict_prefix_free (nextOf : list (str * stateFn)) (y : str)
    (z : ascii) (m1 m2 : str) :
  findSuffix [] nextOf = None -> keyFree nextOf y = true ->
  y ++ [z] = m1 ++ m2 -> m2 <> [] -> findSuffix m1 nextOf = None.
Proof.
  intros Hnil Hy E Hne.
  destruct (exists_last Hne) as (m2' & z' & ->).
  rewrite app_assoc in E. apply app_inj_tail in E as [-> _].
  destruct m1 as [| a m1] using rev_ind; [exact Hnil |].
  apply findSuffix_not_key.
  unfold keyFree in Hy. rewrite !forallb_app in Hy.
  apply andb_prop in Hy as [Hy _]. apply andb_prop in Hy as [_ Hy].
  simpl in Hy. apply andb_prop in Hy as [Hy _].
  apply negb_true_iff in Hy. exact Hy.
Qed.

(** A state that reads a text up to a key of its table. *)
Lemma text_step (s s' : stateFn) (t : itemType)
    (nextOf : list (str * stateFn)) (segs : list segment)
    (body suf rest y : str) (z : ascii) :
  (forall fuel l, runState fuel s l = lexText fuel l t nextOf) ->
  findSuffix [] nextOf = None ->
  forallb isAscii (body ++ suf) = true ->
  body ++ suf = y ++ [z] -> keyFree nextOf y = true ->
  findSuffix (body ++ suf) nextOf = Some (suf, s') ->
  noNewline suf = true ->
  leadsTo s (after segs [] (body ++ suf ++ rest))
          s' (after (segs ++ [(t, body)]) suf rest).
Proof.
  intros Hs Hnil Ha Hyz Hy Hsome Hnl.
  apply (leadsTo_step _ _ _ _ (S (length (body ++ suf)))).
  intros fuel Hf. rewrite Hs.
  rewrite (lexText_stops t nextOf (body ++ suf) fuel _ rest body suf s').
  - rewrite after_snoc. unfold after. cbn [input buff items line].
    rewrite !lineAfter_app, (lineAfter_noNewline _ suf Hnl). reflexivity.
  - unfold after. cbn [input]. rewrite <- app_assoc. reflexivity.
  - exact Ha.
  - unfold after. cbn [buff app]. intros m1 m2 E Hne.
    apply (strict_prefix_free nextOf y z m1 m2 Hnil Hy); [| exact Hne].
    rewrite <- Hyz. exact E.
  - exact Hsome.
  - reflexivity.
  - lia.
Qed.

(** A state that sends its buffer. *)
Lemma meta_step (s s' : stateFn) (t : itemType) (segs : list segment)
    (m rest : str) :
  (forall fuel l, runState fuel s l = lexMeta l t s') ->
  noNewline m = true ->
  leadsTo s (after segs m rest) s' (after (segs ++ [(t, m)]) [] rest).
Proof.
  intros Hs Hnl. apply (leadsTo_step _ _ _ _ 0). intros fuel _.
  rewrite Hs, after_snoc. unfold lexMeta, emit, after.
  cbn [input buff items line].
  rewrite (lineAfter_noNewline _ m Hnl). reflexivity.
Qed.

(** The content of a block, entered with the end of the fields in the
    buffer: the hyphen is sent as the content. *)
Lemma fields_end_step (segs : list segment) (rest : str) :
  leadsTo lexBlockContent (after segs fieldsRightMeta rest)
          lexBlockRightMeta
          (after (segs ++ [(itemBlockContent, lit "-")]) blockRightMeta
             rest).
Proof.
  apply (leadsTo_step _ _ _ _ 1). intros fuel Hf.
  destruct fuel as [| fuel]; [lia |].
  cbn [runState lexText]. unfold after at 1. cbn [buff].
  change (findSuffix fieldsRightMeta
            [(blockRightMeta, lexBlockRightMeta);
             (subBlockLeftMeta, lexSubBlockLeftMeta);
             (tagLeftMeta, lexTagLeftMeta)])
    with (Some (blockRightMeta, lexBlockRightMeta)).
  cbn iota beta.
  change (slice fieldsRightMeta 0 (len fieldsRightMeta - len blockRightMeta))
    with (Returns (lit "-")).
  cbn [mbind outcome_bind]. rewrite after_snoc. unfold emit.
  cbn [input buff items line].
  rewrite (lineAfter_noNewline _ (lit "-")) by reflexivity. reflexivity.
Qed.

(** The end of the input outside a block. *)
Lemma end_step (segs : list segment) (tail : str) (fuel : nat) :
  forallb isAscii tail = true ->
  forallb StreamSpec.noBrace tail = true ->
  (length tail + 1 < fuel)%nat ->
  lexRun fuel lexToBlock (after segs [] tail)
  = Returns (after (segs ++ [(itemIgnore, tail); (itemEOF, [])]) [] []).
Proof.
  intros Ha Hn Hf. destruct fuel as [| fuel]; [lia |].
  cbn [lexRun runState].
  rewrite StreamSpec.lexText_no_brace;
    [| reflexivity | exact Ha | exact Hn | unfold after; cbn [input]; lia].
  cbn [mbind outcome_bind].
  change (segs ++ [(itemIgnore, tail); (itemEOF, [])])
    with (segs ++ [(itemIgnore, tail)] ++ [(itemEOF, [])]).
  rewrite app_assoc, after_snoc, emitAll_app, segsText_app.
  cbn [emitAll]. unfold after. cbn [input buff items line app].
  change (segsText [(itemIgnore, tail)]) with (tail ++ []).
  rewrite app_nil_r, !lineAfter_app, <- !app_assoc. reflexivity.
Qed.

(** *** Blocks on the wire *)

(** [s] has none of the bytes [cs]. *)
Definition free (cs s : str) : bool :=
  forallb (fun c => negb (existsb (Ascii.eqb c) cs)) s.

(** A block as it is written: the text before it, its label, its sub
    blocks, each with the text before it, the text before its end, and
    the fields, each a tag and a value, of a block that ends in [-}]. *)
Record wblock := {
  before : str;
  wlabel : str;
  wsubs : list (str * str * str);
  wtext : str;
  wfields : list (str * str)
}.

Definition subWire (x : str * str * str) : str :=
  let '(t, sl, sc) := x in t ++ lit "{" ++ sl ++ lit ":" ++ sc ++ lit "}".

Definition fieldWire (x : str * str) : str :=
  let '(tag, v) := x in lit ":" ++ tag ++ lit ":" ++ v.

Definition blockWire (b : wblock) : str :=
  before b ++ lit "{" ++ wlabel b ++ lit ":"
  ++ concat (map subWire (wsubs b)) ++ wtext b
  ++ match wfields b with
     | [] => lit "}"
     | fs => concat (map fieldWire fs) ++ lit "-}"
     end.

Definition streamWire (bs : list wblock) (tail : str) : str :=
  concat (map blockWire bs) ++ tail.

(** No text holds a byte that ends it early. *)
Definition wfSub (x : str * str * str) : bool :=
  let '(t, sl, sc) := x in
  free (lit "}{:") t && free (lit ":") sl && free (lit "}") sc.

Definition wfField (x : str * str) : bool :=
  let '(tag, v) := x in free (lit ":") tag && free (lit ":}") v.

Definition wfBlock (b : wblock) : bool :=
  free (lit "{") (before b) && free (lit ":") (wlabel b)
  && forallb wfSub (wsubs b) && free (lit "}{:") (wtext b)
  && forallb wfField (wfields b).

(** The items of a block, as segments. *)
Definition subSegs (x : str * str * str) : list segment :=
  let '(t, sl, sc) := x in
  [(itemBlockContent, t); (itemSubBlockLeftMeta, lit "{");
   (itemSubBlockLabel, sl); (itemSubBlockLabelMeta, lit ":");
   (itemSubBlockContent, sc); (itemSubBlockRightMeta, lit "}")].

Definition fieldSegs (x : str * str) : list segment :=
  let '(tag, v) := x in
  [(itemTagLeftMeta, lit ":"); (itemTagContent, tag);
   (itemTagRightMeta, lit ":"); (itemFieldContent, v)].

Definition blockSegs (b : wblock) : list segment :=
  [(itemIgnore, before b); (itemBlockLeftMeta, lit "{");
   (itemBlockLabel, wlabel b); (itemBlockLabelMeta, lit ":")]
  ++ concat (map subSegs (wsubs b))
  ++ [(itemBlockContent, wtext b)]
  ++ match wfields b with
     | [] => []
     | fs => concat (map fieldSegs fs) ++ [(itemBlockContent, lit "-")]
     end
  ++ [(itemBlockRightMeta, lit "}")].

Definition streamSegs (bs : list wblock) (tail : str) : list segment :=
  concat (map blockSegs bs) ++ [(itemIgnore, tail); (itemEOF, [])].

Lemma ascii_drop (a b : str) :
  forallb isAscii (a ++ b) = true -> forallb isAscii b = true.
Proof. rewrite forallb_app. intros H. apply andb_prop in H as [_ H]. exact H. Qed.

Lemma ascii_take (a b : str) :
  forallb isAscii (a ++ b) = true -> forallb isAscii a = true.
Proof. rewrite forallb_app. intros H. apply andb_prop in H as [H _]. exact H. Qed.

Lemma same_segs (s s' : stateFn) (l : lexer) (segs segs' : list segment)
    (b rest : str) :
  segs' = segs -> leadsTo s l s' (after segs' b rest) ->
  leadsTo s l s' (after segs b rest).
Proof. intros ->. exact id. Qed.

Ltac find_key :=
  cbn [findSuffix]; unfold HasSuffix; rewrite ?rev_app_distr; reflexivity.

(** One text and the key behind it. *)
Ltac text_to s' t body suf :=
  eapply leadsTo_trans;
  [ eapply (text_step _ s' t _ _ body suf _ body);
    [ intros; reflexivity
    | reflexivity
    | try (eapply ascii_take; rewrite <- ?app_assoc; eassumption)
    | reflexivity
    | try assumption
    | find_key
    | reflexivity ]
  | ].

Ltac meta_to s' t :=
  eapply leadsTo_trans;
  [ eapply (meta_step _ s' t); [intros; reflexivity | reflexivity] | ].

Lemma subs_steps (subs : list (str * str * str)) :
  forall (segs : list segment) (rest : str),
    forallb wfSub subs = true ->
    forallb isAscii (concat (map subWire subs) ++ rest) = true ->
    leadsTo lexBlockContent (after segs [] (concat (map subWire subs) ++ rest))
            lexBlockContent (after (segs ++ concat (map subSegs subs)) [] rest).
Proof.
  induction subs as [| [[t sl] sc] subs IH]; intros segs rest Hw Ha.
  - simpl. rewrite app_nil_r. apply leadsTo_refl.
  - simpl in Hw. apply andb_prop in Hw as [Hx Hw].
    apply andb_prop in Hx as [Hx Hsc]. apply andb_prop in Hx as [Ht Hsl].
    cbn [map concat subWire subSegs] in *.
    rewrite <- !app_assoc in *.
    text_to lexSubBlockLeftMeta itemBlockContent t (lit "{").
    meta_to lexSubBlockLabel itemSubBlockLeftMeta.
    do 2 apply ascii_drop in Ha.
    text_to lexSubBlockLabelMeta itemSubBlockLabel sl (lit ":").
    meta_to lexSubBlockContent itemSubBlockLabelMeta.
    do 2 apply ascii_drop in Ha.
    text_to lexSubBlockRightMeta itemSubBlockContent sc (lit "}").
    meta_to lexBlockContent itemSubBlockRightMeta.
    do 2 apply ascii_drop in Ha.
    eapply same_segs; [| apply IH; [exact Hw | exact Ha]].
    rewrite <- !app_assoc. reflexivity.
Qed.

Lemma fields_steps (fs : list (str * str)) :
  forall (tag v : str) (segs : list segment) (rest : str),
    wfField (tag, v) = true -> forallb wfField fs = true ->
    forallb isAscii
      (tag ++ lit ":" ++ v ++ concat (map fieldWire fs) ++ lit "-}" ++ rest)
    = true ->
    leadsTo lexTagLeftMeta
            (after segs (lit ":")
               (tag ++ lit ":" ++ v ++ concat (map fieldWire fs)
                ++ lit "-}" ++ rest))
            lexBlockContent
            (after (segs ++ fieldSegs (tag, v) ++ concat (map fieldSegs fs))
               (lit "-}") rest).
Proof.
  induction fs as [| [tag2 v2] fs IH]; intros tag v segs rest Hw Hws Ha;
    cbn [wfField] in Hw; apply andb_prop in Hw as [Htag Hv];
    cbn [map concat fieldWire fieldSegs app] in *.
  - meta_to lexTagContent itemTagLeftMeta.
    text_to lexTagRightMeta itemTagContent tag (lit ":").
    meta_to lexFieldContent itemTagRightMeta.
    do 2 apply ascii_drop in Ha.
    eapply leadsTo_trans;
      [eapply (text_step _ lexBlockContent itemFieldContent _ _ v (lit "-}")
                 _ (v ++ lit "-") "}");
       [ intros; reflexivity
       | reflexivity
       | eapply ascii_take; rewrite <- ?app_assoc; eassumption
       | rewrite <- app_assoc; reflexivity
       | unfold keyFree; rewrite forallb_app; apply andb_true_intro;
         split; [exact Hv | reflexivity]
       | find_key
       | reflexivity ] |].
    eapply same_segs; [| apply leadsTo_refl].
    rewrite <- !app_assoc. reflexivity.
  - simpl in Hws. apply andb_prop in Hws as [Hw2 Hws].
    rewrite <- !app_assoc in *.
    meta_to lexTagContent itemTagLeftMeta.
    text_to lexTagRightMeta itemTagContent tag (lit ":").
    meta_to lexFieldContent itemTagRightMeta.
    do 2 apply ascii_drop in Ha.
    text_to lexTagLeftMeta itemFieldContent v (lit ":").
    do 2 apply ascii_drop in Ha.
    eapply same_segs; [| apply (IH tag2 v2); [exact Hw2 | exact Hws | exact Ha]].
    cbn [fieldSegs]. rewrite <- !app_assoc. reflexivity.
Qed.

Lemma block_steps (b : wblock) (segs : list segment) (rest : str) :
  wfBlock b = true ->
  forallb isAscii (blockWire b ++ rest) = true ->
  leadsTo lexToBlock (after segs [] (blockWire b ++ rest))
          lexToBlock (after (segs ++ blockSegs b) [] rest).
Proof.
  destruct b as [pre label subs text fs].
  unfold wfBlock, blockWire, blockSegs.
  cbn [before wlabel wsubs wtext wfields]. intros Hw Ha.
  repeat (apply andb_prop in Hw as [Hw ?]).
  rewrite <- !app_assoc in *.
  text_to lexBlockLeftMeta itemIgnore pre (lit "{").
  meta_to lexBlockLabel itemBlockLeftMeta.
  do 2 apply ascii_drop in Ha.
  text_to lexBlockLabelMeta itemBlockLabel label (lit ":").
  meta_to lexBlockContent itemBlockLabelMeta.
  do 2 apply ascii_drop in Ha.
  eapply leadsTo_trans; [apply subs_steps; [assumption | exact Ha] |].
  apply ascii_drop in Ha.
  destruct fs as [| [tag v] fs].
  - text_to lexBlockRightMeta itemBlockContent text (lit "}").
    meta_to lexToBlock itemBlockRightMeta.
    eapply same_segs; [| apply leadsTo_refl].
    cbn [app]. rewrite <- !app_assoc. reflexivity.
  - cbn [map concat fieldWire] in *. rewrite <- !app_assoc in *.
    text_to lexTagLeftMeta itemBlockContent text (lit ":").
    do 2 apply ascii_drop in Ha.
    match goal with
    | H : forallb wfField _ = true |- _ =>
        simpl in H; apply andb_prop in H as [Hf Hfs]
    end.
    eapply leadsTo_trans; [apply fields_steps; [exact Hf | exact Hfs | exact Ha] |].
    eapply leadsTo_trans; [apply fields_end_step |].
    meta_to lexToBlock itemBlockRightMeta.
    eapply same_segs; [| apply leadsTo_refl].
    cbn [map concat app]. rewrite <- !app_assoc. reflexivity.
Qed.

Lemma stream_steps (bs : list wblock) (tail : str) :
  forall segs : list segment,
    forallb wfBlock bs = true ->
    forallb isAscii (streamWire bs tail) = true ->
    leadsTo lexToBlock (after segs [] (streamWire bs tail))
            lexToBlock (after (segs ++ concat (map blockSegs bs)) [] tail).
Proof.
  unfold streamWire.
  induction bs as [| b bs IH]; intros segs Hw Ha.
  - simpl. rewrite app_nil_r. apply leadsTo_refl.
  - simpl in Hw. apply andb_prop in Hw as [Hb Hw].
    cbn [map concat] in *. rewrite <- app_assoc in *.
    eapply leadsTo_trans; [apply block_steps; [exact Hb | exact Ha] |].
    apply ascii_drop in Ha.
    eapply same_segs; [| apply IH; [exact Hw | exact Ha]].
    rewrite app_assoc. reflexivity.
Qed.

Lemma free_noBrace (s : str) :
  free (lit "{") s = true -> forallb StreamSpec.noBrace s = true.
Proof.
  induction s as [| c s IH]; [reflexivity |]. simpl.
  intros H. apply andb_prop in H as [Hc Hs].
  rewrite orb_false_r in Hc. unfold StreamSpec.noBrace.
  rewrite Hc. apply IH, Hs.
Qed.

Lemma blockSegs_text (b : wblock) : segsText (blockSegs b) = blockWire b.
Proof.
  assert (Hsub : forall subs,
             segsText (concat (map subSegs subs)) = concat (map subWire subs)).
  { induction subs as [| [[t sl] sc] subs IH]; [reflexivity |].
    cbn [map concat]. rewrite segsText_app, IH.
    unfold segsText. cbn [subSegs subWire map concat snd].
    rewrite <- !app_assoc. reflexivity. }
  assert (Hfs : forall fs,
             segsText (concat (map fieldSegs fs)) = concat (map fieldWire fs)).
  { induction fs as [| [tag v] fs IH]; [reflexivity |].
    cbn [map concat]. rewrite segsText_app, IH.
    unfold segsText. cbn [fieldSegs fieldWire map concat snd].
    rewrite <- !app_assoc. reflexivity. }
  unfold blockSegs, blockWire.
  rewrite !segsText_app, Hsub.
  destruct (wfields b) as [| f fs].
  - unfold segsText. cbn [map concat snd app]. rewrite <- !app_assoc.
    rewrite ?app_nil_r. reflexivity.
  - rewrite segsText_app, Hfs.
    unfold segsText. cbn [map concat snd app]. rewrite <- !app_assoc.
    rewrite ?app_nil_r. reflexivity.
Qed.

Lemma blocksSegs_text (bs : list wblock) :
  segsText (concat (map blockSegs bs)) = concat (map blockWire bs).
Proof.
  induction bs as [| b bs IH]; [reflexivity |].
  cbn [map concat]. rewrite segsText_app, IH, blockSegs_text. reflexivity.
Qed.

Lemma segsText_wire (bs : list wblock) (tail : str) :
  segsText (streamSegs bs tail) = streamWire bs tail.
Proof.
  unfold streamSegs, streamWire. rewrite segsText_app, blocksSegs_text.
  change (segsText [(itemIgnore, tail); (itemEOF, [])]) with (tail ++ [] ++ []).
  rewrite !app_nil_r. reflexivity.
Qed.

Lemma lexer_items (bs : list wblock) (tail : str) (fuel : nat) :
  forallb wfBlock bs = true ->
  free (lit "{") tail = true ->
  forallb isAscii (streamWire bs tail) = true ->
  (3 * length (streamWire bs tail) + 2 <= fuel)%nat ->
  lex fuel (streamWire bs tail) = Returns (emitAll 1 (streamSegs bs tail)).
Proof.
  intros Hw Ht Ha Hf.
  pose proof (stream_steps bs tail [] Hw Ha) as Hsteps.
  assert (Htail : forallb isAscii tail = true).
  { unfold streamWire in Ha. apply ascii_drop in Ha. exact Ha. }
  pose proof (end_step (concat (map blockSegs bs)) tail
                (length tail + 2) Htail (free_noBrace tail Ht)
                ltac:(lia)) as Hend.
  destruct (Hsteps _ _ Hend) as [f0 H0].
  destruct (StreamSpec.lexRun_ends fuel lexToBlock
              {| input := streamWire bs tail; buff := []; items := [];
                 line := 1 |})
    as (l' & Hl' & _).
  { reflexivity. }
  { exact Ha. }
  { simpl. lia. }
  unfold lex. rewrite Hl'. cbn [mbind outcome_bind].
  pose proof (lexRun_mono f0 (max f0 fuel) _ _ _ H0 ltac:(lia)) as H1.
  pose proof (lexRun_mono fuel (max f0 fuel) _ _ _ Hl' ltac:(lia)) as H2.
  change (after [] [] (streamWire bs tail))
    with {| input := streamWire bs tail; buff := []; items := [];
            line := 1 |} in H1.
  rewrite H1 in H2. injection H2 as <-. reflexivity.
Qed.

(** *** The parser behind the lexer *)

Definition toSub (x : str * str * str) : SubBlock :=
  let '(_, sl, sc) := x in {| SubLabel := sl; SubContent := sc |}.

(** The block the parser builds, with its map at [a] in the store: the
    content is the last one the lexer sent. *)
Definition toBlock (a : nat) (b : wblock) : Block :=
  {| Label := wlabel b;
     Content := match wfields b with [] => wtext b | _ => lit "-" end;
     Fields := Some a;
     Blocks := map toSub (wsubs b) |}.

(** The blocks of the message under construction, with its line, and the
    messages sent. *)
Record grouped := {
  sent : list Message;
  group : list Block;
  gline : Z
}.

Definition flush (r : grouped) : list Message :=
  if 0 <? len0 (group r)
  then sent r ++ [blocksToMessage (group r) (gline r)]
  else sent r.

(** A block with the label [1] starts a message at the line of the
    label; every other block joins the message under construction. *)
Definition groupStep (ln : Z) (a : nat) (r : grouped) (b : wblock)
    : grouped :=
  if streq (wlabel b) blockLabelBasicHeader then
    {| sent := flush r; group := [toBlock a b];
       gline := lineAfter ln (before b ++ lit "{" ++ wlabel b) |}
  else
    {| sent := sent r; group := group r ++ [toBlock a b];
       gline := gline r |}.

Fixpoint groups (ln : Z) (a : nat) (r : grouped) (bs : list wblock)
    : grouped :=
  match bs with
  | [] => r
  | b :: bs' =>
      groups (lineAfter ln (blockWire b)) (S a) (groupStep ln a r b) bs'
  end.

Definition messagesOf (bs : list wblock) : list Message :=
  flush (groups 1 1 {| sent := []; group := []; gline := 1 |} bs).

Section Parser.

Variables TrimFuncIsSpace TrimRightFuncIsSpace : str -> str.
Variable cfg : Config.

Local Abbreviation step := (step TrimFuncIsSpace TrimRightFuncIsSpace cfg).
Local Abbreviation runItems :=
  (runItems TrimFuncIsSpace TrimRightFuncIsSpace cfg).
Local Abbreviation TrimSpace :=
  (TrimSpace TrimFuncIsSpace TrimRightFuncIsSpace).

(** The map of the fields of a block: under each tag the values with
    this tag, trimmed, in the order of the input. *)
Definition addField (m : gmap str (list str)) (x : str * str)
    : gmap str (list str) :=
  let '(tag, v) := x in
  <[tag := default [] (m !! tag) ++ [TrimSpace v]]> m.

Definition fieldsMap (b : wblock) : gmap str (list str) :=
  fold_left addField (wfields b) ∅.

Lemma runItems_stopped (st : state) (its : list item) :
  stopped st = true -> runItems st its = Returns st.
Proof. intros H. destruct its; simpl; [| rewrite H]; reflexivity. Qed.

Lemma runItems_app (a b : list item) :
  forall st : state,
    runItems st (a ++ b) = (st' ← runItems st a; runItems st' b).
Proof.
  induction a as [| it a IH]; intros st; [reflexivity |].
  cbn [app message.runItems].
  destruct (stopped st) eqn:E.
  - cbn [mbind outcome_bind]. rewrite runItems_stopped by exact E.
    reflexivity.
  - destruct (step st it) as [st1 | |]; cbn [mbind outcome_bind];
      [apply IH | reflexivity | reflexivity].
Qed.

Lemma runItems_cons (st : state) (it : item) (its : list item) :
  stopped st = false ->
  runItems st (it :: its) = (st' ← step st it; runItems st' its).
Proof. intros H. cbn [message.runItems]. rewrite H. reflexivity. Qed.

(** The sub blocks of a block: each is appended to the block under
    construction. *)
Lemma subs_items (subs : list (str * str * str)) :
  forall (ln : Z) (st : state),
    stopped st = false ->
    exists st',
      runItems st (emitAll ln (concat (map subSegs subs))) = Returns st'
      /\ heap st' = heap st /\ blocks st' = blocks st
      /\ currLine st' = currLine st /\ messages st' = messages st
      /\ errors st' = errors st /\ stopped st' = false
      /\ Label (currBlock st') = Label (currBlock st)
      /\ Fields (currBlock st') = Fields (currBlock st)
      /\ Blocks (currBlock st')
         = Blocks (currBlock st) ++ map toSub subs.
Proof.
  induction subs as [| [[t sl] sc] subs IH]; intros ln st Hst.
  - exists st. simpl. rewrite app_nil_r. repeat split. exact Hst.
  - cbn [map concat subSegs app emitAll].
    repeat (rewrite runItems_cons by (cbn; exact Hst);
            cbn [message.step ityp mbind outcome_bind]).
    match goal with
    | |- context [message.runItems _ _ _ ?st1 (emitAll ?ln1 _)] =>
        destruct (IH ln1 st1) as (st' & Hr & H1 & H2 & H3 & H4 & H5 & H6
                                  & H7 & H8 & H9); [cbn; exact Hst |]
    end.
    exists st'. split; [exact Hr |].
    cbn in H1, H2, H3, H4, H5, H7, H8, H9.
    repeat split; try assumption.
    rewrite H9, <- app_assoc. reflexivity.
Qed.

(** The fields of a block: each value is trimmed and appended to the
    values of its tag, in the map of the block under construction. *)
Lemma fields_items (fs : list (str * str)) :
  forall (ln : Z) (st : state) (a : nat) (m : gmap str (list str)),
    stopped st = false ->
    Fields (currBlock st) = Some a -> heap st !! a = Some m ->
    exists st',
      runItems st (emitAll ln (concat (map fieldSegs fs))) = Returns st'
      /\ heap st' = <[a := fold_left addField fs m]> (heap st)
      /\ blocks st' = blocks st
      /\ currLine st' = currLine st /\ messages st' = messages st
      /\ errors st' = errors st /\ stopped st' = false
      /\ currBlock st' = currBlock st.
Proof.
  induction fs as [| [tag v] fs IH]; intros ln st a m Hst Hf Hm.
  - exists st. simpl. rewrite (list_insert_id _ _ _ Hm).
    repeat split. exact Hst.
  - cbn [map concat fieldSegs app emitAll].
    do 3 (rewrite runItems_cons by (cbn; exact Hst);
          cbn [message.step ityp mbind outcome_bind]).
    rewrite runItems_cons by (cbn; exact Hst).
    cbn [message.step ityp currBlock heap currTag ival].
    rewrite Hf, Hm. cbn [mbind outcome_bind].
    match goal with
    | |- context [message.runItems _ _ _ ?st1 (emitAll ?ln1 _)] =>
        destruct (IH ln1 st1 a (addField m (tag, v)))
          as (st' & Hr & H1 & H2 & H3 & H4 & H5 & H6 & H7)
    end.
    + cbn. exact Hst.
    + cbn. exact Hf.
    + cbn [heap]. apply list_lookup_insert_eq.
      apply lookup_lt_Some in Hm. exact Hm.
    + exists st'. split; [exact Hr |].
      cbn in H1, H2, H3, H4, H5, H7.
      rewrite list_insert_insert_eq in H1.
      repeat split; assumption.
Qed.

Definition view (st : state) : grouped :=
  {| sent := messages st; group := blocks st; gline := currLine st |}.

Lemma flush_view (st : state) : messages (sendMessage st) = flush (view st).
Proof.
  unfold sendMessage, flush, view. cbn [sent group gline].
  destruct (0 <? len0 (blocks st)); reflexivity.
Qed.

Lemma sendMessage_rest (st : state) :
  heap (sendMessage st) = heap st /\ errors (sendMessage st) = errors st
  /\ stopped (sendMessage st) = stopped st.
Proof.
  unfold sendMessage. destruct (0 <? len0 (blocks st)); repeat split.
Qed.


(** The start of a block: a block with the label [1] sends the message
    under construction and starts one at its line. *)
Lemma label_items (ln : Z) (st : state) (pre label : str) :
  stopped st = false ->
  exists st1,
    runItems st (emitAll ln [(itemIgnore, pre); (itemBlockLeftMeta, lit "{");
                             (itemBlockLabel, label);
                             (itemBlockLabelMeta, lit ":")])
    = Returns st1
    /\ heap st1 = heap st ++ [∅]
    /\ view st1
       = (if streq label blockLabelBasicHeader then
            {| sent := flush (view st); group := [];
               gline := lineAfter ln (pre ++ lit "{" ++ label) |}
          else view st)
    /\ errors st1 = errors st /\ stopped st1 = false
    /\ currBlock st1
       = {| Label := label; Content := [];
            Fields := Some (length (heap st)); Blocks := [] |}.
Proof.
  intros Hst. cbn [emitAll].
  do 2 (rewrite runItems_cons by (cbn; exact Hst);
        cbn [message.step ityp mbind outcome_bind]).
  rewrite runItems_cons by exact Hst.
  cbn [message.step ityp ival iline].
  destruct (sendMessage_rest st) as (Hh & He & Hs).
  destruct (streq label blockLabelBasicHeader) eqn:E;
    cbn [newBlock heap mbind outcome_bind];
    (rewrite runItems_cons by (cbn; congruence));
    cbn [message.step ityp mbind outcome_bind message.runItems];
    eexists; (split; [reflexivity |]);
    cbn [heap errors stopped currBlock view messages blocks currLine
         Content Fields Blocks].
  - rewrite Hh, He, Hs, flush_view, !lineAfter_app.
    repeat split; assumption.
  - destruct st; repeat split; assumption.
Qed.

(** One block: its map joins the store, and the block joins the message
    under construction, or starts the next one. *)
Lemma block_items (b : wblock) (ln : Z) (st : state) :
  stopped st = false ->
  exists st',
    runItems st (emitAll ln (blockSegs b)) = Returns st'
    /\ heap st' = heap st ++ [fieldsMap b]
    /\ view st' = groupStep ln (length (heap st)) (view st) b
    /\ errors st' = errors st /\ stopped st' = false.
Proof.
  intros Hst. destruct b as [pre label subs text fs].
  unfold blockSegs, fieldsMap, groupStep, toBlock.
  cbn [before wlabel wsubs wtext wfields].
  change ([(itemIgnore, pre); (itemBlockLeftMeta, lit "{");
           (itemBlockLabel, label); (itemBlockLabelMeta, lit ":")]
          ++ ?x)
    with ([(itemIgnore, pre); (itemBlockLeftMeta, lit "{");
           (itemBlockLabel, label); (itemBlockLabelMeta, lit ":")]
          ++ x).
  rewrite emitAll_app, runItems_app.
  destruct (label_items ln st pre label Hst)
    as (st1 & -> & Hh1 & Hv1 & He1 & Hs1 & Hb1).
  cbn [mbind outcome_bind].
  rewrite emitAll_app, runItems_app.
  match goal with
  | |- context [message.runItems _ _ _ st1 (emitAll ?ln1 _)] =>
      destruct (subs_items subs ln1 st1 Hs1)
        as (st2 & -> & Hh2 & Hk2 & Hl2 & Hm2 & He2 & Hs2 & Hlab2 & Hf2 & Hb2)
  end.
  cbn [mbind outcome_bind].
  rewrite Hb1 in Hlab2, Hf2, Hb2. cbn [Label Fields Blocks app] in Hlab2, Hf2, Hb2.
  change ([(itemBlockContent, text)] ++ ?x)
    with ((itemBlockContent, text) :: x).
  cbn [emitAll]. rewrite runItems_cons by exact Hs2.
  cbn [message.step ityp ival mbind outcome_bind message.runItems].
  set (st3 := setCurrBlock st2 _).
  assert (Hs3 : stopped st3 = false) by exact Hs2.
  assert (Hview : view st2 = view st1).
  { unfold view. rewrite Hk2, Hl2, Hm2. reflexivity. }
  destruct fs as [| f fs].
  - cbn [app emitAll]. rewrite runItems_cons by exact Hs3.
    cbn [message.step ityp mbind outcome_bind message.runItems].
    eexists. split; [reflexivity |].
    cbn [heap errors stopped view messages blocks currLine currBlock st3
         setCurrBlock].
    rewrite Hh2, Hh1, He2, He1, Hlab2, Hf2, Hb2.
    split; [reflexivity |]. split; [| split; [reflexivity | exact Hs2]].
    unfold view in Hview, Hv1. rewrite Hk2, Hl2, Hm2.
    destruct (streq label blockLabelBasicHeader);
      injection Hv1 as Hv1a Hv1b Hv1c; rewrite Hv1a, Hv1b, Hv1c;
      reflexivity.
  - rewrite emitAll_app, runItems_app.
    rewrite emitAll_app, runItems_app.
    match goal with
    | |- context [message.runItems _ _ _ st3 (emitAll ?ln3 _)] =>
        destruct (fields_items (f :: fs) ln3 st3 (length (heap st)) ∅ Hs3)
          as (st4 & -> & Hh4 & Hk4 & Hl4 & Hm4 & He4 & Hs4 & Hb4)
    end.
    { exact Hf2. }
    { cbn [st3 setCurrBlock heap]. rewrite Hh2, Hh1.
      rewrite lookup_app_r by lia. rewrite Nat.sub_diag. reflexivity. }
    cbn [mbind outcome_bind emitAll].
    rewrite runItems_cons by exact Hs4.
    cbn [message.step ityp ival mbind outcome_bind message.runItems
         setCurrBlock stopped].
    rewrite Hs4. cbn [message.step ityp mbind outcome_bind].
    eexists. split; [reflexivity |].
    cbn [heap errors stopped view messages blocks currLine currBlock
         setCurrBlock].
    rewrite Hh4, Hk4, Hl4, Hm4, He4, Hb4.
    cbn [st3 setCurrBlock heap blocks currLine messages errors currBlock
         Label Fields Blocks].
    rewrite Hh2, Hh1, He2, He1, Hlab2, Hf2, Hb2.
    split.
    { replace (length (heap st)) with (length (heap st) + 0)%nat at 1 by lia.
      rewrite insert_app_r. reflexivity. }
    split; [| split; reflexivity].
    unfold view in Hview, Hv1. rewrite Hk2, Hl2, Hm2.
    destruct (streq label blockLabelBasicHeader);
      injection Hv1 as Hv1a Hv1b Hv1c; rewrite Hv1a, Hv1b, Hv1c;
      reflexivity.
Qed.

Lemma blocks_items (bs : list wblock) :
  forall (ln : Z) (st : state),
    stopped st = false ->
    exists st',
      runItems st (emitAll ln (concat (map blockSegs bs))) = Returns st'
      /\ heap st' = heap st ++ map fieldsMap bs
      /\ view st' = groups ln (length (heap st)) (view st) bs
      /\ errors st' = errors st /\ stopped st' = false.
Proof.
  induction bs as [| b bs IH]; intros ln st Hst.
  - exists st. simpl. rewrite app_nil_r. repeat split. exact Hst.
  - cbn [map concat groups]. rewrite emitAll_app, runItems_app.
    destruct (block_items b ln st Hst) as (st1 & -> & Hh1 & Hv1 & He1 & Hs1).
    cbn [mbind outcome_bind]. rewrite blockSegs_text.
    destruct (IH (lineAfter ln (blockWire b)) st1 Hs1)
      as (st' & Hr & Hh & Hv & He & Hs).
    exists st'. split; [exact Hr |].
    rewrite Hh, Hv, He, Hh1, Hv1, He1, <- app_assoc, length_app.
    cbn [length app]. rewrite Nat.add_1_r. repeat split. exact Hs.
Qed.

(** The lexer and the parser, one behind the other, on well-formed
    blocks. *)
Lemma Parse_wire (bs : list wblock) (tail : str) (fuel : nat) :
  forallb wfBlock bs = true ->
  free (lit "{") tail = true ->
  forallb isAscii (streamWire bs tail) = true ->
  (3 * length (streamWire bs tail) + 2 <= fuel)%nat ->
  exists st,
    Parse TrimFuncIsSpace TrimRightFuncIsSpace cfg fuel (streamWire bs tail)
    = Returns st
    /\ messages st = messagesOf bs
    /\ errors st = []
    /\ heap st = ∅ :: map fieldsMap bs
    /\ stopped st = true.
Proof.
  intros Hw Ht Ha Hf. unfold Parse.
  rewrite (lexer_items bs tail fuel Hw Ht Ha Hf).
  cbn [mbind outcome_bind]. unfold streamSegs.
  rewrite emitAll_app, runItems_app.
  destruct (blocks_items bs 1 initial eq_refl)
    as (st1 & -> & Hh1 & Hv1 & He1 & Hs1).
  cbn [mbind outcome_bind emitAll].
  rewrite runItems_cons by exact Hs1.
  cbn [message.step ityp mbind outcome_bind].
  rewrite runItems_cons by exact Hs1.
  cbn [message.step ityp mbind outcome_bind message.runItems].
  eexists. split; [reflexivity |].
  destruct (sendMessage_rest st1) as (Hh & He & _).
  cbn [stop messages errors heap stopped].
  rewrite flush_view, Hh, He, Hv1, Hh1, He1.
  repeat split.
Qed.

End Parser.

(** A message of three blocks: a basic header, a body of three fields
    and trailers of two sub blocks. *)
Definition plainBlock (label content : string) : wblock :=
  {| before := []; wlabel := lit label; wsubs := []; wtext := lit content;
     wfields := [] |}.

Definition bodyBlock : wblock :=
  {| before := []; wlabel := lit "4"; wsubs := []; wtext := newline;
     wfields := [(lit "20", lit "Test1" ++ newline);
                 (lit "21", lit "Test3" ++ newline);
                 (lit "21", lit " Test4 " ++ newline)] |}.

Definition trailersBlock : wblock :=
  {| before := newline; wlabel := lit "5";
     wsubs := [([], lit "CHK", lit "my checksum"); ([], lit "TNG", [])];
     wtext := []; wfields := [] |}.

Definition wireMessage : list wblock :=
  [plainBlock "1" "F01SCBLZAJJXXXX5712100002"; bodyBlock; trailersBlock].

(** X21. The lexer on well-formed blocks. An input of bytes below 128
    made of blocks, each after a text without [{], with a label without
    [:], sub blocks [{label:content}] between texts without brace and
    colon, and either [}] or fields [:tag:value] (no colon and no [}] in
    a value) and [-}] at its end: the lexer sends, for every piece and
    every mark in the order of the input, one item with the type of the
    piece, its text, and the line on which it ends. The text before a
    sub block and before the end is sent as the content of the block,
    and behind fields the block has the content [-]. *)
Theorem lexer_reads_blocks (bs : list wblock) (tail : str) (fuel : nat) :
  forallb wfBlock bs = true ->
  free (lit "{") tail = true ->
  forallb isAscii (streamWire bs tail) = true ->
  (3 * length (streamWire bs tail) + 2 <= fuel)%nat ->
  lex fuel (streamWire bs tail) = Returns (emitAll 1 (streamSegs bs tail))
  /\ segsText (streamSegs bs tail) = streamWire bs tail.
Proof.
  intros Hw Ht Ha Hf. split; [| apply segsText_wire].
  apply lexer_items; assumption.
Qed.

Lemma lexer_reads_blocks_witness :
  lex 400 (streamWire wireMessage newline)
  = Returns (emitAll 1 (streamSegs wireMessage newline))
  /\ segsText (streamSegs wireMessage newline)
     = streamWire wireMessage newline.
Proof.
  apply (lexer_reads_blocks wireMessage newline 400);
    [reflexivity | reflexivity | reflexivity | vm_compute; lia].
Defined.

(** X22. The parser behind the lexer on well-formed blocks: [Parse]
    returns without an error. Every block [1] starts a message at the
    line of its label, every other block joins the message under
    construction, and the end of the input sends the last one. A block
    of a message has the label and the sub blocks as written, and as
    content the text before its closing brace, or [-] when it has
    fields. The map of a block holds under each tag the values of the
    fields with this tag, trimmed, in the order of the input. *)
Theorem parser_assembles_blocks (f g : str -> str) (cfg : Config)
    (bs : list wblock) (tail : str) (fuel : nat) :
  forallb wfBlock bs = true ->
  free (lit "{") tail = true ->
  forallb isAscii (streamWire bs tail) = true ->
  (3 * length (streamWire bs tail) + 2 <= fuel)%nat ->
  exists st,
    Parse f g cfg fuel (streamWire bs tail) = Returns st
    /\ messages st = messagesOf bs
    /\ errors st = []
    /\ heap st = ∅ :: map (fieldsMap f g) bs
    /\ stopped st = true.
Proof. apply Parse_wire. Qed.

Lemma parser_assembles_blocks_witness :
  exists st,
    Parse id id {| StopOnError := false |} 400 (streamWire wireMessage newline)
    = Returns st
    /\ messages st = messagesOf wireMessage
    /\ errors st = []
    /\ heap st = ∅ :: map (fieldsMap id id) wireMessage
    /\ stopped st = true.
Proof.
  apply (parser_assembles_blocks id id {| StopOnError := false |}
           wireMessage newline 400);
    [reflexivity | reflexivity | reflexivity | vm_compute; lia].
Defined.

(** *** One message *)

(** The blocks of [bs] as the parser builds them, the first with its
    map at [a]. *)
Fixpoint blocksFrom (a : nat) (bs : list wblock) : list Block :=
  match bs with
  | [] => []
  | b :: bs' => toBlock a b :: blocksFrom (S a) bs'
  end.

Definition notFirst (b : wblock) : bool :=
  negb (streq (wlabel b) blockLabelBasicHeader).

Definition notBody (b : wblock) : bool :=
  negb (streq (wlabel b) blockLabelBody).

(** The values of the fields with a tag, in the order of the input. *)
Definition valuesOf (tag : str) (fs : list (str * str)) : list str :=
  snd <$> filter (fun x => fst x = tag) fs.

Lemma groups_one_message (bs : list wblock) :
  forall (ln : Z) (a : nat) (r : grouped),
    forallb notFirst bs = true ->
    groups ln a r bs
    = {| sent := sent r; group := group r ++ blocksFrom a bs;
         gline := gline r |}.
Proof.
  induction bs as [| b bs IH]; intros ln a r H.
  - simpl. rewrite app_nil_r. destruct r; reflexivity.
  - simpl in H. apply andb_prop in H as [Hb Hbs].
    cbn [groups blocksFrom]. rewrite IH by exact Hbs.
    unfold groupStep. unfold notFirst in Hb. apply negb_true_iff in Hb.
    rewrite Hb. cbn [sent group gline]. rewrite <- app_assoc. reflexivity.
Qed.

Lemma blocksFrom_app (a : nat) (xs ys : list wblock) :
  blocksFrom a (xs ++ ys)
  = blocksFrom a xs ++ blocksFrom (a + length xs) ys.
Proof.
  revert a. induction xs as [| x xs IH]; intros a.
  - simpl. rewrite Nat.add_0_r. reflexivity.
  - cbn [app blocksFrom length]. rewrite IH.
    replace (S a + length xs)%nat with (a + S (length xs))%nat by lia.
    reflexivity.
Qed.

Lemma blocksFrom_no_body (a : nat) (bs : list wblock) :
  forallb notBody bs = true ->
  filter (fun b => Label b = blockLabelBody) (blocksFrom a bs) = [].
Proof.
  revert a. induction bs as [| b bs IH]; intros a H; [reflexivity |].
  simpl in H. apply andb_prop in H as [Hb Hbs].
  cbn [blocksFrom]. unfold notBody in Hb. apply negb_true_iff in Hb.
  apply streq_false in Hb.
  rewrite filter_cons_False by exact Hb. apply IH, Hbs.
Qed.

Section Body.

Variables TrimFuncIsSpace TrimRightFuncIsSpace : str -> str.

Local Abbreviation TrimSpace :=
  (TrimSpace TrimFuncIsSpace TrimRightFuncIsSpace).
Local Abbreviation addField :=
  (addField TrimFuncIsSpace TrimRightFuncIsSpace).

Lemma addField_values (tag : str) (fs : list (str * str)) :
  forall m : gmap str (list str),
    default [] (fold_left addField fs m !! tag)
    = default [] (m !! tag) ++ (TrimSpace <$> valuesOf tag fs).
Proof.
  unfold valuesOf.
  induction fs as [| [t v] fs IH]; intros m.
  - simpl. rewrite app_nil_r. reflexivity.
  - cbn [fold_left]. rewrite IH. cbn [WireSpec.addField].
    destruct (decide (t = tag)) as [-> | Hne].
    + rewrite lookup_insert_eq. cbn [default].
      rewrite filter_cons_True by reflexivity.
      rewrite fmap_cons. cbn [snd fmap list_fmap]. unfold id.
      rewrite <- app_assoc. reflexivity.
    + rewrite lookup_insert_ne by exact Hne.
      rewrite filter_cons_False by exact Hne. reflexivity.
Qed.

End Body.

(** X23. One message from the wire. Well-formed blocks of which none
    but the first has the label [1], with a block [4] that no other
    block [4] follows: [Parse] returns exactly one message and no
    error. The message holds, under every tag, the values of the fields
    of that block with this tag, trimmed and in the order of the input,
    and nothing under a tag that does not occur. Its line is the line
    of the first label if this is [1], and 1 otherwise. *)
Theorem wire_body_values (f g : str -> str) (cfg : Config)
    (first : wblock) (front back : list wblock) (body : wblock)
    (rest : list wblock) (tail : str) (fuel : nat) :
  first :: rest = front ++ body :: back ->
  forallb notFirst rest = true ->
  wlabel body = blockLabelBody ->
  forallb notBody back = true ->
  forallb wfBlock (first :: rest) = true ->
  free (lit "{") tail = true ->
  forallb isAscii (streamWire (first :: rest) tail) = true ->
  (3 * length (streamWire (first :: rest) tail) + 2 <= fuel)%nat ->
  exists st msg,
    Parse f g cfg fuel (streamWire (first :: rest) tail) = Returns st
    /\ messages st = [msg] /\ errors st = []
    /\ Line msg
       = (if streq (wlabel first) blockLabelBasicHeader
          then lineAfter 1 (before first ++ lit "{" ++ wlabel first)
          else 1)
    /\ forall tag,
         bodyValues st msg tag
         = TrimSpace f g <$> valuesOf tag (wfields body).
Proof.
  intros Hsplit Hrest Hlabel Hback Hw Ht Ha Hf.
  destruct (Parse_wire f g cfg (first :: rest) tail fuel Hw Ht Ha Hf)
    as (st & Hr & Hm & He & Hh & _).
  set (line := if streq (wlabel first) blockLabelBasicHeader
               then lineAfter 1 (before first ++ lit "{" ++ wlabel first)
               else 1).
  assert (Hmsgs : messagesOf (first :: rest)
                  = [blocksToMessage (blocksFrom 1 (first :: rest)) line]).
  { unfold messagesOf. cbn [groups].
    rewrite groups_one_message by exact Hrest.
    unfold groupStep, flush, line.
    destruct (streq (wlabel first) blockLabelBasicHeader);
      cbn [sent group gline app len0 length]; reflexivity. }
  exists st, (blocksToMessage (blocksFrom 1 (first :: rest)) line).
  split; [exact Hr |]. split; [rewrite Hm; exact Hmsgs |].
  split; [exact He |].
  split.
  { unfold blocksToMessage. cbn [Line].
    generalize (blocksFrom 1 (first :: rest)). intros blocks.
    induction blocks as [| b blocks IH] using rev_ind; [reflexivity |].
    rewrite fold_left_app. cbn [fold_left].
    unfold blocksToMessageStep at 1.
    repeat match goal with
           | |- context [if ?c then _ else _] => destruct c
           end; cbn [m Line withBlocks]; exact IH. }
  intros tag. unfold bodyValues.
  destruct (MessageSpec.assembled_raw (blocksFrom 1 (first :: rest)) line)
    as (_ & _ & _ & _ & _ & Hbody).
  unfold blocksToMessage. cbn [Body].
  fold (MessageSpec.assembled (blocksFrom 1 (first :: rest)) line).
  cbv zeta in Hbody. rewrite Hbody.
  assert (Hlast : MessageSpec.lastLabelled blockLabelBody
                    (blocksFrom 1 (first :: rest))
                  = Some (toBlock (1 + length front) body)).
  { unfold MessageSpec.lastLabelled.
    rewrite Hsplit, blocksFrom_app. cbn [blocksFrom].
    rewrite filter_app, filter_cons_True by exact Hlabel.
    rewrite (blocksFrom_no_body _ back Hback).
    apply last_snoc. }
  rewrite Hlast. cbn [mbind option_bind toBlock Fields].
  rewrite Hh, Hsplit.
  match goal with
  | |- context [(?e :: ?X) !! (1 + ?n)%nat] =>
      change ((e :: X) !! (1 + n)%nat) with (X !! n)
  end.
  rewrite map_app. cbn [map].
  rewrite lookup_app_r by (rewrite length_map; lia).
  rewrite length_map, Nat.sub_diag.
  change ((?x :: ?X) !! 0%nat) with (Some x).
  cbn [mbind option_bind]. unfold fieldsMap.
  rewrite addField_values, lookup_empty. reflexivity.
Qed.

Lemma wire_body_values_witness :
  exists st msg,
    Parse id id {| StopOnError := false |} 400 (streamWire wireMessage newline)
    = Returns st
    /\ messages st = [msg] /\ errors st = []
    /\ Line msg = 1
    /\ forall tag,
         bodyValues st msg tag
         = TrimSpace id id <$> valuesOf tag (wfields bodyBlock).
Proof.
  apply (wire_body_values id id {| StopOnError := false |}
           (plainBlock "1" "F01SCBLZAJJXXXX5712100002")
           [plainBlock "1" "F01SCBLZAJJXXXX5712100002"] [trailersBlock]
           bodyBlock [bodyBlock; trailersBlock] newline 400);
    [reflexivity | reflexivity | reflexivity | reflexivity | reflexivity
    | reflexivity | reflexivity | vm_compute; lia].
Defined.

End WireSpec.

(** ** Patterns of the shapes the message types use: groups and plain
    text, with an optional part, an alternative or a line count *)

Module ShapeSpec.

Import pattern GoFacts.
Import MatcherSpec(isAscii).
Import PatternSpec(tok).
Import CompileSpec(plainByte).

(** The pieces of a pattern: a count with a class, strict or not, a
    plain text, a line count with its sign, and the three signs. *)
Inductive elem :=
| EGroup (ds : str) (strict : bool) (c : ascii)
| ELit (s : str)
| ELines (ds : str)
| EOpen
| EClose
| EBar.

Definition render (e : elem) : str :=
  match e with
  | EGroup ds strict c => ds ++ (if strict then lit "!" else []) ++ [c]
  | ELit s => s
  | ELines ds => ds ++ lit "*"
  | EOpen => lit "("
  | EClose => lit ")"
  | EBar => lit "|"
  end.

Definition tokensOf (e : elem) : list token :=
  match e with
  | EGroup ds strict c =>
      [tok tokenCharCount ds]
      ++ (if strict then [tok tokenCharCountStrictMeta (lit "!")] else [])
      ++ [tok tokenCharSet [c]]
  | ELit s => [tok tokenLiteral s]
  | ELines ds => [tok tokenLineCount ds; tok tokenLineCountMeta (lit "*")]
  | EOpen => [tok tokenOptionalLeftMeta (lit "(")]
  | EClose => [tok tokenOptionalRightMeta (lit ")")]
  | EBar => [tok tokenOrPatternMeta (lit "|")]
  end.

Definition renderAll (es : list elem) : str := concat (map render es).
Definition tokensAll (es : list elem) : list token :=
  concat (map tokensOf es).

Definition nonempty (s : str) : bool := negb (streq s []).

(** A count is digits, a class without [!] is one of the five keys, a
    text is plain. *)
Definition wfElem (e : elem) : bool :=
  match e with
  | EGroup ds strict c =>
      nonempty ds && forallb isDigitByte ds && isAscii c
      && (strict || isCharSetSpecifier (byteZ c))
  | ELit s => nonempty s && forallb plainByte s
  | ELines ds => nonempty ds && forallb isDigitByte ds
  | _ => true
  end.

(** Two texts do not stand side by side: they would be one text. *)
Fixpoint wfSeq (es : list elem) : bool :=
  match es with
  | [] => true
  | e :: es' =>
      wfElem e && wfSeq es'
      && match e, es' with
         | ELit _, ELit _ :: _ => false
         | _, _ => true
         end
  end.

(** The state function that takes a piece up. *)
Definition stateOf (e : elem) : stateFn :=
  match e with
  | EGroup _ _ _ | ELines _ => lexNumber
  | ELit _ => lexLiteral
  | EOpen => lexOptionalLeftMeta
  | EClose => lexOptionalRightMeta
  | EBar => lexOrPatternMeta
  end.

Section Lexer.

Variable isDigitAboveLatin1 : rune -> bool.

Local Abbreviation IsDigit := (IsDigit isDigitAboveLatin1).
Local Abbreviation lexLiteralLoop := (lexLiteralLoop isDigitAboveLatin1).
Local Abbreviation lexNumberLoop := (lexNumberLoop isDigitAboveLatin1).
Local Abbreviation runState := (runState isDigitAboveLatin1).
Local Abbreviation run := (run isDigitAboveLatin1).
Local Abbreviation lex := (lex isDigitAboveLatin1).

Ltac bind_returns :=
  simpl mbind;
  change (outcome_bind _ _ ?k (Returns ?a)) with (k a); cbv beta iota.

(** *** Fuel *)

Lemma lexNumberLoop_mono (fuel : nat) :
  forall (fuel' : nat) (l : lexer) r,
    lexNumberLoop fuel l = Returns r -> (fuel <= fuel')%nat ->
    lexNumberLoop fuel' l = Returns r.
Proof.
  induction fuel as [| fuel IH]; intros fuel' l r H Hf; [discriminate |].
  destruct fuel' as [| fuel']; [lia |].
  cbn [pattern.lexNumberLoop] in *.
  destruct (next l) as [[l1 c] | |]; cbn [mbind outcome_bind] in *;
    try discriminate.
  destruct (IsDigit c); [apply IH; [exact H | lia] | exact H].
Qed.

Lemma lexLiteralLoop_mono (fuel : nat) :
  forall (fuel' : nat) (l : lexer) (d : Z) r,
    lexLiteralLoop fuel l d = Returns r -> (fuel <= fuel')%nat ->
    lexLiteralLoop fuel' l d = Returns r.
Proof.
  induction fuel as [| fuel IH]; intros fuel' l d r H Hf; [discriminate |].
  destruct fuel' as [| fuel']; [lia |].
  cbn [pattern.lexLiteralLoop] in *.
  destruct (next l) as [[l1 c] | |]; cbn [mbind outcome_bind] in *;
    try discriminate.
  repeat match goal with
         | |- context [if ?b then _ else _] =>
             lazymatch b with
             | context [pattern.lexLiteralLoop] => fail
             | _ => destruct b
             end
         end; first [exact H | apply IH; [exact H | lia]].
Qed.

Lemma patternState_mono (fuel fuel' : nat) (s : stateFn) (l : lexer) r :
  runState fuel s l = Returns r -> (fuel <= fuel')%nat ->
  runState fuel' s l = Returns r.
Proof.
  destruct s; cbn [pattern.runState]; intros H Hf; try exact H.
  - eapply lexNumberLoop_mono; eauto.
  - eapply lexLiteralLoop_mono; eauto.
Qed.

Lemma run_mono (fuel : nat) :
  forall (fuel' : nat) (s : stateFn) (l : lexer) r,
    run fuel s l = Returns r -> (fuel <= fuel')%nat ->
    run fuel' s l = Returns r.
Proof.
  induction fuel as [| fuel IH]; intros fuel' s l r H Hf; [discriminate |].
  destruct fuel' as [| fuel']; [lia |].
  cbn [pattern.run] in *.
  destruct (runState fuel s l) as [[l1 nx] | |] eqn:E;
    cbn [mbind outcome_bind] in H; try discriminate.
  rewrite (patternState_mono fuel fuel' s l _ E) by lia.
  cbn [mbind outcome_bind].
  destruct nx as [s' |]; [apply IH; [exact H | lia] | exact H].
Qed.

(** From [s] with [l] the run ends with the tokens [ts] sent. *)
Definition finishes (s : stateFn) (l : lexer) (ts : list token) : Prop :=
  exists fuel l', run fuel s l = Returns l' /\ tokens l' = ts.

Lemma finishes_step (s s' : stateFn) (l l' : lexer) (ts : list token)
    (f0 : nat) :
  (forall fuel, (f0 <= fuel)%nat ->
                runState fuel s l = Returns (l', Some s')) ->
  finishes s' l' ts -> finishes s l ts.
Proof.
  intros H (fuel & lf & Hr & Ht). exists (S (max f0 fuel)), lf.
  split; [| exact Ht]. cbn [pattern.run]. rewrite H by lia.
  cbn [mbind outcome_bind]. eapply run_mono; [exact Hr | lia].
Qed.

(** *** The lexer between two bytes *)

(** The lexer that has read [pre] and has [rest] before it. *)
Definition L (pre rest : str) (st w : Z) (toks : list token) : lexer :=
  {| input := pre ++ rest; pos := len pre; start := st; width := w;
     tokens := toks |}.

Lemma L_snoc (pre : str) (c : ascii) (rest : str) (st w : Z)
    (toks : list token) :
  {| input := pre ++ c :: rest; pos := len pre + 1; start := st;
     width := w; tokens := toks |}
  = L (pre ++ [c]) rest st w toks.
Proof.
  unfold L. rewrite <- app_assoc, len_app. reflexivity.
Qed.

Lemma next_L (pre : str) (c : ascii) (rest : str) (st w : Z)
    (toks : list token) :
  byteZ c < 128 ->
  next (L pre (c :: rest) st w toks)
  = Returns (L (pre ++ [c]) rest st 1 toks, byteZ c).
Proof.
  intros Hc. unfold L at 1.
  pose proof (PatternSpec.next_ascii pre c rest st w toks Hc) as H.
  unfold PatternSpec.mkLexer in H. rewrite H, L_snoc. reflexivity.
Qed.

Lemma next_L_end (pre : str) (st w : Z) (toks : list token) :
  next (L pre [] st w toks) = Returns (L pre [] st w toks, eof).
Proof.
  unfold next, L. cbn [input pos]. rewrite app_nil_r, Z.leb_refl.
  reflexivity.
Qed.

Lemma backup_L (pre : str) (c : ascii) (rest : str) (st : Z)
    (toks : list token) :
  backup (L (pre ++ [c]) rest st 1 toks) = L pre (c :: rest) st 1 toks.
Proof.
  unfold backup, setPos, L. cbn [input pos start width tokens].
  rewrite <- app_assoc, len_app. f_equal. change (len [c]) with 1. lia.
Qed.

Lemma emit_L (a b rest : str) (w : Z) (toks : list token) (t : tokenType) :
  emit (L (a ++ b) rest (len a) w toks) t
  = Returns (L (a ++ b) rest (len (a ++ b)) w (toks ++ [tok t b])).
Proof.
  unfold L. rewrite <- app_assoc.
  pose proof (PatternSpec.emit_middle a b rest w toks t) as H.
  unfold PatternSpec.mkLexer in H. rewrite len_app. exact H.
Qed.

Lemma digit_tests (d : ascii) :
  isDigitByte d = true ->
  byteZ d < 128
  /\ IsDigit (byteZ d) = true
  /\ (byteZ d =? eof) = false
  /\ (byteZ d =? optionalLeftMetaRune) = false
  /\ (byteZ d =? optionalRightMetaRune) = false
  /\ (byteZ d =? orPatternMetaRune) = false
  /\ (byteZ d =? charCountStrictMetaRune) = false
  /\ isCharSetSpecifier (byteZ d) = false
  /\ (byteZ d =? lineCountMetaRune) = false.
Proof.
  intros H. pose proof (isDigitByte_ascii d H) as Hlt.
  split; [exact Hlt |].
  split; [apply PatternSpec.IsDigit_digit; exact H |].
  unfold isDigitByte in H. apply andb_prop in H as [H1 H2].
  apply Z.leb_le in H1, H2.
  unfold eof, optionalLeftMetaRune, optionalRightMetaRune,
    orPatternMetaRune, charCountStrictMetaRune, lineCountMetaRune,
    isCharSetSpecifier.
  repeat split;
    repeat match goal with
           | |- (_ || _) = false => apply orb_false_intro
           end;
    apply Z.eqb_neq; lia.
Qed.

(** [lexNumber] passes digits. *)
Lemma numLoop_digits (ds : str) :
  forall (pre rest : str) (fuel : nat) (st : Z) (toks : list token),
    forallb isDigitByte ds = true ->
    lexNumberLoop (length ds + fuel) (L pre (ds ++ rest) st 1 toks)
    = lexNumberLoop fuel (L (pre ++ ds) rest st 1 toks).
Proof.
  induction ds as [| d ds IH]; intros pre rest fuel st toks H.
  - simpl. rewrite app_nil_r. reflexivity.
  - simpl in H. apply andb_prop in H as [Hd Hds].
    destruct (digit_tests d Hd) as (Hlt & Hdig & _).
    cbn [length Nat.add app pattern.lexNumberLoop].
    rewrite next_L by exact Hlt. bind_returns. rewrite Hdig.
    rewrite IH by exact Hds. rewrite <- app_assoc. reflexivity.
Qed.

(** [lexLiteral] passes digits and counts them. *)
Lemma litLoop_digits (ds : str) :
  forall (pre rest : str) (fuel : nat) (st d : Z) (toks : list token),
    forallb isDigitByte ds = true ->
    lexLiteralLoop (length ds + fuel) (L pre (ds ++ rest) st 1 toks) d
    = lexLiteralLoop fuel (L (pre ++ ds) rest st 1 toks) (d + len ds).
Proof.
  induction ds as [| c ds IH]; intros pre rest fuel st d toks H.
  - simpl. rewrite app_nil_r. change (len []) with 0.
    rewrite Z.add_0_r. reflexivity.
  - simpl in H. apply andb_prop in H as [Hd Hds].
    destruct (digit_tests c Hd)
      as (Hlt & Hdig & He & H1 & H2 & H3 & H4 & H5 & H6).
    cbn [length Nat.add app pattern.lexLiteralLoop].
    rewrite next_L by exact Hlt. bind_returns.
    rewrite He, H1, H2, H3, H4, H5, H6, Hdig.
    cbn [orb]. rewrite andb_false_r.
    rewrite IH by exact Hds. rewrite <- app_assoc, len_cons.
    f_equal. lia.
Qed.

(** [lexLiteral] passes plain bytes. *)
Lemma litLoop_plain (s : str) :
  forall (pre rest : str) (fuel : nat) (st : Z) (toks : list token),
    forallb plainByte s = true ->
    lexLiteralLoop (length s + fuel) (L pre (s ++ rest) st 1 toks) 0
    = lexLiteralLoop fuel (L (pre ++ s) rest st 1 toks) 0.
Proof.
  induction s as [| c s IH]; intros pre rest fuel st toks H.
  - simpl. rewrite app_nil_r. reflexivity.
  - simpl in H. apply andb_prop in H as [Hc Hs].
    destruct (CompileSpec.plainByte_tests isDigitAboveLatin1 c Hc)
      as (Hlt & He & Hdig & H1 & H2 & H3).
    cbn [length Nat.add app pattern.lexLiteralLoop].
    rewrite next_L by exact Hlt. bind_returns.
    rewrite He, H1, H2, H3, Hdig. cbn [Z.ltb Z.compare andb].
    rewrite IH by exact Hs. rewrite <- app_assoc. reflexivity.
Qed.

(** *** The state functions *)

(** What can stand behind a count. *)
Inductive follows : ascii -> tokenType -> stateFn -> Prop :=
| follows_lines : follows "*" tokenLineCount lexItemLineCountMeta
| follows_strict : follows "!" tokenCharCount lexItemCharCountStrictMeta
| follows_class (c : ascii) :
    isAscii c = true -> isCharSetSpecifier (byteZ c) = true ->
    follows c tokenCharCount lexCharSet.

Lemma follows_tests (r : ascii) (t : tokenType) (nx : stateFn) :
  follows r t nx ->
  byteZ r < 128
  /\ IsDigit (byteZ r) = false
  /\ (byteZ r =? eof) = false
  /\ (byteZ r =? optionalLeftMetaRune) = false
  /\ (byteZ r =? optionalRightMetaRune) = false
  /\ (byteZ r =? orPatternMetaRune) = false
  /\ ((byteZ r =? charCountStrictMetaRune) || isCharSetSpecifier (byteZ r)
      || (byteZ r =? lineCountMetaRune)) = true.
Proof.
  intros H. destruct H as [| | c Ha Hk].
  - repeat split.
  - repeat split.
  - unfold isAscii in Ha. apply Z.ltb_lt in Ha.
    assert (Hcases : byteZ c = 110 \/ byteZ c = 97 \/ byteZ c = 99
                     \/ byteZ c = 120 \/ byteZ c = 100).
    { unfold isCharSetSpecifier in Hk.
      repeat (apply orb_prop in Hk as [Hk | Hk]); lia. }
    split; [exact Ha |].
    split.
    { unfold pattern.IsDigit. destruct (byteZ c <=? 255) eqn:E; [| lia].
      destruct Hcases as [-> | [-> | [-> | [-> | ->]]]]; reflexivity. }
    rewrite Hk, orb_true_r.
    unfold eof, optionalLeftMetaRune, optionalRightMetaRune,
      orPatternMetaRune.
    repeat split; try (apply Z.eqb_neq; lia).
Qed.

Lemma lexNumber_L (ds : str) (r : ascii) (t : tokenType) (nx : stateFn)
    (pre rest : str) (toks : list token) (fuel : nat) :
  forallb isDigitByte ds = true -> follows r t nx ->
  (length ds + 1 <= fuel)%nat ->
  runState fuel lexNumber (L pre (ds ++ r :: rest) (len pre) 1 toks)
  = Returns (L (pre ++ ds) (r :: rest) (len (pre ++ ds)) 1
               (toks ++ [tok t ds]), Some nx).
Proof.
  intros Hd Hr Hf. cbn [pattern.runState].
  replace fuel with (length ds + S (fuel - length ds - 1))%nat by lia.
  rewrite numLoop_digits by exact Hd.
  cbn [pattern.lexNumberLoop].
  destruct (follows_tests r t nx Hr) as (Hlt & Hdig & _).
  rewrite next_L by exact Hlt. bind_returns. rewrite Hdig.
  rewrite backup_L.
  destruct Hr as [| | c Ha Hk].
  - change (byteZ "*" =? lineCountMetaRune) with true. cbv iota.
    rewrite emit_L. reflexivity.
  - change (byteZ "!" =? lineCountMetaRune) with false.
    change (byteZ "!" =? charCountStrictMetaRune) with true. cbv iota.
    rewrite emit_L. reflexivity.
  - assert (Hcases : byteZ c = 110 \/ byteZ c = 97 \/ byteZ c = 99
                     \/ byteZ c = 120 \/ byteZ c = 100).
    { unfold isCharSetSpecifier in Hk.
      repeat (apply orb_prop in Hk as [Hk | Hk]); lia. }
    assert (H1 : (byteZ c =? lineCountMetaRune) = false)
      by (unfold lineCountMetaRune; apply Z.eqb_neq; lia).
    assert (H2 : (byteZ c =? charCountStrictMetaRune) = false)
      by (unfold charCountStrictMetaRune; apply Z.eqb_neq; lia).
    rewrite H1, H2, Hk. rewrite emit_L. reflexivity.
Qed.

(** A state function that reads one byte and sends it. *)
Lemma readEmit_L (pre : str) (c : ascii) (rest : str) (w : Z)
    (toks : list token) (t : tokenType) (nx : stateFn) :
  isAscii c = true ->
  ('(l, _) ← next (L pre (c :: rest) (len pre) w toks);
   l ← emit l t; Returns (l, Some nx))
  = Returns (L (pre ++ [c]) rest (len (pre ++ [c])) 1
               (toks ++ [tok t [c]]), Some nx).
Proof.
  intros Hc. unfold isAscii in Hc. apply Z.ltb_lt in Hc.
  rewrite next_L by exact Hc. bind_returns.
  rewrite emit_L. reflexivity.
Qed.

(** [lexLiteral] on a plain text at the end of the pattern. *)
Lemma lexLiteral_end (s pre : str) (toks : list token) (fuel : nat) :
  forallb plainByte s = true -> (length s + 1 <= fuel)%nat ->
  runState fuel lexLiteral (L pre (s ++ []) (len pre) 1 toks)
  = Returns (L (pre ++ s) [] (len (pre ++ s)) 1 (toks ++ [tok tokenLiteral s]),
             Some lexToPattern).
Proof.
  intros Hs Hf. cbn [pattern.runState].
  replace fuel with (length s + S (fuel - length s - 1))%nat by lia.
  rewrite litLoop_plain by exact Hs.
  cbn [pattern.lexLiteralLoop]. rewrite next_L_end. bind_returns.
  change (eof =? eof) with true. cbv iota.
  rewrite emit_L. reflexivity.
Qed.

(** [lexLiteral] on a plain text before one of the three signs. *)
Lemma lexLiteral_sign (s pre rest : str) (e : elem) (toks : list token)
    (fuel : nat) :
  forallb plainByte s = true -> (length s + 1 <= fuel)%nat ->
  e = EOpen \/ e = EClose \/ e = EBar ->
  runState fuel lexLiteral (L pre (s ++ render e ++ rest) (len pre) 1 toks)
  = Returns (L (pre ++ s) (render e ++ rest) (len (pre ++ s)) 1
               (toks ++ [tok tokenLiteral s]), Some (stateOf e)).
Proof.
  intros Hs Hf He. cbn [pattern.runState].
  replace fuel with (length s + S (fuel - length s - 1))%nat by lia.
  rewrite litLoop_plain by exact Hs.
  cbn [pattern.lexLiteralLoop].
  destruct He as [-> | [-> | ->]]; cbn [render app lit];
    (rewrite next_L by reflexivity); bind_returns;
    rewrite backup_L, emit_L; reflexivity.
Qed.

(** [lexLiteral] on a plain text before a count: the digits read are
    given back. *)
Lemma lexLiteral_count (s ds pre rest : str) (r : ascii) (t : tokenType)
    (nx : stateFn) (toks : list token) (fuel : nat) :
  forallb plainByte s = true -> forallb isDigitByte ds = true ->
  ds <> [] -> follows r t nx ->
  (length s + length ds + 1 <= fuel)%nat ->
  runState fuel lexLiteral
    (L pre (s ++ ds ++ r :: rest) (len pre) 1 toks)
  = Returns (L (pre ++ s) (ds ++ r :: rest) (len (pre ++ s)) 1
               (toks ++ [tok tokenLiteral s]), Some lexNumber).
Proof.
  intros Hs Hd Hne Hr Hf. cbn [pattern.runState].
  replace fuel
    with (length s + (length ds + S (fuel - length s - length ds - 1)))%nat
    by lia.
  rewrite litLoop_plain by exact Hs.
  rewrite litLoop_digits by exact Hd.
  cbn [pattern.lexLiteralLoop].
  destruct (follows_tests r t nx Hr) as (Hlt & Hdig & He & H1 & H2 & H3 & Hres).
  rewrite next_L by exact Hlt. bind_returns.
  rewrite He, H1, H2, H3, Hres.
  assert (Hpos : (0 <? 0 + len ds) = true).
  { apply Z.ltb_lt. pose proof (MatcherSpec.len_pos ds Hne). lia. }
  rewrite Hpos. cbn [andb].
  assert (Hback : setPos (L (((pre ++ s) ++ ds) ++ [r]) rest (len pre) 1 toks)
                    (len (((pre ++ s) ++ ds) ++ [r]) - (0 + len ds + 1))
                  = L (pre ++ s) (ds ++ r :: rest) (len pre) 1 toks).
  { unfold setPos, L. cbn [input pos start width tokens].
    rewrite <- !app_assoc. cbn [app]. f_equal.
    rewrite !len_app. change (len [r]) with 1. lia. }
  rewrite Hback, emit_L. reflexivity.
Qed.

(** [lexToPattern] looks at the first byte of a piece and hands over. *)
Lemma lexToPattern_L (e : elem) (pre rest : str) (w : Z)
    (toks : list token) (fuel : nat) :
  wfElem e = true ->
  runState fuel lexToPattern (L pre (render e ++ rest) (len pre) w toks)
  = Returns (L pre (render e ++ rest) (len pre) 1 toks, Some (stateOf e)).
Proof.
  intros Hw. cbn [pattern.runState].
  assert (Hdigits : forall ds tl,
             nonempty ds && forallb isDigitByte ds = true ->
             ('(l, r) ← next (L pre ((ds ++ tl) ++ rest) (len pre) w toks);
              if r =? eof then l0 ← emit l tokenEOF; Returns (l0, None)
              else if IsDigit r then Returns (backup l, Some lexNumber)
              else if r =? optionalLeftMetaRune
              then Returns (backup l, Some lexOptionalLeftMeta)
              else if r =? optionalRightMetaRune
              then Returns (backup l, Some lexOptionalRightMeta)
              else if r =? orPatternMetaRune
              then Returns (backup l, Some lexOrPatternMeta)
              else Returns (backup l, Some lexLiteral))
             = Returns (L pre ((ds ++ tl) ++ rest) (len pre) 1 toks,
                        Some lexNumber)).
  { intros ds tl H. apply andb_prop in H as [Hne Hd].
    destruct ds as [| d ds]; [discriminate |].
    simpl in Hd. apply andb_prop in Hd as [Hd _].
    destruct (digit_tests d Hd) as (Hlt & Hdig & He & _).
    cbn [app]. rewrite next_L by exact Hlt. bind_returns.
    rewrite He, Hdig, backup_L. reflexivity. }
  destruct e as [ds strict c | s | ds | | |]; cbn [wfElem render stateOf] in *.
  - apply Hdigits. repeat (apply andb_prop in Hw as [Hw ?]).
    apply andb_true_intro. split; assumption.
  - apply andb_prop in Hw as [Hne Hs].
    destruct s as [| c s]; [discriminate |].
    simpl in Hs. apply andb_prop in Hs as [Hc _].
    destruct (CompileSpec.plainByte_tests isDigitAboveLatin1 c Hc)
      as (Hlt & He & Hdig & H1 & H2 & H3).
    cbn [app]. rewrite next_L by exact Hlt. bind_returns.
    rewrite He, Hdig, H1, H2, H3, backup_L. reflexivity.
  - apply Hdigits. exact Hw.
  - cbn [app lit]. rewrite next_L by reflexivity. bind_returns.
    rewrite backup_L. reflexivity.
  - cbn [app lit]. rewrite next_L by reflexivity. bind_returns.
    rewrite backup_L. reflexivity.
  - cbn [app lit]. rewrite next_L by reflexivity. bind_returns.
    rewrite backup_L. reflexivity.
Qed.

Lemma lexToPattern_L_end (pre : str) (w : Z) (toks : list token)
    (fuel : nat) :
  runState fuel lexToPattern (L pre [] (len pre) w toks)
  = Returns (L pre [] (len pre) w (toks ++ [tok tokenEOF []]), None).
Proof.
  cbn [pattern.runState]. rewrite next_L_end. bind_returns.
  pose proof (emit_L pre [] [] w toks tokenEOF) as H.
  rewrite app_nil_r in H. rewrite H. reflexivity.
Qed.

Lemma finishes_eq (s : stateFn) (l : lexer) (ts ts' : list token) :
  finishes s l ts -> ts = ts' -> finishes s l ts'.
Proof. intros H <-. exact H. Qed.

Ltac by_hyp H :=
  eapply finishes_eq; [apply H | rewrite <- ?app_assoc; reflexivity].

Ltac meta_then :=
  eapply (finishes_step _ _ _ _ _ 0);
  [ intros fuel _; cbn [pattern.runState lexMeta];
    apply readEmit_L; first [reflexivity | assumption] | ].

(** The pieces of a pattern, one after the other. *)
Lemma seq_finishes (es : list elem) :
  forall (pre : str) (toks : list token),
    wfSeq es = true ->
    (forall w,
        finishes lexToPattern (L pre (renderAll es) (len pre) w toks)
          (toks ++ tokensAll es ++ [tok tokenEOF []]))
    /\ match es with
       | e :: _ =>
           finishes (stateOf e) (L pre (renderAll es) (len pre) 1 toks)
             (toks ++ tokensAll es ++ [tok tokenEOF []])
       | [] => True
       end.
Proof.
  induction es as [| e es IH]; intros pre toks Hw.
  - split; [| exact I]. intros w. exists 1%nat. eexists.
    split; [cbn [pattern.run]; rewrite lexToPattern_L_end; reflexivity |].
    reflexivity.
  - cbn [wfSeq] in Hw. apply andb_prop in Hw as [Hw Hadj].
    apply andb_prop in Hw as [He Hes].
    assert (IH1 : forall pre toks w,
               finishes lexToPattern (L pre (renderAll es) (len pre) w toks)
                 (toks ++ tokensAll es ++ [tok tokenEOF []]))
      by (intros; apply IH; exact Hes).
    assert (Hsecond :
              finishes (stateOf e)
                (L pre (renderAll (e :: es)) (len pre) 1 toks)
                (toks ++ tokensAll (e :: es) ++ [tok tokenEOF []])).
    { unfold renderAll, tokensAll. cbn [map concat].
      fold (renderAll es). fold (tokensAll es).
      destruct e as [ds strict c | s | ds | | |];
        cbn [wfElem render tokensOf stateOf] in *.
      - repeat (apply andb_prop in He as [He ?]).
        destruct strict; cbn [app lit] in *.
        + rewrite <- !app_assoc. cbn [app].
          eapply (finishes_step _ _ _ _ _ (length ds + 1));
            [intros fuel Hf; apply lexNumber_L;
             [assumption | apply follows_strict | exact Hf] |].
          meta_then. meta_then.
          rewrite <- !app_assoc. cbn [app].
          replace (pre ++ ds ++ ["!"%char; c])
            with (((pre ++ ds) ++ ["!"%char]) ++ [c])
            by (rewrite <- !app_assoc; reflexivity).
          by_hyp IH1.
        + rewrite <- !app_assoc. cbn [app].
          eapply (finishes_step _ _ _ _ _ (length ds + 1));
            [intros fuel Hf; apply lexNumber_L;
             [assumption | apply follows_class; assumption | exact Hf] |].
          meta_then.
          rewrite <- !app_assoc. cbn [app].
          replace (pre ++ ds ++ [c]) with ((pre ++ ds) ++ [c])
            by (rewrite <- !app_assoc; reflexivity).
          by_hyp IH1.
      - apply andb_prop in He as [Hne Hs].
        destruct es as [| e' es'].
        + cbn [renderAll tokensAll map concat app].
          eapply (finishes_step _ _ _ _ _ (length s + 1));
            [intros fuel Hf; apply lexLiteral_end; assumption |].
          by_hyp IH1.
        + pose proof (proj2 (IH (pre ++ s) (toks ++ [tok tokenLiteral s])
                               Hes)) as IH2.
          cbn [wfSeq] in Hes. apply andb_prop in Hes as [Hes' _].
          apply andb_prop in Hes' as [He' _].
          unfold renderAll in *. cbn [map concat] in *.
          destruct e' as [ds strict c | s' | ds | | |];
            cbn [wfElem render stateOf] in *; try discriminate.
          * repeat (apply andb_prop in He' as [He' ?]).
            assert (Hds : ds <> []) by (destruct ds; [discriminate | congruence]).
            destruct strict; cbn [app lit] in *;
              rewrite <- !app_assoc in *; cbn [app] in *.
            -- eapply (finishes_step _ _ _ _ _ (length s + length ds + 1));
                 [intros fuel Hf; eapply lexLiteral_count;
                  [assumption | assumption | exact Hds | apply follows_strict
                  | exact Hf] |].
               by_hyp IH2.
            -- eapply (finishes_step _ _ _ _ _ (length s + length ds + 1));
                 [intros fuel Hf; eapply lexLiteral_count;
                  [assumption | assumption | exact Hds
                  | apply follows_class; assumption | exact Hf] |].
               by_hyp IH2.
          * apply andb_prop in He' as [Hne' Hd'].
            assert (Hds : ds <> []) by (destruct ds; [discriminate | congruence]).
            cbn [app lit] in *. rewrite <- !app_assoc in *. cbn [app] in *.
            eapply (finishes_step _ _ _ _ _ (length s + length ds + 1));
              [intros fuel Hf; eapply lexLiteral_count;
               [assumption | assumption | exact Hds | apply follows_lines
               | exact Hf] |].
            by_hyp IH2.
          * eapply (finishes_step _ _ _ _ _ (length s + 1));
              [intros fuel Hf;
               apply (lexLiteral_sign s pre _ EOpen); auto |].
            by_hyp IH2.
          * eapply (finishes_step _ _ _ _ _ (length s + 1));
              [intros fuel Hf;
               apply (lexLiteral_sign s pre _ EClose); auto |].
            by_hyp IH2.
          * eapply (finishes_step _ _ _ _ _ (length s + 1));
              [intros fuel Hf;
               apply (lexLiteral_sign s pre _ EBar); auto |].
            by_hyp IH2.
      - apply andb_prop in He as [Hne Hd].
        cbn [app lit]. rewrite <- !app_assoc. cbn [app].
        eapply (finishes_step _ _ _ _ _ (length ds + 1));
          [intros fuel Hf; apply lexNumber_L;
           [assumption | apply follows_lines | exact Hf] |].
        meta_then.
        rewrite <- !app_assoc. cbn [app].
        replace (pre ++ ds ++ ["*"%char]) with ((pre ++ ds) ++ ["*"%char])
          by (rewrite <- !app_assoc; reflexivity).
        by_hyp IH1.
      - cbn [app lit]. meta_then. by_hyp IH1.
      - cbn [app lit]. meta_then. by_hyp IH1.
      - cbn [app lit]. meta_then. by_hyp IH1. }
    split; [| exact Hsecond]. intros w.
    eapply (finishes_step _ _ _ _ _ 0); [| exact Hsecond].
    intros fuel _. unfold renderAll. cbn [map concat].
    apply lexToPattern_L. exact He.
Qed.

Lemma wfSeq_ascii (es : list elem) :
  wfSeq es = true -> forallb isAscii (renderAll es) = true.
Proof.
  assert (Hdig : forall ds, forallb isDigitByte ds = true ->
                            forallb isAscii ds = true).
  { induction ds as [| d ds IHd]; [reflexivity |]. simpl.
    intros H. apply andb_prop in H as [Hd Hds]. rewrite (IHd Hds).
    unfold isAscii. pose proof (isDigitByte_ascii d Hd) as Hlt.
    apply Z.ltb_lt in Hlt. rewrite Hlt. reflexivity. }
  assert (Hplain : forall s, forallb plainByte s = true ->
                             forallb isAscii s = true).
  { induction s as [| c s IHs]; [reflexivity |]. simpl.
    intros H. apply andb_prop in H as [Hc Hs]. rewrite (IHs Hs).
    destruct (CompileSpec.plainByte_tests isDigitAboveLatin1 c Hc)
      as (Hlt & _).
    unfold isAscii. apply Z.ltb_lt in Hlt. rewrite Hlt. reflexivity. }
  induction es as [| e es IH]; [reflexivity |].
  cbn [wfSeq]. intros Hw. apply andb_prop in Hw as [Hw _].
  apply andb_prop in Hw as [He Hes].
  unfold renderAll. cbn [map concat]. rewrite forallb_app.
  fold (renderAll es). rewrite (IH Hes), andb_true_r.
  destruct e as [ds strict c | s | ds | | |]; cbn [wfElem render] in *;
    try reflexivity.
  - repeat (apply andb_prop in He as [He ?]).
    rewrite !forallb_app. rewrite (Hdig ds) by assumption.
    destruct strict; simpl; rewrite ?andb_true_r; assumption.
  - apply andb_prop in He as [_ Hs]. apply Hplain, Hs.
  - apply andb_prop in He as [_ Hd]. rewrite forallb_app.
    rewrite (Hdig ds Hd). reflexivity.
Qed.

(** The tokens of a pattern made of such pieces. *)
Lemma lex_pieces (es : list elem) (fuel : nat) :
  wfSeq es = true ->
  (9 * length (renderAll es) + 5 <= fuel)%nat ->
  lex fuel (renderAll es) = Returns (tokensAll es ++ [tok tokenEOF []]).
Proof.
  intros Hw Hf.
  destruct (seq_finishes es [] [] Hw) as [H _].
  destruct (H 0) as (f0 & l0 & Hr0 & Ht0).
  change (L [] (renderAll es) (len []) 0 [])
    with {| input := renderAll es; pos := 0; start := 0; width := 0;
            tokens := [] |} in Hr0.
  pose proof (len_nonneg (renderAll es)) as Hl.
  destruct (TokenSpec.run_ok isDigitAboveLatin1 (renderAll es)
              (wfSeq_ascii es Hw) fuel lexToPattern
              {| input := renderAll es; pos := 0; start := 0; width := 0;
                 tokens := [] |})
    as (l' & Hr & _).
  - unfold TokenSpec.Inv. cbn [input start pos tokens].
    repeat split; try lia.
  - reflexivity.
  - unfold TokenSpec.weight. cbn [start pos TokenSpec.rank].
    unfold len. lia.
  - unfold pattern.lex. rewrite Hr. cbn [mbind outcome_bind].
    pose proof (run_mono f0 (max f0 fuel) _ _ _ Hr0 ltac:(lia)) as H1.
    pose proof (run_mono fuel (max f0 fuel) _ _ _ Hr ltac:(lia)) as H2.
    rewrite H1 in H2. injection H2 as <-. rewrite Ht0. reflexivity.
Qed.

End Lexer.

(** *** The parser on groups and plain texts *)

Definition flat (e : elem) : bool :=
  match e with
  | EGroup _ _ _ | ELit _ => true
  | _ => false
  end.

Definition isGroup (e : elem) : bool :=
  match e with
  | EGroup _ _ _ => true
  | _ => false
  end.

(** The node of a group or a text. *)
Definition nodeOf (e : elem) : ast.Node :=
  match e with
  | EGroup ds strict c => ast.CharGroup (fst (Atoi ds)) strict [c]
  | ELit s => ast.Literal s
  | _ => ast.Pattern []
  end.

(** The matcher of a group or a text; it is the same on every line. *)
Definition matcherOf (e : elem) : ValidatesPartially :=
  match e with
  | EGroup ds strict c =>
      Group (astCharGroupToCharGroup (fst (Atoi ds)) strict [c])
  | ELit s => Literal s
  | _ => Seq []
  end.

Lemma matcherOf_node (e : elem) (line : Z) :
  flat e = true -> astNodeToPartialValidator (nodeOf e) line = matcherOf e.
Proof. destruct e; try discriminate; reflexivity. Qed.

Lemma matchers_nodes (fs : list elem) (line : Z) :
  forallb flat fs = true ->
  map (fun n => astNodeToPartialValidator n line) (map nodeOf fs)
  = map matcherOf fs.
Proof.
  induction fs as [| e fs IH]; [reflexivity |]. simpl.
  intros H. apply andb_prop in H as [He Hfs].
  rewrite (matcherOf_node e line He), (IH Hfs). reflexivity.
Qed.

(** The parser at the first token of [after]. *)
Definition PA (before after : list token) : parser :=
  {| ptokens := before ++ after; currTokenIndex := len0 before;
     currToken := tokenAt (before ++ after) (len0 before) |}.

Lemma tokenAt_middle (before : list token) (t : token)
    (after : list token) :
  tokenAt (before ++ t :: after) (len0 before) = t.
Proof.
  unfold tokenAt, len0. rewrite Nat2Z.id.
  rewrite nth_middle. reflexivity.
Qed.

Lemma currToken_PA (before : list token) (t : token) (after : list token) :
  currToken (PA before (t :: after)) = t.
Proof. apply tokenAt_middle. Qed.

Lemma pnext_PA (before : list token) (t t' : token) (after : list token) :
  pnext (PA before (t :: t' :: after)) = PA (before ++ [t]) (t' :: after).
Proof.
  unfold pnext, PA. cbn [currTokenIndex ptokens].
  assert (Hlt : (len0 before <? len0 (before ++ t :: t' :: after) - 1) = true).
  { apply Z.ltb_lt. unfold len0. rewrite length_app. simpl. lia. }
  rewrite Hlt. rewrite <- app_assoc. cbn [app]. f_equal.
  - unfold len0. rewrite length_app. simpl. lia.
  - f_equal. unfold len0. rewrite length_app. simpl. lia.
Qed.

(** At the last token [next] stays where it is. *)
Lemma pnext_PA_last (before : list token) (t : token) :
  pnext (PA before [t]) = PA before [t].
Proof.
  unfold pnext, PA. cbn [currTokenIndex ptokens].
  assert (Hge : (len0 before <? len0 (before ++ [t]) - 1) = false).
  { apply Z.ltb_ge. unfold len0. rewrite length_app. simpl. lia. }
  rewrite Hge. reflexivity.
Qed.

Lemma parse_start (fuel : nat) (t : token) (ts : list token) :
  parse fuel (t :: ts)
  = ('(_, r) ← parsePattern fuel (PA [] (t :: ts)) [] false;
     match r with
     | inr e => Returns (inr (ErrIn "could not create pattern ast" e))
     | inl astPattern => Returns (inl astPattern)
     end).
Proof.
  unfold parse.
  assert (Hp : pnext {| ptokens := t :: ts; currTokenIndex := -1;
                        currToken := zeroToken |} = PA [] (t :: ts)).
  { unfold pnext, PA. cbn [currTokenIndex ptokens app].
    assert (Hlt : (-1 <? len0 (t :: ts) - 1) = true).
    { apply Z.ltb_lt. unfold len0. simpl. lia. }
    rewrite Hlt. reflexivity. }
  rewrite Hp. reflexivity.
Qed.

(** The tokens of a group. *)
Lemma parseCharGroup_group (ds : str) (strict : bool) (c : ascii)
    (before after : list token) (fuel : nat) :
  (3 <= fuel)%nat ->
  exists before',
    parseCharGroup fuel
      (PA before (tokensOf (EGroup ds strict c) ++ after)) 0 false
    = Returns (PA before' (tok tokenCharSet [c] :: after),
               ast.CharGroup (fst (Atoi ds)) strict [c])
    /\ before' ++ [tok tokenCharSet [c]]
       = before ++ tokensOf (EGroup ds strict c).
Proof.
  intros Hf. destruct fuel as [| [| [| fuel]]]; try lia.
  destruct strict; cbn [tokensOf app].
  - cbn [parseCharGroup]. rewrite currToken_PA. cbn [typ tok val].
    rewrite pnext_PA. rewrite currToken_PA. cbn [typ tok val].
    rewrite pnext_PA. rewrite currToken_PA. cbn [typ tok val].
    eexists. split; [reflexivity |]. rewrite <- !app_assoc. reflexivity.
  - cbn [parseCharGroup]. rewrite currToken_PA. cbn [typ tok val].
    rewrite pnext_PA. rewrite currToken_PA. cbn [typ tok val].
    eexists. split; [reflexivity |]. rewrite <- !app_assoc. reflexivity.
Qed.

(** The four loops of the parser take a text and a group in the same
    way: the node joins the nodes of the loop, and the loop goes on
    behind it. *)
Section Loop.

Variable R : Type.
Variable loop : nat -> parser -> list ast.Node -> outcome R.
Variable ok : elem -> bool.

Hypothesis ok_flat : forall e, ok e = true -> flat e = true.

Hypothesis loop_literal : forall fuel p acc s,
  ok (ELit s) = true ->
  typ (currToken p) = tokenLiteral ->
  loop (S fuel) p acc
  = loop fuel (pnext p) (acc ++ [ast.Literal (val (currToken p))]).

Hypothesis loop_group : forall fuel p acc,
  typ (currToken p) = tokenCharCount ->
  loop (S fuel) p acc
  = ('(p, charGroup) ← parseCharGroup fuel p 0 false;
     loop fuel (pnext p) (acc ++ [charGroup])).

Lemma loop_run (fs : list elem) :
  forall (before after : list token) (acc : list ast.Node) (fuel : nat),
    forallb ok fs = true -> after <> [] ->
    (length fs + 3 <= fuel)%nat ->
    loop fuel (PA before (tokensAll fs ++ after)) acc
    = loop (fuel - length fs) (PA (before ++ tokensAll fs) after)
        (acc ++ map nodeOf fs).
Proof.
  induction fs as [| e fs IH]; intros before after acc fuel Hok Hne Hf.
  - simpl. rewrite !app_nil_r, Nat.sub_0_r. reflexivity.
  - simpl in Hok. apply andb_prop in Hok as [He Hfs].
    destruct fuel as [| fuel]; [simpl in Hf; lia |].
    unfold tokensAll. cbn [map concat length Nat.sub].
    fold (tokensAll fs).
    assert (Hrest : exists t' r, tokensAll fs ++ after = t' :: r).
    { destruct (tokensAll fs ++ after) as [| t' r] eqn:E.
      - apply app_eq_nil in E as [_ E]. congruence.
      - eauto. }
    destruct Hrest as (t' & r & Hrest).
    pose proof (ok_flat e He) as Hflat.
    destruct e as [ds strict c | s | ds | | |]; try discriminate.
    + rewrite loop_group
        by (cbn [tokensOf app]; rewrite currToken_PA; reflexivity).
      rewrite <- app_assoc.
      destruct (parseCharGroup_group ds strict c before
                  (tokensAll fs ++ after) fuel)
        as (before' & -> & Hb); [simpl in Hf; lia |].
      cbn [mbind outcome_bind]. rewrite Hrest, pnext_PA, <- Hrest, Hb.
      rewrite IH; [| exact Hfs | exact Hne | simpl in Hf; lia].
      cbn [map nodeOf]. rewrite <- !app_assoc. reflexivity.
    + cbn [tokensOf app].
      rewrite (loop_literal _ _ _ s He)
        by (rewrite currToken_PA; reflexivity).
      rewrite currToken_PA. cbn [tok val].
      rewrite Hrest, pnext_PA, <- Hrest.
      rewrite IH; [| exact Hfs | exact Hne | simpl in Hf; lia].
      cbn [map nodeOf]. rewrite <- !app_assoc. reflexivity.
Qed.

End Loop.

Lemma tokensAll_app (a b : list elem) :
  tokensAll (a ++ b) = tokensAll a ++ tokensAll b.
Proof. unfold tokensAll. rewrite map_app, concat_app. reflexivity. Qed.

Lemma wfSeq_length (es : list elem) :
  wfSeq es = true -> (length es <= length (renderAll es))%nat.
Proof.
  induction es as [| e es IH]; [simpl; lia |].
  cbn [wfSeq]. intros Hw. apply andb_prop in Hw as [Hw _].
  apply andb_prop in Hw as [He Hes]. specialize (IH Hes).
  unfold renderAll in *. cbn [map concat length]. rewrite length_app.
  assert (1 <= length (render e))%nat; [| lia].
  destruct e as [ds strict c | s | ds | | |]; cbn [wfElem render] in *;
    rewrite ?length_app; simpl; try lia.
  apply andb_prop in He as [He _]. destruct s; [discriminate | simpl; lia].
Qed.

Lemma parsePattern_run (lcf : bool) (fs : list elem)
    (before after : list token) (acc : list ast.Node) (fuel : nat) :
  forallb flat fs = true -> after <> [] ->
  (length fs + 3 <= fuel)%nat ->
  parsePattern fuel (PA before (tokensAll fs ++ after)) acc lcf
  = parsePattern (fuel - length fs) (PA (before ++ tokensAll fs) after)
      (acc ++ map nodeOf fs) lcf.
Proof.
  apply (loop_run _ (fun f p acc => parsePattern f p acc lcf) flat).
  - auto.
  - intros f p a s _ H. cbn [parsePattern]. rewrite H. reflexivity.
  - intros f p a H. cbn [parsePattern]. rewrite H. reflexivity.
Qed.

Lemma parseOptional_run (lmf lcf : bool) (fs : list elem)
    (before after : list token) (acc : list ast.Node) (fuel : nat) :
  forallb flat fs = true -> after <> [] ->
  (length fs + 3 <= fuel)%nat ->
  parseOptional fuel (PA before (tokensAll fs ++ after)) acc lmf lcf
  = parseOptional (fuel - length fs) (PA (before ++ tokensAll fs) after)
      (acc ++ map nodeOf fs) lmf lcf.
Proof.
  apply (loop_run _ (fun f p acc => parseOptional f p acc lmf lcf) flat).
  - auto.
  - intros f p a s _ H. cbn [parseOptional]. rewrite H. reflexivity.
  - intros f p a H. cbn [parseOptional]. rewrite H. reflexivity.
Qed.

Lemma parseOr_run (Left : ast.Node) (own : bool) (fs : list elem)
    (before after : list token) (acc : list ast.Node) (fuel : nat) :
  forallb flat fs = true -> after <> [] ->
  (length fs + 3 <= fuel)%nat ->
  parseOr fuel (PA before (tokensAll fs ++ after)) Left acc own
  = parseOr (fuel - length fs) (PA (before ++ tokensAll fs) after) Left
      (acc ++ map nodeOf fs) own.
Proof.
  apply (loop_run _ (fun f p acc => parseOr f p Left acc own) flat).
  - auto.
  - intros f p a s _ H. cbn [parseOr]. rewrite H. reflexivity.
  - intros f p a H. cbn [parseOr]. rewrite H. reflexivity.
Qed.

Lemma parseLineCount_run (n : Z) (set : bool) (fs : list elem)
    (before after : list token) (acc : list ast.Node) (fuel : nat) :
  forallb isGroup fs = true -> after <> [] ->
  (length fs + 3 <= fuel)%nat ->
  parseLineCount fuel (PA before (tokensAll fs ++ after)) n acc set
  = parseLineCount (fuel - length fs) (PA (before ++ tokensAll fs) after) n
      (acc ++ map nodeOf fs) set.
Proof.
  apply (loop_run _ (fun f p acc => parseLineCount f p n acc set) isGroup).
  - intros e H. destruct e; try discriminate; reflexivity.
  - intros f p a s H. discriminate.
  - intros f p a H. cbn [parseLineCount]. rewrite H. reflexivity.
Qed.

Section Shapes.

Variable isDigitAboveLatin1 : rune -> bool.

Local Abbreviation Parse := (Parse isDigitAboveLatin1).

(** [Parse] on the pieces: the loop of [parsePattern] at the first
    token. *)
Lemma Parse_pieces (es : list elem) (fuel : nat) :
  wfSeq es = true ->
  (9 * length (renderAll es) + 5 <= fuel)%nat ->
  Parse fuel (renderAll es)
  = ('(_, r) ← parsePattern fuel
                 (PA [] (tokensAll es ++ [tok tokenEOF []])) [] false;
     match r with
     | inr e =>
         Returns (inr (ErrIn "could not parse pattern"
                         (ErrIn "could not create pattern ast" e)))
     | inl astPattern => Returns (inl (process astPattern))
     end).
Proof.
  intros Hw Hf. unfold pattern.Parse.
  rewrite (lex_pieces isDigitAboveLatin1 es fuel Hw Hf).
  cbn [mbind outcome_bind].
  destruct (tokensAll es ++ [tok tokenEOF []]) as [| t ts] eqn:E.
  { apply app_eq_nil in E as [_ E]. discriminate. }
  rewrite parse_start.
  destruct (parsePattern fuel (PA [] (t :: ts)) [] false)
    as [[p [nodes | e]] | |]; reflexivity.
Qed.

Lemma parsePattern_end (fuel : nat) (before : list token)
    (acc : list ast.Node) (lcf : bool) :
  parsePattern (S fuel) (PA before [tok tokenEOF []]) acc lcf
  = Returns (PA before [tok tokenEOF []], inl acc).
Proof. cbn [parsePattern]. rewrite currToken_PA. reflexivity. Qed.

(** X24. A pattern that is a sequence of groups, each a count of digits
    with a class, strict or not, and plain texts compiles to the
    matchers of its pieces in their order: a group of the count, the
    strictness and the class written, and a literal for each text. *)
Theorem flat_pattern_compiles (fs : list elem) (fuel : nat) :
  forallb flat fs = true ->
  wfSeq fs = true ->
  (9 * length (renderAll fs) + 5 <= fuel)%nat ->
  Parse fuel (renderAll fs) = Returns (inl (map matcherOf fs)).
Proof.
  intros Hflat Hw Hf. pose proof (wfSeq_length fs Hw) as Hl.
  rewrite Parse_pieces by assumption.
  rewrite parsePattern_run by (try assumption; try discriminate; lia).
  destruct (fuel - length fs)%nat as [| f] eqn:E; [lia |].
  rewrite parsePattern_end. cbn [mbind outcome_bind app].
  unfold process, astPatternToPattern.
  rewrite matchers_nodes by exact Hflat. reflexivity.
Qed.

Lemma renderAll_app (a b : list elem) :
  renderAll (a ++ b) = renderAll a ++ renderAll b.
Proof. unfold renderAll. rewrite map_app, concat_app. reflexivity. Qed.

Lemma nonempty_tail (ts : list token) (t : token) :
  exists t' r, ts ++ [t] = t' :: r.
Proof. destruct ts as [| t' r]; simpl; eauto. Qed.

(** X25. A pattern with one optional part between parentheses, the
    parts before, within and behind made of groups and plain texts,
    compiles to the matchers of the part before, one optional matcher
    around the sequence of the matchers within, and the matchers of the
    part behind. *)
Theorem optional_pattern_compiles (fs1 fs2 fs3 : list elem) (fuel : nat) :
  forallb flat fs1 = true -> forallb flat fs2 = true ->
  forallb flat fs3 = true ->
  wfSeq (fs1 ++ [EOpen] ++ fs2 ++ [EClose] ++ fs3) = true ->
  (9 * length (renderAll (fs1 ++ [EOpen] ++ fs2 ++ [EClose] ++ fs3)) + 5
   <= fuel)%nat ->
  Parse fuel (renderAll (fs1 ++ [EOpen] ++ fs2 ++ [EClose] ++ fs3))
  = Returns (inl (map matcherOf fs1
                  ++ [Optional (Seq (map matcherOf fs2))]
                  ++ map matcherOf fs3)).
Proof.
  intros H1 H2 H3 Hw Hf. pose proof (wfSeq_length _ Hw) as Hl.
  rewrite !length_app in Hl. cbn [length] in Hl.
  rewrite Parse_pieces by assumption.
  rewrite !tokensAll_app, <- !app_assoc.
  change (tokensAll [EOpen]) with [tok tokenOptionalLeftMeta (lit "(")].
  change (tokensAll [EClose]) with [tok tokenOptionalRightMeta (lit ")")].
  cbn [app].
  rewrite parsePattern_run by (try assumption; try discriminate; lia).
  destruct (fuel - length fs1)%nat as [| f1] eqn:E; [lia |].
  cbn [parsePattern]. rewrite currToken_PA. cbn [typ tok].
  destruct f1 as [| f]; [lia |].
  cbn [parseOptional]. rewrite currToken_PA. cbn [typ tok].
  destruct (nonempty_tail (tokensAll fs3) (tok tokenEOF [])) as (t3 & r3 & E3).
  assert (Hnext : exists t' r,
             tokensAll fs2
             ++ tok tokenOptionalRightMeta (lit ")")
                :: tokensAll fs3 ++ [tok tokenEOF []] = t' :: r).
  { destruct (tokensAll fs2); simpl; eauto. }
  destruct Hnext as (t2 & r2 & E2).
  rewrite E2, pnext_PA, <- E2.
  rewrite parseOptional_run by (try assumption; try discriminate; lia).
  destruct (f - length fs2)%nat as [| f2] eqn:Ef2; [lia |].
  cbn [parseOptional]. rewrite currToken_PA. cbn [typ tok].
  cbn [mbind outcome_bind].
  rewrite E3, pnext_PA, <- E3.
  rewrite parsePattern_run by (try assumption; try discriminate; lia).
  destruct (S f - length fs3)%nat as [| f3] eqn:Ef3; [lia |].
  rewrite parsePattern_end. cbn [mbind outcome_bind app].
  unfold process, astPatternToPattern.
  rewrite !map_app. cbn [map astNodeToPartialValidator].
  rewrite !matchers_nodes by assumption.
  rewrite <- app_assoc. reflexivity.
Qed.

(** X26. A pattern of two alternatives around one bar, each made of
    groups and plain texts, compiles to one matcher of alternatives, of
    the sequence of the matchers before the bar and the sequence of the
    matchers behind it. *)
Theorem or_pattern_compiles (fs1 fs2 : list elem) (fuel : nat) :
  forallb flat fs1 = true -> forallb flat fs2 = true ->
  wfSeq (fs1 ++ [EBar] ++ fs2) = true ->
  (9 * length (renderAll (fs1 ++ [EBar] ++ fs2)) + 5 <= fuel)%nat ->
  Parse fuel (renderAll (fs1 ++ [EBar] ++ fs2))
  = Returns (inl [OrPattern (Seq (map matcherOf fs1))
                    (Seq (map matcherOf fs2))]).
Proof.
  intros H1 H2 Hw Hf. pose proof (wfSeq_length _ Hw) as Hl.
  rewrite !length_app in Hl. cbn [length] in Hl.
  rewrite Parse_pieces by assumption.
  rewrite !tokensAll_app, <- !app_assoc.
  change (tokensAll [EBar]) with [tok tokenOrPatternMeta (lit "|")].
  cbn [app].
  rewrite parsePattern_run by (try assumption; try discriminate; lia).
  destruct (fuel - length fs1)%nat as [| f1] eqn:E; [lia |].
  cbn [parsePattern]. rewrite currToken_PA. cbn [typ tok].
  destruct f1 as [| f]; [lia |].
  cbn [parseOr]. rewrite currToken_PA. cbn [typ tok].
  destruct (nonempty_tail (tokensAll fs2) (tok tokenEOF [])) as (t2 & r2 & E2).
  rewrite E2, pnext_PA, <- E2.
  rewrite parseOr_run by (try assumption; try discriminate; lia).
  destruct (f - length fs2)%nat as [| f2] eqn:Ef2; [lia |].
  cbn [parseOr]. rewrite currToken_PA. cbn [typ tok].
  cbn [mbind outcome_bind].
  rewrite pnext_PA_last, parsePattern_end. cbn [mbind outcome_bind app].
  unfold process, astPatternToPattern.
  cbn [map astNodeToPartialValidator].
  rewrite !matchers_nodes by assumption. reflexivity.
Qed.

(** X27. A pattern of a line count, its sign and groups compiles to one
    matcher of lines, from line 1 up to the line behind it by the
    count, around the sequence of the matchers of the groups. *)
Theorem line_pattern_compiles (ds : str) (gs : list elem) (fuel : nat) :
  forallb isGroup gs = true ->
  wfSeq (ELines ds :: gs) = true ->
  (9 * length (renderAll (ELines ds :: gs)) + 5 <= fuel)%nat ->
  Parse fuel (renderAll (ELines ds :: gs))
  = Returns (inl [LinePattern 1 (wrap64 (1 + fst (Atoi ds)))
                    (Seq (map matcherOf gs))]).
Proof.
  intros Hg Hw Hf. pose proof (wfSeq_length _ Hw) as Hl.
  cbn [length] in Hl.
  assert (Hflat : forallb flat gs = true).
  { clear -Hg. induction gs as [| e gs IH]; [reflexivity |].
    simpl in *. apply andb_prop in Hg as [He Hgs]. rewrite (IH Hgs).
    destruct e; try discriminate; reflexivity. }
  rewrite Parse_pieces by assumption.
  change (tokensAll (ELines ds :: gs))
    with (tok tokenLineCount ds
          :: tok tokenLineCountMeta (lit "*") :: tokensAll gs).
  cbn [app].
  destruct fuel as [| f1]; [lia |].
  cbn [parsePattern]. rewrite currToken_PA. cbn [typ tok].
  change (negb false && (0 <? len0 (@nil ast.Node))) with false. cbv iota.
  destruct f1 as [| f]; [lia |].
  cbn [parseLineCount]. rewrite currToken_PA. cbn [typ tok val].
  rewrite pnext_PA.
  destruct f as [| f']; [lia |].
  cbn [parseLineCount]. rewrite currToken_PA. cbn [typ tok].
  destruct (nonempty_tail (tokensAll gs) (tok tokenEOF [])) as (t2 & r2 & E2).
  rewrite E2, pnext_PA, <- E2.
  rewrite parseLineCount_run by (try assumption; try discriminate; lia).
  destruct (f' - length gs)%nat as [| f2] eqn:Ef2; [lia |].
  cbn [parseLineCount]. rewrite currToken_PA. cbn [typ tok].
  cbn [mbind outcome_bind].
  rewrite pnext_PA_last, parsePattern_end. cbn [mbind outcome_bind app].
  unfold process, astPatternToPattern.
  cbn [map astNodeToPartialValidator].
  rewrite !matchers_nodes by assumption. reflexivity.
Qed.

(** X28. A pattern whose optional part is not closed, the parts before
    and within made of groups and plain texts, does not compile: [Parse]
    returns the error of the unclosed optional expression, in the
    context of the optional part and of the pattern. *)
Theorem unclosed_optional_reported (fs1 fs2 : list elem) (fuel : nat) :
  forallb flat fs1 = true -> forallb flat fs2 = true ->
  wfSeq (fs1 ++ [EOpen] ++ fs2) = true ->
  (9 * length (renderAll (fs1 ++ [EOpen] ++ fs2)) + 5 <= fuel)%nat ->
  Parse fuel (renderAll (fs1 ++ [EOpen] ++ fs2))
  = Returns (inr (ErrIn "could not parse pattern"
                    (ErrIn "could not create pattern ast"
                       (ErrIn "parse pattern"
                          (ErrIn "parse optional" ErrUnclosedOptional))))).
Proof.
  intros H1 H2 Hw Hf. pose proof (wfSeq_length _ Hw) as Hl.
  rewrite !length_app in Hl. cbn [length] in Hl.
  rewrite Parse_pieces by assumption.
  rewrite !tokensAll_app, <- !app_assoc.
  change (tokensAll [EOpen]) with [tok tokenOptionalLeftMeta (lit "(")].
  cbn [app].
  rewrite parsePattern_run by (try assumption; try discriminate; lia).
  destruct (fuel - length fs1)%nat as [| f1] eqn:E; [lia |].
  cbn [parsePattern]. rewrite currToken_PA. cbn [typ tok].
  destruct f1 as [| f]; [lia |].
  cbn [parseOptional]. rewrite currToken_PA. cbn [typ tok].
  destruct (nonempty_tail (tokensAll fs2) (tok tokenEOF [])) as (t2 & r2 & E2).
  rewrite E2, pnext_PA, <- E2.
  rewrite parseOptional_run by (try assumption; try discriminate; lia).
  destruct (f - length fs2)%nat as [| f2] eqn:Ef2; [lia |].
  cbn [parseOptional]. rewrite currToken_PA. cbn [typ tok].
  reflexivity.
Qed.

(** X29. Behind a line count only groups, optional parts and
    alternatives are taken: a plain text behind the count and its
    groups is an unexpected token, and [Parse] returns this error with
    the text, whatever follows. *)
Theorem text_in_line_count_rejected (ds s : str) (gs rest : list elem)
    (fuel : nat) :
  forallb isGroup gs = true ->
  wfSeq (ELines ds :: gs ++ ELit s :: rest) = true ->
  (9 * length (renderAll (ELines ds :: gs ++ ELit s :: rest)) + 5
   <= fuel)%nat ->
  Parse fuel (renderAll (ELines ds :: gs ++ ELit s :: rest))
  = Returns (inr (ErrIn "could not parse pattern"
                    (ErrIn "could not create pattern ast"
                       (ErrIn "parse pattern"
                          (ErrIn "parse line count"
                             (ErrUnexpectedToken s)))))).
Proof.
  intros Hg Hw Hf. pose proof (wfSeq_length _ Hw) as Hl.
  cbn [length] in Hl. rewrite length_app in Hl. cbn [length] in Hl.
  rewrite Parse_pieces by assumption.
  change (tokensAll (ELines ds :: gs ++ ELit s :: rest))
    with (tok tokenLineCount ds
          :: tok tokenLineCountMeta (lit "*")
          :: tokensAll (gs ++ ELit s :: rest)).
  rewrite tokensAll_app.
  change (tokensAll (ELit s :: rest))
    with (tok tokenLiteral s :: tokensAll rest).
  cbn [app]. rewrite <- app_assoc. cbn [app].
  destruct fuel as [| f1]; [lia |].
  cbn [parsePattern]. rewrite currToken_PA. cbn [typ tok].
  change (negb false && (0 <? len0 (@nil ast.Node))) with false. cbv iota.
  destruct f1 as [| f]; [lia |].
  cbn [parseLineCount]. rewrite currToken_PA. cbn [typ tok val].
  rewrite pnext_PA.
  destruct f as [| f']; [lia |].
  cbn [parseLineCount]. rewrite currToken_PA. cbn [typ tok].
  assert (Hnext : exists t' r,
             tokensAll gs
             ++ tok tokenLiteral s :: tokensAll rest ++ [tok tokenEOF []]
             = t' :: r).
  { destruct (tokensAll gs); simpl; eauto. }
  destruct Hnext as (t2 & r2 & E2).
  rewrite E2, pnext_PA, <- E2.
  rewrite parseLineCount_run by (try assumption; try discriminate; lia).
  destruct (f' - length gs)%nat as [| f2] eqn:Ef2; [lia |].
  cbn [parseLineCount]. rewrite currToken_PA. cbn [typ tok val].
  reflexivity.
Qed.

End Shapes.

(** The patterns of the fields 25, 28C and 86 of the customer statement
    message. *)
Definition group (count : string) (strict : bool) (class : ascii) : elem :=
  EGroup (lit count) strict class.

Lemma flat_pattern_compiles_witness :
  Parse (fun _ => false) 100 (lit "8!c/12!n")
  = Returns (inl (map matcherOf
                    [group "8" true "c"; ELit (lit "/");
                     group "12" true "n"])).
Proof.
  apply (flat_pattern_compiles (fun _ => false)
           [group "8" true "c"; ELit (lit "/"); group "12" true "n"] 100);
    [reflexivity | reflexivity | vm_compute; lia].
Defined.

Lemma optional_pattern_compiles_witness :
  Parse (fun _ => false) 100 (lit "5!n(/3!n)")
  = Returns (inl (map matcherOf [group "5" true "n"]
                  ++ [Optional (Seq (map matcherOf
                                       [ELit (lit "/"); group "3" true "n"]))]
                  ++ map matcherOf [])).
Proof.
  apply (optional_pattern_compiles (fun _ => false)
           [group "5" true "n"] [ELit (lit "/"); group "3" true "n"] [] 100);
    [reflexivity | reflexivity | reflexivity | reflexivity
    | vm_compute; lia].
Defined.

Lemma or_pattern_compiles_witness :
  Parse (fun _ => false) 200 (lit "2!c26!n|8!c/12!n")
  = Returns (inl [OrPattern
                    (Seq (map matcherOf
                            [group "2" true "c"; group "26" true "n"]))
                    (Seq (map matcherOf
                            [group "8" true "c"; ELit (lit "/");
                             group "12" true "n"]))]).
Proof.
  apply (or_pattern_compiles (fun _ => false)
           [group "2" true "c"; group "26" true "n"]
           [group "8" true "c"; ELit (lit "/"); group "12" true "n"] 200);
    [reflexivity | reflexivity | reflexivity | vm_compute; lia].
Defined.

Lemma line_pattern_compiles_witness :
  Parse (fun _ => false) 100 (lit "6*65x")
  = Returns (inl [LinePattern 1 (wrap64 (1 + fst (Atoi (lit "6"))))
                    (Seq (map matcherOf [group "65" false "x"]))]).
Proof.
  apply (line_pattern_compiles (fun _ => false) (lit "6")
           [group "65" false "x"] 100);
    [reflexivity | reflexivity | vm_compute; lia].
Defined.

Lemma unclosed_optional_reported_witness :
  Parse (fun _ => false) 100 (lit "5!n(/3!n")
  = Returns (inr (ErrIn "could not parse pattern"
                    (ErrIn "could not create pattern ast"
                       (ErrIn "parse pattern"
                          (ErrIn "parse optional" ErrUnclosedOptional))))).
Proof.
  apply (unclosed_optional_reported (fun _ => false)
           [group "5" true "n"] [ELit (lit "/"); group "3" true "n"] 100);
    [reflexivity | reflexivity | reflexivity | vm_compute; lia].
Defined.

Lemma text_in_line_count_rejected_witness :
  Parse (fun _ => false) 100 (lit "2*35x/16x")
  = Returns (inr (ErrIn "could not parse pattern"
                    (ErrIn "could not create pattern ast"
                       (ErrIn "parse pattern"
                          (ErrIn "parse line count"
                             (ErrUnexpectedToken (lit "/"))))))).
Proof.
  apply (text_in_line_count_rejected (fun _ => false) (lit "2") (lit "/")
           [group "35" false "x"] [group "16" false "x"] 100);
    [reflexivity | reflexivity | vm_compute; lia].
Defined.

End ShapeSpec.
